(** * EAGLE: explicit alternative genome likelihood evaluator

    A shallow embedding of [eagle.c] and the properties of its
    specification.

    Conventions of the embedding.
    - A C [int] or [size_t] is a [Z]; the development is about runs in
      which no signed overflow occurs (it is undefined in C).
    - A C [double] is a [double] below: the affinely extended reals with a
      NaN, with exact arithmetic on the finite values.  Rounding and the
      sign of zero are not represented.
    - A C string is a [string] (names) or a [list ascii] (sequences and
      alleles).
    - A read outside an array of doubles is undefined in C; the model
      yields [NaN] there, so that whatever depends on it is a NaN. *)

From Equations Require Import Equations.
From Stdlib Require Import Reals Lra Lia ZArith List String Ascii Bool.
From Stdlib Require Import Permutation Sorted Arith.
Import ListNotations.

Set Implicit Arguments.

(* ===================================================================== *)
(** * Doubles *)
(* ===================================================================== *)

Inductive double : Type :=
| NaN
| NInf
| Fin (r : R)
| PInf.

Declare Scope double_scope.
Delimit Scope double_scope with D.
Bind Scope double_scope with double.

Local Open Scope R_scope.

Definition dopp (a : double) : double :=
  match a with
  | NaN => NaN
  | NInf => PInf
  | Fin r => Fin (- r)
  | PInf => NInf
  end.

Definition dadd (a b : double) : double :=
  match a, b with
  | NaN, _ | _, NaN => NaN
  | PInf, NInf | NInf, PInf => NaN
  | PInf, _ | _, PInf => PInf
  | NInf, _ | _, NInf => NInf
  | Fin x, Fin y => Fin (x + y)
  end.

Definition dsub (a b : double) : double := dadd a (dopp b).

(** Sign of a finite value, as a comparison with zero. *)
Definition Rsign (x : R) : comparison :=
  if Rlt_dec x 0 then Lt else if Rlt_dec 0 x then Gt else Eq.

(** An infinity of the sign [s] times the sign of the other factor;
    infinity times zero is a NaN. *)
Definition inf_signed (pos : bool) (s : comparison) : double :=
  match s with
  | Eq => NaN
  | Gt => if pos then PInf else NInf
  | Lt => if pos then NInf else PInf
  end.

Definition dmul (a b : double) : double :=
  match a, b with
  | NaN, _ | _, NaN => NaN
  | Fin x, Fin y => Fin (x * y)
  | PInf, Fin y => inf_signed true (Rsign y)
  | NInf, Fin y => inf_signed false (Rsign y)
  | Fin x, PInf => inf_signed true (Rsign x)
  | Fin x, NInf => inf_signed false (Rsign x)
  | PInf, PInf | NInf, NInf => PInf
  | PInf, NInf | NInf, PInf => NInf
  end.

(** Division; a finite value over zero follows the rule for a positive
    zero. *)
Definition ddiv (a b : double) : double :=
  match a, b with
  | NaN, _ | _, NaN => NaN
  | Fin x, Fin y =>
      if Req_dec_T y 0 then inf_signed true (Rsign x) else Fin (x / y)
  | Fin _, (PInf | NInf) => Fin 0
  | PInf, Fin y => if Rlt_dec y 0 then NInf else PInf
  | NInf, Fin y => if Rlt_dec y 0 then PInf else NInf
  | (PInf | NInf), (PInf | NInf) => NaN
  end.

(** [exp] and [log] of math.h. *)
Definition dexp (a : double) : double :=
  match a with
  | NaN => NaN
  | NInf => Fin 0
  | Fin r => Fin (exp r)
  | PInf => PInf
  end.

Definition dlog (a : double) : double :=
  match a with
  | NaN => NaN
  | NInf => NaN
  | Fin r =>
      match Rsign r with
      | Lt => NaN
      | Eq => NInf
      | Gt => Fin (ln r)
      end
  | PInf => PInf
  end.

(** The comparisons [>], [<] and [==] of C; any comparison with a NaN is
    false. *)
Definition dgtb (a b : double) : bool :=
  match a, b with
  | NaN, _ | _, NaN => false
  | PInf, PInf => false
  | PInf, _ => true
  | _, PInf => false
  | NInf, _ => false
  | Fin _, NInf => true
  | Fin x, Fin y => if Rlt_dec y x then true else false
  end.

Definition dltb (a b : double) : bool := dgtb b a.

Definition deqb (a b : double) : bool :=
  match a, b with
  | NaN, _ | _, NaN => false
  | PInf, PInf | NInf, NInf => true
  | Fin x, Fin y => if Req_dec_T x y then true else false
  | _, _ => false
  end.

(** Conversion of an [int] to a [double]. *)
Definition of_int (z : Z) : double := Fin (IZR z).

Infix "+" := dadd : double_scope.
Infix "-" := dsub : double_scope.
Infix "*" := dmul : double_scope.
Infix "/" := ddiv : double_scope.
Infix ">?" := dgtb (at level 70, no associativity) : double_scope.
Infix "<?" := dltb (at level 70, no associativity) : double_scope.
Infix "==?" := deqb (at level 70, no associativity) : double_scope.

(** The order of the extended reals, used to state bounds; it is false on
    a NaN. *)
Definition dle (a b : double) : Prop :=
  match a, b with
  | NaN, _ | _, NaN => False
  | NInf, _ => True
  | _, PInf => True
  | Fin x, Fin y => x <= y
  | _, _ => False
  end.

Definition dlt (a b : double) : Prop :=
  match a, b with
  | NaN, _ | _, NaN => False
  | PInf, _ => False
  | _, NInf => False
  | NInf, _ => True
  | _, PInf => True
  | Fin x, Fin y => x < y
  end.

(** Read of [a[i]] in an array of doubles. *)
Definition dnth (a : list double) (i : Z) : double :=
  if (i <? 0)%Z then NaN else nth (Z.to_nat i) a NaN.

(* ===================================================================== *)
(** * Constants and precalculated logarithms *)
(* ===================================================================== *)

Definition ALPHA : double := Fin (13 / 10).
Definition OMEGA : double := Fin (1 / 10000).
Definition REFPRIOR : double := dlog (Fin (1 / 2)).

(** [M_LN10] and [M_LOG10E] of math.h. *)
Definition M_LN10 : double := Fin (ln 10).
Definition M_LOG10E : double := Fin (/ ln 10).

(** The macros [M_1_LOG10E] and [M_1_LN10] expand to [1.0/M_LOG10E] and
    [1.0/M_LN10] without parentheses: [x * M_1_LN10] is [x * 1.0 / M_LN10]. *)
Definition mul_M_1_LOG10E (x : double) : double := (x * Fin 1 / M_LOG10E)%D.
Definition mul_M_1_LN10 (x : double) : double := (x * Fin 1 / M_LN10)%D.

Definition LG3 : double := dlog (Fin 3).
Definition LG50 : double := dlog (Fin (1 / 2)).
Definition LG10 : double := dlog (Fin (1 / 10)).
Definition LG90 : double := dlog (Fin (9 / 10)).
Definition LGALPHA : double := dlog ALPHA.
Definition LGOMEGA : double := dlog OMEGA.
Definition LG1_OMEGA : double := dlog (Fin 1 - OMEGA)%D.

(* ===================================================================== *)
(** * LogMath *)
(* ===================================================================== *)

Definition sum (a : list double) : double :=
  fold_right (fun x s => (s + x)%D) (Fin 0) a.

Definition log_add_exp (a b : double) : double :=
  let max_exp := if (a >? b)%D then a else b in
  (dlog (dexp (a - max_exp) + dexp (b - max_exp)) + max_exp)%D.

(** The running maximum of [log_sum_exp]: [max_exp = a[0]], then each later
    element replaces it when it is greater. *)
Definition max_from (m : double) (a : list double) : double :=
  fold_left (fun m x => if (x >? m)%D then x else m) a m.

Definition log_sum_exp (a : list double) : double :=
  let max_exp := max_from (dnth a 0) (tl a) in
  let s := fold_left (fun s x => (s + dexp (x - max_exp))%D) a (Fin 0) in
  (dlog s + max_exp)%D.

(* ===================================================================== *)
(** * Outcomes *)
(* ===================================================================== *)

(** A call either returns, or ends the process, or leaves the behaviour
    that C defines.

    Modelled from the spec: the macros [exit_err] and [exit_usage] of
    eagle.h are not part of the sources; [exit_err] prints a diagnostic and
    exits nonzero, [exit_usage] prints the usage and exits nonzero. *)
Inductive outcome (A : Type) : Type :=
| Done (a : A)
| ExitErr (msg : string)
| ExitUsage (msg : string)
| Undefined.

Arguments Done {A} a.
Arguments ExitErr {A} msg.
Arguments ExitUsage {A} msg.
Arguments Undefined {A}.

Definition bind {A B : Type} (m : outcome A) (k : A -> outcome B) : outcome B :=
  match m with
  | Done a => k a
  | ExitErr msg => ExitErr msg
  | ExitUsage msg => ExitUsage msg
  | Undefined => Undefined
  end.

Notation "x <- m ;; k" := (bind m (fun x => k))
  (at level 61, m at next level, right associativity).
Notation "' p <- m ;; k" := (bind m (fun x => let p := x in k))
  (at level 61, p pattern, m at next level, right associativity).

(** A loop body run over the elements of a list, left to right. *)
Fixpoint foldM {A S : Type} (f : S -> A -> outcome S) (l : list A) (s : S)
  : outcome S :=
  match l with
  | [] => Done s
  | x :: l' => s' <- f s x ;; foldM f l' s'
  end.

(* ===================================================================== *)
(** * Data model (eagle.h) *)
(* ===================================================================== *)

Local Open Scope Z_scope.

Definition cstr := list ascii.

Record Variant : Type := {
  v_chr : string;
  v_pos : Z;
  v_ref : cstr;
  v_alt : cstr
}.

Record Read : Type := {
  r_name : string;
  r_tid : Z;
  r_chr : string;
  r_pos : Z;
  r_length : Z;
  r_qseq : cstr;
  r_qual : list double;
  r_flag : cstr;
  r_inferred_length : Z;
  r_multimap : option cstr
}.

Record Fasta : Type := {
  f_name : string;
  f_seq : cstr;
  f_seq_length : Z
}.

(** The command line arguments, static variables of eagle.c. *)
Record Args : Type := {
  numproc : Z;
  distlim : Z;
  maxh : Z;
  mvh : bool;
  hetbias : double;
  pao : bool;
  debug : bool
}.

(** The region string ["<chr>:<start>-<end>"] handed to htslib. *)
Record Region : Type := {
  reg_chr : string;
  reg_start : Z;
  reg_end : Z
}.

(** The arguments that [print_variant] formats into one line of text:
    ["%s\t%d\t%s\t%s\t%d\t%d\t%e\t%f\t"], then the set between brackets. *)
Record Line : Type := {
  l_chr : string;
  l_pos : Z;
  l_ref : cstr;
  l_alt : cstr;
  l_read_count : Z;
  l_has_alt_count : Z;
  l_prob : double;
  l_odds : double;
  l_set : list (Z * cstr * cstr)
}.

Definition Block : Type := list Line.

(** What the run reads from its files: the alignments of a region of the
    BAM file ([fetch_reads]), and the contigs of the FASTA file
    ([fetch_refseq]; the cache [refseq_hash] only saves reloading them, and
    a contig that the index lacks ends the process).  [qsort_results] is the
    call of [qsort] on the result blocks. *)
Record Files : Type := {
  fetch_reads : Region -> list Read;
  fetch_refseq : string -> option Fasta;
  qsort_results : list Block -> list Block
}.

(** ** Characters and C strings *)

Definition code (c : ascii) : Z := Z.of_nat (nat_of_ascii c).
Definition char_of (z : Z) : ascii := ascii_of_nat (Z.to_nat (z mod 256)).

Definition NUL : ascii := "000"%char.

(** [s[i]]; the terminator is read at the end of the string, and the model
    reads it anywhere outside. *)
Definition cnth (s : cstr) (i : Z) : ascii :=
  if i <? 0 then NUL else nth (Z.to_nat i) s NUL.

(** The size of a vector, and [strlen]. *)
Definition zlen {A : Type} (l : list A) : Z := Z.of_nat (List.length l).
Definition clen (s : cstr) : Z := zlen s.

Definition ceqb (a b : cstr) : bool :=
  if list_eq_dec ascii_dec a b then true else false.

(** ** Mapping tables, as [main] fills them *)

(** [memset(seqnt_map, 4, sizeof seqnt_map)] sets every byte of the 26
    [int]s to 4, so an entry that is not assigned afterwards holds
    0x04040404.  Outside the table there is no entry. *)
Definition seqnt_map (i : Z) : option Z :=
  if (i <? 0) || (26 <=? i) then None
  else if i =? code "A" - code "A" then Some 0
  else if i =? code "T" - code "A" then Some 1
  else if i =? code "G" - code "A" then Some 2
  else if i =? code "C" - code "A" then Some 3
  else if i =? code "N" - code "A" then Some 4
  else Some 67372036.

Definition compl_map (i : Z) : option Z :=
  if (i <? 0) || (26 <=? i) then None
  else if i =? code "A" - code "A" then Some (code "T")
  else if i =? code "T" - code "A" then Some (code "A")
  else if i =? code "C" - code "A" then Some (code "G")
  else if i =? code "G" - code "A" then Some (code "C")
  else if i =? code "N" - code "A" then Some (code "N")
  else Some 0.

(* ===================================================================== *)
(** * AltBuilder *)
(* ===================================================================== *)

Definition starts_with_dash (s : cstr) : bool :=
  match s with
  | c :: _ => if ascii_dec c "-" then true else false
  | [] => false
  end.

(** [for (j = 0; j < var_alt_length; ++j) altseq[j+pos] = var_alt[j]]:
    the byte at index [k] of [s] becomes [a[k - pos]] when
    [pos <= k < pos + strlen(a)]; a write outside the sequence is dropped. *)
Fixpoint overwrite_from (k : Z) (s : cstr) (pos : Z) (a : cstr) : cstr :=
  match s with
  | [] => []
  | c :: s' =>
      (if (pos <=? k) && (k <? pos + clen a) then cnth a (k - pos) else c)
      :: overwrite_from (k + 1) s' pos a
  end.

Definition overwrite (s : cstr) (pos : Z) (a : cstr) : cstr :=
  overwrite_from 0 s pos a.

Definition zfirstn {A : Type} (n : Z) (l : list A) : list A := firstn (Z.to_nat n) l.
Definition zskipn {A : Type} (n : Z) (l : list A) : list A := skipn (Z.to_nat n) l.

(** The state of the loop of [construct_altseq]. *)
Record AltState : Type := {
  altseq : cstr;
  altseq_length : Z;
  offset : Z
}.

Definition apply_variant (st : AltState) (curr : Variant) : AltState :=
  let pos := v_pos curr - 1 + offset st in
  let '(pos, var_ref, var_alt) :=
    if starts_with_dash (v_ref curr) then (pos + 1, [], v_alt curr)
    else if starts_with_dash (v_alt curr) then (pos, v_ref curr, [])
    else (pos, v_ref curr, v_alt curr) in
  let var_ref_length := clen var_ref in
  let var_alt_length := clen var_alt in
  let delta := var_alt_length - var_ref_length in
  if delta =? 0 then
    {| altseq := overwrite (altseq st) pos var_alt;
       altseq_length := altseq_length st;
       offset := offset st + delta |}
  else
    {| altseq := zfirstn pos (altseq st) ++ var_alt
                 ++ zfirstn (altseq_length st - pos - var_ref_length)
                      (zskipn (pos + var_ref_length) (altseq st));
       altseq_length := altseq_length st + delta;
       offset := offset st + delta |}.

(** Returns the alternative sequence and [*altseq_length]. *)
Definition construct_altseq (refseq : cstr) (refseq_length : Z)
    (var_combo : list Variant) : cstr * Z :=
  let st := fold_left apply_variant var_combo
              {| altseq := refseq; altseq_length := refseq_length; offset := 0 |} in
  (altseq st, altseq_length st).

(* ===================================================================== *)
(** * ReadModel *)
(* ===================================================================== *)

(** The integers [lo, lo + 1, ...], [n] of them. *)
Definition zrange (lo : Z) (n : Z) : list Z :=
  map (fun i => lo + Z.of_nat i) (seq 0 (Z.to_nat n)).

(** [a[i] = x] in an array of doubles; a write outside is dropped. *)
Fixpoint dset_nat (a : list double) (i : nat) (x : double) : list double :=
  match a, i with
  | [], _ => []
  | _ :: a', O => x :: a'
  | y :: a', S i' => y :: dset_nat a' i' x
  end.

Definition dset (a : list double) (i : Z) (x : double) : list double :=
  if i <? 0 then a else dset_nat a (Z.to_nat i) x.

(** Row [b] of the probability matrix: five times [no_match[b]], then
    [is_match[b]] in the column of the base [seq[b]].  A column outside the
    row lies in a later row, which the loop writes afterwards, or outside
    the matrix. *)
Definition prob_matrix_row (seq : cstr) (is_match no_match : list double)
    (b : Z) : list double :=
  let row := repeat (dnth no_match b) 5 in
  match seqnt_map (code (cnth seq b) - code "A") with
  | Some c => if c <? 5 then dset row c (dnth is_match b) else row
  | None => row
  end.

Definition set_prob_matrix (seq : cstr) (read_length : Z)
    (is_match no_match : list double) : list double :=
  flat_map (prob_matrix_row seq is_match no_match) (zrange 0 read_length).

(** [matrix[5 * row + seqnt_map[c - 'A']]]. *)
Definition matrix_at (matrix : list double) (row : Z) (c : ascii) : double :=
  match seqnt_map (code c - code "A") with
  | Some col => dnth matrix (5 * row + col)
  | None => NaN
  end.

(** The loop of [calc_prob], [count] iterations from [b]. *)
Fixpoint calc_prob_loop (count : nat) (matrix : list double) (seq : cstr)
    (seq_length pos : Z) (baseline : double) (b : Z) (probability : double)
  : double :=
  match count with
  | O => probability
  | S count' =>
      if b <? 0 then
        calc_prob_loop count' matrix seq seq_length pos baseline (b + 1) probability
      else if b >=? seq_length then probability
      else
        let probability := (probability + matrix_at matrix (b - pos) (cnth seq b))%D in
        if (probability <? baseline - Fin 10)%D then probability
        else calc_prob_loop count' matrix seq seq_length pos baseline (b + 1) probability
  end.

Definition calc_prob (matrix : list double) (read_length : Z) (seq : cstr)
    (seq_length pos : Z) (baseline : double) : double :=
  let n := pos + read_length in
  calc_prob_loop (Z.to_nat (n - pos)) matrix seq seq_length pos baseline pos (Fin 0).

(** The loop of [calc_prob_distrib], [count] iterations from [i]; the state
    is [probability] and [baseline]. *)
Fixpoint calc_prob_distrib_loop (count : nat) (matrix : list double)
    (read_length : Z) (seq : cstr) (seq_length : Z) (i : Z)
    (probability baseline : double) : double :=
  match count with
  | O => probability
  | S count' =>
      if i + read_length <? 0 then
        calc_prob_distrib_loop count' matrix read_length seq seq_length (i + 1)
          probability baseline
      else if i >=? seq_length then probability
      else
        let p := calc_prob matrix read_length seq seq_length i baseline in
        let probability :=
          if (probability ==? Fin 0)%D then p else log_add_exp probability p in
        let baseline := if (probability >? baseline)%D then probability else baseline in
        calc_prob_distrib_loop count' matrix read_length seq seq_length (i + 1)
          probability baseline
  end.

Definition calc_prob_distrib (matrix : list double) (read_length : Z)
    (seq : cstr) (seq_length pos : Z) : double :=
  let n1 := pos - read_length in
  let n2 := pos + read_length in
  let baseline := calc_prob matrix read_length seq seq_length pos (Fin (-1000)) in
  calc_prob_distrib_loop (Z.to_nat (n2 - n1)) matrix read_length seq seq_length n1
    (Fin 0) baseline.

(** [reverse] and [reverse_compl]; a byte outside the table of complements
    is read as the fill of the table. *)
Definition reverse (a : list double) (size : Z) : list double :=
  map (fun i => dnth a (size - 1 - i)) (zrange 0 size).

Definition compl (c : ascii) : ascii :=
  match compl_map (code c - code "A") with
  | Some z => char_of z
  | None => NUL
  end.

Definition reverse_compl (a : cstr) (size : Z) : cstr :=
  map (fun i => compl (cnth a (size - 1 - i))) (zrange 0 size).

(* ===================================================================== *)
(** * Combinations *)
(* ===================================================================== *)

(** The array [int c[k]]. *)
Definition zget (c : list Z) (i : Z) : Z :=
  if i <? 0 then 0 else nth (Z.to_nat i) c 0.

Fixpoint zset_nat (c : list Z) (i : nat) (x : Z) : list Z :=
  match c, i with
  | [], _ => []
  | _ :: c', O => x :: c'
  | y :: c', S i' => y :: zset_nat c' i' x
  end.

(** [c[i] = x].  When the last element of [c] cannot advance, the inner
    loop of [combinations] runs [--i; ++c[i]] down to [i == -1]; that
    write, before the array, is dropped. *)
Definition zset (c : list Z) (i : Z) (x : Z) : list Z :=
  if i <? 0 then c else zset_nat c (Z.to_nat i) x.

(** [while ((i >= 0 && i < k) && (c[i] >= n - k + 1 + i)) { --i; ++c[i]; }]
    entered with [i = m - 1]; returns [c] and [i]. *)
Fixpoint carry (m : nat) (k n : Z) (c : list Z) : list Z * Z :=
  match m with
  | O => (c, -1)
  | S m' =>
      let i := Z.of_nat m' in
      if (i <? k) && (zget c i >=? n - k + 1 + i) then
        carry m' k n (zset c (i - 1) (zget c (i - 1) + 1))
      else (c, i)
  end.

(** [for (i = i + 1; i < k; ++i) c[i] = c[i - 1] + 1], [count] iterations
    from [i]. *)
Fixpoint refill (count : nat) (c : list Z) (i : Z) : list Z :=
  match count with
  | O => c
  | S count' => refill count' (zset c i (zget c (i - 1) + 1)) (i + 1)
  end.

(** The [while (1)] loop of [combinations]: the contents of [c] each time
    a token is recorded. *)
Fixpoint combinations_loop (fuel : nat) (k n : Z) (c : list Z) : list (list Z) :=
  match fuel with
  | O => []
  | S fuel' =>
      let c1 := zset c (k - 1) (zget c (k - 1) + 1) in
      let '(c2, i) := carry (Z.to_nat k) k n c1 in
      c :: (if zget c2 0 >? n - k then []
            else combinations_loop fuel' k n (refill (Z.to_nat (k - (i + 1))) c2 (i + 1)))
  end.

(** The loop stops after as many rounds as there are combinations of [k]
    among [n], fewer than [2^n]. *)
Definition combinations_rows (k n : Z) : list (list Z) :=
  combinations_loop (2 ^ Z.to_nat n)%nat k n (zrange 0 k).

(** A [char], signed and of eight bits. *)
Definition to_char (z : Z) : Z := (z + 128) mod 256 - 128.

Definition TAB : Z := 9.

(** [token]: the indices of [c], ('\t'+1)-indexed, then a tab. *)
Definition token_of (c : list Z) : list Z :=
  map (fun ci => to_char (ci + TAB + 1)) c ++ [TAB].

Fixpoint until_nul (s : list Z) : list Z :=
  match s with
  | [] => []
  | x :: s' => if x =? 0 then [] else x :: until_nul s'
  end.

Definition strcat (dst src : list Z) : list Z := dst ++ until_nul src.

Definition combinations (output : list Z) (k n : Z) (ncombos : Z) : list Z * Z :=
  fold_left (fun '(o, nc) c => (strcat o (token_of c), nc + 1))
    (combinations_rows k n) (output, ncombos).

(** [for (k = 2; k <= n - 1; ++k)] of [powerset], [count] iterations
    from [k]. *)
Fixpoint powerset_loop (count : nat) (maxh n k : Z) (st : list Z * Z) : list Z * Z :=
  match count with
  | O => st
  | S count' =>
      let '(combo, ncombos) := combinations (fst st) k n (snd st) in
      if ncombos - n - 1 >=? maxh then (combo, ncombos)
      else powerset_loop count' maxh n (k + 1) (combo, ncombos)
  end.

(** Returns the string [combo] and [*ncombos]; [maxh] is the static
    variable. *)
Definition powerset (maxh n : Z) (ncombos : Z) : list Z * Z :=
  let '(combo, ncombos) := combinations [] 1 n ncombos in
  if n >? 1 then
    let '(combo, ncombos) := combinations combo n n ncombos in
    powerset_loop (Z.to_nat (n - 2)) maxh n 2 (combo, ncombos)
  else (combo, ncombos).

(* ===================================================================== *)
(** * Scanning flags and XA tags *)
(* ===================================================================== *)

(** The scanset conversion [%[^stop]] of width [limit]: the longest prefix
    without [stop], of at most [limit] bytes, and what follows it. *)
Fixpoint span_not (stop : ascii) (limit : nat) (s : cstr) : cstr * cstr :=
  match limit, s with
  | S limit', c :: s' =>
      if ascii_dec c stop then ([], s)
      else let '(tok, rest) := span_not stop limit' s' in (c :: tok, rest)
  | _, _ => ([], s)
  end.

Definition cs (s : string) : cstr := list_ascii_of_string s.

(** [is_unmap], [is_reverse] and [is_secondary]. *)
Record Flags : Type := {
  is_unmap : bool;
  is_reverse : bool;
  is_secondary : bool
}.

Definition flag_token (fl : Flags) (token : cstr) : Flags :=
  if ceqb (cs "UNMAP") token then
    {| is_unmap := true; is_reverse := is_reverse fl; is_secondary := is_secondary fl |}
  else if ceqb (cs "REVERSE") token then
    {| is_unmap := is_unmap fl; is_reverse := true; is_secondary := is_secondary fl |}
  else if ceqb (cs "SECONDARY") token || ceqb (cs "SUPPLEMENTARY") token then
    {| is_unmap := is_unmap fl; is_reverse := is_reverse fl; is_secondary := true |}
  else fl.

(** [for (s = flag; sscanf(s, "%63[^,]%n", token, &n) == 1; s += n + 1)],
    at most [fuel] rounds. *)
Fixpoint parse_flags_loop (fuel : nat) (s : cstr) (fl : Flags) : Flags :=
  match fuel with
  | O => fl
  | S fuel' =>
      match span_not "," 63 s with
      | ([], _) => fl
      | (token, rest) =>
          let fl := flag_token fl token in
          match rest with
          | c :: rest' =>
              if ascii_dec c "," then parse_flags_loop fuel' rest' fl else fl
          | [] => fl
          end
      end
  end.

(** Every round consumes a byte, so the length of the string bounds the
    number of rounds. *)
Definition parse_flags (flag : cstr) : Flags :=
  parse_flags_loop (S (List.length flag)) flag
    {| is_unmap := false; is_reverse := false; is_secondary := false |}.

Definition is_space (c : ascii) : bool :=
  let z := code c in (z =? 32) || ((9 <=? z) && (z <=? 13)).

Definition is_digit (c : ascii) : bool :=
  let z := code c in (48 <=? z) && (z <=? 57).

Fixpoint skip_space (s : cstr) : cstr :=
  match s with
  | c :: s' => if is_space c then skip_space s' else s
  | [] => []
  end.

(** The decimal digits at the head of [s], folded into [acc]; returns the
    value, the number of digits and the rest. *)
Fixpoint scan_digits (s : cstr) (acc : Z) (count : nat) : Z * nat * cstr :=
  match s with
  | c :: s' =>
      if is_digit c then scan_digits s' (10 * acc + (code c - 48)) (S count)
      else (acc, count, s)
  | [] => (acc, count, [])
  end.

(** The conversion [%d]: white space, an optional sign, decimal digits.
    The result is the value of the digits; the [int] that receives it holds
    that value when it is below [2 ^ 31], and the conversion of more is
    undefined in C.  The statements below that speak of the value converted
    carry this bound. *)
Definition scan_int (s : cstr) : option (Z * cstr) :=
  let s := skip_space s in
  let '(neg, s) :=
    match s with
    | c :: s' =>
        if ascii_dec c "-" then (true, s')
        else if ascii_dec c "+" then (false, s')
        else (false, s)
    | [] => (false, s)
    end in
  let '(v, count, rest) := scan_digits s 0 O in
  match count with
  | O => None
  | S _ => Some (if neg then - v else v, rest)
  end.

Definition expect (c : ascii) (s : cstr) : option cstr :=
  match s with
  | x :: s' => if ascii_dec x c then Some s' else None
  | [] => None
  end.

(** [sscanf(s, "%63[^,],%d,%*[^;]%n", xa_chr, &xa_pos, &n) == 2] with [n]
    assigned: [xa_chr], [xa_pos] and the input from [s + n] on.  When the
    entry has no third field the call still returns 2 but leaves [n] as it
    was, which the loop then reads; the model ends the loop there. *)
Definition scan_xa (s : cstr) : option (cstr * Z * cstr) :=
  match span_not "," 63 s with
  | ([], _) => None
  | (xa_chr, rest) =>
      match expect "," rest with
      | None => None
      | Some rest =>
          match scan_int rest with
          | None => None
          | Some (xa_pos, rest) =>
              match expect "," rest with
              | None => None
              | Some rest =>
                  match span_not ";" (List.length rest) rest with
                  | ([], _) => None
                  | (_, rest) => Some (xa_chr, xa_pos, rest)
                  end
              end
          end
      end
  end.

(** The entries of an XA tag that the loop over [multimap + 1] visits, at
    most [fuel] of them: an entry counts when a [';'] ends it. *)
Fixpoint xa_entries_loop (fuel : nat) (s : cstr) : list (cstr * Z) :=
  match fuel with
  | O => []
  | S fuel' =>
      match scan_xa s with
      | None => []
      | Some (xa_chr, xa_pos, rest) =>
          match rest with
          | c :: rest' =>
              if ascii_dec c ";" then (xa_chr, xa_pos) :: xa_entries_loop fuel' rest'
              else []
          | [] => []
          end
      end
  end.

Definition xa_entries (multimap : cstr) : list (cstr * Z) :=
  xa_entries_loop (S (List.length multimap)) (tl multimap).

(* ===================================================================== *)
(** * Evaluator *)
(* ===================================================================== *)

Definition variant_eqb (v curr : Variant) : bool :=
  String.eqb (v_chr v) (v_chr curr) && ceqb (v_ref v) (v_ref curr)
  && ceqb (v_alt v) (v_alt curr) && (v_pos v =? v_pos curr).

(** The loop of [find_variant]; [n] lies between [i] and [j], inside the
    vector. *)
Fixpoint find_variant_loop (fuel : nat) (a : list Variant) (v : Variant)
    (i j n : Z) : Z :=
  match fuel with
  | O => -1
  | S fuel' =>
      if i <=? j then
        match nth_error a (Z.to_nat n) with
        | None => -1
        | Some curr =>
            if variant_eqb v curr then n
            else
              let i' := if v_pos v >? v_pos curr then n + 1 else i in
              let j' := if v_pos v >? v_pos curr then j else n - 1 in
              find_variant_loop fuel' a v i' j' (Z.quot (i' + j') 2)
        end
      else -1
  end.

(** Every round shrinks the interval from [i] to [j], which starts with
    the size of the vector. *)
Definition find_variant (a : list Variant) (v : Variant) : Z :=
  let i := 0 in
  let j := zlen a - 1 in
  find_variant_loop (S (List.length a)) a v i j (Z.quot (i + j) 2).

Definition print_variant (var_vector : list Variant) (v : Variant)
    (read_count has_alt_count : Z) (total has_alt not_alt : double) : Line :=
  let nvariants := zlen var_vector in
  let prob := mul_M_1_LN10 (has_alt - total)%D in
  let odds := mul_M_1_LN10 (has_alt - not_alt)%D in
  {| l_chr := v_chr v; l_pos := v_pos v; l_ref := v_ref v; l_alt := v_alt v;
     l_read_count := read_count; l_has_alt_count := has_alt_count;
     l_prob := prob; l_odds := odds;
     l_set := if nvariants >? 1
              then map (fun w => (v_pos w, v_ref w, v_alt w)) var_vector
              else [] |}.

(** ** Variant combinations parsed from the string of [powerset] *)

Fixpoint span_not_tab (s : list Z) : list Z * list Z :=
  match s with
  | x :: s' =>
      if x =? TAB then ([], s)
      else let '(tok, rest) := span_not_tab s' in (x :: tok, rest)
  | [] => ([], [])
  end.

(** [var_set[*s2 - '\t' - 1]] for the bytes of a token; an index outside
    [var_set] leaves what C defines. *)
Fixpoint combo_of_token (var_set : list Variant) (token : list Z)
  : outcome (list Variant) :=
  match token with
  | [] => Done []
  | x :: token' =>
      if x - TAB - 1 <? 0 then Undefined
      else
        match nth_error var_set (Z.to_nat (x - TAB - 1)) with
        | None => Undefined
        | Some v => vs <- combo_of_token var_set token' ;; Done (v :: vs)
        end
  end.

(** [for (s1 = combo; sscanf(s1, "%[^\t]%n", token, &n1) == 1 && seti < ncombos;
    s1 += n1 + 1)], at most [fuel] rounds. *)
Fixpoint parse_combo_loop (fuel : nat) (var_set : list Variant) (ncombos : Z)
    (s1 : list Z) (seti : Z) : outcome (list (list Variant)) :=
  match fuel with
  | O => Done []
  | S fuel' =>
      match span_not_tab s1 with
      | ([], _) => Done []
      | (token, rest) =>
          if seti <? ncombos then
            vs <- combo_of_token var_set token ;;
            match rest with
            | x :: rest' =>
                if x =? TAB then
                  more <- parse_combo_loop fuel' var_set ncombos rest' (seti + 1) ;;
                  Done (vs :: more)
                else Done [vs]
            | [] => Done [vs]
            end
          else Done []
      end
  end.

(** [var_combo]; the later loops read [ncombos] entries of it, so fewer
    parsed entries leave what C defines. *)
Definition parse_combo (var_set : list Variant) (combo : list Z) (ncombos : Z)
  : outcome (list (list Variant)) :=
  var_combo <- parse_combo_loop (S (List.length combo)) var_set ncombos combo 0 ;;
  if zlen var_combo =? ncombos then Done var_combo else Undefined.

(** ** Prior probabilities *)

Definition priors (args : Args) (nvariants ncombos : Z) : double * double :=
  if (nvariants =? 1) || mvh args then
    (dlog (Fin (1 / 2) * (Fin 1 - hetbias args)),
     dlog (Fin (1 / 2) * hetbias args))%D
  else
    (dlog (Fin (1 / 2) * (Fin 1 - hetbias args) / of_int ncombos),
     dlog (Fin (1 / 2) * hetbias args / of_int ncombos))%D.

(** ** One read against one combination *)

(** [is_match] and [no_match]; a quality of 0 is replaced by -0.01. *)
Definition qual_ln (r : Read) (i : Z) : double :=
  let q := dnth (r_qual r) i in
  let q := if (q ==? Fin 0)%D then Fin (- (1 / 100)) else q in
  mul_M_1_LOG10E q.

Definition read_is_match (r : Read) : list double :=
  map (fun i => dlog (Fin 1 - dexp (qual_ln r i))%D) (zrange 0 (r_length r)).

Definition read_no_match (r : Read) : list double :=
  map (fun i => (qual_ln r i - LG3)%D) (zrange 0 (r_length r)).

Definition read_elsewhere (r : Read) (is_match no_match : list double) : double :=
  let delta := map (fun i => (dnth no_match i - dnth is_match i)%D)
                 (zrange 0 (r_length r)) in
  let a := sum is_match in
  (log_add_exp a (a + log_sum_exp delta)
   - LGALPHA * of_int (r_length r - r_inferred_length r))%D.

(** The accumulators of [evaluate_variants] while the reads of one
    combination are visited: [ref], [alt[seti]], [het[seti]],
    [ref_count[seti]], [alt_count[seti]], and the arrays [pout] and [prgu]. *)
Record ReadAcc : Type := {
  a_ref : double;
  a_alt : double;
  a_het : double;
  a_ref_count : Z;
  a_alt_count : Z;
  a_pout : list double;
  a_prgu : list double
}.

(** What one combination hands to the loop over the reads. *)
Record ComboCtx : Type := {
  c_seti : Z;
  c_first_pos : Z;
  c_refseq : cstr;
  c_refseq_length : Z;
  c_altseq : cstr;
  c_altseq_length : Z;
  c_alt_prior : double;
  c_het_prior : double
}.

(** The state of the loop over the XA entries of a read: [pout[readi]],
    [prgu[readi]] and [prgv]. *)
Definition xa_step (files : Files) (ctx : ComboCtx) (r : Read)
    (fl : Flags) (readprobmatrix is_match no_match : list double)
    (elsewhere : double) (st : double * double * double) (entry : cstr * Z)
  : outcome (double * double * double) :=
  let '(pout, prgu, prgv) := st in
  let '(xa_chr, xa_pos) := entry in
  match fetch_refseq files (string_of_list_ascii xa_chr) with
  | None => ExitErr "failed to find sequence in reference"
  | Some f =>
      let xa_refseq := f_seq f in
      let xa_refseq_length := f_seq_length f in
      let p_readprobmatrix :=
        if ((xa_pos <? 0) && negb (is_reverse fl)) || ((xa_pos >? 0) && is_reverse fl)
        then set_prob_matrix (reverse_compl (r_qseq r) (r_length r)) (r_length r)
               (reverse is_match (r_length r)) (reverse no_match (r_length r))
        else readprobmatrix in
      let xa_pos := Z.abs xa_pos - 1 in
      let readprobability :=
        calc_prob_distrib p_readprobmatrix (r_length r) xa_refseq xa_refseq_length xa_pos in
      let pout := if c_seti ctx =? 0 then log_add_exp pout elsewhere else pout in
      let prgu := if c_seti ctx =? 0 then log_add_exp prgu readprobability else prgu in
      let readprobability :=
        if String.eqb (string_of_list_ascii xa_chr) (r_chr r)
           && (Z.abs (xa_pos - c_first_pos ctx) <? 50)
        then calc_prob_distrib p_readprobmatrix (r_length r) (c_altseq ctx)
               (c_altseq_length ctx) xa_pos
        else readprobability in
      Done (pout, prgu, log_add_exp prgv readprobability)
  end.

(** [if (!pao && read_set[readi]->multimap != NULL)]: the loop over the
    XA entries, from [pout[readi]], [prgu[readi]] and [prgv]. *)
Definition read_xa (args : Args) (files : Files) (ctx : ComboCtx) (r : Read)
    (fl : Flags) (readprobmatrix is_match no_match : list double)
    (elsewhere : double) (st : double * double * double)
  : outcome (double * double * double) :=
  match r_multimap r with
  | Some multimap =>
      if negb (pao args) then
        foldM (xa_step files ctx r fl readprobmatrix is_match no_match elsewhere)
          (xa_entries multimap) st
      else Done st
  | None => Done st
  end.

(** The mixture models, the read counts and the priors: the accumulators
    after the read [readi], from [pout[readi]], [prgu[readi]] and [prgv] as
    the XA entries leave them. *)
Definition read_update (ctx : ComboCtx) (acc : ReadAcc) (readi : Z)
    (pout prgu : list double) (st : double * double * double) : ReadAcc :=
  let '(pout_i, prgu_i, prgv) := st in
  let first := c_seti ctx =? 0 in
  let prgu_i :=
    if first then log_add_exp (LGOMEGA - LG1_OMEGA + pout_i)%D prgu_i else prgu_i in
  let prgv := log_add_exp (LGOMEGA - LG1_OMEGA + pout_i)%D prgv in
  let phet := log_add_exp (LG50 + prgv)%D (LG50 + prgu_i)%D in
  let phet10 := log_add_exp (LG10 + prgv)%D (LG90 + prgu_i)%D in
  let phet90 := log_add_exp (LG90 + prgv)%D (LG10 + prgu_i)%D in
  let phet := if (phet10 >? phet)%D then phet10 else phet in
  let phet := if (phet90 >? phet)%D then phet90 else phet in
  let alt_up := (prgv >? prgu_i)%D && (prgv - prgu_i >? Fin (69 / 100))%D in
  let ref_up := (prgu_i >? prgv)%D && (prgu_i - prgv >? Fin (69 / 100))%D in
  {| a_ref := if first then (a_ref acc + (prgu_i + REFPRIOR))%D else a_ref acc;
     a_alt := (a_alt acc + (prgv + c_alt_prior ctx))%D;
     a_het := (a_het acc + (phet + c_het_prior ctx))%D;
     a_ref_count := if alt_up then a_ref_count acc
                    else if ref_up then a_ref_count acc + 1 else a_ref_count acc;
     a_alt_count := if alt_up then a_alt_count acc + 1 else a_alt_count acc;
     a_pout := dset pout readi pout_i;
     a_prgu := dset prgu readi prgu_i |}.

(** The body of [for (readi = 0; readi < nreads; ++readi)]. *)
Definition eval_read (args : Args) (files : Files) (ctx : ComboCtx)
    (acc : ReadAcc) (ir : Z * Read) : outcome ReadAcc :=
  let '(readi, r) := ir in
  let fl := parse_flags (r_flag r) in
  if is_unmap fl then Done acc
  else if pao args && is_secondary fl then Done acc
  else
    let is_match := read_is_match r in
    let no_match := read_no_match r in
    let readprobmatrix :=
      set_prob_matrix (r_qseq r) (r_length r) is_match no_match in
    let first := c_seti ctx =? 0 in
    let elsewhere := if first then read_elsewhere r is_match no_match else Fin 0 in
    let pout := if first then dset (a_pout acc) readi elsewhere else a_pout acc in
    let prgu :=
      if first then
        dset (a_prgu acc) readi
          (calc_prob_distrib readprobmatrix (r_length r) (c_refseq ctx)
             (c_refseq_length ctx) (r_pos r))
      else a_prgu acc in
    let prgv :=
      calc_prob_distrib readprobmatrix (r_length r) (c_altseq ctx)
        (c_altseq_length ctx) (r_pos r) in
    st <- read_xa args files ctx r fl readprobmatrix is_match no_match elsewhere
            (dnth pout readi, dnth prgu readi, prgv) ;;
    Done (read_update ctx acc readi pout prgu st).

(** ** One hypothesis set *)

(** Row [seti] of [var_combo], [alt], [het], [ref_count] and [alt_count]. *)
Record ComboRow : Type := {
  k_combo : list Variant;
  k_alt : double;
  k_het : double;
  k_ref_count : Z;
  k_alt_count : Z
}.

(** The state of the loop over the combinations: [ref], the rows filled so
    far, [pout] and [prgu]. *)
Record ComboAcc : Type := {
  e_ref : double;
  e_rows : list ComboRow;
  e_pout : list double;
  e_prgu : list double
}.

Definition indexed {A : Type} (l : list A) : list (Z * A) :=
  combine (zrange 0 (zlen l)) l.

(** The body of [for (seti = 0; seti < ncombos; ++seti)]. *)
Definition eval_combo (args : Args) (files : Files) (refseq : cstr)
    (refseq_length : Z) (alt_prior het_prior : double) (read_set : list Read)
    (st : ComboAcc) (ic : Z * list Variant) : outcome ComboAcc :=
  let '(seti, combo) := ic in
  let '(altseq, altseq_length) := construct_altseq refseq refseq_length combo in
  let ctx :=
    {| c_seti := seti;
       c_first_pos := match combo with v :: _ => v_pos v | [] => 0 end;
       c_refseq := refseq; c_refseq_length := refseq_length;
       c_altseq := altseq; c_altseq_length := altseq_length;
       c_alt_prior := alt_prior; c_het_prior := het_prior |} in
  acc <- foldM (eval_read args files ctx) (indexed read_set)
           {| a_ref := e_ref st; a_alt := Fin 0; a_het := Fin 0;
              a_ref_count := 0; a_alt_count := 0;
              a_pout := e_pout st; a_prgu := e_prgu st |} ;;
  Done {| e_ref := a_ref acc;
          e_rows := e_rows st ++
                    [{| k_combo := combo; k_alt := a_alt acc; k_het := a_het acc;
                        k_ref_count := a_ref_count acc;
                        k_alt_count := a_alt_count acc |}];
          e_pout := a_pout acc; e_prgu := a_prgu acc |}.

(** ** Marginal probabilities *)

Definition combo_mass (row : ComboRow) : double :=
  log_add_exp (k_alt row) (k_het row).

(** [total], [max_ref_count] and [max_alt_count] after the loop over the
    combinations. *)
Definition marginal_total (ref : double) (rows : list ComboRow) : double :=
  fold_left (fun _ row => log_add_exp ref (combo_mass row)) rows ref.

Definition zmax_of (f : ComboRow -> Z) (rows : list ComboRow) : Z :=
  fold_left (fun m row => if f row >? m then f row else m) rows 0.

(** [has_alt], [not_alt] and [has_alt_count] of one variant after the loop
    over the combinations. *)
Definition marginal_step (v : Variant) (st : double * double * Z) (row : ComboRow)
  : double * double * Z :=
  let '(has_alt, not_alt, has_alt_count) := st in
  if negb (find_variant (k_combo row) v =? -1) then
    (if (has_alt ==? Fin 0)%D then combo_mass row
     else log_add_exp has_alt (combo_mass row),
     not_alt,
     if k_alt_count row >? has_alt_count then k_alt_count row else has_alt_count)
  else (has_alt, log_add_exp not_alt (combo_mass row), has_alt_count).

Definition marginal_variant (ref : double) (rows : list ComboRow) (v : Variant)
  : double * double * Z :=
  fold_left (marginal_step v) rows (Fin 0, ref, 0).

(** The text block of a hypothesis set, one line for each of its
    variants. *)
Definition marginal_lines (var_vector : list Variant) (ref : double)
    (rows : list ComboRow) : Block :=
  let total := marginal_total ref rows in
  let max_ref_count := zmax_of k_ref_count rows in
  let max_alt_count := zmax_of k_alt_count rows in
  let read_count := max_ref_count + max_alt_count in
  map (fun v =>
         let '(has_alt, not_alt, has_alt_count) := marginal_variant ref rows v in
         print_variant var_vector v read_count has_alt_count total has_alt not_alt)
      var_vector.

Definition region_of (var_set : list Variant) : Region :=
  {| reg_chr := match var_set with v :: _ => v_chr v | [] => EmptyString end;
     reg_start := match var_set with v :: _ => v_pos v - 1 | [] => 0 end;
     reg_end := v_pos (last var_set {| v_chr := EmptyString; v_pos := 0;
                                       v_ref := []; v_alt := [] |}) - 1 |}.

(** Returns [NULL] ([None]) when the region has no reads, else the text
    block.  A hypothesis set is never empty. *)
Definition evaluate_variants (args : Args) (files : Files)
    (var_vector : list Variant) : outcome (option Block) :=
  match var_vector with
  | [] => Undefined
  | first :: _ =>
      let nvariants := zlen var_vector in
      let read_set := fetch_reads files (region_of var_vector) in
      if zlen read_set =? 0 then Done None
      else
        let nreads := zlen read_set in
        let '(combo, ncombos) := powerset (maxh args) nvariants 0 in
        var_combo <- parse_combo var_vector combo ncombos ;;
        match fetch_refseq files (v_chr first) with
        | None => ExitErr "failed to find sequence in reference"
        | Some f =>
            let refseq := f_seq f in
            let refseq_length := f_seq_length f in
            let '(alt_prior, het_prior) := priors args nvariants ncombos in
            st <- foldM (eval_combo args files refseq refseq_length
                           alt_prior het_prior read_set)
                    (indexed var_combo)
                    {| e_ref := Fin 0; e_rows := [];
                       e_pout := repeat NaN (Z.to_nat nreads);
                       e_prgu := repeat NaN (Z.to_nat nreads) |} ;;
            Done (Some (marginal_lines var_vector (e_ref st) (e_rows st)))
        end
  end.

(* ===================================================================== *)
(** * Grouper *)
(* ===================================================================== *)

(** The inner loop of the grouping: the variants after [prev] that extend
    the current set, and the rest of the list. *)
Fixpoint take_set (dlim : Z) (prev : Variant) (rest : list Variant)
  : list Variant * list Variant :=
  match rest with
  | [] => ([], [])
  | v :: rest' =>
      if (dlim >? 0) && String.eqb (v_chr v) (v_chr prev)
         && (Z.abs (v_pos v - v_pos prev) <=? dlim)
      then let '(s, r) := take_set dlim v rest' in (v :: s, r)
      else ([], rest)
  end.

Lemma take_set_length dlim prev rest :
  (List.length (snd (take_set dlim prev rest)) <= List.length rest)%nat.
Proof.
  revert prev; induction rest as [|v rest IH]; intros prev; simpl; [lia|].
  destruct (_ && _ && _); simpl; [|lia].
  specialize (IH v). destruct (take_set dlim v rest); simpl in *. lia.
Qed.

(** [while (i < nvariants)]: a new set starts at [varlist[i]]. *)
Equations? group_sets (dlim : Z) (varlist : list Variant) : list (list Variant)
  by wf (List.length varlist) lt :=
  group_sets dlim [] := [];
  group_sets dlim (v :: rest) :=
    (v :: fst (take_set dlim v rest))
    :: group_sets dlim (snd (take_set dlim v rest)).
Proof.
  pose proof (take_set_length dlim v rest). simpl. lia.
Qed.

(** The loop over [j] on one set: [pre] holds [data[0..j)], [s] holds
    [data[j..size)].  When [data[j]] and [data[j+1]] have the same position,
    the duplicate of the set loses index [j + 1] and joins the new sets, the
    set itself loses index [j], and [j] advances.  Returns the set as the
    loop leaves it, and the duplicates in the order of their creation. *)
Fixpoint split_scan (pre s : list Variant) : list Variant * list (list Variant) :=
  match s with
  | [] => (pre, [])
  | curr :: tl =>
      match tl with
      | [] => (pre ++ [curr], [])
      | next :: rest =>
          if v_pos curr =? v_pos next then
            let '(orig, dups) := split_scan (pre ++ [next]) rest in
            (orig, (pre ++ curr :: rest) :: dups)
          else split_scan (pre ++ [curr]) tl
      end
  end.

(** One round of [while (flag)]: every set is scanned in place and the
    duplicates are stored from [var_set[nsets]] on.  [var_set] has room for
    [capacity] sets; a store past its end leaves what C defines. *)
Definition split_pass (capacity : Z) (var_set : list (list Variant))
  : outcome (list (list Variant) * bool) :=
  let scanned := map (split_scan []) var_set in
  let dups := List.concat (map snd scanned) in
  if zlen var_set + zlen dups >? capacity then Undefined
  else Done (map fst scanned ++ dups, negb (zlen dups =? 0)).

Lemma split_pass_grows capacity var_set var_set' :
  split_pass capacity var_set = Done (var_set', true) ->
  (Z.to_nat (capacity - zlen var_set') < Z.to_nat (capacity - zlen var_set))%nat.
Proof.
  unfold split_pass.
  destruct (_ >? _) eqn:Hcap; [discriminate|].
  intros [= <- Hflag].
  unfold zlen in *. rewrite length_app, !length_map.
  destruct (Z.of_nat (List.length (List.concat _)) =? 0) eqn:Hz; [discriminate|].
  rewrite Z.gtb_ltb, Z.ltb_ge in Hcap. apply Z.eqb_neq in Hz.
  lia.
Qed.

Definition inspect {A : Type} (a : A) : {b : A | a = b} := exist _ a eq_refl.

(** [while (flag)]. *)
Equations? split_loop (capacity : Z) (var_set : list (list Variant))
  : outcome (list (list Variant))
  by wf (Z.to_nat (capacity - zlen var_set)) lt :=
  split_loop capacity var_set with inspect (split_pass capacity var_set) := {
    | exist _ (Done (var_set', true)) E => split_loop capacity var_set'
    | exist _ (Done (var_set', false)) E => Done var_set'
    | exist _ (ExitErr msg) E => ExitErr msg
    | exist _ (ExitUsage msg) E => ExitUsage msg
    | exist _ Undefined E => Undefined }.
Proof.
  apply split_pass_grows; exact E.
Qed.

(** The sets of [process_variants] when the work queue is filled. *)
Definition hypothesis_sets (dlim : Z) (varlist : list Variant)
  : outcome (list (list Variant)) :=
  split_loop (zlen varlist * 2) (group_sets dlim varlist).

(* ===================================================================== *)
(** * WorkerPool *)
(* ===================================================================== *)

(** One round of [pool]: a job evaluated and its block appended to
    [results], unless it is [NULL]. *)
Definition pool_step (args : Args) (files : Files) (results : list Block)
    (var_set : list Variant) : outcome (list Block) :=
  outstr <- evaluate_variants args files var_set ;;
  match outstr with
  | None => Done results
  | Some block => Done (results ++ [block])
  end.

(** The queue drained by one worker: [vector_pop] takes the jobs from the
    end.  With several workers the blocks reach [results] in another
    order, which the sort that follows replaces. *)
Definition pool (args : Args) (files : Files) (queue : list (list Variant))
  : outcome (list Block) :=
  foldM (pool_step args files) (rev queue) [].

(** The blocks written after the header line. *)
Definition process_variants (args : Args) (files : Files)
    (var_vector : list Variant) : outcome (list Block) :=
  var_set <- hypothesis_sets (distlim args) var_vector ;;
  results <- pool args files var_set ;;
  Done (qsort_results files results).

(* ===================================================================== *)
(** * Command line *)
(* ===================================================================== *)

(** The value of a digit of [strtol] in base [base], if it is one. *)
Definition digit_value (base : Z) (c : ascii) : option Z :=
  let z := code c in
  let v := if (48 <=? z) && (z <=? 57) then z - 48
           else if (97 <=? z) && (z <=? 122) then z - 97 + 10
           else if (65 <=? z) && (z <=? 90) then z - 65 + 10
           else 36 in
  if v <? base then Some v else None.

Fixpoint strtol_digits (base : Z) (s : cstr) (acc : Z) (count : nat)
  : Z * nat * cstr :=
  match s with
  | c :: s' =>
      match digit_value base c with
      | Some v => strtol_digits base s' (base * acc + v) (S count)
      | None => (acc, count, s)
      end
  | [] => (acc, count, [])
  end.

Definition LONG_MAX : Z := 2 ^ 63 - 1.
Definition LONG_MIN : Z := - 2 ^ 63.

(** [strtol(str, &end, 0)]: the value, and the input from [end] on, or
    [None] when no conversion is made ([end == str]). *)
Definition strtol0 (str : cstr) : Z * option cstr :=
  let s := skip_space str in
  let '(neg, s) :=
    match s with
    | c :: s' =>
        if ascii_dec c "-" then (true, s')
        else if ascii_dec c "+" then (false, s')
        else (false, s)
    | [] => (false, s)
    end in
  let '(base, digits) :=
    match s with
    | z :: x :: h :: _ =>
        if (code z =? 48) && ((code x =? 120) || (code x =? 88))
           && (match digit_value 16 h with Some _ => true | None => false end)
        then (16, tl (tl s))
        else if code z =? 48 then (8, s) else (10, s)
    | z :: _ => if code z =? 48 then (8, s) else (10, s)
    | [] => (10, s)
    end in
  let '(v, count, rest) := strtol_digits base digits 0 O in
  match count with
  | O => (0, None)
  | S _ =>
      let v := if neg then - v else v in
      (Z.max LONG_MIN (Z.min LONG_MAX v), Some rest)
  end.

(** Conversion of a [long] to an [int]. *)
Definition to_int (z : Z) : Z := (z + 2 ^ 31) mod 2 ^ 32 - 2 ^ 31.

Definition parse_num (str : cstr) : outcome Z :=
  let '(num, e) := strtol0 str in
  match e with
  | Some (_ :: _) => ExitErr "failed to convert to int with leftover string"
  | _ => Done (to_int num)
  end.

(** What a call of [getopt_long] yields: a short option with its argument,
    a long flag stored through its pointer (the call returns 0), or an
    unknown option (the call returns ['?']). *)
Inductive LongFlag : Type := FlagMvh | FlagPao | FlagDebug.

Inductive GetOpt : Type :=
| Short (opt : ascii) (optarg : cstr)
| Long (flag : LongFlag)
| Unknown.

(** The variables that the option loop of [main] assigns. *)
Record Cli : Type := {
  vcf_file : option cstr;
  bam_file : option cstr;
  fa_file : option cstr;
  out_file : option cstr;
  cli_numproc : Z;
  cli_distlim : Z;
  cli_maxh : Z;
  cli_mvh : bool;
  cli_hetbias : double;
  cli_pao : bool;
  cli_debug : bool
}.

Definition cli_defaults : Cli :=
  {| vcf_file := None; bam_file := None; fa_file := None; out_file := None;
     cli_numproc := 1; cli_distlim := 10; cli_maxh := 1024; cli_mvh := false;
     cli_hetbias := Fin (1 / 2); cli_pao := false; cli_debug := false |}.

Definition set_file (c : Cli) (which : ascii) (optarg : cstr) : Cli :=
  {| vcf_file := if ascii_dec which "v" then Some optarg else vcf_file c;
     bam_file := if ascii_dec which "a" then Some optarg else bam_file c;
     fa_file := if ascii_dec which "r" then Some optarg else fa_file c;
     out_file := if ascii_dec which "o" then Some optarg else out_file c;
     cli_numproc := cli_numproc c; cli_distlim := cli_distlim c;
     cli_maxh := cli_maxh c; cli_mvh := cli_mvh c; cli_hetbias := cli_hetbias c;
     cli_pao := cli_pao c; cli_debug := cli_debug c |}.

Definition set_num (c : Cli) (which : ascii) (num : Z) : Cli :=
  {| vcf_file := vcf_file c; bam_file := bam_file c; fa_file := fa_file c;
     out_file := out_file c;
     cli_numproc := if ascii_dec which "t" then num else cli_numproc c;
     cli_distlim := if ascii_dec which "n" then num else cli_distlim c;
     cli_maxh := if ascii_dec which "m" then num else cli_maxh c;
     cli_mvh := cli_mvh c;
     cli_hetbias := if ascii_dec which "b" then of_int num else cli_hetbias c;
     cli_pao := cli_pao c; cli_debug := cli_debug c |}.

Definition set_flag (c : Cli) (flag : LongFlag) : Cli :=
  {| vcf_file := vcf_file c; bam_file := bam_file c; fa_file := fa_file c;
     out_file := out_file c; cli_numproc := cli_numproc c;
     cli_distlim := cli_distlim c; cli_maxh := cli_maxh c;
     cli_mvh := match flag with FlagMvh => true | _ => cli_mvh c end;
     cli_hetbias := cli_hetbias c;
     cli_pao := match flag with FlagPao => true | _ => cli_pao c end;
     cli_debug := match flag with FlagDebug => true | _ => cli_debug c end |}.

(** The [switch (opt)] of [main]. *)
Definition main_option (c : Cli) (o : GetOpt) : outcome Cli :=
  match o with
  | Long flag => Done (set_flag c flag)
  | Short opt optarg =>
      if Ascii.eqb opt "v" || Ascii.eqb opt "a" || Ascii.eqb opt "r"
         || Ascii.eqb opt "o"
      then Done (set_file c opt optarg)
      else if Ascii.eqb opt "t" || Ascii.eqb opt "n" || Ascii.eqb opt "b"
              || Ascii.eqb opt "m"
      then num <- parse_num optarg ;; Done (set_num c opt num)
      else ExitUsage "Bad program call"
  | Unknown => ExitUsage "Bad program call"
  end.

(** [main] up to the call of [read_vcf]: the static variables as the run
    uses them. *)
Definition main_args (opts : list GetOpt) : outcome Args :=
  c <- foldM main_option opts cli_defaults ;;
  match vcf_file c, bam_file c, fa_file c with
  | None, _, _ => ExitUsage "Missing variants given as VCF file!"
  | _, None, _ => ExitUsage "Missing alignments given as BAM file!"
  | _, _, None => ExitUsage "Missing reference genome given as Fasta file!"
  | Some _, Some _, Some _ =>
      Done
        {| numproc := if cli_numproc c <? 1 then 1 else cli_numproc c;
           distlim := if cli_distlim c <? 0 then 0 else cli_distlim c;
           maxh := if cli_maxh c <? 0 then 1024 else cli_maxh c;
           mvh := cli_mvh c;
           hetbias := if (cli_hetbias c <? Fin 0)%D || (cli_hetbias c >? Fin 1)%D
                      then Fin (1 / 2) else cli_hetbias c;
           pao := cli_pao c;
           debug := cli_debug c |}
  end.

(* ===================================================================== *)
(** * Vectors *)
(* ===================================================================== *)

(** The tags of [enum type], declared in eagle.h, as eagle.c uses them. *)
Inductive VarType : Type := VARIANT_T | READ_T | FASTA_T | VOID_T.

(** A cell of the block [data]: a pointer to an entry, [NULL], or what
    [malloc] and [realloc] leave in the cells they do not fill. *)
Inductive Cell (A : Type) : Type :=
| Entry (a : A)
| Null
| Indeterminate.

Arguments Entry {A} a.
Arguments Null {A}.
Arguments Indeterminate {A}.

(** [Vector]: [size], [capacity], [type] and the block [data]; the block
    has as many cells as were allocated for it. *)
Record Vector (A : Type) : Type := {
  vec_size : Z;
  vec_capacity : Z;
  vec_type : VarType;
  vec_data : list (Cell A)
}.

(** [malloc] of a block of [n] pointers. *)
Definition fresh_block (A : Type) (n : Z) : list (Cell A) :=
  repeat Indeterminate (Z.to_nat n).

(** [realloc] of the block to [n] pointers: the cells kept up to the
    lesser of the two sizes.  Allocation is taken to succeed. *)
Definition realloc_block {A : Type} (data : list (Cell A)) (n : Z) : list (Cell A) :=
  zfirstn n data ++ fresh_block A (n - zlen data).

(** [data[i] = c]; a store outside the block leaves what C defines. *)
Fixpoint store_nat {A : Type} (data : list (Cell A)) (i : nat) (c : Cell A)
  : option (list (Cell A)) :=
  match data, i with
  | [], _ => None
  | _ :: data', O => Some (c :: data')
  | x :: data', S i' =>
      match store_nat data' i' c with
      | Some d => Some (x :: d)
      | None => None
      end
  end.

Definition store {A : Type} (data : list (Cell A)) (i : Z) (c : Cell A)
  : outcome (list (Cell A)) :=
  if i <? 0 then Undefined
  else match store_nat data (Z.to_nat i) c with
       | Some d => Done d
       | None => Undefined
       end.

(** [memcpy] of [n] pointers from [&src[soff]] to [&dst[doff]]. *)
Definition memcpy_cells {A : Type} (dst : list (Cell A)) (doff : Z)
    (src : list (Cell A)) (soff n : Z) : outcome (list (Cell A)) :=
  if (n <? 0) || (doff <? 0) || (soff <? 0)
     || (zlen dst <? doff + n) || (zlen src <? soff + n)
  then Undefined
  else Done (zfirstn doff dst ++ zfirstn n (zskipn soff src)
             ++ zskipn (doff + n) dst).

Definition vector_init (A : Type) (initial_size : Z) (var_type : VarType)
  : Vector A :=
  {| vec_size := 0; vec_capacity := initial_size; vec_type := var_type;
     vec_data := fresh_block A initial_size |}.

Definition vector_create (A : Type) (initial_size : Z) (var_type : VarType)
  : Vector A :=
  vector_init A initial_size var_type.

Definition vector_add {A : Type} (a : Vector A) (entry : A) : outcome (Vector A) :=
  let '(capacity, data) :=
    if vec_size a >=? vec_capacity a
    then (vec_capacity a * 2, realloc_block (vec_data a) (vec_capacity a * 2))
    else (vec_capacity a, vec_data a) in
  data <- store data (vec_size a) (Entry entry) ;;
  Done {| vec_size := vec_size a + 1; vec_capacity := capacity;
          vec_type := vec_type a; vec_data := data |}.

Definition vector_del {A : Type} (a : Vector A) (i : Z) : outcome (Vector A) :=
  data <- store (vec_data a) i Null ;;
  let size := vec_size a - 1 in
  if i =? size then
    Done {| vec_size := size; vec_capacity := vec_capacity a;
            vec_type := vec_type a; vec_data := data |}
  else
    let p := fresh_block A (vec_capacity a) in
    p <- (if (i =? 0) && (size >? 0) then memcpy_cells p 0 data 1 size
          else p <- memcpy_cells p 0 data 0 i ;;
               memcpy_cells p i data (i + 1) (size - i)) ;;
    Done {| vec_size := size; vec_capacity := vec_capacity a;
            vec_type := vec_type a; vec_data := p |}.

(** Returns the entry, [NULL] for an empty vector, and the vector. *)
Definition vector_pop {A : Type} (a : Vector A) : outcome (Cell A * Vector A) :=
  if vec_size a <=? 0 then Done (Null, a)
  else
    let size := vec_size a - 1 in
    match nth_error (vec_data a) (Z.to_nat size) with
    | None => Undefined
    | Some entry =>
        data <- store (vec_data a) size Null ;;
        Done (entry,
              {| vec_size := size; vec_capacity := vec_capacity a;
                 vec_type := vec_type a; vec_data := data |})
    end.

Definition vector_dup {A : Type} (a : Vector A) : outcome (Vector A) :=
  let v := vector_create A (vec_capacity a) (vec_type a) in
  data <- memcpy_cells (vec_data v) 0 (vec_data a) 0 (vec_size a) ;;
  Done {| vec_size := vec_size a; vec_capacity := vec_capacity v;
          vec_type := vec_type v; vec_data := data |}.

(** The cells in use: [data[0]] to [data[size - 1]]. *)
Definition vec_cells {A : Type} (a : Vector A) : list (Cell A) :=
  zfirstn (vec_size a) (vec_data a).

(* ===================================================================== *)
(** * VCF reader *)
(* ===================================================================== *)

(** The bytes up to the next white space. *)
Fixpoint span_word (s : cstr) : cstr * cstr :=
  match s with
  | c :: s' =>
      if is_space c then ([], s)
      else let '(w, rest) := span_word s' in (c :: w, rest)
  | [] => ([], [])
  end.

(** The conversion [%s]: white space is skipped, then the bytes up to the
    next white space are stored; it fails at the end of the input. *)
Definition scan_word (s : cstr) : option (cstr * cstr) :=
  match span_word (skip_space s) with
  | ([], _) => None
  | (w, rest) => Some (w, rest)
  end.

(** A scanset conversion without width: the longest prefix of bytes of the
    set; the conversion fails when the prefix is empty. *)
Fixpoint span_set (keep : ascii -> bool) (s : cstr) : cstr * cstr :=
  match s with
  | c :: s' =>
      if keep c then let '(w, rest) := span_set keep s' in (c :: w, rest)
      else ([], s)
  | [] => ([], [])
  end.

Definition TAB_CHAR : ascii := "009"%char.
Definition SPACE_CHAR : ascii := " "%char.

(** The scansets [[^\t ]], [[^, ]] and [[-]]. *)
Definition not_tab_space (c : ascii) : bool :=
  negb (Ascii.eqb c TAB_CHAR || Ascii.eqb c SPACE_CHAR).

Definition not_comma_space (c : ascii) : bool :=
  negb (Ascii.eqb c "," || Ascii.eqb c SPACE_CHAR).

Definition is_dash (c : ascii) : bool := Ascii.eqb c "-".

(** [sscanf(line, "%s %d %*[^\t ] %s %s", chr, &pos, ref, alt)] when it
    returns 4: [chr], [pos], [ref] and [alt]; [None] when it returns less. *)
Definition scan_vcf_fields (line : cstr) : option (cstr * Z * cstr * cstr) :=
  match scan_word line with
  | None => None
  | Some (chr, s) =>
      match scan_int (skip_space s) with
      | None => None
      | Some (pos, s) =>
          match span_set not_tab_space (skip_space s) with
          | ([], _) => None
          | (_, s) =>
              match scan_word (skip_space s) with
              | None => None
              | Some (ref, s) =>
                  match scan_word (skip_space s) with
                  | None => None
                  | Some (alt, _) => Some (chr, pos, ref, alt)
                  end
              end
          end
      end
  end.

(** [sscanf(s, "%[^, ]%n", token, &n) == 1 || sscanf(s, "%[-]%n", token, &n) == 1]:
    the token and the input from [s + n] on. *)
Definition scan_allele (s : cstr) : option (cstr * cstr) :=
  match span_set not_comma_space s with
  | ([], _) =>
      match span_set is_dash s with
      | ([], _) => None
      | (token, rest) => Some (token, rest)
      end
  | (token, rest) => Some (token, rest)
  end.

(** The loop over the tokens of [alt], at most [fuel] rounds: a variant
    for each token, until a token is not followed by a comma. *)
Fixpoint alt_loop (fuel : nat) (chr : cstr) (pos : Z) (ref_token : cstr)
    (s2 : cstr) : list Variant :=
  match fuel with
  | O => []
  | S fuel' =>
      match scan_allele s2 with
      | None => []
      | Some (alt_token, rest) =>
          {| v_chr := string_of_list_ascii chr; v_pos := pos;
             v_ref := ref_token; v_alt := alt_token |}
          :: match rest with
             | c :: rest' =>
                 if ascii_dec c "," then alt_loop fuel' chr pos ref_token rest'
                 else []
             | [] => []
             end
      end
  end.

(** The loop over the tokens of [ref], at most [fuel] rounds: the loop over
    [alt] for each token, until a token is not followed by a comma. *)
Fixpoint ref_loop (fuel : nat) (chr : cstr) (pos : Z) (alt : cstr)
    (s1 : cstr) : list Variant :=
  match fuel with
  | O => []
  | S fuel' =>
      match scan_allele s1 with
      | None => []
      | Some (ref_token, rest) =>
          alt_loop (S (List.length alt)) chr pos ref_token alt
          ++ match rest with
             | c :: rest' =>
                 if ascii_dec c "," then ref_loop fuel' chr pos alt rest'
                 else []
             | [] => []
             end
      end
  end.

(** [line[strspn(line, " \t\v\r\n")] == '\0']. *)
Definition is_blank (line : cstr) : bool :=
  forallb (fun c => let z := code c in
                    (z =? 32) || (z =? 9) || (z =? 11) || (z =? 13) || (z =? 10))
    line.

Definition is_comment (line : cstr) : bool :=
  match line with
  | c :: _ => Ascii.eqb c "#"
  | [] => false
  end.

(** The body of the loop over the lines: the variants that one line
    adds. *)
Definition vcf_line (line : cstr) : outcome (list Variant) :=
  if is_blank line then Done []
  else if is_comment line then Done []
  else
    match scan_vcf_fields line with
    | None => ExitErr "bad fields in VCF file"
    | Some (chr, pos, ref, alt) =>
        Done (ref_loop (S (List.length ref)) chr pos alt ref)
    end.

(** One round of the loop over the lines: the variants of the line are
    added to [var_vector]. *)
Definition vcf_step (var_vector : list Variant) (line : cstr)
  : outcome (list Variant) :=
  vs <- vcf_line line ;; Done (var_vector ++ vs).

(** [read_vcf] on the lines that [getline] returns, [None] when the file
    cannot be opened; [qsort_var] is the call of [qsort] with
    [nat_sort_var]. *)
Definition read_vcf (qsort_var : list Variant -> list Variant)
    (file : option (list cstr)) : outcome (list Variant) :=
  match file with
  | None => ExitErr "failed to open VCF file"
  | Some lines =>
      var_vector <- foldM vcf_step lines [] ;;
      Done (qsort_var var_vector)
  end.

(* ===================================================================== *)
(** * Natural sort *)
(* ===================================================================== *)

(** The classes of ctype.h in the C locale, and [tolower]. *)
Definition is_alpha (c : ascii) : bool :=
  let z := code c in
  ((65 <=? z) && (z <=? 90)) || ((97 <=? z) && (z <=? 122)).

Definition is_punct (c : ascii) : bool :=
  let z := code c in
  ((33 <=? z) && (z <=? 47)) || ((58 <=? z) && (z <=? 64))
  || ((91 <=? z) && (z <=? 96)) || ((123 <=? z) && (z <=? 126)).

Definition tolower (c : ascii) : Z :=
  let z := code c in
  if (65 <=? z) && (z <=? 90) then z + 32 else z.

(** What a call of the comparison does: it returns a value of the sign
    [cmp], or it does not return, or it leaves what C defines. *)
Inductive Compared : Type :=
| Sign (cmp : Z)
| Hangs
| Unspecified.

(** [(x > y) - (x < y)]. *)
Definition three_way (x y : Z) : Z :=
  (if x >? y then 1 else 0) - (if x <? y then 1 else 0).

(** The sign of [strcmp(s1, s2)]: C fixes the sign of the value that
    [strcmp] returns, not the value, and [nat_sort_cmp] returns that value
    as it is; a [Sign] stands for any value of that sign. *)
Fixpoint strcmp_sign (s1 s2 : cstr) : Z :=
  match s1, s2 with
  | [], [] => 0
  | [], _ :: _ => -1
  | _ :: _, [] => 1
  | c1 :: r1, c2 :: r2 =>
      if code c1 <? code c2 then -1
      else if code c2 <? code c1 then 1
      else strcmp_sign r1 r2
  end.

(** [strcasecmp(s1, s2) == 0]. *)
Definition strcasecmp_eq (s1 s2 : cstr) : bool :=
  if list_eq_dec Z.eq_dec (map tolower s1) (map tolower s2) then true else false.

(** The conjunction of a class of ctype.h on the bytes at [s1] and at [s2],
    when the byte at [s1] is a character of the C locale: the byte at [s2]
    is looked at when the one at [s1] is in the class; a [char] from 128 on
    is negative, outside what the classes are defined on. *)
Definition both (test : ascii -> bool) (c1 c2 : ascii) : option bool :=
  if test c1 then
    if 128 <=? code c2 then None else Some (test c2)
  else Some false.

(** The number that the two calls of [sscanf] find at [s], and the input
    after it: [sscanf(s, "%d%n", &i, &n)], and when that converts nothing
    [sscanf(s, "%*[^0123456789]%d%n", &i, &n)].  When the first call meets
    the end of the input it returns [EOF] and the second call is not made;
    the input then holds no digit, and the second call would convert
    nothing either. *)
Definition scan_number (s : cstr) : option (Z * cstr) :=
  match scan_int s with
  | Some r => Some r
  | None =>
      match span_set (fun c => negb (is_digit c)) s with
      | ([], _) => None
      | (_, rest) => scan_int rest
      end
  end.

(** The loop that runs while [cmp] is 0 and neither string is at its end,
    at most [fuel] rounds.  When the two strings have no number to compare and
    [strcmp] finds them equal, [cmp] stays 0 and the pointers stay where
    they are: the loop does not end. *)
Fixpoint nat_sort_loop (fuel : nat) (s1 s2 : cstr) : Compared :=
  match fuel with
  | O => Sign 0
  | S fuel' =>
      match s1, s2 with
      | c1 :: r1, c2 :: r2 =>
          if 128 <=? code c1 then Unspecified
          else
            match both is_space c1 c2 with
            | None => Unspecified
            | Some true => nat_sort_loop fuel' r1 r2
            | Some false =>
                match (match both is_alpha c1 c2 with
                       | None => None
                       | Some true => Some true
                       | Some false => both is_punct c1 c2
                       end) with
                | None => Unspecified
                | Some true =>
                    let cmp := three_way (tolower c1) (tolower c2) in
                    if cmp =? 0 then nat_sort_loop fuel' r1 r2 else Sign cmp
                | Some false =>
                    match scan_number s1, scan_number s2 with
                    | Some (i1, rest1), Some (i2, rest2) =>
                        let cmp := three_way i1 i2 in
                        if cmp =? 0 then nat_sort_loop fuel' rest1 rest2
                        else Sign cmp
                    | _, _ =>
                        let cmp := strcmp_sign s1 s2 in
                        if cmp =? 0 then Hangs else Sign cmp
                    end
                end
            end
      | _, _ => Sign 0
      end
  end.

(** [nat_sort_cmp] on the two strings that it copies: every round that
    goes on takes at least a byte of each. *)
Definition nat_sort_cmp (str1 str2 : cstr) : Compared :=
  nat_sort_loop (S (List.length str1)) str1 str2.

Definition nat_sort_str (a b : cstr) : Compared := nat_sort_cmp a b.

Definition nat_sort_var (c1 c2 : Variant) : Compared :=
  let chr1 := list_ascii_of_string (v_chr c1) in
  let chr2 := list_ascii_of_string (v_chr c2) in
  if strcasecmp_eq chr1 chr2 then Sign (three_way (v_pos c1) (v_pos c2))
  else nat_sort_cmp chr1 chr2.

(* ===================================================================== *)
(** * Properties of LogMath *)
(* ===================================================================== *)

Section LogMathFacts.

Local Open Scope R_scope.

Lemma Rsign_pos (x : R) : 0 < x -> Rsign x = Gt.
Proof.
  intros H. unfold Rsign.
  destruct (Rlt_dec x 0); [lra|]. destruct (Rlt_dec 0 x); [reflexivity|lra].
Qed.

Lemma Rsign_neg (x : R) : x < 0 -> Rsign x = Lt.
Proof.
  intros H. unfold Rsign. destruct (Rlt_dec x 0); [reflexivity|lra].
Qed.

Lemma Rsign_zero : Rsign 0 = Eq.
Proof.
  unfold Rsign. destruct (Rlt_dec 0 0); [lra|reflexivity].
Qed.

Lemma dlog_pos (x : R) : 0 < x -> dlog (Fin x) = Fin (ln x).
Proof. intros H. simpl. rewrite Rsign_pos by exact H. reflexivity. Qed.

Lemma dgtb_fin (x y : R) : dgtb (Fin x) (Fin y) = true <-> y < x.
Proof.
  simpl. destruct (Rlt_dec y x); split; intros; try reflexivity;
    try assumption; try discriminate; contradiction.
Qed.

Lemma dgtb_fin_false (x y : R) : dgtb (Fin x) (Fin y) = false <-> x <= y.
Proof.
  simpl. destruct (Rlt_dec y x); split; intros; try reflexivity;
    try discriminate; lra.
Qed.

(** [log_add_exp] on finite arguments, in closed form. *)
Lemma log_add_exp_fin (a b : R) :
  log_add_exp (Fin a) (Fin b) =
  Fin (ln (exp (a - Rmax a b) + exp (b - Rmax a b)) + Rmax a b).
Proof.
  unfold log_add_exp.
  assert (Hm : (if dgtb (Fin a) (Fin b) then Fin a else Fin b) = Fin (Rmax a b)).
  { destruct (dgtb (Fin a) (Fin b)) eqn:E.
    - apply dgtb_fin in E. rewrite Rmax_left by lra. reflexivity.
    - apply dgtb_fin_false in E. rewrite Rmax_right by lra. reflexivity. }
  rewrite Hm. cbn [dsub dopp dadd dexp].
  rewrite dlog_pos.
  - reflexivity.
  - pose proof (exp_pos (a + - Rmax a b)). pose proof (exp_pos (b + - Rmax a b)). lra.
Qed.

Lemma exp_sum_ge_1 (a b : R) : 1 <= exp (a - Rmax a b) + exp (b - Rmax a b).
Proof.
  destruct (Rle_dec a b) as [H|H].
  - rewrite Rmax_right by exact H.
    replace (b - b) with 0 by ring. rewrite exp_0.
    pose proof (exp_pos (a - b)). lra.
  - rewrite Rmax_left by lra.
    replace (a - a) with 0 by ring. rewrite exp_0.
    pose proof (exp_pos (b - a)). lra.
Qed.

Lemma exp_sum_le_2 (a b : R) : exp (a - Rmax a b) + exp (b - Rmax a b) <= 2.
Proof.
  assert (Ha : exp (a - Rmax a b) <= 1).
  { rewrite <- exp_0. destruct (Req_dec (a - Rmax a b) 0) as [->|Hne]; [lra|].
    left. apply exp_increasing. pose proof (Rmax_l a b). lra. }
  assert (Hb : exp (b - Rmax a b) <= 1).
  { rewrite <- exp_0. destruct (Req_dec (b - Rmax a b) 0) as [->|Hne]; [lra|].
    left. apply exp_increasing. pose proof (Rmax_r a b). lra. }
  lra.
Qed.

Lemma ln_ge_0 (x : R) : 1 <= x -> 0 <= ln x.
Proof.
  intros H. rewrite <- ln_1. destruct H as [H|<-]; [|lra].
  left. apply ln_increasing; lra.
Qed.

Lemma ln_le_mono (x y : R) : 0 < x -> x <= y -> ln x <= ln y.
Proof.
  intros Hx [H|<-]; [|lra]. left. apply ln_increasing; assumption.
Qed.

(** The value of [log_add_exp] on finite arguments as a real. *)
Definition lae (a b : R) : R :=
  ln (exp (a - Rmax a b) + exp (b - Rmax a b)) + Rmax a b.

Lemma lae_ge_max (a b : R) : Rmax a b <= lae a b.
Proof.
  unfold lae. pose proof (ln_ge_0 (exp_sum_ge_1 a b)). lra.
Qed.

Lemma lae_le_max_ln2 (a b : R) : lae a b <= Rmax a b + ln 2.
Proof.
  unfold lae.
  assert (ln (exp (a - Rmax a b) + exp (b - Rmax a b)) <= ln 2).
  { apply ln_le_mono; [|apply exp_sum_le_2].
    pose proof (exp_sum_ge_1 a b). lra. }
  lra.
Qed.

(** [exp (lae a b)] is the sum of the exponentials. *)
Lemma exp_lae (a b : R) : exp (lae a b) = exp a + exp b.
Proof.
  unfold lae. rewrite exp_plus, exp_ln.
  - rewrite Rmult_plus_distr_r, <- !exp_plus.
    f_equal; f_equal; ring.
  - pose proof (exp_sum_ge_1 a b). lra.
Qed.

Lemma lae_comm (a b : R) : lae a b = lae b a.
Proof.
  unfold lae. rewrite (Rmax_comm b a).
  f_equal. f_equal. apply Rplus_comm.
Qed.

Lemma log_add_exp_comm (a b : double) : log_add_exp a b = log_add_exp b a.
Proof.
  destruct a as [| |x|], b as [| |y|]; try reflexivity;
    try (unfold log_add_exp; simpl; rewrite (Rplus_comm 0); reflexivity).
  rewrite !log_add_exp_fin. f_equal. change (lae x y = lae y x). apply lae_comm.
Qed.

End LogMathFacts.

Section LogSumExpFacts.

Local Open Scope R_scope.

(** The maximum and the sum of exponentials that [log_sum_exp] computes on
    finite values. *)
Definition rmax_from (m : R) (l : list R) : R := fold_left Rmax l m.

Definition rsum_exp (M : R) (l : list R) (s : R) : R :=
  fold_left (fun s x => s + exp (x - M)) l s.

Lemma max_from_fin (m : R) (l : list R) :
  max_from (Fin m) (map Fin l) = Fin (rmax_from m l).
Proof.
  revert m; induction l as [|y l IH]; intros m; [reflexivity|].
  unfold max_from, rmax_from in *. cbn [map fold_left].
  destruct (dgtb (Fin y) (Fin m)) eqn:E.
  - apply dgtb_fin in E. rewrite IH, (Rmax_right m y) by lra. reflexivity.
  - apply dgtb_fin_false in E. rewrite IH, (Rmax_left m y) by lra. reflexivity.
Qed.

Lemma sum_exp_fin (M : R) (l : list R) (s : R) :
  fold_left (fun s x => (s + dexp (x - Fin M))%D) (map Fin l) (Fin s)
  = Fin (rsum_exp M l s).
Proof.
  revert s; induction l as [|y l IH]; intros s; [reflexivity|].
  cbn [map fold_left]. cbn [dsub dopp dadd dexp]. rewrite IH. reflexivity.
Qed.

Lemma rsum_exp_shift (M : R) (l : list R) (s : R) :
  rsum_exp M l s = s + rsum_exp M l 0.
Proof.
  revert s; induction l as [|y l IH]; intros s; unfold rsum_exp in *; simpl.
  - ring.
  - rewrite IH, (IH (0 + _)). ring.
Qed.

Lemma rsum_exp_cons (M y : R) (l : list R) :
  rsum_exp M (y :: l) 0 = exp (y - M) + rsum_exp M l 0.
Proof.
  unfold rsum_exp at 1. simpl. fold (rsum_exp M l (0 + exp (y - M))).
  rewrite rsum_exp_shift. ring.
Qed.

Lemma rsum_exp_nonneg (M : R) (l : list R) : 0 <= rsum_exp M l 0.
Proof.
  induction l as [|y l IH]; [unfold rsum_exp; simpl; lra|].
  rewrite rsum_exp_cons. pose proof (exp_pos (y - M)). lra.
Qed.

(** [log_sum_exp] on a non-empty array of finite values, in closed form. *)
Lemma log_sum_exp_fin (x : R) (l : list R) :
  log_sum_exp (map Fin (x :: l)) =
  Fin (ln (rsum_exp (rmax_from x l) (x :: l) 0) + rmax_from x l).
Proof.
  unfold log_sum_exp. cbn [map tl dnth Z.ltb Z.compare Z.to_nat nth].
  rewrite max_from_fin.
  change (Fin x :: map Fin l) with (map Fin (x :: l)).
  rewrite sum_exp_fin, dlog_pos; [reflexivity|].
  rewrite rsum_exp_cons.
  pose proof (exp_pos (x - rmax_from x l)). pose proof (rsum_exp_nonneg (rmax_from x l) l).
  lra.
Qed.

End LogSumExpFacts.

(* ===================================================================== *)
(** * Properties of the ReadModel *)
(* ===================================================================== *)

Section ReadModelFacts.

Variables (matrix : list double) (read_length : Z) (seq : cstr) (seq_length : Z).

(** From an index at or past the end of the sequence on, the loop of
    [calc_prob] adds nothing. *)
Lemma calc_prob_loop_past_end (count : nat) (pos : Z) (baseline : double)
    (b : Z) (probability : double) :
  seq_length <= b ->
  calc_prob_loop count matrix seq seq_length pos baseline b probability = probability.
Proof.
  revert b; induction count as [|count IH]; intros b Hb; [reflexivity|].
  cbn [calc_prob_loop]. destruct (b <? 0) eqn:Hneg.
  - apply IH. lia.
  - assert (Hge : (b >=? seq_length) = true) by (apply Z.geb_le; lia).
    rewrite Hge. reflexivity.
Qed.

Lemma calc_prob_distrib_loop_past_end (count : nat) (i : Z)
    (probability baseline : double) :
  seq_length <= i ->
  calc_prob_distrib_loop count matrix read_length seq seq_length i probability baseline
  = probability.
Proof.
  revert i; induction count as [|count IH]; intros i Hi; [reflexivity|].
  cbn [calc_prob_distrib_loop]. destruct (i + read_length <? 0) eqn:Hneg.
  - apply IH. lia.
  - assert (Hge : (i >=? seq_length) = true) by (apply Z.geb_le; lia).
    rewrite Hge. reflexivity.
Qed.

(** C10.  When the alignment position is at least the length of the
    sequence plus the length of the read, [calc_prob_distrib] returns 0, the
    logarithm of probability 1: the baseline is 0 and no shift of the window
    adds a term of the matrix. *)
Theorem calc_prob_distrib_past_end (pos : Z) :
  seq_length + read_length <= pos ->
  calc_prob_distrib matrix read_length seq seq_length pos = Fin 0
  /\ (0 <= read_length ->
      calc_prob matrix read_length seq seq_length pos (Fin (-1000)) = Fin 0).
Proof.
  intros H. split.
  - unfold calc_prob_distrib. apply calc_prob_distrib_loop_past_end. lia.
  - intros HL. unfold calc_prob. apply calc_prob_loop_past_end. lia.
Qed.

End ReadModelFacts.

Lemma calc_prob_distrib_past_end_witness :
  4 + 1 <= 5
  /\ calc_prob_distrib [Fin (-1); Fin (-2); Fin (-2); Fin (-2); Fin (-2)] 1
       (cs "ACGT") 4 5 = Fin 0.
Proof.
  assert (H : 4 + 1 <= 5) by lia.
  split; [exact H|].
  exact (proj1 (@calc_prob_distrib_past_end
                  [Fin (-1); Fin (-2); Fin (-2); Fin (-2); Fin (-2)] 1
                  (cs "ACGT") 4 5 H)).
Defined.

(* ===================================================================== *)
(** * Properties of the AltBuilder *)
(* ===================================================================== *)

Section AltBuilderFacts.

Lemma overwrite_from_length (k : Z) (s : cstr) (pos : Z) (a : cstr) :
  List.length (overwrite_from k s pos a) = List.length s.
Proof.
  revert k; induction s as [|c s IH]; intros k; simpl; [reflexivity|].
  f_equal. apply IH.
Qed.

Lemma overwrite_from_nth (k : Z) (s : cstr) (pos : Z) (a : cstr) (j : nat) :
  nth j (overwrite_from k s pos a) NUL =
  if (j <? List.length s)%nat && (pos <=? k + Z.of_nat j)
     && (k + Z.of_nat j <? pos + clen a)
  then cnth a (k + Z.of_nat j - pos) else nth j s NUL.
Proof.
  revert k j; induction s as [|c s IH]; intros k j.
  - simpl. destruct j; reflexivity.
  - destruct j as [|j].
    + cbn [overwrite_from nth List.length Nat.ltb Nat.leb].
      replace (k + Z.of_nat 0) with k by lia.
      destruct ((pos <=? k) && (k <? pos + clen a)) eqn:E.
      * rewrite andb_true_l, E. reflexivity.
      * rewrite andb_true_l, E. reflexivity.
    + cbn [overwrite_from nth List.length]. rewrite IH.
      replace (k + 1 + Z.of_nat j) with (k + Z.of_nat (S j)) by lia.
      reflexivity.
Qed.

Lemma cnth_nth (s : cstr) (i : Z) :
  0 <= i -> cnth s i = nth (Z.to_nat i) s NUL.
Proof.
  intros H. unfold cnth. destruct (i <? 0) eqn:E; [lia|reflexivity].
Qed.



Lemma zlen_app {A : Type} (l l' : list A) : zlen (l ++ l') = zlen l + zlen l'.
Proof. unfold zlen. rewrite length_app. lia. Qed.

Lemma zlen_nonneg {A : Type} (l : list A) : 0 <= zlen l.
Proof. unfold zlen. lia. Qed.

Lemma zlen_zfirstn {A : Type} (n : Z) (l : list A) :
  0 <= n <= zlen l -> zlen (zfirstn n l) = n.
Proof.
  intros H. unfold zlen, zfirstn in *. rewrite length_firstn. lia.
Qed.

Lemma zlen_zskipn {A : Type} (n : Z) (l : list A) :
  0 <= n <= zlen l -> zlen (zskipn n l) = zlen l - n.
Proof.
  intros H. unfold zlen, zskipn in *. rewrite length_skipn. lia.
Qed.








End AltBuilderFacts.



(* ===================================================================== *)
(** * Properties of the command line *)
(* ===================================================================== *)

Section CommandLineFacts.

Variables vcf bam fa : cstr.

(** The options of [eagle -v vcf -a bam -r fa], and the same with
    [-b optarg]. *)
Definition required_opts : list GetOpt :=
  [Short "v" vcf; Short "a" bam; Short "r" fa].

Definition hetbias_opts (optarg : cstr) : list GetOpt :=
  required_opts ++ [Short "b" optarg].

(** The check [if (hetbias < 0 || hetbias > 1) hetbias = 0.5] on a value
    converted from an [int]. *)
Lemma hetbias_check (n : Z) :
  (if (of_int n <? Fin 0)%D || (of_int n >? Fin 1)%D then Fin (1 / 2) else of_int n)
  = if (0 <=? n) && (n <=? 1) then of_int n else Fin (1 / 2).
Proof.
  unfold of_int, dltb. cbn [dgtb].
  destruct (Rlt_dec (IZR n) 0) as [H0|H0]; cbn [orb].
  - apply lt_IZR in H0.
    assert (E : (0 <=? n) = false) by (apply Z.leb_gt; lia).
    rewrite E. reflexivity.
  - assert (E : (0 <=? n) = true).
    { apply Z.leb_le. destruct (Z_lt_le_dec n 0) as [Hlt|Hle]; [|exact Hle].
      apply IZR_lt in Hlt. contradiction. }
    rewrite E. cbn [andb].
    destruct (Rlt_dec 1 (IZR n)) as [H1|H1].
    + apply lt_IZR in H1.
      assert (E1 : (n <=? 1) = false) by (apply Z.leb_gt; lia).
      rewrite E1. reflexivity.
    + assert (E1 : (n <=? 1) = true).
      { apply Z.leb_le. destruct (Z_lt_le_dec 1 n) as [Hlt|Hle]; [|lia].
        apply IZR_lt in Hlt. contradiction. }
      rewrite E1. reflexivity.
Qed.

Lemma main_args_hetbias (optarg : cstr) :
  main_args (hetbias_opts optarg) =
  num <- parse_num optarg ;;
  Done {| numproc := 1; distlim := 10; maxh := 1024; mvh := false;
          hetbias := if (0 <=? num) && (num <=? 1) then of_int num else Fin (1 / 2);
          pao := false; debug := false |}.
Proof.
  unfold main_args, hetbias_opts, required_opts. cbn [app foldM main_option].
  cbn [Ascii.eqb Bool.eqb orb andb bind set_file].
  destruct (parse_num optarg) as [num| | |]; try reflexivity.
  cbn [bind foldM set_num cli_defaults vcf_file bam_file fa_file out_file
       cli_numproc cli_distlim cli_maxh cli_mvh cli_hetbias cli_pao cli_debug].
  destruct (ascii_dec "b" "v"), (ascii_dec "b" "a"), (ascii_dec "b" "r");
    try discriminate.
  destruct (ascii_dec "b" "t"), (ascii_dec "b" "n"), (ascii_dec "b" "m");
    try discriminate.
  destruct (ascii_dec "b" "b") as [_|Hne]; [|contradiction Hne; reflexivity].
  rewrite hetbias_check. reflexivity.
Qed.

(** C5, as the code has it.  Without [-b] the bias is 0.5.  With [-b] the
    argument goes through [parse_num]; an integer outside of [0, 1] is no
    bad option: the run goes on with the bias 0.5, and the integers 0 and 1
    are taken as they are.  No argument of [-b] leads to the usage exit. *)
Theorem hetbias_option :
  (exists args, main_args required_opts = Done args /\ hetbias args = Fin (1 / 2))
  /\ (forall (optarg : cstr) (num : Z),
        parse_num optarg = Done num ->
        exists args,
          main_args (hetbias_opts optarg) = Done args
          /\ hetbias args =
             if (0 <=? num) && (num <=? 1) then of_int num else Fin (1 / 2))
  /\ (forall (optarg : cstr) (msg : string),
        main_args (hetbias_opts optarg) <> ExitUsage msg).
Proof.
  split; [|split].
  - eexists. split; [reflexivity|]. cbn.
    destruct (Rlt_dec (1 / 2) 0); [lra|]. destruct (Rlt_dec 1 (1 / 2)); [lra|].
    reflexivity.
  - intros optarg num Hnum. rewrite main_args_hetbias, Hnum. cbn [bind].
    eexists. split; reflexivity.
  - intros optarg msg. rewrite main_args_hetbias.
    unfold parse_num. destruct (strtol0 optarg) as [num [[|c rest]|]];
      cbn [bind]; discriminate.
Qed.

End CommandLineFacts.

Lemma hetbias_option_witness :
  parse_num (cs "1") = Done 1
  /\ exists args,
       main_args (hetbias_opts (cs "in.vcf") (cs "in.bam") (cs "ref.fa") (cs "1"))
       = Done args
       /\ hetbias args = of_int 1.
Proof.
  assert (H : parse_num (cs "1") = Done 1) by reflexivity.
  split; [exact H|].
  exact (proj1 (proj2 (hetbias_option (cs "in.vcf") (cs "in.bam") (cs "ref.fa")))
           (cs "1") 1 H).
Defined.

(** C5 as stated fails on [-b 2]: the value is out of range, and the run
    goes on with the bias 0.5 instead of the usage exit. *)
Lemma hetbias_out_of_range_is_no_bad_option :
  main_args (hetbias_opts (cs "in.vcf") (cs "in.bam") (cs "ref.fa") (cs "2"))
  = Done {| numproc := 1; distlim := 10; maxh := 1024; mvh := false;
            hetbias := Fin (1 / 2); pao := false; debug := false |}
  /\ forall msg : string,
       main_args (hetbias_opts (cs "in.vcf") (cs "in.bam") (cs "ref.fa") (cs "2"))
       <> ExitUsage msg.
Proof.
  assert (H : main_args (hetbias_opts (cs "in.vcf") (cs "in.bam") (cs "ref.fa") (cs "2"))
              = Done {| numproc := 1; distlim := 10; maxh := 1024; mvh := false;
                        hetbias := Fin (1 / 2); pao := false; debug := false |}).
  { rewrite main_args_hetbias. reflexivity. }
  split; [exact H|]. intros msg. rewrite H. discriminate.
Qed.

(** The argument of [-b] is read by [strtol]: on [0.3] the conversion
    leaves [.3] and the process exits. *)
Lemma hetbias_fraction_exits :
  main_args (hetbias_opts (cs "in.vcf") (cs "in.bam") (cs "ref.fa") (cs "0.3"))
  = ExitErr "failed to convert to int with leftover string".
Proof. rewrite main_args_hetbias. reflexivity. Qed.

(* ===================================================================== *)
(** * Properties of the Grouper *)
(* ===================================================================== *)

(** Every two consecutive elements of [l] are related by [R]. *)
Fixpoint chain (R : Variant -> Variant -> Prop) (l : list Variant) : Prop :=
  match l with
  | [] => True
  | a :: tl =>
      match tl with
      | [] => True
      | b :: _ => R a b /\ chain R tl
      end
  end.

(** Consecutive variants of the sorted input: on one chromosome the
    positions do not decrease. *)
Definition in_order (a b : Variant) : Prop :=
  v_chr b = v_chr a -> v_pos a <= v_pos b.

(** Consecutive variants of a hypothesis set. *)
Definition near (dlim : Z) (a b : Variant) : Prop :=
  v_chr b = v_chr a /\ Z.abs (v_pos b - v_pos a) <= dlim.

(** Both at once: the same chromosome, and the next position is at least
    this one and at most [dlim] further. *)
Definition follows (dlim : Z) (a b : Variant) : Prop :=
  v_chr b = v_chr a /\ v_pos a <= v_pos b <= v_pos a + dlim.

Definition before (a b : Variant) : Prop := v_pos a < v_pos b.

Section ChainFacts.

Variable R : Variant -> Variant -> Prop.

Lemma chain_cons (a b : Variant) (l : list Variant) :
  chain R (a :: b :: l) <-> R a b /\ chain R (b :: l).
Proof. reflexivity. Qed.

Lemma chain_tail (a : Variant) (l : list Variant) : chain R (a :: l) -> chain R l.
Proof. destruct l as [|b l]; [trivial|]. intros [_ H]; exact H. Qed.

Lemma chain_app (l1 l2 : list Variant) (a : Variant) :
  chain R (l1 ++ a :: l2) <-> chain R (l1 ++ [a]) /\ chain R (a :: l2).
Proof.
  induction l1 as [|x l1 IH].
  - simpl. tauto.
  - destruct l1 as [|y l1].
    + simpl. destruct l2; tauto.
    + change ((x :: y :: l1) ++ a :: l2) with (x :: y :: (l1 ++ a :: l2)).
      change ((x :: y :: l1) ++ [a]) with (x :: y :: (l1 ++ [a])).
      rewrite !chain_cons.
      change (y :: l1 ++ a :: l2) with ((y :: l1) ++ a :: l2).
      change (y :: l1 ++ [a]) with ((y :: l1) ++ [a]).
      rewrite IH. tauto.
Qed.

End ChainFacts.

Lemma chain_impl (R S : Variant -> Variant -> Prop) (l : list Variant) :
  (forall a b, R a b -> S a b) -> chain R l -> chain S l.
Proof.
  intros HRS. induction l as [|a l IH]; [trivial|].
  destruct l as [|b l]; [trivial|]. intros [H1 H2]. split; auto.
Qed.

(** [R] looks at the chromosome and the position of its arguments only. *)
Definition by_locus (R : Variant -> Variant -> Prop) : Prop :=
  forall a a' b b',
    v_chr a = v_chr a' -> v_pos a = v_pos a' ->
    v_chr b = v_chr b' -> v_pos b = v_pos b' -> R a b -> R a' b'.

Lemma follows_by_locus (dlim : Z) : by_locus (follows dlim).
Proof.
  intros a a' b b' Hc Hp Hc' Hp' [H1 H2]. unfold follows.
  rewrite <- Hc, <- Hc', <- Hp, <- Hp'. split; assumption.
Qed.

(** The last element of a chain replaced by one of the same locus. *)
Lemma chain_replace_last (R : Variant -> Variant -> Prop) (l : list Variant)
    (a b : Variant) :
  by_locus R -> v_chr a = v_chr b -> v_pos a = v_pos b ->
  chain R (l ++ [a]) -> chain R (l ++ [b]).
Proof.
  intros HR Hc Hp. induction l as [|x l IH]; [trivial|].
  destruct l as [|y l].
  - simpl. intros [H _]. split; [|trivial]. eapply HR; eauto.
  - change ((x :: y :: l) ++ [a]) with (x :: (y :: l) ++ [a]).
    change ((x :: y :: l) ++ [b]) with (x :: (y :: l) ++ [b]).
    change ((y :: l) ++ [a]) with (y :: l ++ [a]) at 1.
    change ((y :: l) ++ [b]) with (y :: l ++ [b]) at 1.
    rewrite !chain_cons. intros [H1 H2]. split; [exact H1|].
    apply IH. exact H2.
Qed.

Lemma chain_replace_head (R : Variant -> Variant -> Prop) (l : list Variant)
    (a b : Variant) :
  by_locus R -> v_chr a = v_chr b -> v_pos a = v_pos b ->
  chain R (a :: l) -> chain R (b :: l).
Proof.
  intros HR Hc Hp. destruct l as [|y l]; [trivial|].
  intros [H1 H2]. split; [|exact H2]. eapply HR; eauto.
Qed.

Section SplitScanFacts.

Variable dlim : Z.

Let asc := chain (follows dlim).

(** Both sets that a pair at one position yields are chains again. *)
Lemma split_pair_chains (pre rest : list Variant) (curr next : Variant) :
  v_pos curr = v_pos next ->
  asc (pre ++ curr :: next :: rest) ->
  asc (pre ++ curr :: rest) /\ asc (pre ++ next :: rest).
Proof.
  intros Hp H. unfold asc in *.
  apply chain_app in H as [Hpre Htl].
  destruct Htl as [Hcn Hrest].
  assert (Hc : v_chr curr = v_chr next) by (destruct Hcn as [Hc _]; auto).
  split; apply chain_app; split.
  - exact Hpre.
  - apply chain_replace_head with next; auto using follows_by_locus.
  - apply chain_replace_last with curr; auto using follows_by_locus.
  - exact Hrest.
Qed.

Lemma split_scan_chains (s pre : list Variant) :
  asc (pre ++ s) ->
  asc (fst (split_scan pre s)) /\ Forall asc (snd (split_scan pre s)).
Proof.
  remember (List.length s) as n eqn:Hn.
  revert s pre Hn. induction n as [n IH] using lt_wf_ind. intros s pre Hn H.
  destruct s as [|curr [|next rest]].
  - simpl. rewrite app_nil_r in H. split; [exact H|constructor].
  - simpl. split; [exact H|constructor].
  - cbn [split_scan]. destruct (v_pos curr =? v_pos next) eqn:E.
    + apply Z.eqb_eq in E. destruct (split_pair_chains _ _ _ _ E H) as [Hdup Horig].
      specialize (IH (List.length rest) ltac:(subst n; simpl; lia) rest
                     (pre ++ [next]) eq_refl).
      rewrite <- app_assoc in IH. specialize (IH Horig).
      destruct (split_scan (pre ++ [next]) rest) as [orig dups].
      cbn [fst snd] in *. destruct IH as [IH1 IH2]. split; [exact IH1|].
      constructor; assumption.
    + specialize (IH (List.length (next :: rest)) ltac:(subst n; simpl; lia)
                     (next :: rest) (pre ++ [curr]) eq_refl).
      rewrite <- app_assoc in IH. apply IH. exact H.
Qed.

Lemma split_scan_nonempty (s pre : list Variant) :
  pre ++ s <> [] ->
  fst (split_scan pre s) <> [] /\ Forall (fun d => d <> []) (snd (split_scan pre s)).
Proof.
  remember (List.length s) as n eqn:Hn.
  revert s pre Hn. induction n as [n IH] using lt_wf_ind. intros s pre Hn H.
  destruct s as [|curr [|next rest]].
  - simpl. rewrite app_nil_r in H. split; [exact H|constructor].
  - simpl. split; [exact H|constructor].
  - cbn [split_scan]. destruct (v_pos curr =? v_pos next) eqn:E.
    + specialize (IH (List.length rest) ltac:(subst n; simpl; lia) rest
                     (pre ++ [next]) eq_refl).
      assert (Hne : (pre ++ [next]) ++ rest <> []) by (destruct pre; discriminate).
      specialize (IH Hne).
      destruct (split_scan (pre ++ [next]) rest) as [orig dups].
      cbn [fst snd] in *. destruct IH as [IH1 IH2]. split; [exact IH1|].
      constructor; [destruct pre; discriminate|assumption].
    + apply (IH (List.length (next :: rest)) ltac:(subst n; simpl; lia)
                (next :: rest) (pre ++ [curr]) eq_refl).
      destruct pre; discriminate.
Qed.

(** A scan that creates no duplicate leaves the set as it was, and the
    part scanned has no two consecutive entries at one position. *)
Lemma split_scan_quiet (s pre : list Variant) :
  snd (split_scan pre s) = [] ->
  fst (split_scan pre s) = pre ++ s /\ chain (fun a b => v_pos a <> v_pos b) s.
Proof.
  remember (List.length s) as n eqn:Hn.
  revert s pre Hn. induction n as [n IH] using lt_wf_ind. intros s pre Hn.
  destruct s as [|curr [|next rest]].
  - simpl. rewrite app_nil_r. auto.
  - simpl. auto.
  - cbn [split_scan]. destruct (v_pos curr =? v_pos next) eqn:E.
    + destruct (split_scan (pre ++ [next]) rest). simpl. discriminate.
    + intros H.
      destruct (IH (List.length (next :: rest)) ltac:(subst n; simpl; lia)
                   (next :: rest) (pre ++ [curr]) eq_refl H) as [H1 H2].
      rewrite <- app_assoc in H1. split; [exact H1|].
      apply Z.eqb_neq in E. split; assumption.
Qed.

End SplitScanFacts.

Section GroupFacts.

Variable dlim : Z.

Lemma take_set_app (prev : Variant) (rest : list Variant) :
  rest = fst (take_set dlim prev rest) ++ snd (take_set dlim prev rest).
Proof.
  revert prev; induction rest as [|v rest IH]; intros prev; [reflexivity|].
  cbn [take_set]. destruct (_ && _ && _); [|reflexivity].
  specialize (IH v). destruct (take_set dlim v rest) as [s r].
  cbn [fst snd] in *. simpl. f_equal. exact IH.
Qed.

Lemma take_set_chain (prev : Variant) (rest : list Variant) :
  chain in_order (prev :: rest) ->
  chain (follows dlim) (prev :: fst (take_set dlim prev rest))
  /\ chain in_order (snd (take_set dlim prev rest)).
Proof.
  revert prev; induction rest as [|v rest IH]; intros prev H.
  - simpl. auto.
  - cbn [take_set]. destruct (_ && _ && _) eqn:E.
    + destruct H as [Hord Htl]. specialize (IH v Htl).
      destruct (take_set dlim v rest) as [s r]. cbn [fst snd] in *.
      destruct IH as [IH1 IH2]. split; [|exact IH2].
      split; [|exact IH1].
      apply andb_prop in E as [E1 E3]. apply andb_prop in E1 as [_ E2].
      apply String.eqb_eq in E2. apply Z.leb_le in E3.
      specialize (Hord E2). split; [exact E2|]. lia.
    + cbn [fst snd]. split; [exact I|]. apply chain_tail in H. exact H.
Qed.

Lemma take_set_off (prev : Variant) (rest : list Variant) :
  dlim <= 0 -> take_set dlim prev rest = ([], rest).
Proof.
  intros Hd. destruct rest as [|v rest]; [reflexivity|].
  cbn [take_set].
  assert (E : (dlim >? 0) = false) by (rewrite Z.gtb_ltb; apply Z.ltb_ge; lia).
  rewrite E. reflexivity.
Qed.

(** The sets of the grouping, in order, make up the list. *)
Lemma group_sets_concat (varlist : list Variant) :
  List.concat (group_sets dlim varlist) = varlist.
Proof.
  funelim (group_sets dlim varlist); [reflexivity|].
  simp group_sets. cbn [List.concat]. rewrite H. cbn [app]. f_equal.
  symmetry. apply take_set_app.
Qed.

Lemma group_sets_chains (varlist : list Variant) :
  chain in_order varlist ->
  Forall (fun s => s <> [] /\ chain (follows dlim) s) (group_sets dlim varlist).
Proof.
  funelim (group_sets dlim varlist); intros Hord; simp group_sets; [constructor|].
  destruct (take_set_chain _ _ Hord) as [H1 H2].
  constructor; [split; [discriminate|exact H1]|]. apply H. exact H2.
Qed.

Lemma group_sets_off (varlist : list Variant) :
  dlim <= 0 -> group_sets dlim varlist = map (fun v => [v]) varlist.
Proof.
  intros Hd. induction varlist as [|v rest IH]; simp group_sets; [reflexivity|].
  rewrite take_set_off by exact Hd. cbn [fst snd map]. rewrite IH. reflexivity.
Qed.

Let good (s : list Variant) : Prop := s <> [] /\ chain (follows dlim) s.

Lemma split_pass_good (capacity : Z) (var_set var_set' : list (list Variant))
    (flag : bool) :
  Forall good var_set ->
  split_pass capacity var_set = Done (var_set', flag) ->
  Forall good var_set'.
Proof.
  intros Hgood. unfold split_pass. destruct (_ >? _); [discriminate|].
  intros [= <- _]. apply Forall_app. split.
  - rewrite map_map. apply Forall_map.
    eapply Forall_impl; [|exact Hgood]. intros s [Hne Hch]. split.
    + apply split_scan_nonempty. exact Hne.
    + apply (split_scan_chains dlim s []). exact Hch.
  - apply Forall_concat. rewrite map_map. apply Forall_map.
    eapply Forall_impl; [|exact Hgood]. intros s [Hne Hch].
    apply Forall_forall. intros d Hd. split.
    + pose proof (proj2 (split_scan_nonempty s [] Hne)) as Hn.
      rewrite Forall_forall in Hn. apply Hn. exact Hd.
    + pose proof (proj2 (split_scan_chains dlim s [] Hch)) as Hc.
      rewrite Forall_forall in Hc. apply Hc. exact Hd.
Qed.

(** The round that ends the loop changes nothing, and finds no two
    consecutive entries at one position. *)
Lemma split_pass_quiet (capacity : Z) (var_set var_set' : list (list Variant)) :
  split_pass capacity var_set = Done (var_set', false) ->
  var_set' = var_set
  /\ Forall (chain (fun a b => v_pos a <> v_pos b)) var_set.
Proof.
  unfold split_pass. destruct (_ >? _); [discriminate|].
  intros [= <- Hflag]. apply negb_false_iff, Z.eqb_eq in Hflag.
  assert (Hd : List.concat (map snd (map (split_scan []) var_set)) = []).
  { destruct (List.concat _); [reflexivity|]. unfold zlen in Hflag. simpl in Hflag. lia. }
  rewrite Hd, app_nil_r. clear Hflag.
  induction var_set as [|s l IH]; [split; [reflexivity|constructor]|].
  cbn [map List.concat] in Hd. apply app_eq_nil in Hd as [Hs Hl].
  destruct (IH Hl) as [IH1 IH2].
  destruct (split_scan_quiet s [] Hs) as [H1 H2].
  split.
  - cbn [map]. rewrite IH1, H1. reflexivity.
  - constructor; assumption.
Qed.

Lemma split_loop_good (capacity : Z) (var_set sets : list (list Variant)) :
  Forall good var_set ->
  split_loop capacity var_set = Done sets ->
  Forall (fun s => good s /\ chain (fun a b => v_pos a <> v_pos b) s) sets.
Proof.
  funelim (split_loop capacity var_set); intros Hgood Hrun; try discriminate.
  - apply H; [|exact Hrun]. eapply split_pass_good; eassumption.
  - injection Hrun as <-.
    destruct (split_pass_quiet _ _ E) as [-> Hq].
    rewrite Forall_forall in *. intros s Hs. split; auto.
Qed.

End GroupFacts.

Lemma chain_both (R S : Variant -> Variant -> Prop) (l : list Variant) :
  chain R l -> chain S l -> chain (fun a b => R a b /\ S a b) l.
Proof.
  induction l as [|a l IH]; [trivial|]. destruct l as [|b l]; [trivial|].
  intros [H1 H2] [H3 H4]. split; auto.
Qed.

Lemma chain_split (R : Variant -> Variant -> Prop) (l1 l2 : list Variant) :
  chain R (l1 ++ l2) -> chain R l1 /\ chain R l2.
Proof.
  destruct l2 as [|a l2].
  - rewrite app_nil_r. simpl. auto.
  - intros H. apply chain_app in H as [H1 H2]. split; [|exact H2].
    clear H2. induction l1 as [|x l1 IH]; [exact I|].
    destruct l1 as [|y l1]; [exact I|].
    destruct H1 as [H1 H2]. split; [exact H1|]. apply IH. exact H2.
Qed.

Lemma chain_before_head (a : Variant) (l : list Variant) :
  chain before (a :: l) -> Forall (fun x => v_pos a < v_pos x) l.
Proof.
  revert a; induction l as [|b l IH]; intros a H; constructor.
  - destruct H as [H _]. exact H.
  - destruct H as [Hab Hl]. specialize (IH b Hl).
    eapply Forall_impl; [|exact IH]. unfold before in Hab. intros x Hx. simpl in Hx. lia.
Qed.

Lemma chain_before_NoDup (l : list Variant) :
  chain before l -> NoDup (map v_pos l).
Proof.
  induction l as [|a l IH]; intros H; [constructor|].
  cbn [map]. constructor.
  - intros Hin. apply in_map_iff in Hin as (x & Hx & Hin).
    pose proof (@chain_before_head _ _ H) as Hall.
    rewrite Forall_forall in Hall. specialize (Hall x Hin). lia.
  - apply IH. apply chain_tail in H. exact H.
Qed.

(** C7.  On a list in which the positions do not decrease along a
    chromosome, every set that the grouping and the same-position splitting
    leave has its consecutive variants on one chromosome and at most
    [distlim] apart, has no two entries at one position, and is a singleton
    when [distlim] is 0. *)
Theorem grouper_invariants (dlim : Z) (varlist : list Variant)
    (sets : list (list Variant)) :
  chain in_order varlist ->
  hypothesis_sets dlim varlist = Done sets ->
  Forall (fun s => chain (near dlim) s
                   /\ NoDup (map v_pos s)
                   /\ (dlim = 0 -> List.length s = 1%nat)) sets.
Proof.
  intros Hord Hrun. unfold hypothesis_sets in Hrun.
  pose proof (@split_loop_good dlim _ _ _ (@group_sets_chains dlim _ Hord) Hrun) as H.
  eapply Forall_impl; [|exact H]. clear. intros s [[Hne Hch] Hdiff].
  pose proof (@chain_both _ _ _ Hch Hdiff) as Hboth. split; [|split].
  - eapply chain_impl; [|exact Hch]. intros a b [Hc Hp]. split; [exact Hc|lia].
  - apply chain_before_NoDup. eapply chain_impl; [|exact Hboth].
    intros a b [[_ Hp] Hd]. unfold before. lia.
  - intros ->. destruct s as [|a [|b s]]; [contradiction|reflexivity|].
    destruct Hboth as [[[_ Hp] Hd] _]. lia.
Qed.

Section GrouperTotal.

Variable dlim : Z.

Lemma split_scan_step (pre rest : list Variant) (curr next : Variant) :
  split_scan pre (curr :: next :: rest) =
  if v_pos curr =? v_pos next then
    (fst (split_scan (pre ++ [next]) rest),
     (pre ++ curr :: rest) :: snd (split_scan (pre ++ [next]) rest))
  else split_scan (pre ++ [curr]) (next :: rest).
Proof.
  cbn [split_scan]. destruct (v_pos curr =? v_pos next); [|reflexivity].
  destruct (split_scan (pre ++ [next]) rest). reflexivity.
Qed.

Lemma split_scan_distinct (s pre : list Variant) :
  chain (fun a b => v_pos a <> v_pos b) s -> split_scan pre s = (pre ++ s, []).
Proof.
  revert pre; induction s as [|curr s IH]; intros pre H.
  - simpl. rewrite app_nil_r. reflexivity.
  - destruct s as [|next rest]; [reflexivity|].
    rewrite split_scan_step. destruct H as [Hne Htl].
    apply Z.eqb_neq in Hne. rewrite Hne, IH by exact Htl.
    rewrite <- app_assoc. reflexivity.
Qed.

Lemma group_sets_distinct (varlist : list Variant) :
  chain (fun a b => v_pos a <> v_pos b) varlist ->
  Forall (chain (fun a b => v_pos a <> v_pos b)) (group_sets dlim varlist).
Proof.
  funelim (group_sets dlim varlist); intros Hd; simp group_sets; [constructor|].
  rewrite (take_set_app dlim v rest) in Hd.
  change (v :: fst (take_set dlim v rest) ++ snd (take_set dlim v rest))
    with ((v :: fst (take_set dlim v rest)) ++ snd (take_set dlim v rest)) in Hd.
  apply chain_split in Hd as [H1 H2]. constructor; [exact H1|]. apply H. exact H2.
Qed.

Lemma group_sets_length (varlist : list Variant) :
  (List.length (group_sets dlim varlist) <= List.length varlist)%nat.
Proof.
  funelim (group_sets dlim varlist); simp group_sets; [simpl; lia|].
  pose proof (take_set_length dlim v rest). simpl. lia.
Qed.

Lemma split_loop_last (capacity : Z) (var_set var_set' : list (list Variant)) :
  split_pass capacity var_set = Done (var_set', false) ->
  split_loop capacity var_set = Done var_set'.
Proof.
  funelim (split_loop capacity var_set); intros Hp; congruence.
Qed.

(** Without two consecutive variants at one position the splitting has
    nothing to do, and the sets are those of the grouping. *)
Lemma hypothesis_sets_distinct (varlist : list Variant) :
  chain (fun a b => v_pos a <> v_pos b) varlist ->
  hypothesis_sets dlim varlist = Done (group_sets dlim varlist).
Proof.
  intros Hd. unfold hypothesis_sets.
  pose proof (@group_sets_distinct _ Hd) as Hall.
  pose proof (group_sets_length varlist) as Hlen.
  assert (Hpass : split_pass (zlen varlist * 2) (group_sets dlim varlist)
                  = Done (group_sets dlim varlist, false)).
  { unfold split_pass.
    assert (Hscan : map (split_scan []) (group_sets dlim varlist)
                    = map (fun s => (s, [])) (group_sets dlim varlist)).
    { apply map_ext_in. intros s Hs. rewrite Forall_forall in Hall.
      apply split_scan_distinct. apply Hall. exact Hs. }
    rewrite Hscan, !map_map. cbn [fst snd].
    assert (Hnil : List.concat (map (fun _ : list Variant => @nil (list Variant))
                                  (group_sets dlim varlist)) = []).
    { clear. induction (group_sets dlim varlist); [reflexivity|simpl; assumption]. }
    rewrite Hnil, map_id, app_nil_r.
    assert (E : (zlen (group_sets dlim varlist) + zlen (@nil (list Variant))
                 >? zlen varlist * 2) = false).
    { rewrite Z.gtb_ltb. apply Z.ltb_ge. unfold zlen. simpl. lia. }
    rewrite E. reflexivity. }
  apply split_loop_last. exact Hpass.
Qed.

End GrouperTotal.

Definition snv (chr : string) (pos : Z) (r a : string) : Variant :=
  {| v_chr := chr; v_pos := pos; v_ref := cs r; v_alt := cs a |}.

Lemma grouper_invariants_witness :
  hypothesis_sets 10
    [snv "chr1" 100 "A" "T"; snv "chr1" 100 "A" "G"; snv "chr1" 105 "C" "G"]
  = Done [[snv "chr1" 100 "A" "G"; snv "chr1" 105 "C" "G"];
          [snv "chr1" 100 "A" "T"; snv "chr1" 105 "C" "G"]]
  /\ Forall (fun s => chain (near 10) s /\ NoDup (map v_pos s)
                      /\ (10 = 0 -> List.length s = 1%nat))
       [[snv "chr1" 100 "A" "G"; snv "chr1" 105 "C" "G"];
        [snv "chr1" 100 "A" "T"; snv "chr1" 105 "C" "G"]].
Proof.
  assert (Hrun : hypothesis_sets 10
            [snv "chr1" 100 "A" "T"; snv "chr1" 100 "A" "G"; snv "chr1" 105 "C" "G"]
          = Done [[snv "chr1" 100 "A" "G"; snv "chr1" 105 "C" "G"];
                  [snv "chr1" 100 "A" "T"; snv "chr1" 105 "C" "G"]])
    by reflexivity.
  assert (Hord : chain in_order
            [snv "chr1" 100 "A" "T"; snv "chr1" 100 "A" "G"; snv "chr1" 105 "C" "G"]).
  { unfold in_order. simpl. repeat split; intros _; lia. }
  split; [exact Hrun|].
  exact (@grouper_invariants 10 _ _ Hord Hrun).
Defined.

(* ===================================================================== *)
(** * Properties of the output *)
(* ===================================================================== *)

(** The variant that a line names in its first four fields. *)
Definition line_variant (l : Line) : Variant :=
  {| v_chr := l_chr l; v_pos := l_pos l; v_ref := l_ref l; v_alt := l_alt l |}.

(** The region of the set has reads in the BAM file. *)
Definition has_reads (files : Files) (var_set : list Variant) : bool :=
  negb (zlen (fetch_reads files (region_of var_set)) =? 0).

(** [qsort] permutes the blocks. *)
Definition sorts (files : Files) : Prop :=
  forall results : list Block, Permutation (qsort_results files results) results.

Ltac invert_bind H :=
  match type of H with
  | bind ?m _ = _ =>
      let E := fresh "E" in
      destruct m eqn:E; cbn [bind] in H; try discriminate H
  end.

Section OutputFacts.

Variables (args : Args) (files : Files).

Lemma line_variant_print (var_vector : list Variant) (v : Variant)
    (read_count has_alt_count : Z) (total has_alt not_alt : double) :
  line_variant
    (print_variant var_vector v read_count has_alt_count total has_alt not_alt) = v.
Proof. destruct v. reflexivity. Qed.

Lemma marginal_lines_variants (var_vector : list Variant) (ref : double)
    (rows : list ComboRow) :
  map line_variant (marginal_lines var_vector ref rows) = var_vector.
Proof.
  unfold marginal_lines. rewrite map_map.
  rewrite <- (map_id var_vector) at 2. apply map_ext. intros v.
  destruct (marginal_variant ref rows v) as [[has_alt not_alt] has_alt_count].
  apply line_variant_print.
Qed.

(** The block of a set is the marginal lines of some accumulators, and it
    exists exactly when the region has reads. *)
Lemma evaluate_variants_block (var_vector : list Variant) (block : Block) :
  evaluate_variants args files var_vector = Done (Some block) ->
  has_reads files var_vector = true
  /\ exists (ref : double) (rows : list ComboRow),
       block = marginal_lines var_vector ref rows.
Proof.
  unfold evaluate_variants, has_reads. destruct var_vector as [|first rest];
    [discriminate|].
  destruct (zlen (fetch_reads files _) =? 0); [discriminate|].
  destruct (powerset _ _ _) as [combo ncombos].
  intros H. invert_bind H.
  destruct (fetch_refseq files (v_chr first)) as [f|]; [|discriminate].
  destruct (priors _ _ _) as [alt_prior het_prior].
  invert_bind H. injection H as <-. split; [reflexivity|]. eauto.
Qed.

Lemma evaluate_variants_none (var_vector : list Variant) :
  evaluate_variants args files var_vector = Done None ->
  has_reads files var_vector = false.
Proof.
  unfold evaluate_variants, has_reads. destruct var_vector as [|first rest];
    [discriminate|].
  destruct (zlen (fetch_reads files _) =? 0); [reflexivity|].
  destruct (powerset _ _ _) as [combo ncombos].
  intros H. invert_bind H.
  destruct (fetch_refseq files (v_chr first)) as [f|]; [|discriminate].
  destruct (priors _ _ _) as [alt_prior het_prior].
  invert_bind H.
Qed.

(** The variants named by the lines of the results are those of the sets
    with reads, in the order in which the queue is drained. *)
Lemma pool_lines (queue : list (list Variant)) (results0 results : list Block) :
  foldM (pool_step args files) queue results0 = Done results ->
  map line_variant (List.concat results)
  = map line_variant (List.concat results0)
    ++ List.concat (filter (has_reads files) queue).
Proof.
  revert results0; induction queue as [|s queue IH]; intros results0 H.
  - injection H as <-. rewrite app_nil_r. reflexivity.
  - cbn [foldM] in H. invert_bind H. unfold pool_step in E. invert_bind E.
    cbn [filter]. destruct a0 as [block|].
    + injection E as <-.
      destruct (evaluate_variants_block _ E0) as (Hreads & ref & rows & ->).
      rewrite Hreads. rewrite (IH _ H), concat_app, map_app.
      cbn [List.concat]. rewrite app_nil_r, marginal_lines_variants.
      rewrite <- app_assoc. reflexivity.
    + injection E as <-. rewrite (evaluate_variants_none _ E0). apply IH. exact H.
Qed.

Lemma concat_filter_rev {A : Type} (p : list A -> bool) (l : list (list A)) :
  Permutation (List.concat (filter p (rev l))) (List.concat (filter p l)).
Proof.
  induction l as [|x l IH]; [reflexivity|].
  cbn [rev]. rewrite filter_app, concat_app. cbn [filter].
  destruct (p x); cbn [List.concat].
  - rewrite app_nil_r. rewrite Permutation_app_comm.
    apply Permutation_app_head. exact IH.
  - rewrite app_nil_r. exact IH.
Qed.

Lemma Permutation_concat {A : Type} (l l' : list (list A)) :
  Permutation l l' -> Permutation (List.concat l) (List.concat l').
Proof.
  induction 1 as [|x l l' _ IH|x y l|l l' l'' _ IH1 _ IH2]; cbn [List.concat].
  - reflexivity.
  - apply Permutation_app_head. exact IH.
  - rewrite !app_assoc. apply Permutation_app_tail. apply Permutation_app_comm.
  - etransitivity; eassumption.
Qed.

(** C1, as the code has it.  When the run completes, the data lines name
    the variants of the hypothesis sets whose region has reads, each variant
    of such a set on one line for this set; a set without reads has no
    line.  If moreover no two consecutive input variants have one position
    and every set has reads, the lines name the input variants, each
    once. *)
Theorem lines_of_sets_with_reads (var_vector : list Variant) (blocks : list Block) :
  sorts files ->
  process_variants args files var_vector = Done blocks ->
  exists sets : list (list Variant),
    hypothesis_sets (distlim args) var_vector = Done sets
    /\ Permutation (map line_variant (List.concat blocks))
         (List.concat (filter (has_reads files) sets))
    /\ (chain (fun a b => v_pos a <> v_pos b) var_vector ->
        (forall s, In s sets -> has_reads files s = true) ->
        Permutation (map line_variant (List.concat blocks)) var_vector).
Proof.
  intros Hsort H. unfold process_variants in H.
  invert_bind H. invert_bind H. injection H as <-.
  rename a into sets, a0 into results.
  exists sets. split; [reflexivity|].
  assert (HP : Permutation (map line_variant (List.concat (qsort_results files results)))
                 (List.concat (filter (has_reads files) sets))).
  { etransitivity.
    - apply Permutation_map, Permutation_concat, Hsort.
    - unfold pool in E0. rewrite (pool_lines _ _ E0). cbn [List.concat map app].
      apply concat_filter_rev. }
  split; [exact HP|].
  intros Hdistinct Hreads. etransitivity; [exact HP|].
  rewrite (hypothesis_sets_distinct (distlim args) _ Hdistinct) in E.
  injection E as <-.
  assert (Hall : filter (has_reads files) (group_sets (distlim args) var_vector)
                 = group_sets (distlim args) var_vector).
  { apply forallb_filter_id. apply forallb_forall. exact Hreads. }
  rewrite Hall, group_sets_concat. reflexivity.
Qed.

End OutputFacts.

(** ** Runs that complete *)

Lemma foldM_done {A S : Type} (f : S -> A -> outcome S) (l : list A) :
  (forall s x, In x l -> exists s', f s x = Done s') ->
  forall s, exists s', foldM f l s = Done s'.
Proof.
  induction l as [|x l IH]; intros Hf s.
  - exists s. reflexivity.
  - destruct (Hf s x (or_introl eq_refl)) as [s1 H1].
    cbn [foldM]. rewrite H1. cbn [bind]. apply IH.
    intros s2 y Hy. apply Hf. right. exact Hy.
Qed.

Section Completion.

Variables (args : Args) (files : Files).

(** A read without XA tag, or any read when only primary alignments are
    considered, needs no other contig. *)
Definition no_xa (r : Read) : Prop := pao args = true \/ r_multimap r = None.

Lemma read_xa_skipped (ctx : ComboCtx) (r : Read) (fl : Flags)
    (readprobmatrix is_match no_match : list double) (elsewhere : double)
    (st : double * double * double) :
  no_xa r ->
  read_xa args files ctx r fl readprobmatrix is_match no_match elsewhere st = Done st.
Proof.
  unfold read_xa. intros [Hpao|Hnone].
  - rewrite Hpao. destruct (r_multimap r); reflexivity.
  - rewrite Hnone. reflexivity.
Qed.

Lemma eval_read_done (ctx : ComboCtx) (acc : ReadAcc) (ir : Z * Read) :
  no_xa (snd ir) -> exists acc', eval_read args files ctx acc ir = Done acc'.
Proof.
  destruct ir as [readi r]. cbn [snd]. intros Hxa. unfold eval_read.
  destruct (is_unmap _); [eauto|].
  destruct (pao args && _); [eauto|].
  cbv zeta. rewrite read_xa_skipped by exact Hxa. cbn [bind]. eauto.
Qed.

Lemma in_indexed {A : Type} (l : list A) (ix : Z * A) :
  In ix (indexed l) -> In (snd ix) l.
Proof.
  unfold indexed. destruct ix as [i x]. intros H.
  apply in_combine_r in H. exact H.
Qed.

Lemma eval_combo_done (refseq : cstr) (refseq_length : Z)
    (alt_prior het_prior : double) (read_set : list Read) (st : ComboAcc)
    (ic : Z * list Variant) :
  Forall no_xa read_set ->
  exists st', eval_combo args files refseq refseq_length alt_prior het_prior
                read_set st ic = Done st'.
Proof.
  intros Hxa. destruct ic as [seti combo]. unfold eval_combo.
  destruct (construct_altseq refseq refseq_length combo) as [altseq altseq_length].
  match goal with
  | |- exists _, bind (foldM ?f0 ?l0 ?s0) _ = _ =>
      assert (Hd : forall s x, In x l0 -> exists s', f0 s x = Done s');
        [|destruct (@foldM_done _ _ f0 l0 Hd s0) as [acc Hacc]]
  end.
  - intros s x Hx. apply eval_read_done. apply in_indexed in Hx.
    rewrite Forall_forall in Hxa. apply Hxa. exact Hx.
  - rewrite Hacc. cbn [bind]. eauto.
Qed.

(** A set whose region has reads, none of which needs another contig,
    has its block once the combinations are parsed and the contig is
    there. *)
Lemma evaluate_variants_done (var_vector : list Variant) (f : Fasta)
    (var_combo : list (list Variant)) :
  var_vector <> [] ->
  has_reads files var_vector = true ->
  Forall no_xa (fetch_reads files (region_of var_vector)) ->
  parse_combo var_vector (fst (powerset (maxh args) (zlen var_vector) 0))
    (snd (powerset (maxh args) (zlen var_vector) 0)) = Done var_combo ->
  fetch_refseq files (v_chr (hd (snv "" 0 "" "") var_vector)) = Some f ->
  exists block, evaluate_variants args files var_vector = Done (Some block).
Proof.
  intros Hne Hreads Hxa Hcombo Hf. unfold evaluate_variants.
  destruct var_vector as [|first rest]; [contradiction|].
  unfold has_reads in Hreads. apply negb_true_iff in Hreads. rewrite Hreads.
  destruct (powerset _ _ _) as [combo ncombos]. cbn [fst snd] in Hcombo.
  rewrite Hcombo. cbn [bind]. cbn [hd] in Hf. rewrite Hf.
  destruct (priors _ _ _) as [alt_prior het_prior].
  match goal with
  | |- exists _, bind (foldM ?f0 ?l0 ?s0) _ = _ =>
      assert (Hd : forall s x, In x l0 -> exists s', f0 s x = Done s');
        [|destruct (@foldM_done _ _ f0 l0 Hd s0) as [st Hst]]
  end.
  - intros s x _. apply eval_combo_done. exact Hxa.
  - rewrite Hst. cbn [bind]. eauto.
Qed.

End Completion.

(** ** Concrete runs *)

Definition default_args : Args :=
  {| numproc := 1; distlim := 10; maxh := 1024; mvh := false;
     hetbias := Fin (1 / 2); pao := false; debug := false |}.

(** A contig of 200 bases A. *)
Definition poly_a : Fasta :=
  {| f_name := "chr1"; f_seq := repeat "A"%char 200; f_seq_length := 200 |}.

Definition one_contig (name : string) : option Fasta :=
  if String.eqb name "chr1" then Some poly_a else None.

(** A BAM file without alignments. *)
Definition files_no_reads : Files :=
  {| fetch_reads := fun _ => []; fetch_refseq := one_contig;
     qsort_results := fun results => results |}.

(** A read of one base G of quality 30, aligned at the 0-based position
    99, and a BAM file that has it in every region. *)
Definition read_g : Read :=
  {| r_name := "r1"; r_tid := 0; r_chr := "chr1"; r_pos := 99; r_length := 1;
     r_qseq := cs "G"; r_qual := [Fin (-3)]; r_flag := cs "";
     r_inferred_length := 1; r_multimap := None |}.

Definition files_read_g : Files :=
  {| fetch_reads := fun _ => [read_g]; fetch_refseq := one_contig;
     qsort_results := fun results => results |}.

(** With [read_g] in every region, every set on chr1 whose combinations
    parse has a block. *)
Lemma evaluate_read_g (args : Args) (var_vector : list Variant)
    (var_combo : list (list Variant)) :
  var_vector <> [] ->
  v_chr (hd (snv "" 0 "" "") var_vector) = "chr1"%string ->
  parse_combo var_vector (fst (powerset (maxh args) (zlen var_vector) 0))
    (snd (powerset (maxh args) (zlen var_vector) 0)) = Done var_combo ->
  exists ref rows,
    evaluate_variants args files_read_g var_vector
    = Done (Some (marginal_lines var_vector ref rows)).
Proof.
  intros Hne Hchr Hcombo.
  destruct (@evaluate_variants_done args files_read_g var_vector poly_a var_combo)
    as [block Hblock]; trivial.
  - constructor; [right; reflexivity|constructor].
  - cbn [fetch_refseq files_read_g]. rewrite Hchr. reflexivity.
  - destruct (evaluate_variants_block _ _ _ Hblock) as (_ & ref & rows & ->). eauto.
Qed.

(** C1 as stated fails when the region of a set has no reads: the variant
    is on no line. *)
Lemma no_reads_no_line :
  process_variants default_args files_no_reads [snv "chr1" 100 "A" "G"] = Done []
  /\ ~ Permutation (map line_variant (List.concat (@nil Block)))
         [snv "chr1" 100 "A" "G"].
Proof.
  split; [reflexivity|].
  intros H. apply Permutation_length in H. discriminate H.
Qed.

(** It also fails when the splitting copies a third variant into both
    sets: with reads everywhere, the variant at 105 is on two lines. *)
Lemma split_duplicates_third_variant :
  exists blocks : list Block,
    process_variants default_args files_read_g
      [snv "chr1" 100 "A" "T"; snv "chr1" 100 "A" "G"; snv "chr1" 105 "A" "G"]
    = Done blocks
    /\ map line_variant (List.concat blocks)
       = [snv "chr1" 100 "A" "T"; snv "chr1" 105 "A" "G";
          snv "chr1" 100 "A" "G"; snv "chr1" 105 "A" "G"].
Proof.
  destruct (@evaluate_read_g default_args
              [snv "chr1" 100 "A" "T"; snv "chr1" 105 "A" "G"]
              [[snv "chr1" 100 "A" "T"]; [snv "chr1" 105 "A" "G"];
               [snv "chr1" 100 "A" "T"; snv "chr1" 105 "A" "G"]])
    as (ref1 & rows1 & H1); [discriminate|reflexivity|reflexivity|].
  destruct (@evaluate_read_g default_args
              [snv "chr1" 100 "A" "G"; snv "chr1" 105 "A" "G"]
              [[snv "chr1" 100 "A" "G"]; [snv "chr1" 105 "A" "G"];
               [snv "chr1" 100 "A" "G"; snv "chr1" 105 "A" "G"]])
    as (ref2 & rows2 & H2); [discriminate|reflexivity|reflexivity|].
  eexists. split.
  - unfold process_variants.
    replace (hypothesis_sets (distlim default_args) _)
      with (Done [[snv "chr1" 100 "A" "G"; snv "chr1" 105 "A" "G"];
                  [snv "chr1" 100 "A" "T"; snv "chr1" 105 "A" "G"]])
      by reflexivity.
    cbn [bind]. unfold pool. cbn [rev app foldM]. unfold pool_step.
    rewrite H1. cbn [bind app]. rewrite H2. cbn [bind app]. reflexivity.
  - cbn [qsort_results files_read_g List.concat]. rewrite !map_app.
    rewrite !marginal_lines_variants. reflexivity.
Qed.

Lemma lines_of_sets_with_reads_witness :
  sorts files_read_g
  /\ exists blocks : list Block,
       process_variants default_args files_read_g [snv "chr1" 100 "A" "G"]
       = Done blocks
       /\ Permutation (map line_variant (List.concat blocks))
            [snv "chr1" 100 "A" "G"].
Proof.
  assert (Hsort : sorts files_read_g) by (intros results; apply Permutation_refl).
  split; [exact Hsort|].
  destruct (@evaluate_read_g default_args [snv "chr1" 100 "A" "G"]
              [[snv "chr1" 100 "A" "G"]])
    as (ref & rows & Hblock); [discriminate|reflexivity|reflexivity|].
  assert (Hsets : hypothesis_sets (distlim default_args) [snv "chr1" 100 "A" "G"]
                  = Done [[snv "chr1" 100 "A" "G"]]) by reflexivity.
  assert (Hrun : process_variants default_args files_read_g [snv "chr1" 100 "A" "G"]
                 = Done [marginal_lines [snv "chr1" 100 "A" "G"] ref rows]).
  { unfold process_variants. rewrite Hsets.
    cbn [bind]. unfold pool. cbn [rev app foldM]. unfold pool_step.
    rewrite Hblock. reflexivity. }
  eexists. split; [exact Hrun|].
  destruct (@lines_of_sets_with_reads default_args files_read_g _ _ Hsort Hrun)
    as (sets & Hsets' & _ & Hall).
  apply Hall.
  - exact I.
  - rewrite Hsets in Hsets'. injection Hsets' as <-. intros s [<-|[]]. reflexivity.
Defined.

(* ===================================================================== *)
(** * Skipped reads and primary alignments only *)
(* ===================================================================== *)

(** The row of a combination to which no read contributes. *)
Definition zero_row (combo : list Variant) : ComboRow :=
  {| k_combo := combo; k_alt := Fin 0; k_het := Fin 0;
     k_ref_count := 0; k_alt_count := 0 |}.

Lemma length_zrange (lo n : Z) : List.length (zrange lo n) = Z.to_nat n.
Proof. unfold zrange. rewrite length_map, length_seq. reflexivity. Qed.

Lemma map_snd_combine {A B : Type} (l : list A) (l' : list B) :
  List.length l = List.length l' -> map snd (combine l l') = l'.
Proof.
  revert l'; induction l as [|x l IH]; intros [|y l'] H; try discriminate H;
    [reflexivity|].
  cbn [combine map snd]. f_equal. apply IH. injection H as H. exact H.
Qed.

Lemma map_snd_indexed {A : Type} (l : list A) : map snd (indexed l) = l.
Proof.
  unfold indexed. apply map_snd_combine. rewrite length_zrange.
  unfold zlen. lia.
Qed.

Lemma Forall_indexed {A : Type} (P : A -> Prop) (l : list A) :
  Forall P l -> Forall (fun ix => P (snd ix)) (indexed l).
Proof.
  intros H. apply Forall_forall. intros ix Hix.
  rewrite Forall_forall in H. apply H. apply in_indexed. exact Hix.
Qed.

Section SkippedReads.

Variables (args : Args) (files : Files).

(** The read is unmapped, or it is secondary or supplementary and only
    primary alignments are considered. *)
Definition skipped (r : Read) : Prop :=
  is_unmap (parse_flags (r_flag r)) = true
  \/ (pao args = true /\ is_secondary (parse_flags (r_flag r)) = true).

Lemma eval_read_skipped (ctx : ComboCtx) (acc : ReadAcc) (ir : Z * Read) :
  skipped (snd ir) -> eval_read args files ctx acc ir = Done acc.
Proof.
  destruct ir as [readi r]. cbn [snd]. unfold eval_read.
  intros [Hunmap|[Hpao Hsec]].
  - rewrite Hunmap. reflexivity.
  - rewrite Hpao, Hsec. destruct (is_unmap _); reflexivity.
Qed.

(** With [--pao] the loop over the XA entries is not entered. *)
Lemma read_xa_not_entered (ctx : ComboCtx) (r : Read) (fl : Flags)
    (readprobmatrix is_match no_match : list double) (elsewhere : double)
    (st : double * double * double) :
  pao args = true ->
  read_xa args files ctx r fl readprobmatrix is_match no_match elsewhere st = Done st.
Proof. intros Hpao. apply read_xa_skipped. left. exact Hpao. Qed.

Lemma foldM_eval_read_skipped (ctx : ComboCtx) (l : list (Z * Read))
    (acc : ReadAcc) :
  Forall (fun ir => skipped (snd ir)) l ->
  foldM (eval_read args files ctx) l acc = Done acc.
Proof.
  induction 1 as [|ir l Hir _ IH]; [reflexivity|].
  cbn [foldM]. rewrite eval_read_skipped by exact Hir. exact IH.
Qed.

Lemma foldM_eval_combo_skipped (refseq : cstr) (refseq_length : Z)
    (alt_prior het_prior : double) (read_set : list Read)
    (l : list (Z * list Variant)) (st : ComboAcc) :
  Forall skipped read_set ->
  foldM (eval_combo args files refseq refseq_length alt_prior het_prior read_set)
    l st
  = Done {| e_ref := e_ref st;
            e_rows := e_rows st ++ map (fun ic => zero_row (snd ic)) l;
            e_pout := e_pout st; e_prgu := e_prgu st |}.
Proof.
  intros Hskip. revert st; induction l as [|[seti combo] l IH]; intros st.
  - cbn [foldM map]. rewrite app_nil_r. destruct st; reflexivity.
  - cbn [foldM]. unfold eval_combo at 1.
    destruct (construct_altseq refseq refseq_length combo) as [altseq altseq_length].
    rewrite foldM_eval_read_skipped by (apply Forall_indexed; exact Hskip).
    cbn [bind a_ref a_alt a_het a_ref_count a_alt_count a_pout a_prgu].
    rewrite IH. cbn [e_ref e_rows e_pout e_prgu map snd].
    rewrite <- app_assoc. reflexivity.
Qed.

(** When every read of the region is skipped, the block is computed from
    accumulators that no read has touched. *)
Lemma evaluate_variants_skipped (var_vector : list Variant) (f : Fasta)
    (var_combo : list (list Variant)) :
  var_vector <> [] ->
  has_reads files var_vector = true ->
  Forall skipped (fetch_reads files (region_of var_vector)) ->
  parse_combo var_vector (fst (powerset (maxh args) (zlen var_vector) 0))
    (snd (powerset (maxh args) (zlen var_vector) 0)) = Done var_combo ->
  fetch_refseq files (v_chr (hd (snv "" 0 "" "") var_vector)) = Some f ->
  evaluate_variants args files var_vector
  = Done (Some (marginal_lines var_vector (Fin 0) (map zero_row var_combo))).
Proof.
  intros Hne Hreads Hskip Hcombo Hf. unfold evaluate_variants.
  destruct var_vector as [|first rest]; [contradiction|].
  unfold has_reads in Hreads. apply negb_true_iff in Hreads. rewrite Hreads.
  destruct (powerset _ _ _) as [combo ncombos]. cbn [fst snd] in Hcombo.
  rewrite Hcombo. cbn [bind]. cbn [hd] in Hf. rewrite Hf.
  destruct (priors _ _ _) as [alt_prior het_prior].
  rewrite foldM_eval_combo_skipped by exact Hskip.
  cbn [bind e_ref e_rows app]. do 3 f_equal.
  rewrite <- (map_snd_indexed var_combo) at 2. rewrite map_map. reflexivity.
Qed.

End SkippedReads.

Definition pao_args : Args :=
  {| numproc := 1; distlim := 10; maxh := 1024; mvh := false;
     hetbias := Fin (1 / 2); pao := true; debug := false |}.

(** [read_g] as a secondary alignment, and a BAM file that has nothing
    else. *)
Definition read_secondary : Read :=
  {| r_name := "r1"; r_tid := 0; r_chr := "chr1"; r_pos := 99; r_length := 1;
     r_qseq := cs "G"; r_qual := [Fin (-3)]; r_flag := cs "SECONDARY";
     r_inferred_length := 1; r_multimap := None |}.

Definition files_secondary : Files :=
  {| fetch_reads := fun _ => [read_secondary]; fetch_refseq := one_contig;
     qsort_results := fun results => results |}.

(** The block of a single variant all of whose reads are skipped: no read
    is counted. *)
Definition block_of_no_read (v : Variant) : Block :=
  marginal_lines [v] (Fin 0) [zero_row [v]].

(** C8 fails on a region whose only read is secondary.  Two BAM files
    that differ in that read alone give different outputs with [--pao]:
    none for the file without it, a line for the file with it, because
    [evaluate_variants] tests [read_vector->size == 0] before it skips the
    read. *)
Theorem pao_secondary_read_changes_output :
  process_variants pao_args files_no_reads [snv "chr1" 100 "A" "G"] = Done []
  /\ process_variants pao_args files_secondary [snv "chr1" 100 "A" "G"]
     = Done [block_of_no_read (snv "chr1" 100 "A" "G")]
  /\ List.length (block_of_no_read (snv "chr1" 100 "A" "G")) = 1%nat.
Proof.
  split; [reflexivity|]. split; [|reflexivity].
  unfold process_variants.
  replace (hypothesis_sets (distlim pao_args) [snv "chr1" 100 "A" "G"])
    with (Done [[snv "chr1" 100 "A" "G"]]) by reflexivity.
  cbn [bind]. unfold pool. cbn [rev app foldM]. unfold pool_step.
  rewrite (@evaluate_variants_skipped pao_args files_secondary
             [snv "chr1" 100 "A" "G"] poly_a [[snv "chr1" 100 "A" "G"]]).
  - reflexivity.
  - discriminate.
  - reflexivity.
  - constructor; [|constructor]. right. split; reflexivity.
  - reflexivity.
  - reflexivity.
Qed.

(* ===================================================================== *)
(** * Properties of the combinations *)
(* ===================================================================== *)

(** The combinations of [k] among the [m] integers from [lo] on, each in
    increasing order, the combinations in lexicographic order: first those
    that start with [lo], then those that do not. *)
Fixpoint spec_combinations (m k : nat) (lo : Z) : list (list Z) :=
  match k with
  | O => [[]]
  | S k' =>
      match m with
      | O => []
      | S m' =>
          map (cons lo) (spec_combinations m' k' (lo + 1))
          ++ spec_combinations m' (S k') (lo + 1)
      end
  end.

(** [lo, lo + 1, ...], [k] integers. *)
Fixpoint consecutive (lo : Z) (k : nat) : list Z :=
  match k with
  | O => []
  | S k' => lo :: consecutive (lo + 1) k'
  end.

(** The combination after [c] among the integers below [n]: the rightmost
    element that can advance does, and consecutive integers follow it. *)
Fixpoint successor (n : Z) (c : list Z) : option (list Z) :=
  match c with
  | [] => None
  | x :: c' =>
      match successor n c' with
      | Some c'' => Some (x :: c'')
      | None =>
          if x <? n - zlen c then Some (consecutive (x + 1) (List.length c))
          else None
      end
  end.

(** [l] lists a combination, then its successors until there is none. *)
Fixpoint succession (n : Z) (l : list (list Z)) : Prop :=
  match l with
  | [] => True
  | c :: l' =>
      match l' with
      | [] => successor n c = None
      | c' :: _ => successor n c = Some c' /\ succession n l'
      end
  end.

Section SuccessionFacts.

Variable n : Z.

Lemma succession_app (l1 l2 : list (list Z)) (c c' : list Z) :
  succession n (l1 ++ [c]) -> successor n c = Some c' -> succession n (c' :: l2) ->
  succession n (l1 ++ c :: c' :: l2).
Proof.
  intros H1 Hc H2. induction l1 as [|a l1 IH].
  - simpl. split; [exact Hc|exact H2].
  - destruct l1 as [|b l1].
    + simpl in *. destruct H1 as [Ha _]. split; [exact Ha|]. split; assumption.
    + change ((a :: b :: l1) ++ [c]) with (a :: b :: (l1 ++ [c])) in H1.
      change ((a :: b :: l1) ++ c :: c' :: l2) with (a :: b :: (l1 ++ c :: c' :: l2)).
      destruct H1 as [Hab H1]. split; [exact Hab|]. apply IH. exact H1.
Qed.

(** The succession of the combinations that start with [x], but for its
    end. *)
Lemma succession_cons (x : Z) (l : list (list Z)) (c : list Z) :
  succession n (l ++ [c]) ->
  forall (rest : list (list Z)),
    match rest with
    | [] => successor n (x :: c) = None
    | c' :: _ => successor n (x :: c) = Some c' /\ succession n rest
    end ->
    succession n (map (cons x) (l ++ [c]) ++ rest).
Proof.
  intros H rest Hrest. induction l as [|a l IH].
  - simpl. exact Hrest.
  - destruct l as [|b l].
    + simpl in *. destruct H as [Ha Hc]. split.
      * rewrite Ha. reflexivity.
      * exact Hrest.
    + change ((a :: b :: l) ++ [c]) with (a :: b :: (l ++ [c])) in *.
      cbn [map app]. destruct H as [Hab H]. split.
      * cbn [successor]. rewrite Hab. reflexivity.
      * apply IH. exact H.
Qed.

End SuccessionFacts.

Lemma length_consecutive (lo : Z) (k : nat) : List.length (consecutive lo k) = k.
Proof. revert lo; induction k; intros lo; simpl; [reflexivity|]. f_equal. auto. Qed.

Lemma spec_combinations_length (m k : nat) (lo : Z) (c : list Z) :
  In c (spec_combinations m k lo) -> List.length c = k.
Proof.
  revert k lo c; induction m as [|m IH]; intros [|k] lo c; simpl.
  - intros [<-|[]]. reflexivity.
  - intros [].
  - intros [<-|[]]. reflexivity.
  - rewrite in_app_iff, in_map_iff. intros [(c' & <- & Hc)|Hc].
    + simpl. f_equal. eapply IH. exact Hc.
    + eapply IH. exact Hc.
Qed.

Lemma spec_combinations_none (m k : nat) (lo : Z) :
  (m < k)%nat -> spec_combinations m k lo = [].
Proof.
  revert k lo; induction m as [|m IH]; intros [|k] lo H; try lia; [reflexivity|].
  simpl. rewrite !IH by lia. reflexivity.
Qed.

Lemma spec_combinations_first (m k : nat) (lo : Z) :
  (k <= m)%nat ->
  exists l, spec_combinations m k lo = consecutive lo k :: l.
Proof.
  revert k lo; induction m as [|m IH]; intros [|k] lo H; try lia.
  - exists []. reflexivity.
  - exists []. reflexivity.
  - destruct (IH k (lo + 1) ltac:(lia)) as [l Hl].
    simpl. rewrite Hl. eexists. reflexivity.
Qed.

Lemma exists_last_cons {A : Type} (x : A) (l : list A) :
  exists l' y, x :: l = l' ++ [y].
Proof.
  destruct (@exists_last A (x :: l) ltac:(discriminate)) as (l' & y & H). eauto.
Qed.

(** The specified order is the order of the successors. *)
Lemma spec_combinations_succession (m k : nat) (lo : Z) :
  succession (lo + Z.of_nat m) (spec_combinations m k lo).
Proof.
  revert k lo; induction m as [|m IH]; intros [|k] lo.
  - simpl. reflexivity.
  - simpl. exact I.
  - simpl. reflexivity.
  - cbn [spec_combinations].
    replace (lo + Z.of_nat (S m)) with (lo + 1 + Z.of_nat m) by lia.
    pose proof (IH k (lo + 1)) as H1. pose proof (IH (S k) (lo + 1)) as H2.
    destruct (Nat.le_gt_cases k m) as [Hkm|Hkm].
    2:{ rewrite (spec_combinations_none (lo + 1) Hkm). simpl.
        rewrite spec_combinations_none by lia. exact I. }
    destruct (spec_combinations_first (lo + 1) Hkm) as [l1 Hl1].
    destruct (exists_last_cons (consecutive (lo + 1) k) l1) as (l1' & c & Hlast).
    rewrite Hl1 in H1 |- *. rewrite Hlast in H1 |- *.
    assert (Hlen : List.length c = k).
    { apply (@spec_combinations_length m k (lo + 1)). rewrite Hl1, Hlast.
      apply in_or_app. right. left. reflexivity. }
    assert (Hend : successor (lo + 1 + Z.of_nat m) c = None).
    { clear - H1. induction l1' as [|a l1' IHl]; [exact H1|].
      destruct l1' as [|b l1']; simpl in *; [tauto|]. apply IHl. tauto. }
    apply succession_cons; [exact H1|].
    destruct (Nat.le_gt_cases (S k) m) as [Hk|Hk].
    + destruct (spec_combinations_first (lo + 1) Hk) as [l2 Hl2].
      rewrite Hl2 in *. split; [|exact H2].
      cbn [successor]. rewrite Hend.
      assert (E : (lo <? lo + 1 + Z.of_nat m - zlen (lo :: c)) = true).
      { apply Z.ltb_lt. unfold zlen. simpl. lia. }
      rewrite E. simpl. rewrite Hlen. reflexivity.
    + rewrite spec_combinations_none by lia.
      cbn [successor]. rewrite Hend.
      assert (E : (lo <? lo + 1 + Z.of_nat m - zlen (lo :: c)) = false).
      { apply Z.ltb_ge. unfold zlen. simpl. lia. }
      rewrite E. reflexivity.
Qed.

(** ** The loop of [combinations] computes the successor *)

(** One round of the loop after the token is recorded: the next contents
    of [c], if the loop goes on. *)
Definition array_step (k n : Z) (c : list Z) : option (list Z) :=
  let c1 := zset c (k - 1) (zget c (k - 1) + 1) in
  let '(c2, i) := carry (Z.to_nat k) k n c1 in
  if zget c2 0 >? n - k then None
  else Some (refill (Z.to_nat (k - (i + 1))) c2 (i + 1)).

Lemma combinations_loop_step (fuel : nat) (k n : Z) (c : list Z) :
  combinations_loop (S fuel) k n c =
  c :: match array_step k n c with
       | None => []
       | Some c' => combinations_loop fuel k n c'
       end.
Proof.
  cbn [combinations_loop]. unfold array_step.
  destruct (carry _ _ _ _) as [c2 i]. destruct (zget c2 0 >? n - k); reflexivity.
Qed.

(** [o] with one added to the elements from index [j] on. *)
Definition inc_from (j : nat) (o : list Z) : list Z :=
  firstn j o ++ map (fun x => x + 1) (skipn j o).

Section ArrayFacts.

Lemma zget_nat (c : list Z) (j : nat) : zget c (Z.of_nat j) = nth j c 0.
Proof.
  unfold zget. destruct (Z.of_nat j <? 0) eqn:E; [apply Z.ltb_lt in E; lia|].
  rewrite Nat2Z.id. reflexivity.
Qed.

Lemma zset_of_nat (c : list Z) (j : nat) (x : Z) :
  zset c (Z.of_nat j) x = zset_nat c j x.
Proof.
  unfold zset. destruct (Z.of_nat j <? 0) eqn:E; [apply Z.ltb_lt in E; lia|].
  rewrite Nat2Z.id. reflexivity.
Qed.

Lemma inc_from_all (o : list Z) : inc_from (List.length o) o = o.
Proof.
  unfold inc_from. rewrite firstn_all, skipn_all. apply app_nil_r.
Qed.

Lemma inc_from_cons (j : nat) (x : Z) (o : list Z) :
  inc_from (S j) (x :: o) = x :: inc_from j o.
Proof. reflexivity. Qed.

Lemma zset_nat_inc (o : list Z) (j : nat) :
  (j < List.length o)%nat ->
  zset_nat (inc_from (S j) o) j (nth j o 0 + 1) = inc_from j o.
Proof.
  revert o; induction j as [|j IH]; intros [|x o] H; simpl in H; try lia.
  - reflexivity.
  - rewrite inc_from_cons. cbn [zset_nat nth]. rewrite IH by lia. reflexivity.
Qed.

Lemma nth_inc_from_ge (o : list Z) (j t : nat) :
  (j <= t < List.length o)%nat -> nth t (inc_from j o) 0 = nth t o 0 + 1.
Proof.
  revert o t; induction j as [|j IH]; intros o t H.
  - unfold inc_from. cbn [firstn skipn app].
    change 0 with ((fun x => x + 1) (-1)) at 1. rewrite map_nth.
    f_equal. apply nth_indep. lia.
  - destruct o as [|x o]; [simpl in H; lia|]. destruct t as [|t]; [lia|].
    rewrite inc_from_cons. cbn [nth]. apply IH. simpl in H. lia.
Qed.

Lemma nth_inc_from_lt (o : list Z) (j t : nat) :
  (t < j)%nat -> nth t (inc_from j o) 0 = nth t o 0.
Proof.
  revert o t; induction j as [|j IH]; intros o t H; [lia|].
  destruct o as [|x o]; [destruct t; reflexivity|]. destruct t as [|t]; [reflexivity|].
  rewrite inc_from_cons. cbn [nth]. apply IH. lia.
Qed.

Lemma carry_step (m : nat) (k n : Z) (c : list Z) :
  carry (S m) k n c =
  if (Z.of_nat m <? k) && (zget c (Z.of_nat m) >=? n - k + 1 + Z.of_nat m)
  then carry m k n (zset c (Z.of_nat m - 1) (zget c (Z.of_nat m - 1) + 1))
  else (c, Z.of_nat m).
Proof. reflexivity. Qed.

Variables (k n : Z) (o : list Z).

Hypothesis Hk : k = zlen o.

(** The elements from index [i + 1] to [i + d] cannot advance and the
    element at [i] can: the inner loop stops at [i]. *)
Lemma carry_run (i d : nat) :
  (i + d < List.length o)%nat ->
  (forall j, (i < j <= i + d)%nat -> n - k + Z.of_nat j <= nth j o 0) ->
  nth i o 0 < n - k + Z.of_nat i ->
  carry (S (i + d)) k n (inc_from (i + d) o) = (inc_from i o, Z.of_nat i).
Proof.
  intros Hlen Hstuck Hfree. induction d as [|d IH].
  - rewrite Nat.add_0_r in *. cbn [carry]. rewrite zget_nat.
    rewrite nth_inc_from_ge by lia.
    assert (E : (Z.of_nat i <? k) && (nth i o 0 + 1 >=? n - k + 1 + Z.of_nat i) = false).
    { apply andb_false_iff. right. rewrite Z.geb_leb. apply Z.leb_gt. lia. }
    rewrite E. reflexivity.
  - cbn [carry]. rewrite zget_nat, nth_inc_from_ge by lia.
    assert (E : (Z.of_nat (i + S d) <? k)
                && (nth (i + S d) o 0 + 1 >=? n - k + 1 + Z.of_nat (i + S d)) = true).
    { apply andb_true_iff. split.
      - apply Z.ltb_lt. unfold zlen in Hk. lia.
      - rewrite Z.geb_leb. apply Z.leb_le.
        specialize (Hstuck (i + S d)%nat ltac:(lia)). lia. }
    rewrite E.
    replace (Z.of_nat (i + S d) - 1) with (Z.of_nat (i + d)) by lia.
    rewrite zget_nat, zset_of_nat.
    replace (i + S d)%nat with (S (i + d)) by lia.
    rewrite nth_inc_from_lt by lia. rewrite zset_nat_inc by lia.
    apply IH; [lia|]. intros j Hj. apply Hstuck. lia.
Qed.

(** No element can advance: the inner loop runs down to [i == -1]. *)
Lemma carry_all (m : nat) :
  (m < List.length o)%nat ->
  (forall j, (j <= m)%nat -> n - k + Z.of_nat j <= nth j o 0) ->
  carry (S m) k n (inc_from m o) = (inc_from 0 o, -1).
Proof.
  intros Hlen Hstuck. induction m as [|m IH].
  - cbn [carry]. rewrite zget_nat, nth_inc_from_ge by lia.
    assert (E : (Z.of_nat 0 <? k) && (nth 0 o 0 + 1 >=? n - k + 1 + Z.of_nat 0) = true).
    { apply andb_true_iff. split.
      - apply Z.ltb_lt. unfold zlen in Hk. lia.
      - rewrite Z.geb_leb. apply Z.leb_le. specialize (Hstuck O ltac:(lia)). lia. }
    rewrite E. reflexivity.
  - rewrite carry_step. rewrite zget_nat, nth_inc_from_ge by lia.
    assert (E : (Z.of_nat (S m) <? k)
                && (nth (S m) o 0 + 1 >=? n - k + 1 + Z.of_nat (S m)) = true).
    { apply andb_true_iff. split.
      - apply Z.ltb_lt. unfold zlen in Hk. lia.
      - rewrite Z.geb_leb. apply Z.leb_le.
        specialize (Hstuck (S m) ltac:(lia)). lia. }
    rewrite E.
    replace (Z.of_nat (S m) - 1) with (Z.of_nat m) by lia.
    rewrite zget_nat, zset_of_nat, nth_inc_from_lt by lia.
    rewrite zset_nat_inc by lia.
    apply IH; [lia|]. intros j Hj. apply Hstuck. lia.
Qed.

End ArrayFacts.

Lemma consecutive_snoc (x : Z) (t : nat) :
  consecutive x t ++ [x + Z.of_nat t] = consecutive x (S t).
Proof.
  revert x; induction t as [|t IH]; intros x.
  - simpl. f_equal. lia.
  - cbn [consecutive app]. f_equal.
    replace (x + Z.of_nat (S t)) with (x + 1 + Z.of_nat t) by lia. apply IH.
Qed.

Lemma nth_consecutive (x : Z) (t j : nat) :
  (j < t)%nat -> nth j (consecutive x t) 0 = x + Z.of_nat j.
Proof.
  revert x j; induction t as [|t IH]; intros x j H; [lia|].
  destruct j as [|j]; simpl; [lia|]. rewrite IH by lia. lia.
Qed.

Lemma zset_nat_app (pre : list Z) (r : Z) (rest : list Z) (x : Z) :
  zset_nat (pre ++ r :: rest) (List.length pre) x = pre ++ x :: rest.
Proof. induction pre as [|y pre IH]; simpl; [reflexivity|]. f_equal. exact IH. Qed.

(** The loop that fills the elements after the one that advanced. *)
Lemma refill_run (pre : list Z) (x : Z) (count t : nat) (rest : list Z) :
  List.length rest = count ->
  refill count (pre ++ consecutive x (S t) ++ rest)
    (Z.of_nat (List.length pre + S t))
  = pre ++ consecutive x (S t + count).
Proof.
  revert t rest; induction count as [|count IH]; intros t rest Hlen.
  - destruct rest; [|discriminate]. rewrite app_nil_r, Nat.add_0_r. reflexivity.
  - destruct rest as [|r rest]; [discriminate|]. cbn [refill].
    replace (Z.of_nat (List.length pre + S t) - 1)
      with (Z.of_nat (List.length pre + t)) by lia.
    rewrite zget_nat, zset_of_nat.
    rewrite app_nth2 by lia.
    replace (List.length pre + t - List.length pre)%nat with t by lia.
    rewrite app_nth1 by (rewrite length_consecutive; lia).
    rewrite nth_consecutive by lia.
    rewrite app_assoc.
    replace (List.length pre + S t)%nat
      with (List.length (pre ++ consecutive x (S t)))
      by (rewrite length_app, length_consecutive; reflexivity).
    rewrite zset_nat_app, <- app_assoc.
    change ((x + Z.of_nat t + 1) :: rest) with ([x + Z.of_nat t + 1] ++ rest).
    rewrite (app_assoc (consecutive x (S t))).
    replace (x + Z.of_nat t + 1) with (x + Z.of_nat (S t)) by lia.
    rewrite consecutive_snoc.
    rewrite length_app, length_consecutive.
    replace (Z.of_nat (List.length pre + S t) + 1)
      with (Z.of_nat (List.length pre + S (S t))) by lia.
    rewrite IH by (injection Hlen as Hlen; exact Hlen).
    f_equal. f_equal. lia.
Qed.

(** What [successor] returns, by positions: [None] when no element can
    advance, else the elements before the rightmost one that can, and
    consecutive integers from its successor on. *)
Lemma successor_spec (n : Z) (c : list Z) :
  match successor n c with
  | None =>
      forall j, (j < List.length c)%nat -> n - zlen c + Z.of_nat j <= nth j c 0
  | Some c' =>
      exists i,
        (i < List.length c)%nat
        /\ nth i c 0 < n - zlen c + Z.of_nat i
        /\ (forall j, (i < j < List.length c)%nat ->
              n - zlen c + Z.of_nat j <= nth j c 0)
        /\ c' = firstn i c ++ consecutive (nth i c 0 + 1) (List.length c - i)
  end.
Proof.
  induction c as [|x c IH]; [intros j Hj; simpl in Hj; lia|].
  cbn [successor]. destruct (successor n c) as [c''|].
  - destruct IH as (i & Hi & Hfree & Hstuck & ->). exists (S i).
    unfold zlen in *. cbn [List.length nth firstn].
    split; [lia|]. split; [lia|]. split.
    + intros [|j] Hj; [lia|]. cbn [nth]. specialize (Hstuck j ltac:(lia)). lia.
    + reflexivity.
  - destruct (x <? n - zlen (x :: c)) eqn:E.
    + apply Z.ltb_lt in E. exists O. cbn [nth firstn app].
      split; [simpl; lia|]. split; [lia|]. split.
      * intros [|j] Hj; [lia|]. cbn [nth]. simpl in Hj.
        specialize (IH j ltac:(lia)). unfold zlen in *. simpl List.length. lia.
      * rewrite Nat.sub_0_r. reflexivity.
    + apply Z.ltb_ge in E. intros [|j] Hj; cbn [nth].
      * lia.
      * simpl in Hj. specialize (IH j ltac:(lia)). unfold zlen in *.
        simpl List.length. lia.
Qed.

Lemma inc_from_split (o : list Z) (i : nat) :
  (i < List.length o)%nat ->
  inc_from i o
  = firstn i o ++ consecutive (nth i o 0 + 1) 1
    ++ map (fun x => x + 1) (skipn (S i) o).
Proof.
  intros H. unfold inc_from. f_equal.
  revert o H; induction i as [|i IH]; intros [|x o] H; simpl in H; try lia.
  - reflexivity.
  - cbn [skipn nth]. apply IH. lia.
Qed.

(** On an array whose first element is in range, a round of the loop
    computes the successor. *)
Lemma array_step_successor (k n : Z) (c : list Z) :
  k = zlen c -> 0 < k -> nth 0 c 0 <= n - k ->
  array_step k n c = successor n c.
Proof.
  intros Hk Hpos Hhd. unfold array_step.
  assert (Hlen : List.length c = S (Z.to_nat k - 1)) by (unfold zlen in Hk; lia).
  assert (Hc1 : zset c (k - 1) (zget c (k - 1) + 1) = inc_from (Z.to_nat k - 1) c).
  { replace (k - 1) with (Z.of_nat (Z.to_nat k - 1)) by lia.
    rewrite zget_nat, zset_of_nat.
    rewrite <- (inc_from_all c) at 1. rewrite Hlen.
    apply zset_nat_inc. lia. }
  rewrite Hc1. replace (Z.to_nat k) with (S (Z.to_nat k - 1)) at 1 by lia.
  pose proof (successor_spec n c) as Hspec.
  destruct (successor n c) as [c'|].
  - destruct Hspec as (i & Hi & Hfree & Hstuck & ->). rewrite <- Hk in *.
    replace (Z.to_nat k - 1)%nat with (i + (Z.to_nat k - 1 - i))%nat by lia.
    rewrite (@carry_run k n c Hk i (Z.to_nat k - 1 - i)); [|lia| |exact Hfree].
    2:{ intros j Hj. apply Hstuck. lia. }
    assert (E : (zget (inc_from i c) 0 >? n - k) = false).
    { rewrite Z.gtb_ltb. apply Z.ltb_ge. change 0 with (Z.of_nat 0) at 1.
      rewrite zget_nat. destruct i as [|i].
      - rewrite nth_inc_from_ge by lia. simpl in Hfree. lia.
      - rewrite nth_inc_from_lt by lia. exact Hhd. }
    rewrite E. f_equal.
    rewrite inc_from_split by exact Hi.
    replace (Z.of_nat i + 1) with (Z.of_nat (List.length (firstn i c) + 1)).
    2:{ rewrite length_firstn. lia. }
    replace (Z.to_nat (k - Z.of_nat (List.length (firstn i c) + 1)))
      with (List.length c - S i)%nat.
    2:{ rewrite length_firstn. unfold zlen in Hk. lia. }
    rewrite refill_run.
    + f_equal. f_equal. lia.
    + rewrite length_map, length_skipn. reflexivity.
  - rewrite <- Hk in Hspec.
    rewrite (@carry_all k n c Hk (Z.to_nat k - 1)); [|lia|].
    2:{ intros j Hj. apply Hspec. lia. }
    assert (E : (zget (inc_from 0 c) 0 >? n - k) = true).
    { rewrite Z.gtb_ltb. apply Z.ltb_lt. change 0 with (Z.of_nat 0) at 1.
      rewrite zget_nat, nth_inc_from_ge by lia.
      specialize (Hspec O ltac:(lia)). simpl in Hspec. lia. }
    rewrite E. reflexivity.
Qed.

(** The loop records a succession of combinations to its end. *)
Lemma combinations_loop_succession (k n : Z) (l : list (list Z)) :
  0 < k ->
  forall (c : list Z) (fuel : nat),
    succession n (c :: l) ->
    (forall c', In c' (c :: l) -> k = zlen c' /\ nth 0 c' 0 <= n - k) ->
    (List.length l < fuel)%nat ->
    combinations_loop fuel k n c = c :: l.
Proof.
  intros Hk. induction l as [|c' l IH]; intros c fuel Hsucc Hall Hfuel.
  - destruct fuel as [|fuel]; [lia|]. rewrite combinations_loop_step.
    destruct (Hall c (or_introl eq_refl)) as [Hlen Hhd].
    rewrite array_step_successor by assumption.
    simpl in Hsucc. rewrite Hsucc. reflexivity.
  - destruct fuel as [|fuel]; [simpl in Hfuel; lia|]. rewrite combinations_loop_step.
    destruct (Hall c (or_introl eq_refl)) as [Hlen Hhd].
    rewrite array_step_successor by assumption.
    destruct Hsucc as [Hc Hsucc]. rewrite Hc. f_equal.
    apply IH; [exact Hsucc| |simpl in Hfuel; lia].
    intros c'' Hin. apply Hall. right. exact Hin.
Qed.

Lemma spec_combinations_head (m k : nat) (lo : Z) (c : list Z) :
  In c (spec_combinations m (S k) lo) -> nth 0 c 0 <= lo + Z.of_nat m - Z.of_nat (S k).
Proof.
  revert k lo c; induction m as [|m IH]; intros k lo c; [intros []|].
  cbn [spec_combinations]. rewrite in_app_iff, in_map_iff.
  intros [(c' & <- & Hc)|Hc].
  - cbn [nth]. destruct (Nat.le_gt_cases k m) as [Hk|Hk]; [lia|].
    rewrite spec_combinations_none in Hc by exact Hk. contradiction.
  - specialize (IH k (lo + 1) c Hc). lia.
Qed.

Lemma spec_combinations_count (m k : nat) (lo : Z) :
  (List.length (spec_combinations m k lo) <= 2 ^ m)%nat.
Proof.
  revert k lo; induction m as [|m IH]; intros [|k] lo; simpl; try lia.
  - pose proof (Nat.pow_nonzero 2 m ltac:(lia)). lia.
  - rewrite length_app, length_map.
    pose proof (IH k (lo + 1)). pose proof (IH (S k) (lo + 1)). lia.
Qed.

Lemma zrange_consecutive (lo : Z) (k : nat) :
  zrange lo (Z.of_nat k) = consecutive lo k.
Proof.
  unfold zrange. rewrite Nat2Z.id.
  revert lo; induction k as [|k IH]; intros lo; [reflexivity|].
  cbn [seq map consecutive]. f_equal; [lia|].
  rewrite <- seq_shift, map_map, <- IH. apply map_ext. intros i. lia.
Qed.

(** A call of [combinations] records the combinations of [k] among [n] in
    the specified order. *)
Lemma combinations_rows_spec (k n : nat) :
  (1 <= k <= n)%nat ->
  combinations_rows (Z.of_nat k) (Z.of_nat n) = spec_combinations n k 0.
Proof.
  intros Hkn. unfold combinations_rows. rewrite Nat2Z.id, zrange_consecutive.
  destruct (@spec_combinations_first n k 0 ltac:(lia)) as [l Hl].
  pose proof (spec_combinations_succession n k 0) as Hsucc.
  pose proof (spec_combinations_count n k 0) as Hcount.
  rewrite Hl in *. apply combinations_loop_succession.
  - lia.
  - exact Hsucc.
  - intros c Hc. rewrite <- Hl in Hc. split.
    + apply spec_combinations_length in Hc. unfold zlen. lia.
    + destruct k as [|k]; [lia|]. apply spec_combinations_head in Hc. lia.
  - simpl in Hcount. lia.
Qed.

(** ** The string and the count of [powerset] *)

(** The tokens of [rows] appended to the string, and counted. *)
Definition emit (rows : list (list Z)) (st : list Z * Z) : list Z * Z :=
  fold_left (fun '(o, nc) c => (strcat o (token_of c), nc + 1)) rows st.

Lemma emit_app (l1 l2 : list (list Z)) (st : list Z * Z) :
  emit (l1 ++ l2) st = emit l2 (emit l1 st).
Proof. unfold emit. apply fold_left_app. Qed.

Lemma emit_count (rows : list (list Z)) (st : list Z * Z) :
  snd (emit rows st) = snd st + zlen rows.
Proof.
  revert st; induction rows as [|c rows IH]; intros [o nc].
  - unfold zlen. simpl. lia.
  - unfold emit in *. cbn [fold_left]. rewrite IH. unfold zlen. cbn [snd List.length]. lia.
Qed.

Lemma combinations_emit (output : list Z) (k n ncombos : Z) :
  combinations output k n ncombos = emit (combinations_rows k n) (output, ncombos).
Proof. reflexivity. Qed.

(** The sizes after the full set, as the specification words them: sizes
    in ascending order from [k], [count] of them at most, no further size
    once the number of combinations beyond the singletons and the full set,
    [taken] before size [k], has reached [maxh]. *)
Fixpoint spec_sizes (count : nat) (mh : Z) (n k : nat) (taken : Z) : list (list Z) :=
  match count with
  | O => []
  | S count' =>
      let rows := spec_combinations n k 0 in
      rows ++ (if taken + zlen rows >=? mh then []
               else spec_sizes count' mh n (S k) (taken + zlen rows))
  end.

(** The enumeration of §4.5 step 2: the singletons, then for more than
    one variant the full set and the sizes from 2 to [n - 1]. *)
Definition spec_powerset (mh : Z) (n : nat) : list (list Z) :=
  spec_combinations n 1 0
  ++ (if (1 <? n)%nat
      then spec_combinations n n 0 ++ spec_sizes (n - 2) mh n 2 0
      else []).

Lemma powerset_loop_spec (mh : Z) (n : nat) (count k : nat) (st : list Z * Z) :
  (1 <= k)%nat -> (k + count <= n)%nat ->
  powerset_loop count mh (Z.of_nat n) (Z.of_nat k) st
  = emit (spec_sizes count mh n k (snd st - Z.of_nat n - 1)) st.
Proof.
  revert k st; induction count as [|count IH]; intros k st Hk Hn; [reflexivity|].
  cbn [powerset_loop spec_sizes]. rewrite combinations_emit.
  rewrite combinations_rows_spec by lia.
  rewrite <- surjective_pairing.
  destruct (emit (spec_combinations n k 0) st) as [combo ncombos] eqn:E.
  assert (Hnc : ncombos = snd st + zlen (spec_combinations n k 0)).
  { rewrite <- emit_count, E. reflexivity. }
  replace (snd st - Z.of_nat n - 1 + zlen (spec_combinations n k 0))
    with (ncombos - Z.of_nat n - 1) by lia.
  rewrite emit_app, E.
  destruct (ncombos - Z.of_nat n - 1 >=? mh); [reflexivity|].
  replace (Z.of_nat k + 1) with (Z.of_nat (S k)) by lia.
  rewrite IH by lia. reflexivity.
Qed.

(** [powerset] records the enumeration of the specification. *)
Lemma powerset_spec (mh : Z) (n : nat) :
  (1 <= n)%nat ->
  powerset mh (Z.of_nat n) 0 = emit (spec_powerset mh n) ([], 0).
Proof.
  intros Hn. unfold powerset, spec_powerset.
  rewrite combinations_emit.
  change 1 with (Z.of_nat 1) at 1. rewrite combinations_rows_spec by lia.
  rewrite emit_app.
  destruct (emit (spec_combinations n 1 0) ([], 0)) as [combo ncombos] eqn:E1.
  destruct (Nat.ltb_spec 1 n) as [H1|H1].
  - assert (Hgt : (Z.of_nat n >? 1) = true) by (rewrite Z.gtb_ltb; apply Z.ltb_lt; lia).
    rewrite Hgt, combinations_emit, combinations_rows_spec by lia.
    rewrite emit_app.
    destruct (emit (spec_combinations n n 0) (combo, ncombos)) as [combo2 ncombos2] eqn:E2.
    replace (Z.to_nat (Z.of_nat n - 2)) with (n - 2)%nat by lia.
    change 2 with (Z.of_nat 2). rewrite powerset_loop_spec by lia.
    cbn [snd].
    assert (Hc1 : ncombos = zlen (spec_combinations n 1 0)).
    { change ncombos with (snd (combo, ncombos)). rewrite <- E1, emit_count. simpl. lia. }
    assert (Hc2 : ncombos2 = ncombos + zlen (spec_combinations n n 0)).
    { change ncombos2 with (snd (combo2, ncombos2)). rewrite <- E2, emit_count. reflexivity. }
    assert (Hzero : ncombos2 - Z.of_nat n - 1 = 0).
    { cut (zlen (spec_combinations n 1 0) = Z.of_nat n
           /\ zlen (spec_combinations n n 0) = 1); [lia|].
      clear. split.
      - unfold zlen. f_equal. generalize 0. induction n as [|n IH]; intros lo;
          [reflexivity|].
        cbn [spec_combinations]. rewrite length_app, length_map, IH.
        destruct n; reflexivity.
      - unfold zlen. change 1 with (Z.of_nat 1). f_equal.
        generalize 0. induction n as [|n IH]; intros lo; [reflexivity|].
        cbn [spec_combinations]. rewrite length_app, length_map, IH.
        rewrite spec_combinations_none by lia. reflexivity. }
    rewrite Hzero. reflexivity.
  - assert (Hgt : (Z.of_nat n >? 1) = false) by (rewrite Z.gtb_ltb; apply Z.ltb_ge; lia).
    rewrite Hgt. reflexivity.
Qed.

(** ** Counting the combinations *)

(** The combinations of the sizes [k], [k + 1], ..., [j] sizes in all. *)
Definition sizes_from (n k j : nat) : list (list Z) :=
  flat_map (fun s => spec_combinations n s 0) (seq k j).

Lemma list_sum_cons (x : nat) (l : list nat) :
  list_sum (x :: l) = (x + list_sum l)%nat.
Proof. reflexivity. Qed.

Lemma length_flat_map_sum {A B : Type} (f : A -> list B) (l : list A) :
  List.length (flat_map f l) = list_sum (map (fun x => List.length (f x)) l).
Proof.
  induction l as [|x l IH]; [reflexivity|].
  cbn [flat_map map]. rewrite list_sum_cons, length_app, IH. reflexivity.
Qed.

Lemma list_sum_zero {A : Type} (f : A -> nat) (l : list A) :
  (forall x, In x l -> f x = O) -> list_sum (map f l) = O.
Proof.
  induction l as [|x l IH]; intros H; [reflexivity|].
  cbn [map]. rewrite list_sum_cons, (H x (or_introl eq_refl)), IH; [reflexivity|].
  intros y Hy. apply H. right. exact Hy.
Qed.

Lemma list_sum_map_add {A : Type} (f g : A -> nat) (l : list A) :
  list_sum (map (fun x => f x + g x)%nat l)
  = (list_sum (map f l) + list_sum (map g l))%nat.
Proof.
  induction l as [|x l IH]; [reflexivity|]. cbn [map]. rewrite !list_sum_cons, IH. lia.
Qed.

Lemma list_sum_shift (f : nat -> nat) (j : nat) :
  list_sum (map f (seq 0 (S j)))
  = (f O + list_sum (map (fun k => f (S k)) (seq 0 j)))%nat.
Proof.
  cbn [seq map]. rewrite list_sum_cons, <- seq_shift, map_map. reflexivity.
Qed.

(** The sizes of the combinations of all sizes add up to [2^m]. *)
Lemma spec_combinations_total (m : nat) :
  forall (lo : Z) (j : nat),
    (m <= j)%nat ->
    list_sum (map (fun k => List.length (spec_combinations m k lo)) (seq 0 (S j)))
    = (2 ^ m)%nat.
Proof.
  induction m as [|m IH]; intros lo j Hj.
  - rewrite list_sum_shift, list_sum_zero; [reflexivity|].
    intros k Hk. reflexivity.
  - rewrite list_sum_shift. cbn [spec_combinations].
    rewrite (map_ext _ (fun k => List.length (spec_combinations m k (lo + 1))
                                 + List.length (spec_combinations m (S k) (lo + 1)))%nat).
    2:{ intros k. rewrite length_app, length_map. reflexivity. }
    rewrite list_sum_map_add.
    destruct j as [|j]; [lia|].
    rewrite (IH (lo + 1) j) by lia.
    pose proof (IH (lo + 1) (S j) ltac:(lia)) as H.
    rewrite list_sum_shift in H.
    replace (List.length (spec_combinations m 0 (lo + 1))) with 1%nat in H
      by (destruct m; reflexivity).
    cbn [List.length]. rewrite Nat.pow_succ_r'. lia.
Qed.

Lemma spec_combinations_singles (m : nat) (lo : Z) :
  spec_combinations m 1 lo = map (fun i => [i]) (consecutive lo m).
Proof.
  revert lo; induction m as [|m IH]; intros lo; [reflexivity|].
  cbn [spec_combinations consecutive map]. rewrite IH.
  destruct m; reflexivity.
Qed.

Lemma spec_combinations_full (m : nat) (lo : Z) :
  spec_combinations m m lo = [consecutive lo m].
Proof.
  revert lo; induction m as [|m IH]; intros lo; [reflexivity|].
  cbn [spec_combinations consecutive]. rewrite IH, spec_combinations_none by lia.
  reflexivity.
Qed.

(** The sizes from 2 to [n - 1] hold all but [n + 2] of the [2^n]
    subsets. *)
Lemma sizes_from_all (n : nat) :
  (2 <= n)%nat ->
  (List.length (sizes_from n 2 (n - 2)) + n + 2 = 2 ^ n)%nat.
Proof.
  intros Hn. unfold sizes_from. rewrite length_flat_map_sum.
  pose proof (@spec_combinations_total n 0 n ltac:(lia)) as H.
  replace (S n) with (2 + (n - 2) + 1)%nat in H by lia.
  rewrite !seq_app, !map_app, !list_sum_app in H.
  cbn [seq map Nat.add] in H. rewrite !list_sum_cons in H.
  change (list_sum []) with O in H.
  replace (S (S (n - 2))) with n in H by lia.
  rewrite spec_combinations_full, spec_combinations_singles in H.
  rewrite length_map, length_consecutive in H.
  replace (List.length (spec_combinations n 0 0)) with 1%nat in H
    by (destruct n; reflexivity).
  cbn [List.length] in H. lia.
Qed.

Lemma sizes_from_prefix (n j j' : nat) :
  (j <= j')%nat ->
  (List.length (sizes_from n 2 j) <= List.length (sizes_from n 2 j'))%nat.
Proof.
  intros H. unfold sizes_from.
  replace j' with (j + (j' - j))%nat by lia.
  rewrite seq_app, flat_map_app, length_app. lia.
Qed.

(** The sizes that the loop of [powerset] reaches: [j] sizes from [k],
    the first number of sizes with which the count reaches [mh], or all
    [count] sizes. *)
Lemma spec_sizes_cut (mh : Z) (n : nat) (count : nat) :
  forall (k : nat) (taken : Z),
  exists j : nat,
    (j <= count)%nat
    /\ (count = O \/ 1 <= j)%nat
    /\ spec_sizes count mh n k taken
       = flat_map (fun s => spec_combinations n s 0) (seq k j)
    /\ (j = count
        \/ mh <= taken + zlen (flat_map (fun s => spec_combinations n s 0) (seq k j)))
    /\ (forall j' : nat,
          (1 <= j' < j)%nat ->
          taken + zlen (flat_map (fun s => spec_combinations n s 0) (seq k j')) < mh).
Proof.
  induction count as [|count IH]; intros k taken.
  - exists O. repeat split; auto. intros j' Hj'. lia.
  - cbn [spec_sizes].
    destruct (taken + zlen (spec_combinations n k 0) >=? mh) eqn:E.
    + exists 1%nat. rewrite Z.geb_leb in E. apply Z.leb_le in E.
      cbn [seq flat_map]. rewrite !app_nil_r.
      split; [lia|]. split; [right; lia|]. split; [reflexivity|].
      split; [right; exact E|]. intros j' Hj'. lia.
    + rewrite Z.geb_leb in E. apply Z.leb_gt in E.
      destruct (IH (S k) (taken + zlen (spec_combinations n k 0)))
        as (j & Hj & _ & Heq & Hcut & Hmin).
      exists (S j). rewrite Heq. cbn [seq flat_map].
      split; [lia|]. split; [right; lia|]. split; [reflexivity|]. split.
      * destruct Hcut as [->|Hcut]; [left; reflexivity|right].
        rewrite zlen_app. lia.
      * intros [|j'] Hj'; [lia|]. cbn [seq flat_map]. rewrite zlen_app.
        destruct j' as [|j'].
        -- cbn [seq flat_map]. change (zlen (@nil (list Z))) with 0. lia.
        -- specialize (Hmin (S j') ltac:(lia)). lia.
Qed.

(** ** Lexicographic order and completeness *)

Inductive lex_lt : list Z -> list Z -> Prop :=
| lex_head (x y : Z) (a b : list Z) : x < y -> lex_lt (x :: a) (y :: b)
| lex_tail (x : Z) (a b : list Z) : lex_lt a b -> lex_lt (x :: a) (x :: b).

(** [c] holds integers from [lo] up to [hi], excluded, in increasing
    order. *)
Fixpoint increasing_in (lo hi : Z) (c : list Z) : Prop :=
  match c with
  | [] => True
  | x :: c' => lo <= x < hi /\ increasing_in (x + 1) hi c'
  end.

Lemma StronglySorted_app_of {A : Type} (R : A -> A -> Prop) (l1 l2 : list A) :
  StronglySorted R l1 -> StronglySorted R l2 ->
  (forall a b, In a l1 -> In b l2 -> R a b) ->
  StronglySorted R (l1 ++ l2).
Proof.
  intros H1 H2 H12. induction H1 as [|a l1 Hl1 IH Ha]; [exact H2|].
  cbn [app]. constructor.
  - apply IH. intros x y Hx Hy. apply H12; [right; exact Hx|exact Hy].
  - apply Forall_app. split; [exact Ha|].
    apply Forall_forall. intros b Hb. apply H12; [left; reflexivity|exact Hb].
Qed.

Lemma spec_combinations_lower (m k : nat) (lo : Z) (c : list Z) :
  In c (spec_combinations m (S k) lo) -> exists x c', c = x :: c' /\ lo <= x.
Proof.
  revert k lo c; induction m as [|m IH]; intros k lo c; [intros []|].
  cbn [spec_combinations]. rewrite in_app_iff, in_map_iff.
  intros [(c' & <- & Hc)|Hc].
  - exists lo, c'. split; [reflexivity|lia].
  - destruct (IH k (lo + 1) c Hc) as (x & c' & -> & Hx). exists x, c'.
    split; [reflexivity|lia].
Qed.

Lemma spec_combinations_sorted (m k : nat) (lo : Z) :
  StronglySorted lex_lt (spec_combinations m k lo).
Proof.
  revert k lo; induction m as [|m IH]; intros [|k] lo; cbn [spec_combinations];
    try (repeat constructor).
  apply StronglySorted_app_of.
  - specialize (IH k (lo + 1)).
    induction IH as [|a l Hl IHl Ha]; cbn [map]; constructor; [exact IHl|].
    apply Forall_map. eapply Forall_impl; [|exact Ha].
    intros b Hab. apply lex_tail. exact Hab.
  - apply IH.
  - intros a b Ha Hb. apply in_map_iff in Ha as (a' & <- & _).
    apply spec_combinations_lower in Hb as (x & b' & -> & Hx).
    apply lex_head. lia.
Qed.

Lemma increasing_in_lower (lo lo' hi : Z) (c : list Z) :
  lo' <= lo -> increasing_in lo hi c -> increasing_in lo' hi c.
Proof.
  destruct c as [|x c]; [trivial|]. intros H [Hx Hc]. split; [lia|exact Hc].
Qed.

(** The specified list holds the combinations of [k] among the integers
    from [lo] to [lo + m], and nothing else. *)
Lemma spec_combinations_complete (m k : nat) (lo : Z) (c : list Z) :
  In c (spec_combinations m k lo)
  <-> List.length c = k /\ increasing_in lo (lo + Z.of_nat m) c.
Proof.
  revert k lo c; induction m as [|m IH]; intros [|k] lo c; cbn [spec_combinations].
  - split.
    + intros [<-|[]]. split; [reflexivity|exact I].
    + intros [Hlen _]. destruct c; [left; reflexivity|discriminate].
  - split; [intros []|]. intros [Hlen Hinc].
    destruct c as [|x c]; [discriminate|]. destruct Hinc as [Hx _]. lia.
  - split.
    + intros [<-|[]]. split; [reflexivity|exact I].
    + intros [Hlen _]. destruct c; [left; reflexivity|discriminate].
  - rewrite in_app_iff, in_map_iff. split.
    + intros [(c' & <- & Hc)|Hc].
      * apply IH in Hc as [Hlen Hinc]. split; [simpl; lia|].
        split; [lia|]. replace (lo + Z.of_nat (S m)) with (lo + 1 + Z.of_nat m) by lia.
        exact Hinc.
      * apply IH in Hc as [Hlen Hinc]. split; [exact Hlen|].
        replace (lo + Z.of_nat (S m)) with (lo + 1 + Z.of_nat m) by lia.
        apply increasing_in_lower with (lo + 1); [lia|exact Hinc].
    + intros [Hlen Hinc]. destruct c as [|x c]; [discriminate|].
      destruct Hinc as [Hx Hinc].
      replace (lo + Z.of_nat (S m)) with (lo + 1 + Z.of_nat m) in * by lia.
      destruct (Z.eq_dec x lo) as [->|Hne].
      * left. exists c. split; [reflexivity|]. apply IH.
        split; [simpl in Hlen; lia|exact Hinc].
      * right. apply IH. split; [exact Hlen|]. split; [lia|exact Hinc].
Qed.

(** C3, as the code has it.  For [n >= 2] variants and [maxh >= 0],
    [powerset] records the [n] singletons, then the full set, then the
    sizes 2, 3, ... up to a size [K] in ascending order, each size whole and
    in lexicographic order; [K] is the first size with which the number of
    combinations beyond the singletons and the full set reaches [maxh], or
    [n - 1] when there is none ([K = 1]: no further size, for [n = 2]).  The
    count [ncombos] is the number of recorded combinations; it is at least
    [min (2^n - 1) (maxh + n + 1)] and at most [2^n - 1]. *)
Theorem powerset_enumeration (n : nat) (mh : Z) :
  (2 <= n)%nat -> 0 <= mh ->
  exists K : nat,
    (1 <= K <= n - 1)%nat
    /\ powerset mh (Z.of_nat n) 0
       = emit (map (fun i => [i]) (consecutive 0 n)
               ++ [consecutive 0 n]
               ++ sizes_from n 2 (K - 1)) ([], 0)
    /\ snd (powerset mh (Z.of_nat n) 0)
       = Z.of_nat n + 1 + zlen (sizes_from n 2 (K - 1))
    /\ (K = (n - 1)%nat \/ mh <= zlen (sizes_from n 2 (K - 1)))
    /\ (forall K' : nat, (2 <= K' < K)%nat -> zlen (sizes_from n 2 (K' - 1)) < mh)
    /\ Z.min (2 ^ Z.of_nat n - 1) (mh + Z.of_nat n + 1)
       <= snd (powerset mh (Z.of_nat n) 0) <= 2 ^ Z.of_nat n - 1
    /\ (forall k : nat,
          StronglySorted lex_lt (spec_combinations n k 0)
          /\ forall c, In c (spec_combinations n k 0)
                       <-> List.length c = k /\ increasing_in 0 (Z.of_nat n) c).
Proof.
  intros Hn Hmh.
  destruct (spec_sizes_cut mh n (n - 2) 2 0) as (j & Hj & Hj1 & Heq & Hcut & Hmin).
  exists (S j).
  assert (Hrows : spec_powerset mh n
                  = map (fun i => [i]) (consecutive 0 n) ++ [consecutive 0 n]
                    ++ sizes_from n 2 j).
  { unfold spec_powerset. destruct (Nat.ltb_spec 1 n) as [_|H]; [|lia].
    rewrite spec_combinations_singles, spec_combinations_full, Heq. reflexivity. }
  replace (S j - 1)%nat with j by lia.
  assert (Hcount : snd (powerset mh (Z.of_nat n) 0)
                   = Z.of_nat n + 1 + zlen (sizes_from n 2 j)).
  { rewrite powerset_spec, Hrows, emit_count by lia. cbn [snd].
    rewrite !zlen_app. unfold zlen at 1 2.
    rewrite length_map, length_consecutive. simpl List.length. lia. }
  assert (Hall : Z.of_nat (List.length (sizes_from n 2 (n - 2))) + Z.of_nat n + 2
                 = 2 ^ Z.of_nat n).
  { pose proof (sizes_from_all Hn) as H. apply (f_equal Z.of_nat) in H.
    rewrite !Nat2Z.inj_add, Nat2Z.inj_pow in H. exact H. }
  pose proof (sizes_from_prefix n Hj) as Hpre.
  split; [lia|]. split; [rewrite powerset_spec, Hrows by lia; reflexivity|].
  split; [exact Hcount|]. split; [|split; [|split]].
  - destruct Hcut as [->|Hcut]; [left; lia|right; exact Hcut].
  - intros K' HK'. specialize (Hmin (K' - 1)%nat ltac:(lia)). exact Hmin.
  - rewrite Hcount. unfold zlen in *. split.
    + destruct Hcut as [->|Hcut]; [|unfold sizes_from; lia].
      apply Z.le_trans with (2 ^ Z.of_nat n - 1); [apply Z.le_min_l|lia].
    + lia.
  - intros k. split; [apply spec_combinations_sorted|].
    intros c. rewrite spec_combinations_complete. reflexivity.
Qed.

Lemma powerset_enumeration_witness :
  (2 <= 3)%nat /\ 0 <= 1024
  /\ snd (powerset 1024 (Z.of_nat 3) 0) = 7
  /\ exists K : nat,
       powerset 1024 (Z.of_nat 3) 0
       = emit (map (fun i => [i]) (consecutive 0 3) ++ [consecutive 0 3]
               ++ sizes_from 3 2 (K - 1)) ([], 0).
Proof.
  assert (Hn : (2 <= 3)%nat) by lia.
  assert (Hmh : 0 <= 1024) by lia.
  split; [exact Hn|]. split; [exact Hmh|]. split; [reflexivity|].
  destruct (@powerset_enumeration 3 1024 Hn Hmh) as (K & _ & Heq & _).
  exists K. exact Heq.
Defined.

(** C3 as stated fails on the count: with three variants and [maxh = 0]
    the size 2 is recorded whole before the test, seven combinations and
    not [min (2^3 - 1) (0 + 3 + 1) = 4]. *)
Lemma powerset_count_exceeds_cap :
  snd (powerset 0 3 0) = 7
  /\ snd (powerset 0 3 0) <> Z.min (2 ^ 3 - 1) (0 + 3 + 1).
Proof. split; [reflexivity|discriminate]. Qed.

(* ===================================================================== *)
(** * Properties of the marginal probabilities *)
(* ===================================================================== *)

Section MarginalCounts.

Lemma zmax_of_from (f : ComboRow -> Z) (rows : list ComboRow) (m : Z) :
  m <= fold_left (fun m row => if f row >? m then f row else m) rows m
  /\ forall row, In row rows ->
       f row <= fold_left (fun m row => if f row >? m then f row else m) rows m.
Proof.
  revert m; induction rows as [|r rows IH]; intros m.
  - split; [simpl; lia|intros row []].
  - cbn [fold_left].
    destruct (IH (if f r >? m then f r else m)) as [H1 H2].
    assert (Hm : m <= (if f r >? m then f r else m)
                 /\ f r <= (if f r >? m then f r else m)).
    { destruct (f r >? m) eqn:E; rewrite Z.gtb_ltb in E;
        [apply Z.ltb_lt in E|apply Z.ltb_ge in E]; lia. }
    split; [lia|]. intros row [<-|Hin]; [lia|]. apply H2. exact Hin.
Qed.

Lemma zmax_of_nonneg (f : ComboRow -> Z) (rows : list ComboRow) :
  0 <= zmax_of f rows.
Proof. apply zmax_of_from. Qed.

Lemma zmax_of_ge (f : ComboRow -> Z) (rows : list ComboRow) (row : ComboRow) :
  In row rows -> f row <= zmax_of f rows.
Proof. apply zmax_of_from. Qed.

(** [has_alt_count] stays between 0 and the greatest [alt_count]. *)
Lemma marginal_variant_count (v : Variant) (rows : list ComboRow)
    (st : double * double * Z) (bound : Z) :
  0 <= snd st <= bound ->
  (forall row, In row rows -> k_alt_count row <= bound) ->
  0 <= snd (fold_left (marginal_step v) rows st) <= bound.
Proof.
  revert st; induction rows as [|r rows IH]; intros st Hst Hrows; [exact Hst|].
  cbn [fold_left]. apply IH.
  - destruct st as [[has_alt not_alt] has_alt_count]. unfold marginal_step.
    cbn [snd] in *. destruct (negb _); cbn [snd]; [|exact Hst].
    pose proof (Hrows r (or_introl eq_refl)).
    destruct (k_alt_count r >? has_alt_count) eqn:E; [|exact Hst].
    rewrite Z.gtb_ltb in E. apply Z.ltb_lt in E. lia.
  - intros row Hin. apply Hrows. right. exact Hin.
Qed.

(** The counts of every line: [0 <= has_alt_count <= read_count]. *)
Lemma marginal_lines_counts (var_vector : list Variant) (ref : double)
    (rows : list ComboRow) (line : Line) :
  In line (marginal_lines var_vector ref rows) ->
  0 <= l_has_alt_count line <= l_read_count line.
Proof.
  unfold marginal_lines. intros Hin. apply in_map_iff in Hin as (v & <- & _).
  pose proof (@marginal_variant_count v rows (Fin 0, ref, 0)
                (zmax_of k_alt_count rows)) as H.
  fold (marginal_variant ref rows v) in H.
  destruct (marginal_variant ref rows v) as [[has_alt not_alt] has_alt_count].
  cbn [snd print_variant l_has_alt_count l_read_count] in *.
  pose proof (zmax_of_nonneg k_ref_count rows).
  pose proof (zmax_of_nonneg k_alt_count rows).
  assert (0 <= has_alt_count <= zmax_of k_alt_count rows); [|lia].
  apply H; [lia|]. intros row Hrow. apply zmax_of_ge. exact Hrow.
Qed.

End MarginalCounts.

(** The counts of C2 hold on every line that a run writes. *)
Lemma evaluate_variants_counts (args : Args) (files : Files)
    (var_vector : list Variant) (block : Block) (line : Line) :
  evaluate_variants args files var_vector = Done (Some block) ->
  In line block ->
  0 <= l_has_alt_count line <= l_read_count line.
Proof.
  intros Hrun Hin.
  destruct (evaluate_variants_block _ _ _ Hrun) as (_ & ref & rows & ->).
  eapply marginal_lines_counts. exact Hin.
Qed.

Section FindVariantFacts.

Lemma ceqb_refl (s : cstr) : ceqb s s = true.
Proof. unfold ceqb. destruct (list_eq_dec ascii_dec s s); [reflexivity|contradiction]. Qed.

Lemma variant_eqb_refl (v : Variant) : variant_eqb v v = true.
Proof.
  unfold variant_eqb. rewrite String.eqb_refl, !ceqb_refl, Z.eqb_refl. reflexivity.
Qed.

Lemma variant_eqb_pos (v w : Variant) :
  v_pos v <> v_pos w -> variant_eqb v w = false.
Proof.
  intros H. unfold variant_eqb. apply Z.eqb_neq in H. rewrite H.
  apply andb_false_r.
Qed.

Variables v1 v2 : Variant.

Hypothesis Hpos : v_pos v1 < v_pos v2.

Lemma find_variant_single_same (v : Variant) : find_variant [v] v = 0.
Proof.
  unfold find_variant. cbn -[variant_eqb Z.gtb]. rewrite variant_eqb_refl. reflexivity.
Qed.

Lemma find_variant_single_other_l : find_variant [v2] v1 = -1.
Proof.
  unfold find_variant. cbn -[variant_eqb Z.gtb]. rewrite variant_eqb_pos by lia.
  assert (E : (v_pos v1 >? v_pos v2) = false) by (rewrite Z.gtb_ltb; apply Z.ltb_ge; lia).
  rewrite E. reflexivity.
Qed.

Lemma find_variant_single_other_r : find_variant [v1] v2 = -1.
Proof.
  unfold find_variant. cbn -[variant_eqb Z.gtb]. rewrite variant_eqb_pos by lia.
  assert (E : (v_pos v2 >? v_pos v1) = true) by (rewrite Z.gtb_ltb; apply Z.ltb_lt; lia).
  rewrite E. reflexivity.
Qed.

Lemma find_variant_pair_l : find_variant [v1; v2] v1 = 0.
Proof.
  unfold find_variant. cbn -[variant_eqb Z.gtb]. rewrite variant_eqb_refl. reflexivity.
Qed.

Lemma find_variant_pair_r : find_variant [v1; v2] v2 = 1.
Proof.
  unfold find_variant. cbn -[variant_eqb Z.gtb]. rewrite variant_eqb_pos by lia.
  assert (E : (v_pos v2 >? v_pos v1) = true) by (rewrite Z.gtb_ltb; apply Z.ltb_lt; lia).
  rewrite E. change (Z.to_nat ((1 + 1) ÷ 2)) with 1%nat.
  cbn -[variant_eqb Z.gtb]. rewrite variant_eqb_refl. reflexivity.
Qed.

End FindVariantFacts.

Section TwoVariants.

Local Open Scope R_scope.

Lemma deqb_fin_refl (x : R) : deqb (Fin x) (Fin x) = true.
Proof. simpl. destruct (Req_dec_T x x); [reflexivity|contradiction]. Qed.

Lemma deqb_fin_neq (x y : R) : x <> y -> deqb (Fin x) (Fin y) = false.
Proof. intros H. simpl. destruct (Req_dec_T x y); [contradiction|reflexivity]. Qed.

Lemma ln_10_pos : 0 < ln 10.
Proof. rewrite <- ln_1. apply ln_increasing; lra. Qed.

Lemma mul_M_1_LN10_fin (x : R) : mul_M_1_LN10 (Fin x) = Fin (x * 1 / ln 10).
Proof.
  unfold mul_M_1_LN10, M_LN10. cbn [dmul ddiv].
  destruct (Req_dec_T (ln 10) 0) as [E|_]; [pose proof ln_10_pos; lra|reflexivity].
Qed.

Lemma lae_lt_l (a a' b : R) : a < a' -> lae a b < lae a' b.
Proof.
  intros H. apply exp_lt_inv. rewrite !exp_lae.
  pose proof (exp_increasing _ _ H). lra.
Qed.

Lemma marginal_step_member (v : Variant) (has_alt not_alt : double)
    (has_alt_count : Z) (row : ComboRow) (x : R) :
  find_variant (k_combo row) v <> (-1)%Z -> combo_mass row = Fin x ->
  marginal_step v (has_alt, not_alt, has_alt_count) row
  = (if (has_alt ==? Fin 0)%D then Fin x else log_add_exp has_alt (Fin x),
     not_alt,
     if (k_alt_count row >? has_alt_count)%Z then k_alt_count row else has_alt_count).
Proof.
  intros Hin Hx. unfold marginal_step. apply Z.eqb_neq in Hin.
  rewrite Hin, Hx. reflexivity.
Qed.

Lemma marginal_step_other (v : Variant) (has_alt not_alt : double)
    (has_alt_count : Z) (row : ComboRow) (x : R) :
  find_variant (k_combo row) v = (-1)%Z -> combo_mass row = Fin x ->
  marginal_step v (has_alt, not_alt, has_alt_count) row
  = (has_alt, log_add_exp not_alt (Fin x), has_alt_count).
Proof.
  intros Hout Hx. unfold marginal_step. rewrite Hout, Hx. reflexivity.
Qed.

Variables v1 v2 : Variant.
Variables r1 r2 r3 : ComboRow.
Variables ref x1 x2 x3 : R.

Hypothesis Hpos : (v_pos v1 < v_pos v2)%Z.
Hypothesis Hc1 : k_combo r1 = [v1].
Hypothesis Hc2 : k_combo r2 = [v2].
Hypothesis Hc3 : k_combo r3 = [v1; v2].
Hypothesis Hx1 : combo_mass r1 = Fin x1.
Hypothesis Hx2 : combo_mass r2 = Fin x2.
Hypothesis Hx3 : combo_mass r3 = Fin x3.
Hypothesis Hnz : x1 <> 0.

(** The marginals of the first of two variants: [has_alt] adds the
    combinations [{v1}] and [{v1, v2}], [total] keeps the reference and the
    last combination [{v1, v2}] only. *)
Lemma marginal_first_of_two :
  fst (marginal_variant (Fin ref) [r1; r2; r3] v1) = (Fin (lae x1 x3), Fin (lae ref x2))
  /\ marginal_total (Fin ref) [r1; r2; r3] = Fin (lae ref x3).
Proof.
  split.
  - unfold marginal_variant. cbn [fold_left].
    rewrite (@marginal_step_member v1 _ _ _ r1 x1);
      [|rewrite Hc1, find_variant_single_same; discriminate|exact Hx1].
    rewrite deqb_fin_refl.
    rewrite (@marginal_step_other v1 _ _ _ r2 x2);
      [|rewrite Hc2; apply find_variant_single_other_l; exact Hpos|exact Hx2].
    rewrite (@marginal_step_member v1 _ _ _ r3 x3);
      [|rewrite Hc3, find_variant_pair_l; discriminate|exact Hx3].
    rewrite (deqb_fin_neq Hnz), !log_add_exp_fin. reflexivity.
  - unfold marginal_total. cbn [fold_left]. rewrite Hx3, log_add_exp_fin. reflexivity.
Qed.

(** When the combination [{v1}] alone weighs more than the reference, the
    probability printed for [v1] exceeds 1: its decimal logarithm is
    positive. *)
Lemma prob_first_of_two_positive :
  ref < x1 ->
  exists p : R,
    l_prob (hd (print_variant [] v1 0 0 NaN NaN NaN)
              (marginal_lines [v1; v2] (Fin ref) [r1; r2; r3])) = Fin p
    /\ 0 < p.
Proof.
  intros Hlt. unfold marginal_lines. cbn [map hd].
  destruct marginal_first_of_two as [Hv Ht]. rewrite Ht.
  destruct (marginal_variant (Fin ref) [r1; r2; r3] v1)
    as [[has_alt not_alt] has_alt_count].
  cbn [fst] in Hv. injection Hv as -> ->.
  cbn [print_variant l_prob]. cbn [dsub dopp dadd]. rewrite mul_M_1_LN10_fin.
  eexists. split; [reflexivity|].
  pose proof (@lae_lt_l ref x1 x3 Hlt). pose proof ln_10_pos.
  apply Rdiv_lt_0_compat; lra.
Qed.

End TwoVariants.

(** ** A run on unmapped reads *)

(** [read_g] as an unmapped read, and a BAM file that has it in every
    region. *)
Definition read_unmapped : Read :=
  {| r_name := "r1"; r_tid := 0; r_chr := "chr1"; r_pos := 99; r_length := 1;
     r_qseq := cs "G"; r_qual := [Fin (-3)]; r_flag := cs "PAIRED,UNMAP";
     r_inferred_length := 1; r_multimap := None |}.

Definition files_unmapped : Files :=
  {| fetch_reads := fun _ => [read_unmapped]; fetch_refseq := one_contig;
     qsort_results := fun results => results |}.

Lemma lae_0_0 : lae 0 0 = ln 2.
Proof.
  unfold lae. rewrite Rmax_left by lra.
  replace (0 - 0)%R with 0%R by ring. rewrite exp_0.
  replace (1 + 1)%R with 2%R by ring. ring.
Qed.

Lemma ln_2_pos : (0 < ln 2)%R.
Proof. rewrite <- ln_1. apply ln_increasing; lra. Qed.

Lemma combo_mass_zero_row (combo : list Variant) :
  combo_mass (zero_row combo) = Fin (lae 0 0).
Proof. unfold combo_mass, zero_row. cbn [k_alt k_het]. apply log_add_exp_fin. Qed.

(** The run on two nearby variants whose only read is unmapped: one block
    of two lines, computed from accumulators at 0. *)
Lemma run_on_unmapped_read :
  process_variants default_args files_unmapped
    [snv "chr1" 100 "A" "G"; snv "chr1" 105 "A" "C"]
  = Done [marginal_lines [snv "chr1" 100 "A" "G"; snv "chr1" 105 "A" "C"] (Fin 0)
            [zero_row [snv "chr1" 100 "A" "G"];
             zero_row [snv "chr1" 105 "A" "C"];
             zero_row [snv "chr1" 100 "A" "G"; snv "chr1" 105 "A" "C"]]].
Proof.
  unfold process_variants.
  replace (hypothesis_sets (distlim default_args) _)
    with (Done [[snv "chr1" 100 "A" "G"; snv "chr1" 105 "A" "C"]]) by reflexivity.
  cbn [bind]. unfold pool. cbn [rev app foldM]. unfold pool_step.
  rewrite (@evaluate_variants_skipped default_args files_unmapped
             [snv "chr1" 100 "A" "G"; snv "chr1" 105 "A" "C"] poly_a
             [[snv "chr1" 100 "A" "G"]; [snv "chr1" 105 "A" "C"];
              [snv "chr1" 100 "A" "G"; snv "chr1" 105 "A" "C"]]).
  - reflexivity.
  - discriminate.
  - reflexivity.
  - constructor; [|constructor]. left. reflexivity.
  - reflexivity.
  - reflexivity.
Qed.

(** C2 fails on two variants five bases apart and a BAM file whose only
    read in the region is unmapped: the run prints one block, and on
    its first line, for chr1:100 A>G, prob is a positive number.  The
    has_alt column sums the combinations {v1} and {v1,v2}, while total
    keeps ref and the last combination only, so has_alt > total; the code
    says "Marginal probabilities" and initialises total to ref, then
    assigns log_add_exp(ref, ...) in the loop where the accumulation
    log_add_exp(total, ...) was meant. *)
Theorem prob_positive_on_first_of_two :
  exists (block : Block) (line : Line) (p : R),
    process_variants default_args files_unmapped
      [snv "chr1" 100 "A" "G"; snv "chr1" 105 "A" "C"] = Done [block]
    /\ In line block
    /\ line_variant line = snv "chr1" 100 "A" "G"
    /\ l_prob line = Fin p
    /\ (0 < p)%R.
Proof.
  set (v1 := snv "chr1" 100 "A" "G"). set (v2 := snv "chr1" 105 "A" "C").
  set (block := marginal_lines [v1; v2] (Fin 0)
                  [zero_row [v1]; zero_row [v2]; zero_row [v1; v2]]).
  assert (Hp : exists p : R,
             l_prob (hd (print_variant [] v1 0 0 NaN NaN NaN) block) = Fin p
             /\ (0 < p)%R).
  { apply (@prob_first_of_two_positive v1 v2 (zero_row [v1]) (zero_row [v2])
             (zero_row [v1; v2]) 0 (lae 0 0) (lae 0 0) (lae 0 0)).
    - reflexivity.
    - reflexivity.
    - reflexivity.
    - reflexivity.
    - apply combo_mass_zero_row.
    - apply combo_mass_zero_row.
    - apply combo_mass_zero_row.
    - rewrite lae_0_0. pose proof ln_2_pos. lra.
    - rewrite lae_0_0. apply ln_2_pos. }
  destruct Hp as (p & Hp & Hpos).
  pose proof (marginal_lines_variants [v1; v2] (Fin 0)
                [zero_row [v1]; zero_row [v2]; zero_row [v1; v2]]) as Hv.
  fold block in Hv, Hp.
  exists block, (hd (print_variant [] v1 0 0 NaN NaN NaN) block), p.
  split; [apply run_on_unmapped_read|].
  destruct block as [|line rest]; [discriminate Hv|].
  cbn [hd map] in *.
  assert (Hline : line_variant line = v1) by congruence.
  split; [left; reflexivity|]. split; [exact Hline|]. split; assumption.
Qed.

(* ===================================================================== *)
(** * The multi-variant hypothesis flag *)
(* ===================================================================== *)


Section EvaluatedRows.

Variables (args : Args) (files : Files).

Lemma eval_combo_rows (refseq : cstr) (refseq_length : Z)
    (alt_prior het_prior : double) (read_set : list Read)
    (st st' : ComboAcc) (ic : Z * list Variant) :
  eval_combo args files refseq refseq_length alt_prior het_prior read_set st ic
  = Done st' ->
  map k_combo (e_rows st') = map k_combo (e_rows st) ++ [snd ic].
Proof.
  unfold eval_combo. destruct ic as [seti combo].
  destruct (construct_altseq refseq refseq_length combo) as [altseq altseq_length].
  intros H. invert_bind H. injection H as <-.
  cbn [e_rows snd]. rewrite map_app. reflexivity.
Qed.

Lemma foldM_eval_combo_rows (refseq : cstr) (refseq_length : Z)
    (alt_prior het_prior : double) (read_set : list Read)
    (l : list (Z * list Variant)) (st st' : ComboAcc) :
  foldM (eval_combo args files refseq refseq_length alt_prior het_prior read_set)
    l st = Done st' ->
  map k_combo (e_rows st') = map k_combo (e_rows st) ++ map snd l.
Proof.
  revert st; induction l as [|ic l IH]; intros st H.
  - injection H as <-. rewrite app_nil_r. reflexivity.
  - cbn [foldM] in H. invert_bind H.
    rewrite (IH _ H), (eval_combo_rows _ _ _ _ _ _ _ E), <- app_assoc.
    reflexivity.
Qed.

(** The rows behind a block are those of the combinations that [powerset]
    listed for [maxh], one row for each, in its order. *)
Lemma evaluate_variants_rows (var_vector : list Variant) (block : Block) :
  evaluate_variants args files var_vector = Done (Some block) ->
  exists (var_combo : list (list Variant)) (ref : double) (rows : list ComboRow),
    parse_combo var_vector (fst (powerset (maxh args) (zlen var_vector) 0))
      (snd (powerset (maxh args) (zlen var_vector) 0)) = Done var_combo
    /\ map k_combo rows = var_combo
    /\ block = marginal_lines var_vector ref rows.
Proof.
  unfold evaluate_variants. destruct var_vector as [|first rest];
    [discriminate|].
  destruct (zlen (fetch_reads files _) =? 0); [discriminate|].
  destruct (powerset _ _ _) as [combo ncombos]. cbn [fst snd].
  intros H. invert_bind H.
  destruct (fetch_refseq files (v_chr first)) as [f|]; [|discriminate].
  destruct (priors _ _ _) as [alt_prior het_prior].
  invert_bind H. injection H as <-.
  exists a, (e_ref a0), (e_rows a0). split; [reflexivity|]. split; [|reflexivity].
  rewrite (foldM_eval_combo_rows _ _ _ _ _ _ _ E0). cbn [e_rows map app].
  apply map_snd_indexed.
Qed.



End EvaluatedRows.

(** ** The combinations read back from the string *)

(** The variants of [var_set] at the indices of [c]. *)
Definition select (var_set : list Variant) (c : list Z) : list Variant :=
  map (fun i => nth (Z.to_nat i) var_set (snv "" 0 "" "")) c.

(** The tokens of [rows], one after the other. *)
Definition tokens (rows : list (list Z)) : list Z :=
  List.concat (map token_of rows).

(** An index list that a token can carry: not empty, every index inside a
    set of [n] variants. *)
Definition codable (n : Z) (c : list Z) : Prop :=
  c <> [] /\ Forall (fun i => 0 <= i < n) c.

Section Decoding.

Variable var_set : list Variant.

Hypothesis Hsmall : zlen var_set <= 118.

Lemma to_char_index (i : Z) :
  0 <= i < zlen var_set -> to_char (i + TAB + 1) = i + 10.
Proof.
  intros H. unfold to_char, TAB.
  rewrite Z.mod_small by lia. lia.
Qed.

Lemma token_of_indices (c : list Z) :
  Forall (fun i => 0 <= i < zlen var_set) c ->
  token_of c = map (fun i => i + 10) c ++ [TAB].
Proof.
  intros H. unfold token_of. f_equal. apply map_ext_in. intros i Hi.
  rewrite Forall_forall in H. apply to_char_index. apply H. exact Hi.
Qed.

Lemma until_nul_token (c : list Z) :
  Forall (fun i => 0 <= i < zlen var_set) c ->
  until_nul (map (fun i => i + 10) c ++ [TAB])
  = map (fun i => i + 10) c ++ [TAB].
Proof.
  induction 1 as [|i c Hi _ IH]; [reflexivity|].
  cbn [map app until_nul].
  destruct (Z.eqb_spec (i + 10) 0); [lia|]. rewrite IH. reflexivity.
Qed.

Lemma emit_tokens (rows : list (list Z)) (o : list Z) (nc : Z) :
  Forall (codable (zlen var_set)) rows ->
  emit rows (o, nc) = (o ++ tokens rows, nc + zlen rows).
Proof.
  intros H. revert o nc; induction H as [|c rows [_ Hc] _ IH]; intros o nc.
  - unfold tokens. cbn. rewrite app_nil_r. f_equal. unfold zlen. simpl. lia.
  - unfold emit in *. cbn [fold_left]. rewrite IH. unfold strcat, tokens.
    cbn [map List.concat]. rewrite (token_of_indices Hc).
    rewrite (until_nul_token Hc), <- app_assoc.
    f_equal. unfold zlen. cbn [List.length]. lia.
Qed.

Lemma span_not_tab_token (c : list Z) (rest : list Z) :
  Forall (fun i => 0 <= i < zlen var_set) c ->
  span_not_tab (map (fun i => i + 10) c ++ TAB :: rest)
  = (map (fun i => i + 10) c, TAB :: rest).
Proof.
  induction 1 as [|i c Hi _ IH].
  - cbn [map app span_not_tab]. rewrite Z.eqb_refl. reflexivity.
  - cbn [map app span_not_tab].
    destruct (Z.eqb_spec (i + 10) TAB) as [E|_]; [unfold TAB in E; lia|].
    rewrite IH. reflexivity.
Qed.

Lemma combo_of_token_indices (c : list Z) :
  Forall (fun i => 0 <= i < zlen var_set) c ->
  combo_of_token var_set (map (fun i => i + 10) c) = Done (select var_set c).
Proof.
  induction 1 as [|i c Hi _ IH]; [reflexivity|].
  cbn [map combo_of_token]. unfold TAB at 1 2.
  replace (i + 10 - 9 - 1) with i by lia.
  destruct (Z.ltb_spec i 0); [lia|].
  assert (Hlt : (Z.to_nat i < List.length var_set)%nat) by (unfold zlen in Hi; lia).
  destruct (nth_error var_set (Z.to_nat i)) as [v|] eqn:E;
    [|apply nth_error_None in E; lia].
  rewrite IH. cbn [bind select map]. do 2 f_equal.
  symmetry. apply nth_error_nth. exact E.
Qed.

Lemma parse_combo_loop_tokens (rows : list (list Z)) (fuel : nat)
    (ncombos seti : Z) :
  Forall (codable (zlen var_set)) rows ->
  (List.length (tokens rows) < fuel)%nat ->
  seti + zlen rows <= ncombos ->
  parse_combo_loop fuel var_set ncombos (tokens rows) seti
  = Done (map (select var_set) rows).
Proof.
  intros H. revert fuel seti; induction H as [|c rows [Hne Hc] _ IH];
    intros fuel seti Hfuel Hn.
  - destruct fuel as [|fuel]; [simpl in Hfuel; lia|]. reflexivity.
  - destruct fuel as [|fuel]; [lia|]. cbn [parse_combo_loop].
    unfold tokens in *. cbn [map List.concat] in *.
    rewrite (token_of_indices Hc) in *. rewrite <- app_assoc in *.
    cbn [app] in *. rewrite (span_not_tab_token _ Hc).
    destruct c as [|i c]; [contradiction|]. cbn [map].
    change ((i + 10) :: map (fun i0 => i0 + 10) c)
      with (map (fun i0 => i0 + 10) (i :: c)).
    unfold zlen in Hn. cbn [List.length] in Hn.
    destruct (Z.ltb_spec seti ncombos); [|lia].
    rewrite (combo_of_token_indices Hc). cbn [bind].
    rewrite Z.eqb_refl.
    rewrite IH.
    + reflexivity.
    + rewrite length_app in Hfuel. cbn [List.length] in Hfuel. lia.
    + unfold zlen. lia.
Qed.

(** The string and the count that [emit] leaves for [rows] are parsed
    back into the variants at the indices of [rows]. *)
Lemma parse_combo_emit (rows : list (list Z)) :
  Forall (codable (zlen var_set)) rows ->
  parse_combo var_set (fst (emit rows ([], 0))) (snd (emit rows ([], 0)))
  = Done (map (select var_set) rows).
Proof.
  intros H. rewrite (emit_tokens [] 0 H). cbn [fst snd app].
  unfold parse_combo. rewrite parse_combo_loop_tokens; [|exact H|lia|lia].
  cbn [bind]. unfold zlen. rewrite length_map, Z.eqb_refl. reflexivity.
Qed.

End Decoding.

Section DecodedPowerset.

Lemma increasing_in_range (lo hi : Z) (c : list Z) :
  increasing_in lo hi c -> Forall (fun i => lo <= i < hi) c.
Proof.
  revert lo; induction c as [|x c IH]; intros lo H; [constructor|].
  destruct H as [Hx Hc]. constructor; [exact Hx|].
  eapply Forall_impl; [|apply (IH _ Hc)]. cbv beta. intros i Hi. lia.
Qed.

Lemma spec_combinations_codable (n k : nat) (c : list Z) :
  (1 <= k)%nat -> In c (spec_combinations n k 0) -> codable (Z.of_nat n) c.
Proof.
  intros Hk Hin. apply spec_combinations_complete in Hin.
  destruct Hin as [Hlen Hinc]. split.
  - intros ->. simpl in Hlen. lia.
  - apply increasing_in_range. exact Hinc.
Qed.

Lemma spec_sizes_codable (count : nat) (mh : Z) (n k : nat) (taken : Z) :
  (1 <= k)%nat -> Forall (codable (Z.of_nat n)) (spec_sizes count mh n k taken).
Proof.
  revert k taken; induction count as [|count IH]; intros k taken Hk;
    [constructor|].
  cbn [spec_sizes]. apply Forall_app. split.
  - apply Forall_forall. intros c. apply spec_combinations_codable. exact Hk.
  - destruct (_ >=? _); [constructor|]. apply IH. lia.
Qed.

Lemma spec_powerset_codable (mh : Z) (n : nat) :
  Forall (codable (Z.of_nat n)) (spec_powerset mh n).
Proof.
  unfold spec_powerset. apply Forall_app. split.
  - apply Forall_forall. intros c. apply spec_combinations_codable. lia.
  - destruct (1 <? n)%nat eqn:E; [|constructor].
    apply Nat.ltb_lt in E. apply Forall_app. split.
    + apply Forall_forall. intros c. apply spec_combinations_codable. lia.
    + apply spec_sizes_codable. lia.
Qed.

(** For a set of at most 118 variants the array [var_combo] holds the
    variants of the enumeration, combination by combination. *)
Lemma parse_combo_powerset (mh : Z) (var_set : list Variant) :
  var_set <> [] -> zlen var_set <= 118 ->
  parse_combo var_set (fst (powerset mh (zlen var_set) 0))
    (snd (powerset mh (zlen var_set) 0))
  = Done (map (select var_set) (spec_powerset mh (List.length var_set))).
Proof.
  intros Hne Hsmall. unfold zlen at 1 2.
  rewrite powerset_spec by (destruct var_set; [contradiction|simpl; lia]).
  apply parse_combo_emit; [exact Hsmall|]. apply spec_powerset_codable.
Qed.

End DecodedPowerset.

(** ** A run with the flag set *)


(** Three variants of one set: each within [distlim] of the one before. *)
Definition three_nearby : list Variant :=
  [snv "chr1" 100 "A" "G"; snv "chr1" 105 "A" "C"; snv "chr1" 108 "A" "T"].



Section ZeroRows.

Local Open Scope R_scope.








Lemma marginal_total_last (ref : R) (rows : list ComboRow) (row : ComboRow) :
  marginal_total (Fin ref) (rows ++ [row]) = log_add_exp (Fin ref) (combo_mass row).
Proof. unfold marginal_total. rewrite fold_left_app. reflexivity. Qed.

End ZeroRows.








Section UndividedPriors.

Variables (args : Args) (files : Files).



End UndividedPriors.



(* ===================================================================== *)
(** * Bounds of the scanning loops *)
(* ===================================================================== *)

(** The loops over a string stop by themselves: the number of rounds
    allowed in [parse_flags], [xa_entries], [parse_combo] and
    [find_variant] is never what ends them. *)

Section LoopBounds.

Local Open Scope nat_scope.

Lemma span_not_length (stop : ascii) (limit : nat) (s tok rest : cstr) :
  span_not stop limit s = (tok, rest) ->
  List.length s = List.length tok + List.length rest.
Proof.
  revert s tok rest; induction limit as [|limit IH]; intros s tok rest H.
  - destruct s; injection H as <- <-; reflexivity.
  - destruct s as [|c s]; [injection H as <- <-; reflexivity|].
    cbn [span_not] in H. destruct (ascii_dec c stop).
    + injection H as <- <-. reflexivity.
    + destruct (span_not stop limit s) as [tok' rest'] eqn:E.
      injection H as <- <-. cbn [List.length]. rewrite (IH _ _ _ E). reflexivity.
Qed.

Lemma parse_flags_loop_bound (fuel fuel' : nat) (s : cstr) (fl : Flags) :
  List.length s < fuel -> List.length s < fuel' ->
  parse_flags_loop fuel s fl = parse_flags_loop fuel' s fl.
Proof.
  revert fuel' s fl; induction fuel as [|fuel IH]; intros fuel' s fl H H';
    [lia|].
  destruct fuel' as [|fuel']; [lia|]. cbn [parse_flags_loop].
  destruct (span_not "," 63 s) as [tok rest] eqn:E.
  apply span_not_length in E.
  destruct tok as [|t tok]; [reflexivity|].
  destruct rest as [|c rest]; [reflexivity|].
  destruct (ascii_dec c ","); [|reflexivity].
  cbn [List.length] in E. apply IH; lia.
Qed.

(** More rounds than [parse_flags] allows change nothing. *)
Lemma parse_flags_total (fuel : nat) (flag : cstr) :
  List.length flag < fuel ->
  parse_flags_loop fuel flag
    {| is_unmap := false; is_reverse := false; is_secondary := false |}
  = parse_flags flag.
Proof. intros H. unfold parse_flags. apply parse_flags_loop_bound; lia. Qed.

Lemma skip_space_length (s : cstr) : List.length (skip_space s) <= List.length s.
Proof.
  induction s as [|c s IH]; [reflexivity|]. cbn [skip_space].
  destruct (is_space c); cbn [List.length]; lia.
Qed.

Lemma scan_digits_length (s : cstr) (acc : Z) (count : nat) :
  List.length (snd (scan_digits s acc count)) <= List.length s.
Proof.
  revert acc count; induction s as [|c s IH]; intros acc count; [reflexivity|].
  cbn [scan_digits]. destruct (is_digit c); [|reflexivity].
  specialize (IH (10 * acc + (code c - 48))%Z (S count)). cbn [List.length]. lia.
Qed.

Lemma scan_int_length (s rest : cstr) (v : Z) :
  scan_int s = Some (v, rest) -> List.length rest <= List.length s.
Proof.
  unfold scan_int. pose proof (skip_space_length s) as Hs.
  destruct (skip_space s) as [|c s'].
  - destruct (scan_digits [] 0 0) as [[v' count] rest'] eqn:E.
    cbn in E. injection E as <- <- <-. discriminate.
  - assert (Hd : forall t : cstr, List.length t <= List.length (c :: s') ->
                 match (let '(v0, count, rest0) := scan_digits t 0 0 in
                        match count with
                        | O => None
                        | S _ => Some (v0, rest0)
                        end) with
                 | Some (_, rest0) => List.length rest0 <= List.length s
                 | None => True
                 end).
    { intros t Ht. pose proof (scan_digits_length t 0 0) as Hl.
      destruct (scan_digits t 0 0) as [[v0 count] rest0]. cbn [snd] in Hl.
      destruct count; [exact I|lia]. }
    destruct (ascii_dec c "-"); [|destruct (ascii_dec c "+")].
    + specialize (Hd s'). cbn [List.length] in Hd.
      destruct (scan_digits s' 0 0) as [[v0 count] rest0].
      destruct count; [discriminate|]. intros H; injection H as _ <-.
      apply Hd. lia.
    + specialize (Hd s'). cbn [List.length] in Hd.
      destruct (scan_digits s' 0 0) as [[v0 count] rest0].
      destruct count; [discriminate|]. intros H; injection H as _ <-.
      apply Hd. lia.
    + specialize (Hd (c :: s')).
      destruct (scan_digits (c :: s') 0 0) as [[v0 count] rest0].
      destruct count; [discriminate|]. intros H; injection H as _ <-.
      apply Hd. lia.
Qed.

Lemma expect_length (c : ascii) (s rest : cstr) :
  expect c s = Some rest -> List.length s = S (List.length rest).
Proof.
  destruct s as [|x s]; [discriminate|]. cbn [expect].
  destruct (ascii_dec x c); [|discriminate]. intros H; injection H as <-.
  reflexivity.
Qed.

Lemma scan_xa_length (s xa_chr rest : cstr) (xa_pos : Z) :
  scan_xa s = Some (xa_chr, xa_pos, rest) -> List.length rest < List.length s.
Proof.
  unfold scan_xa. destruct (span_not "," 63 s) as [tok r1] eqn:E1.
  apply span_not_length in E1. destruct tok as [|t tok]; [discriminate|].
  destruct (expect "," r1) as [r2|] eqn:E2; [|discriminate].
  apply expect_length in E2.
  destruct (scan_int r2) as [[v r3]|] eqn:E3; [|discriminate].
  apply scan_int_length in E3.
  destruct (expect "," r3) as [r4|] eqn:E4; [|discriminate].
  apply expect_length in E4.
  destruct (span_not ";" (List.length r4) r4) as [tok5 r5] eqn:E5.
  apply span_not_length in E5. destruct tok5; [discriminate|].
  intros H; injection H as _ _ <-. cbn [List.length] in *. lia.
Qed.

Lemma xa_entries_loop_bound (fuel fuel' : nat) (s : cstr) :
  List.length s < fuel -> List.length s < fuel' ->
  xa_entries_loop fuel s = xa_entries_loop fuel' s.
Proof.
  revert fuel' s; induction fuel as [|fuel IH]; intros fuel' s H H'; [lia|].
  destruct fuel' as [|fuel']; [lia|]. cbn [xa_entries_loop].
  destruct (scan_xa s) as [[[xa_chr xa_pos] rest]|] eqn:E; [|reflexivity].
  apply scan_xa_length in E.
  destruct rest as [|c rest]; [reflexivity|].
  destruct (ascii_dec c ";"); [|reflexivity].
  cbn [List.length] in E. f_equal. apply IH; lia.
Qed.

(** More rounds than [xa_entries] allows change nothing. *)
Lemma xa_entries_total (fuel : nat) (multimap : cstr) :
  List.length multimap < fuel ->
  xa_entries_loop fuel (tl multimap) = xa_entries multimap.
Proof.
  intros H. unfold xa_entries.
  assert (List.length (tl multimap) <= List.length multimap)
    by (destruct multimap; cbn [tl List.length]; lia).
  apply xa_entries_loop_bound; lia.
Qed.

End LoopBounds.

Section CombinationLoopBounds.

Lemma span_not_tab_length (s tok rest : list Z) :
  span_not_tab s = (tok, rest) ->
  List.length s = (List.length tok + List.length rest)%nat.
Proof.
  revert tok rest; induction s as [|x s IH]; intros tok rest H.
  - injection H as <- <-. reflexivity.
  - cbn [span_not_tab] in H. destruct (x =? TAB).
    + injection H as <- <-. reflexivity.
    + destruct (span_not_tab s) as [tok' rest'].
      injection H as <- <-. cbn [List.length]. rewrite (IH _ _ eq_refl).
      reflexivity.
Qed.

Lemma parse_combo_loop_bound (fuel fuel' : nat) (var_set : list Variant)
    (ncombos : Z) (s1 : list Z) (seti : Z) :
  (List.length s1 < fuel)%nat -> (List.length s1 < fuel')%nat ->
  parse_combo_loop fuel var_set ncombos s1 seti
  = parse_combo_loop fuel' var_set ncombos s1 seti.
Proof.
  revert fuel' s1 seti; induction fuel as [|fuel IH]; intros fuel' s1 seti H H';
    [lia|].
  destruct fuel' as [|fuel']; [lia|]. cbn [parse_combo_loop].
  destruct (span_not_tab s1) as [tok rest] eqn:E.
  apply span_not_tab_length in E.
  destruct tok as [|t tok]; [reflexivity|].
  destruct (seti <? ncombos); [|reflexivity].
  destruct (combo_of_token var_set (t :: tok)); try reflexivity.
  cbn [bind]. destruct rest as [|x rest]; [reflexivity|].
  destruct (x =? TAB); [|reflexivity].
  cbn [List.length] in E. rewrite (IH fuel' rest (seti + 1)) by lia.
  reflexivity.
Qed.

(** The interval of the binary search shrinks with every round. *)
Lemma find_variant_loop_bound (fuel fuel' : nat) (a : list Variant)
    (v : Variant) (i j : Z) :
  0 <= i ->
  j - i + 1 < Z.of_nat fuel -> j - i + 1 < Z.of_nat fuel' ->
  find_variant_loop fuel a v i j (Z.quot (i + j) 2)
  = find_variant_loop fuel' a v i j (Z.quot (i + j) 2).
Proof.
  revert fuel' i j; induction fuel as [|fuel IH]; intros fuel' i j Hi H H'.
  - destruct fuel' as [|fuel']; [reflexivity|]. cbn [find_variant_loop].
    destruct (Z.leb_spec i j); [lia|reflexivity].
  - destruct fuel' as [|fuel'].
    + cbn [find_variant_loop]. destruct (Z.leb_spec i j); [lia|reflexivity].
    + cbn [find_variant_loop]. destruct (Z.leb_spec i j) as [Hij|]; [|reflexivity].
      destruct (nth_error a (Z.to_nat ((i + j) ÷ 2))) as [curr|]; [|reflexivity].
      destruct (variant_eqb v curr); [reflexivity|].
      assert (Hn : i <= (i + j) ÷ 2 <= j).
      { rewrite Z.quot_div_nonneg by lia.
        split; [apply Z.div_le_lower_bound|apply Z.div_le_upper_bound]; lia. }
      destruct (v_pos v >? v_pos curr); apply IH; lia.
Qed.

(** More rounds than [find_variant] allows change nothing. *)
Lemma find_variant_total (fuel : nat) (a : list Variant) (v : Variant) :
  (List.length a < fuel)%nat ->
  find_variant_loop fuel a v 0 (zlen a - 1) (Z.quot (0 + (zlen a - 1)) 2)
  = find_variant a v.
Proof.
  intros H. unfold find_variant. cbv zeta.
  apply find_variant_loop_bound; unfold zlen; lia.
Qed.

End CombinationLoopBounds.

(* ===================================================================== *)
(** * Properties of the vectors *)
(* ===================================================================== *)

Section VectorFacts.

Variable A : Type.

(** The size lies within the capacity, and the block has [capacity]
    cells. *)
Definition vec_wf (a : Vector A) : Prop :=
  0 <= vec_size a <= vec_capacity a /\ zlen (vec_data a) = vec_capacity a.

Lemma store_nat_spec (data : list (Cell A)) (i : nat) (c : Cell A) :
  (i < List.length data)%nat ->
  store_nat data i c = Some (firstn i data ++ c :: skipn (S i) data).
Proof.
  revert i; induction data as [|x data IH]; intros i H; [simpl in H; lia|].
  destruct i as [|i]; [reflexivity|].
  cbn [store_nat]. rewrite IH by (simpl in H; lia). reflexivity.
Qed.

Lemma store_spec (data : list (Cell A)) (i : Z) (c : Cell A) :
  0 <= i < zlen data ->
  store data i c = Done (zfirstn i data ++ c :: zskipn (i + 1) data).
Proof.
  intros H. unfold store, zfirstn, zskipn, zlen in *.
  destruct (Z.ltb_spec i 0); [lia|].
  rewrite store_nat_spec by lia.
  replace (Z.to_nat (i + 1)) with (S (Z.to_nat i)) by lia. reflexivity.
Qed.

Lemma zlen_fresh_block (n : Z) : 0 <= n -> zlen (fresh_block A n) = n.
Proof. intros H. unfold zlen, fresh_block. rewrite repeat_length. lia. Qed.

Lemma zlen_firstn_le {B : Type} (n : Z) (l : list B) :
  0 <= n <= zlen l -> zlen (zfirstn n l) = n.
Proof. intros H. unfold zlen, zfirstn in *. rewrite length_firstn. lia. Qed.

Lemma zlen_skipn_le {B : Type} (n : Z) (l : list B) :
  0 <= n <= zlen l -> zlen (zskipn n l) = zlen l - n.
Proof. intros H. unfold zlen, zskipn in *. rewrite length_skipn. lia. Qed.

Lemma zfirstn_app_exact {B : Type} (n : Z) (l1 l2 : list B) :
  zlen l1 = n -> zfirstn n (l1 ++ l2) = l1.
Proof.
  intros H. unfold zfirstn, zlen in *.
  replace (Z.to_nat n) with (List.length l1 + 0)%nat by lia.
  rewrite firstn_app_2. cbn [firstn]. apply app_nil_r.
Qed.

Lemma zfirstn_app_more {B : Type} (n : Z) (l1 l2 : list B) :
  zlen l1 <= n -> zfirstn n (l1 ++ l2) = l1 ++ zfirstn (n - zlen l1) l2.
Proof.
  intros H. unfold zfirstn, zlen in *.
  replace (Z.to_nat n)
    with (List.length l1 + Z.to_nat (n - Z.of_nat (List.length l1)))%nat by lia.
  apply firstn_app_2.
Qed.

Lemma zfirstn_zfirstn {B : Type} (n m : Z) (l : list B) :
  0 <= n <= m -> zfirstn n (zfirstn m l) = zfirstn n l.
Proof.
  intros H. unfold zfirstn. rewrite firstn_firstn.
  f_equal. lia.
Qed.

Lemma zfirstn_all {B : Type} (n : Z) (l : list B) :
  zlen l <= n -> zfirstn n l = l.
Proof. intros H. unfold zfirstn, zlen in *. apply firstn_all2. lia. Qed.

Lemma stored_length (d : list (Cell A)) (i : Z) (c : Cell A) :
  0 <= i < zlen d -> zlen (zfirstn i d ++ c :: zskipn (i + 1) d) = zlen d.
Proof.
  intros H. rewrite zlen_app, zlen_firstn_le by lia.
  change (c :: zskipn (i + 1) d) with ([c] ++ zskipn (i + 1) d).
  rewrite zlen_app, zlen_skipn_le by lia. unfold zlen at 1. cbn [List.length]. lia.
Qed.

Lemma stored_prefix (d : list (Cell A)) (i n : Z) (c : Cell A) :
  0 <= n <= i -> i < zlen d ->
  zfirstn n (zfirstn i d ++ c :: zskipn (i + 1) d) = zfirstn n d.
Proof.
  intros Hn Hi.
  rewrite <- (@zfirstn_zfirstn _ n i (zfirstn i d ++ c :: zskipn (i + 1) d))
    by lia.
  rewrite zfirstn_app_exact by (apply zlen_firstn_le; lia).
  apply zfirstn_zfirstn. lia.
Qed.

Lemma stored_upto (d : list (Cell A)) (i : Z) (c : Cell A) :
  0 <= i < zlen d ->
  zfirstn (i + 1) (zfirstn i d ++ c :: zskipn (i + 1) d) = zfirstn i d ++ [c].
Proof.
  intros H. rewrite zfirstn_app_more by (rewrite zlen_firstn_le; lia).
  rewrite zlen_firstn_le by lia.
  replace (i + 1 - i) with 1 by lia. reflexivity.
Qed.

(** [vector_add] on a vector with room for at least one entry: the entry
    is appended, and the capacity doubles exactly when the vector is
    full. *)
Lemma vector_add_spec (a : Vector A) (entry : A) :
  vec_wf a -> 0 < vec_capacity a ->
  exists a' : Vector A,
    vector_add a entry = Done a'
    /\ vec_wf a'
    /\ vec_cells a' = vec_cells a ++ [Entry entry]
    /\ vec_size a' = vec_size a + 1
    /\ vec_capacity a'
       = (if vec_size a =? vec_capacity a then vec_capacity a * 2
          else vec_capacity a).
Proof.
  intros [Hsize Hlen] Hcap. unfold vector_add.
  destruct (Z.geb_spec (vec_size a) (vec_capacity a)) as [Hfull|Hroom].
  - assert (Heq : vec_size a = vec_capacity a) by lia.
    assert (Hre : realloc_block (vec_data a) (vec_capacity a * 2)
                  = vec_data a ++ fresh_block A (vec_capacity a)).
    { unfold realloc_block. rewrite zfirstn_all by lia.
      f_equal. f_equal. lia. }
    rewrite Hre.
    assert (Hlen2 : zlen (vec_data a ++ fresh_block A (vec_capacity a))
                    = vec_capacity a * 2).
    { rewrite zlen_app, zlen_fresh_block by lia. lia. }
    rewrite store_spec by lia. cbn [bind]. eexists. split; [reflexivity|].
    unfold vec_wf, vec_cells. cbn [vec_size vec_capacity vec_data].
    rewrite (proj2 (Z.eqb_eq _ _) Heq).
    split; [|split; [|split; reflexivity]].
    + split; [lia|]. rewrite stored_length by lia. exact Hlen2.
    + rewrite stored_upto by lia.
      rewrite zfirstn_app_exact by lia.
      rewrite zfirstn_all by lia. reflexivity.
  - rewrite store_spec by lia. cbn [bind]. eexists. split; [reflexivity|].
    unfold vec_wf, vec_cells. cbn [vec_size vec_capacity vec_data].
    destruct (Z.eqb_spec (vec_size a) (vec_capacity a)); [lia|].
    split; [|split; [|split; reflexivity]].
    + split; [lia|]. rewrite stored_length by lia. exact Hlen.
    + apply stored_upto. lia.
Qed.

Lemma zskipn_app_exact {B : Type} (n : Z) (l1 l2 : list B) :
  zlen l1 = n -> zskipn n (l1 ++ l2) = l2.
Proof.
  intros H. unfold zskipn, zlen in *.
  replace (Z.to_nat n) with (List.length l1) by lia.
  rewrite skipn_app, skipn_all, Nat.sub_diag. reflexivity.
Qed.

Lemma zskipn_zfirstn_comm {B : Type} (k n : Z) (l : list B) :
  0 <= k <= n -> zskipn k (zfirstn n l) = zfirstn (n - k) (zskipn k l).
Proof.
  intros H. unfold zskipn, zfirstn. rewrite skipn_firstn_comm.
  f_equal. lia.
Qed.

Lemma zfirstn_0 {B : Type} (l : list B) : zfirstn 0 l = [].
Proof. reflexivity. Qed.

Lemma zskipn_0 {B : Type} (l : list B) : zskipn 0 l = l.
Proof. reflexivity. Qed.

Lemma stored_suffix (d : list (Cell A)) (i : Z) (c : Cell A) :
  0 <= i < zlen d ->
  zskipn (i + 1) (zfirstn i d ++ c :: zskipn (i + 1) d) = zskipn (i + 1) d.
Proof.
  intros H.
  change (zfirstn i d ++ c :: zskipn (i + 1) d)
    with (zfirstn i d ++ [c] ++ zskipn (i + 1) d).
  rewrite app_assoc. apply zskipn_app_exact.
  rewrite zlen_app, zlen_firstn_le by lia. reflexivity.
Qed.

Lemma memcpy_cells_spec (dst src : list (Cell A)) (doff soff n : Z) :
  0 <= n -> 0 <= doff -> 0 <= soff ->
  doff + n <= zlen dst -> soff + n <= zlen src ->
  memcpy_cells dst doff src soff n
  = Done (zfirstn doff dst ++ zfirstn n (zskipn soff src)
          ++ zskipn (doff + n) dst).
Proof.
  intros Hn Hd Hs Hdst Hsrc. unfold memcpy_cells.
  destruct (Z.ltb_spec n 0); [lia|]. destruct (Z.ltb_spec doff 0); [lia|].
  destruct (Z.ltb_spec soff 0); [lia|].
  destruct (Z.ltb_spec (zlen dst) (doff + n)); [lia|].
  destruct (Z.ltb_spec (zlen src) (soff + n)); [lia|]. reflexivity.
Qed.

Lemma firstn_S_nth_error {B : Type} (l : list B) (k : nat) (c : B) :
  nth_error l k = Some c -> firstn (S k) l = firstn k l ++ [c].
Proof.
  revert k; induction l as [|x l IH]; intros [|k] H; try discriminate H.
  - injection H as ->. reflexivity.
  - cbn [nth_error] in H. cbn [firstn app]. f_equal. apply IH. exact H.
Qed.

(** [vector_pop] on a vector that is not empty takes the last cell. *)
Lemma vector_pop_spec (a : Vector A) :
  vec_wf a -> 0 < vec_size a ->
  exists (c : Cell A) (a' : Vector A),
    vector_pop a = Done (c, a')
    /\ vec_wf a'
    /\ vec_cells a = vec_cells a' ++ [c]
    /\ vec_size a' = vec_size a - 1
    /\ vec_capacity a' = vec_capacity a.
Proof.
  intros [Hsize Hlen] Hpos. unfold vector_pop.
  destruct (Z.leb_spec (vec_size a) 0); [lia|].
  destruct (nth_error (vec_data a) (Z.to_nat (vec_size a - 1))) as [c|] eqn:E.
  - rewrite store_spec by lia. cbn [bind]. exists c. eexists.
    split; [reflexivity|].
    unfold vec_wf, vec_cells. cbn [vec_size vec_capacity vec_data].
    replace (vec_size a - 1 + 1) with (vec_size a) by lia.
    split; [|split; [|split; reflexivity]].
    + split; [lia|].
      pose proof (@stored_length (vec_data a) (vec_size a - 1) Null) as Hl.
      replace (vec_size a - 1 + 1) with (vec_size a) in Hl by lia.
      rewrite Hl by lia. exact Hlen.
    + rewrite zfirstn_app_exact by (apply zlen_firstn_le; lia).
      unfold zfirstn.
      replace (Z.to_nat (vec_size a)) with (S (Z.to_nat (vec_size a - 1))) by lia.
      apply firstn_S_nth_error. exact E.
  - apply nth_error_None in E. unfold zlen in Hlen. lia.
Qed.

(** [vector_del] takes the entry at index [i] out and keeps the order of
    the others. *)
Lemma vector_del_spec (a : Vector A) (i : Z) :
  vec_wf a -> 0 <= i < vec_size a ->
  exists a' : Vector A,
    vector_del a i = Done a'
    /\ vec_wf a'
    /\ vec_cells a' = zfirstn i (vec_cells a) ++ zskipn (i + 1) (vec_cells a)
    /\ vec_size a' = vec_size a - 1
    /\ vec_capacity a' = vec_capacity a.
Proof.
  intros [Hsize Hlen] Hi. unfold vector_del.
  rewrite store_spec by lia. cbn [bind].
  set (d := vec_data a) in *. set (n := vec_size a) in *.
  set (d1 := zfirstn i d ++ Null :: zskipn (i + 1) d).
  assert (Hd1 : zlen d1 = zlen d) by (apply stored_length; lia).
  assert (Hrhs : zfirstn i (vec_cells a) ++ zskipn (i + 1) (vec_cells a)
                 = zfirstn i d ++ zfirstn (n - 1 - i) (zskipn (i + 1) d)).
  { unfold vec_cells. fold d n. rewrite zfirstn_zfirstn by lia.
    rewrite zskipn_zfirstn_comm by lia. do 2 f_equal. lia. }
  rewrite Hrhs.
  destruct (Z.eqb_spec i (n - 1)) as [Hlast|Hmid].
  - eexists. split; [reflexivity|].
    unfold vec_wf, vec_cells. cbn [vec_size vec_capacity vec_data]. fold d1.
    split; [|split; [|split; reflexivity]].
    + split; [lia|]. lia.
    + replace (n - 1 - i) with 0 by lia. rewrite zfirstn_0, app_nil_r.
      subst d1. rewrite <- Hlast. apply zfirstn_app_exact.
      apply zlen_firstn_le. lia.
  - set (p := fresh_block A (vec_capacity a)).
    assert (Hp : zlen p = vec_capacity a) by (apply zlen_fresh_block; lia).
    destruct (Z.eqb_spec i 0) as [Hzero|Hnz].
    + assert (Hgt : (n - 1 >? 0) = true)
        by (rewrite Z.gtb_ltb; apply Z.ltb_lt; lia).
      rewrite Hgt. cbn [andb].
      rewrite memcpy_cells_spec by lia. cbn [bind]. eexists.
      split; [reflexivity|].
      unfold vec_wf, vec_cells. cbn [vec_size vec_capacity vec_data].
      assert (Hsk : zskipn 1 d1 = zskipn 1 d).
      { subst d1 i. apply (@stored_suffix d 0 Null). lia. }
      rewrite zfirstn_0, Hsk. cbn [app].
      split; [|split; [|split; reflexivity]].
      * split; [lia|]. rewrite zlen_app, zlen_firstn_le, zlen_skipn_le; try lia.
        rewrite zlen_skipn_le by lia. lia.
      * rewrite zfirstn_app_exact
          by (apply zlen_firstn_le; rewrite zlen_skipn_le by lia; lia).
        subst i. rewrite zfirstn_0. cbn [app]. f_equal. lia.
    + cbn [andb].
      rewrite (@memcpy_cells_spec p d1 0 0 i) by lia. cbn [bind].
      rewrite zfirstn_0, zskipn_0. cbn [app].
      assert (Hpre : zfirstn i d1 = zfirstn i d).
      { subst d1. apply zfirstn_app_exact. apply zlen_firstn_le. lia. }
      rewrite Hpre. replace (0 + i) with i by lia.
      set (p1 := zfirstn i d ++ zskipn i p).
      assert (Hp1 : zlen p1 = vec_capacity a).
      { subst p1. rewrite zlen_app, zlen_firstn_le, zlen_skipn_le by lia. lia. }
      rewrite memcpy_cells_spec by lia. cbn [bind]. eexists.
      split; [reflexivity|].
      unfold vec_wf, vec_cells. cbn [vec_size vec_capacity vec_data].
      assert (Hsk : zskipn (i + 1) d1 = zskipn (i + 1) d)
        by (subst d1; apply stored_suffix; lia).
      rewrite Hsk.
      assert (Hp1i : zfirstn i p1 = zfirstn i d).
      { subst p1. apply zfirstn_app_exact. apply zlen_firstn_le. lia. }
      rewrite Hp1i.
      split; [|split; [|split; reflexivity]].
      * split; [lia|]. rewrite !zlen_app, !zlen_firstn_le; try lia.
        -- rewrite zlen_skipn_le by lia. lia.
        -- rewrite zlen_skipn_le by lia. lia.
      * rewrite app_assoc. apply zfirstn_app_exact.
        rewrite zlen_app, !zlen_firstn_le; try lia.
        rewrite zlen_skipn_le by lia. lia.
Qed.

(** [vector_dup] copies the cells in use into a block of the same
    capacity. *)
Lemma vector_dup_spec (a : Vector A) :
  vec_wf a ->
  exists v : Vector A,
    vector_dup a = Done v
    /\ vec_wf v
    /\ vec_cells v = vec_cells a
    /\ vec_size v = vec_size a
    /\ vec_capacity v = vec_capacity a.
Proof.
  intros [Hsize Hlen]. unfold vector_dup, vector_create, vector_init.
  cbn [vec_data vec_capacity vec_type].
  assert (Hp : zlen (fresh_block A (vec_capacity a)) = vec_capacity a)
    by (apply zlen_fresh_block; lia).
  rewrite memcpy_cells_spec by lia. cbn [bind]. eexists.
  split; [reflexivity|].
  unfold vec_wf, vec_cells. cbn [vec_size vec_capacity vec_data].
  rewrite zfirstn_0, zskipn_0. cbn [app].
  split; [|split; [|split; reflexivity]].
  - split; [lia|]. rewrite zlen_app, zlen_firstn_le, zlen_skipn_le by lia. lia.
  - apply zfirstn_app_exact. apply zlen_firstn_le. lia.
Qed.

End VectorFacts.

Section VectorLaws.

Variable A : Type.

Lemma vec_wf_create (n : Z) (t : VarType) :
  0 <= n -> vec_wf (vector_create A n t).
Proof.
  intros H. unfold vec_wf, vector_create, vector_init.
  cbn [vec_size vec_capacity vec_data]. split; [lia|].
  apply zlen_fresh_block. exact H.
Qed.

Lemma vector_add_all_spec (l : list A) (a : Vector A) :
  vec_wf a -> 0 < vec_capacity a ->
  exists a' : Vector A,
    foldM vector_add l a = Done a'
    /\ vec_wf a'
    /\ vec_cells a' = vec_cells a ++ map Entry l
    /\ vec_size a' = vec_size a + zlen l
    /\ vec_capacity a <= vec_capacity a'.
Proof.
  revert a; induction l as [|e l IH]; intros a Hwf Hcap.
  - exists a. split; [reflexivity|]. split; [exact Hwf|].
    cbn [map]. rewrite app_nil_r. unfold zlen. cbn [List.length].
    split; [reflexivity|]. split; lia.
  - destruct (vector_add_spec e Hwf Hcap) as (a1 & Hadd & Hwf1 & Hc1 & Hs1 & Hk1).
    assert (Hcap1 : vec_capacity a <= vec_capacity a1)
      by (rewrite Hk1; destruct (_ =? _); lia).
    destruct (IH a1 Hwf1) as (a' & Hrun & Hwf' & Hc' & Hs' & Hk'); [lia|].
    exists a'. cbn [foldM]. rewrite Hadd. cbn [bind].
    split; [exact Hrun|]. split; [exact Hwf'|].
    rewrite Hc', Hc1, Hs', Hs1, <- app_assoc. cbn [map app].
    split; [reflexivity|]. unfold zlen. cbn [List.length]. split; lia.
Qed.

(** X1.  A vector created with room for at least one entry takes any
    number of entries: after [vector_add] of each entry of [l] in turn it
    holds exactly these entries, in the order in which they were added,
    its size is their number and lies within its capacity. *)
Theorem vector_add_keeps_entries (n : Z) (t : VarType) (l : list A) :
  0 < n ->
  exists a : Vector A,
    foldM vector_add l (vector_create A n t) = Done a
    /\ vec_cells a = map Entry l
    /\ vec_size a = zlen l
    /\ vec_size a <= vec_capacity a
    /\ zlen (vec_data a) = vec_capacity a.
Proof.
  intros Hn.
  destruct (@vector_add_all_spec l (vector_create A n t))
    as (a & Hrun & [Hsize Hlen] & Hcells & Hs & _).
  - apply vec_wf_create. lia.
  - exact Hn.
  - exists a. split; [exact Hrun|]. split; [exact Hcells|].
    split; [exact Hs|]. split; [lia|exact Hlen].
Qed.

(** X2.  [vector_pop] undoes [vector_add]: the entry added last is the one
    returned, and the cells in use are again those before the addition;
    on an empty vector [vector_pop] returns [NULL] and changes nothing. *)
Theorem vector_pop_after_add (a : Vector A) (entry : A) :
  vec_wf a -> 0 < vec_capacity a ->
  exists a1 a2 : Vector A,
    vector_add a entry = Done a1
    /\ vector_pop a1 = Done (Entry entry, a2)
    /\ vec_cells a2 = vec_cells a
    /\ vec_size a2 = vec_size a
    /\ (vec_size a = 0 -> vector_pop a = Done (Null, a)).
Proof.
  intros Hwf Hcap.
  destruct (vector_add_spec entry Hwf Hcap) as (a1 & Hadd & Hwf1 & Hc1 & Hs1 & _).
  destruct (@vector_pop_spec A a1 Hwf1) as (c & a2 & Hpop & _ & Hc2 & Hs2 & _).
  { destruct Hwf as [Hsize _]. lia. }
  rewrite Hc1 in Hc2. apply app_inj_tail in Hc2. destruct Hc2 as [Hc2 <-].
  exists a1, a2. split; [exact Hadd|]. split; [exact Hpop|].
  split; [symmetry; exact Hc2|]. split; [lia|].
  intros Hz. unfold vector_pop. rewrite Hz. reflexivity.
Qed.

(** X3.  [vector_del] at an index inside the vector removes that entry
    and nothing else: the entries before it and after it stay, in their
    order; the size drops by one and the capacity stays. *)
Theorem vector_del_removes (a : Vector A) (l : list A) (i : Z) :
  vec_wf a -> vec_cells a = map Entry l -> 0 <= i < vec_size a ->
  exists a' : Vector A,
    vector_del a i = Done a'
    /\ vec_cells a' = map Entry (zfirstn i l ++ zskipn (i + 1) l)
    /\ vec_size a' = vec_size a - 1
    /\ vec_capacity a' = vec_capacity a
    /\ zlen (vec_data a') = vec_capacity a'.
Proof.
  intros Hwf Hl Hi.
  destruct (@vector_del_spec A a i Hwf Hi) as (a' & Hdel & [_ Hlen] & Hc & Hs & Hk).
  exists a'. split; [exact Hdel|]. split; [|split; [exact Hs|split; assumption]].
  rewrite Hc, Hl, map_app. unfold zfirstn, zskipn.
  rewrite List.firstn_map, List.skipn_map. reflexivity.
Qed.

(** X4.  The splitting step of [process_variants]: a set in which the
    entries at [j] and [j + 1] are [curr] and [next] is duplicated, then
    [vector_del] takes [curr] out of the set and [next] out of the
    duplicate; the set keeps [next], the duplicate keeps [curr], and all
    other entries stay in both, in their order. *)
Theorem vector_dup_del_splits (a : Vector A) (pre rest : list A) (curr next : A) :
  vec_wf a -> vec_cells a = map Entry (pre ++ curr :: next :: rest) ->
  exists dup a' dup' : Vector A,
    vector_dup a = Done dup
    /\ vector_del a (zlen pre) = Done a'
    /\ vector_del dup (zlen pre + 1) = Done dup'
    /\ vec_cells a' = map Entry (pre ++ next :: rest)
    /\ vec_cells dup' = map Entry (pre ++ curr :: rest).
Proof.
  intros Hwf Hl.
  assert (Hsize : vec_size a = zlen (pre ++ curr :: next :: rest)).
  { destruct Hwf as [Hs Hlen]. apply (f_equal (@zlen _)) in Hl.
    unfold vec_cells in Hl. rewrite zlen_firstn_le in Hl by lia.
    rewrite Hl. unfold zlen. rewrite length_map. reflexivity. }
  assert (Hlen : zlen (pre ++ curr :: next :: rest) = zlen pre + 2 + zlen rest).
  { rewrite zlen_app. unfold zlen. cbn [List.length]. lia. }
  pose proof (zlen_nonneg pre) as Hp. pose proof (zlen_nonneg rest) as Hr.
  destruct (@vector_dup_spec A a Hwf) as (dup & Hdup & Hwfd & Hcd & Hsd & _).
  destruct (@vector_del_spec A a (zlen pre) Hwf) as (a' & Hdel & _ & Hc & _);
    [lia|].
  destruct (@vector_del_spec A dup (zlen pre + 1) Hwfd) as (dup' & Hdel' & _ & Hc' & _);
    [lia|].
  exists dup, a', dup'. split; [exact Hdup|]. split; [exact Hdel|].
  split; [exact Hdel'|].
  rewrite Hc, Hc', Hcd, Hl. unfold zfirstn, zskipn.
  rewrite !List.firstn_map, !List.skipn_map, <- !map_app. unfold zlen.
  rewrite !Nat2Z.id.
  replace (Z.to_nat (Z.of_nat (List.length pre) + 1)) with (List.length pre + 1)%nat by lia.
  replace (Z.to_nat (Z.of_nat (List.length pre) + 1 + 1)) with (List.length pre + 2)%nat by lia.
  split; f_equal.
  - replace (List.length pre) with (List.length pre + 0)%nat at 1 by lia.
    rewrite firstn_app_2. cbn [firstn]. rewrite app_nil_r.
    rewrite skipn_app, skipn_all2 by lia.
    replace (List.length pre + 1 - List.length pre)%nat with 1%nat by lia.
    reflexivity.
  - rewrite firstn_app_2. cbn [firstn].
    rewrite skipn_app, skipn_all2 by lia.
    replace (List.length pre + 2 - List.length pre)%nat with 2%nat by lia.
    cbn [skipn app]. rewrite <- app_assoc. reflexivity.
Qed.

End VectorLaws.

(** A vector of three entries in a block of four cells. *)
Definition three_in_four : Vector Z :=
  {| vec_size := 3; vec_capacity := 4; vec_type := VOID_T;
     vec_data := [Entry 10; Entry 20; Entry 30; Indeterminate] |}.

Lemma three_in_four_wf : vec_wf three_in_four.
Proof. unfold vec_wf, three_in_four. cbn. lia. Qed.

Lemma vector_add_keeps_entries_witness :
  0 < 1
  /\ exists a : Vector Z,
       foldM vector_add [10; 20; 30] (vector_create Z 1 VOID_T) = Done a
       /\ vec_cells a = [Entry 10; Entry 20; Entry 30]
       /\ vec_size a = 3.
Proof.
  assert (H : 0 < 1) by lia. split; [exact H|].
  destruct (@vector_add_keeps_entries Z 1 VOID_T [10; 20; 30] H)
    as (a & Hrun & Hcells & Hsize & _).
  exists a. split; [exact Hrun|]. split; [exact Hcells|exact Hsize].
Defined.

Lemma vector_pop_after_add_witness :
  vec_wf three_in_four /\ 0 < vec_capacity three_in_four
  /\ exists a1 a2 : Vector Z,
       vector_add three_in_four 40 = Done a1
       /\ vector_pop a1 = Done (Entry 40, a2)
       /\ vec_cells a2 = vec_cells three_in_four.
Proof.
  assert (H : 0 < vec_capacity three_in_four) by (cbn; lia).
  split; [exact three_in_four_wf|]. split; [exact H|].
  destruct (@vector_pop_after_add Z three_in_four 40 three_in_four_wf H)
    as (a1 & a2 & Hadd & Hpop & Hcells & _).
  exists a1, a2. split; [exact Hadd|]. split; [exact Hpop|exact Hcells].
Defined.

Lemma vector_del_removes_witness :
  vec_wf three_in_four
  /\ vec_cells three_in_four = map Entry [10; 20; 30]
  /\ 0 <= 1 < vec_size three_in_four
  /\ exists a' : Vector Z,
       vector_del three_in_four 1 = Done a'
       /\ vec_cells a' = [Entry 10; Entry 30].
Proof.
  assert (Hc : vec_cells three_in_four = map Entry [10; 20; 30]) by reflexivity.
  assert (Hi : 0 <= 1 < vec_size three_in_four) by (cbn; lia).
  split; [exact three_in_four_wf|]. split; [exact Hc|]. split; [exact Hi|].
  destruct (@vector_del_removes Z three_in_four [10; 20; 30] 1
              three_in_four_wf Hc Hi) as (a' & Hdel & Hcells & _).
  exists a'. split; [exact Hdel|exact Hcells].
Defined.

Lemma vector_dup_del_splits_witness :
  vec_wf three_in_four
  /\ vec_cells three_in_four = map Entry ([10] ++ 20 :: 30 :: [])
  /\ exists dup a' dup' : Vector Z,
       vector_dup three_in_four = Done dup
       /\ vector_del three_in_four 1 = Done a'
       /\ vector_del dup 2 = Done dup'
       /\ vec_cells a' = [Entry 10; Entry 30]
       /\ vec_cells dup' = [Entry 10; Entry 20].
Proof.
  assert (Hc : vec_cells three_in_four = map Entry ([10] ++ 20 :: 30 :: []))
    by reflexivity.
  split; [exact three_in_four_wf|]. split; [exact Hc|].
  destruct (@vector_dup_del_splits Z three_in_four [10] [] 20 30
              three_in_four_wf Hc)
    as (dup & a' & dup' & Hdup & Hdel & Hdel' & Hca & Hcd).
  exists dup, a', dup'. split; [exact Hdup|]. split; [exact Hdel|].
  split; [exact Hdel'|]. split; [exact Hca|exact Hcd].
Defined.

(* ===================================================================== *)
(** * Properties of the VCF reader *)
(* ===================================================================== *)

(** The value of a string of decimal digits. *)
Definition digits_value (d : cstr) : Z :=
  fold_left (fun acc c => 10 * acc + (code c - 48)) d 0.

(** Tokens joined by commas. *)
Fixpoint join_comma (tokens : list cstr) : cstr :=
  match tokens with
  | [] => []
  | [t] => t
  | t :: ts => t ++ ","%char :: join_comma ts
  end.

(** A field that [%s] reads whole: not empty, without white space. *)
Definition word (w : cstr) : Prop :=
  w <> [] /\ Forall (fun c => is_space c = false) w.

(** An allele: a word without a comma. *)
Definition allele (t : cstr) : Prop :=
  t <> [] /\ Forall (fun c => is_space c = false /\ c <> ","%char) t.

(** A string of decimal digits, not empty. *)
Definition number (d : cstr) : Prop :=
  d <> [] /\ Forall (fun c => is_digit c = true) d.

(** What may follow a field: nothing, or white space and anything. *)
Definition field_end (s : cstr) : Prop :=
  match s with
  | [] => True
  | c :: _ => is_space c = true
  end.

(** The variants of a record: every combination of a reference allele and
    an alternative allele, the reference alleles outermost. *)
Definition vcf_variants (chr : cstr) (pos : Z) (refs alts : list cstr)
  : list Variant :=
  flat_map (fun r => map (fun a => {| v_chr := string_of_list_ascii chr;
                                       v_pos := pos; v_ref := r; v_alt := a |})
                       alts) refs.

Section VcfScanning.

Lemma span_word_field (w tl : cstr) :
  Forall (fun c => is_space c = false) w -> field_end tl ->
  span_word (w ++ tl) = (w, tl).
Proof.
  intros Hw Htl. induction Hw as [|c w Hc _ IH].
  - destruct tl as [|c tl]; [reflexivity|].
    cbn [app span_word]. cbn [field_end] in Htl. rewrite Htl. reflexivity.
  - cbn [app span_word]. rewrite Hc, IH. reflexivity.
Qed.

Lemma skip_space_word (w tl : cstr) :
  word w -> skip_space (w ++ tl) = w ++ tl.
Proof.
  intros [Hne Hw]. destruct w as [|c w]; [contradiction|].
  inversion Hw as [|? ? Hc _]; subst. cbn [app skip_space]. rewrite Hc.
  reflexivity.
Qed.

Lemma scan_word_field (w tl : cstr) :
  word w -> field_end tl -> scan_word (w ++ tl) = Some (w, tl).
Proof.
  intros Hw Htl. unfold scan_word. rewrite skip_space_word by exact Hw.
  destruct Hw as [Hne Hw]. rewrite span_word_field by assumption.
  destruct w; [contradiction|reflexivity].
Qed.

Lemma skip_space_all (ws : cstr) :
  Forall (fun c => is_space c = true) ws -> skip_space ws = [].
Proof.
  induction 1 as [|c ws Hc _ IH]; [reflexivity|].
  cbn [skip_space]. rewrite Hc. exact IH.
Qed.

Lemma scan_word_end (ws : cstr) :
  Forall (fun c => is_space c = true) ws -> scan_word ws = None.
Proof. intros H. unfold scan_word. rewrite skip_space_all by exact H. reflexivity. Qed.

Lemma is_digit_not_space (c : ascii) : is_digit c = true -> is_space c = false.
Proof.
  unfold is_digit, is_space. intros H.
  apply andb_prop in H. destruct H as [H1 H2].
  apply Z.leb_le in H1. apply Z.leb_le in H2.
  destruct (Z.eqb_spec (code c) 32); [lia|].
  destruct (Z.leb_spec 9 (code c)); [|reflexivity].
  destruct (Z.leb_spec (code c) 13); [lia|reflexivity].
Qed.

Lemma is_space_not_digit (c : ascii) : is_space c = true -> is_digit c = false.
Proof.
  intros H. destruct (is_digit c) eqn:E; [|reflexivity].
  apply is_digit_not_space in E. congruence.
Qed.

Lemma scan_digits_number (d tl : cstr) (acc : Z) (count : nat) :
  Forall (fun c => is_digit c = true) d -> field_end tl ->
  scan_digits (d ++ tl) acc count
  = (fold_left (fun acc c => 10 * acc + (code c - 48)) d acc,
     (count + List.length d)%nat, tl).
Proof.
  intros Hd Htl. revert acc count; induction Hd as [|c d Hc _ IH]; intros acc count.
  - cbn [app fold_left List.length]. rewrite Nat.add_0_r.
    destruct tl as [|c tl]; [reflexivity|].
    cbn [scan_digits]. cbn [field_end] in Htl.
    rewrite (is_space_not_digit _ Htl). reflexivity.
  - cbn [app scan_digits fold_left List.length]. rewrite Hc, IH.
    do 2 f_equal. lia.
Qed.

Lemma digit_codes (c : ascii) :
  is_digit c = true -> c <> "-"%char /\ c <> "+"%char.
Proof.
  unfold is_digit. intros H. apply andb_prop in H. destruct H as [H1 H2].
  apply Z.leb_le in H1. apply Z.leb_le in H2.
  split; intros ->; vm_compute in H1; vm_compute in H2; congruence.
Qed.

Lemma scan_int_number (d tl : cstr) :
  number d -> field_end tl -> scan_int (d ++ tl) = Some (digits_value d, tl).
Proof.
  intros [Hne Hd] Htl. unfold scan_int.
  assert (Hw : word d).
  { split; [exact Hne|]. eapply Forall_impl; [|exact Hd].
    apply is_digit_not_space. }
  rewrite skip_space_word by exact Hw.
  destruct d as [|c d]; [contradiction|]. cbn [app].
  inversion Hd as [|? ? Hc Hd']; subst.
  destruct (digit_codes _ Hc) as [Hm Hp].
  destruct (ascii_dec c "-"); [contradiction|].
  destruct (ascii_dec c "+"); [contradiction|].
  change (c :: d ++ tl) with ((c :: d) ++ tl).
  rewrite scan_digits_number by assumption.
  cbn [List.length Nat.add]. reflexivity.
Qed.

Lemma space_is_field_end (c : ascii) (s : cstr) :
  is_space c = true -> field_end (c :: s).
Proof. intros H. exact H. Qed.

Lemma tab_is_space : is_space TAB_CHAR = true.
Proof. reflexivity. Qed.

Lemma skip_tab_word (w tl : cstr) :
  word w -> skip_space (TAB_CHAR :: w ++ tl) = w ++ tl.
Proof.
  intros Hw. cbn [skip_space]. rewrite tab_is_space.
  apply skip_space_word. exact Hw.
Qed.

Lemma not_space_not_tab_space (c : ascii) :
  is_space c = false -> not_tab_space c = true.
Proof.
  intros H. unfold not_tab_space.
  destruct (Ascii.eqb_spec c TAB_CHAR) as [->|_]; [discriminate H|].
  destruct (Ascii.eqb_spec c SPACE_CHAR) as [->|_]; [discriminate H|].
  reflexivity.
Qed.

Lemma span_set_tab (id s : cstr) :
  Forall (fun c => is_space c = false) id ->
  span_set not_tab_space (id ++ TAB_CHAR :: s) = (id, TAB_CHAR :: s).
Proof.
  induction 1 as [|c id Hc _ IH]; [reflexivity|].
  cbn [app span_set]. rewrite (not_space_not_tab_space _ Hc), IH. reflexivity.
Qed.

(** The four fields of a line whose first five columns are separated by
    tabs. *)
Lemma scan_vcf_fields_tabs (chr d id ref alt tl : cstr) :
  word chr -> number d -> word id -> word ref -> word alt -> field_end tl ->
  scan_vcf_fields (chr ++ TAB_CHAR :: d ++ TAB_CHAR :: id ++ TAB_CHAR :: ref
                   ++ TAB_CHAR :: alt ++ tl)
  = Some (chr, digits_value d, ref, alt).
Proof.
  intros Hchr Hd Hid Href Halt Htl. unfold scan_vcf_fields.
  rewrite scan_word_field by (assumption || exact tab_is_space).
  assert (Hwd : word d).
  { destruct Hd as [Hne Hd]. split; [exact Hne|].
    eapply Forall_impl; [|exact Hd]. apply is_digit_not_space. }
  rewrite skip_tab_word by exact Hwd.
  rewrite scan_int_number by (assumption || exact tab_is_space).
  rewrite skip_tab_word by exact Hid.
  rewrite span_set_tab by (destruct Hid; assumption).
  destruct id as [|c id]; [destruct Hid; contradiction|].
  rewrite skip_tab_word by exact Href.
  rewrite scan_word_field by (assumption || exact tab_is_space).
  rewrite skip_tab_word by exact Halt.
  rewrite scan_word_field by assumption.
  reflexivity.
Qed.

End VcfScanning.

Section VcfAlleles.

(** What ends the tokens of a field: nothing, or a comma that no token
    follows. *)
Definition stops (x : cstr) : Prop :=
  match x with
  | [] => True
  | c :: r => c = ","%char /\ match r with
                              | [] => True
                              | c' :: _ => c' = ","%char
                              end
  end.

Lemma scan_allele_stops (x : cstr) :
  stops x -> scan_allele x = None.
Proof.
  destruct x as [|c r]; [reflexivity|]. intros [-> _]. reflexivity.
Qed.

Lemma allele_char (c : ascii) :
  is_space c = false /\ c <> ","%char -> not_comma_space c = true.
Proof.
  intros [Hs Hc]. unfold not_comma_space.
  destruct (Ascii.eqb_spec c ","); [contradiction|].
  destruct (Ascii.eqb_spec c SPACE_CHAR) as [->|_]; [discriminate Hs|].
  reflexivity.
Qed.

Lemma span_set_allele (t x : cstr) :
  Forall (fun c => is_space c = false /\ c <> ","%char) t ->
  match x with [] => True | c :: _ => c = ","%char end ->
  span_set not_comma_space (t ++ x) = (t, x).
Proof.
  intros Ht Hx. induction Ht as [|c t Hc _ IH].
  - destruct x as [|c r]; [reflexivity|]. subst c. reflexivity.
  - cbn [app span_set]. rewrite (allele_char Hc), IH. reflexivity.
Qed.

Lemma scan_allele_token (t x : cstr) :
  allele t ->
  match x with [] => True | c :: _ => c = ","%char end ->
  scan_allele (t ++ x) = Some (t, x).
Proof.
  intros [Hne Ht] Hx. unfold scan_allele.
  rewrite span_set_allele by assumption.
  destruct t; [contradiction|reflexivity].
Qed.

Lemma stops_head (x : cstr) :
  stops x -> match x with [] => True | c :: _ => c = ","%char end.
Proof. destruct x; [trivial|]. intros [H _]. exact H. Qed.

Lemma join_comma_cons (t t' : cstr) (ts : list cstr) :
  join_comma (t :: t' :: ts) = t ++ ","%char :: join_comma (t' :: ts).
Proof. reflexivity. Qed.

Variables (chr : cstr) (pos : Z).

Lemma alt_loop_stops (fuel : nat) (ref_token x : cstr) :
  stops x -> alt_loop fuel chr pos ref_token x = [].
Proof.
  intros H. destruct fuel; [reflexivity|].
  cbn [alt_loop]. rewrite scan_allele_stops by exact H. reflexivity.
Qed.

Lemma stops_after_comma (r : cstr) :
  stops (","%char :: r) -> stops r \/ exists r', r = ","%char :: r'.
Proof.
  intros [_ H]. destruct r as [|c r']; [left; exact I|].
  subst c. right. eauto.
Qed.

Lemma alt_loop_after_comma (fuel : nat) (ref_token r : cstr) :
  stops (","%char :: r) -> alt_loop fuel chr pos ref_token r = [].
Proof.
  intros [_ H]. destruct fuel; [reflexivity|]. cbn [alt_loop].
  destruct r as [|c r']; [reflexivity|]. subst c. reflexivity.
Qed.

Lemma alt_loop_tokens (alts : list cstr) (ref_token x : cstr) (fuel : nat) :
  Forall allele alts -> stops x ->
  (List.length (join_comma alts ++ x) < fuel)%nat ->
  alt_loop fuel chr pos ref_token (join_comma alts ++ x)
  = map (fun a => {| v_chr := string_of_list_ascii chr; v_pos := pos;
                     v_ref := ref_token; v_alt := a |}) alts.
Proof.
  intros Halts Hx. revert fuel; induction Halts as [|t ts Ht Hts IH]; intros fuel Hfuel.
  - cbn [join_comma app map]. apply alt_loop_stops. exact Hx.
  - destruct fuel as [|fuel]; [lia|]. destruct ts as [|t' ts].
    + cbn [join_comma map alt_loop].
      rewrite scan_allele_token by (exact Ht || apply stops_head; exact Hx).
      f_equal. destruct x as [|c r]; [reflexivity|].
      destruct Hx as [-> Hr]. destruct (ascii_dec "," ","); [|contradiction].
      apply alt_loop_after_comma. split; [reflexivity|exact Hr].
    + rewrite join_comma_cons. rewrite <- app_assoc. cbn [app alt_loop].
      rewrite scan_allele_token by (exact Ht || reflexivity).
      destruct (ascii_dec "," ","); [|contradiction].
      cbn [map]. f_equal. apply IH.
      rewrite join_comma_cons, <- app_assoc, length_app in Hfuel.
      cbn [app List.length] in Hfuel. lia.
Qed.

Lemma ref_loop_after_comma (fuel : nat) (alt r : cstr) :
  stops (","%char :: r) -> ref_loop fuel chr pos alt r = [].
Proof.
  intros [_ H]. destruct fuel; [reflexivity|]. cbn [ref_loop].
  destruct r as [|c r']; [reflexivity|]. subst c. reflexivity.
Qed.

Lemma ref_loop_tokens (refs alts : list cstr) (x y : cstr) (fuel : nat) :
  Forall allele refs -> Forall allele alts -> stops x -> stops y ->
  (List.length (join_comma refs ++ y) < fuel)%nat ->
  ref_loop fuel chr pos (join_comma alts ++ x) (join_comma refs ++ y)
  = vcf_variants chr pos refs alts.
Proof.
  intros Hrefs Halts Hx Hy. revert fuel; induction Hrefs as [|t ts Ht Hts IH];
    intros fuel Hfuel.
  - cbn [join_comma app vcf_variants flat_map].
    destruct fuel; [reflexivity|]. cbn [ref_loop].
    rewrite scan_allele_stops by exact Hy. reflexivity.
  - destruct fuel as [|fuel]; [lia|]. unfold vcf_variants. cbn [flat_map].
    destruct ts as [|t' ts].
    + cbn [join_comma ref_loop flat_map].
      rewrite scan_allele_token by (exact Ht || apply stops_head; exact Hy).
      rewrite alt_loop_tokens by (assumption || lia).
      f_equal. destruct y as [|c r]; [reflexivity|].
      destruct Hy as [-> Hr]. destruct (ascii_dec "," ","); [|contradiction].
      apply ref_loop_after_comma. split; [reflexivity|exact Hr].
    + rewrite join_comma_cons. rewrite <- app_assoc. cbn [app ref_loop].
      rewrite scan_allele_token by (exact Ht || reflexivity).
      rewrite alt_loop_tokens by (assumption || lia).
      destruct (ascii_dec "," ","); [|contradiction].
      f_equal. apply IH.
      rewrite join_comma_cons, <- app_assoc, length_app in Hfuel.
      cbn [app List.length] in Hfuel. lia.
Qed.

Lemma alt_loop_comma (fuel : nat) (ref_token r : cstr) :
  alt_loop fuel chr pos ref_token (","%char :: r) = [].
Proof. destruct fuel; reflexivity. Qed.

Lemma ref_loop_no_alt (refs : list cstr) (r y : cstr) (fuel : nat) :
  Forall allele refs -> stops y ->
  ref_loop fuel chr pos (","%char :: r) (join_comma refs ++ y) = [].
Proof.
  intros Hrefs Hy. revert fuel; induction Hrefs as [|t ts Ht Hts IH]; intros fuel.
  - cbn [join_comma app]. destruct fuel; [reflexivity|]. cbn [ref_loop].
    rewrite scan_allele_stops by exact Hy. reflexivity.
  - destruct fuel as [|fuel]; [reflexivity|]. destruct ts as [|t' ts].
    + cbn [join_comma ref_loop].
      rewrite scan_allele_token by (exact Ht || apply stops_head; exact Hy).
      rewrite alt_loop_comma. cbn [app].
      destruct y as [|c r']; [reflexivity|].
      destruct Hy as [-> Hr]. destruct (ascii_dec "," ","); [|contradiction].
      apply ref_loop_after_comma. split; [reflexivity|exact Hr].
    + rewrite join_comma_cons. rewrite <- app_assoc. cbn [app ref_loop].
      rewrite scan_allele_token by (exact Ht || reflexivity).
      rewrite alt_loop_comma. cbn [app].
      destruct (ascii_dec "," ","); [|contradiction].
      apply IH.
Qed.

Lemma vcf_variants_no_alt (refs : list cstr) : vcf_variants chr pos refs [] = [].
Proof.
  unfold vcf_variants. induction refs as [|r refs IH]; [reflexivity|exact IH].
Qed.

End VcfAlleles.

Section VcfLines.

Lemma word_not_blank (w s : cstr) : word w -> is_blank (w ++ s) = false.
Proof.
  intros [Hne Hw]. destruct w as [|c w]; [contradiction|].
  inversion Hw as [|? ? Hc _]; subst. cbn [app is_blank forallb].
  unfold is_space in Hc. cbv zeta in *.
  destruct (Z.eqb_spec (code c) 32); [discriminate Hc|].
  cbn [orb] in *.
  destruct (Z.eqb_spec (code c) 9) as [E|_];
    [rewrite E in Hc; discriminate Hc|].
  destruct (Z.eqb_spec (code c) 11) as [E|_];
    [rewrite E in Hc; discriminate Hc|].
  destruct (Z.eqb_spec (code c) 13) as [E|_];
    [rewrite E in Hc; discriminate Hc|].
  destruct (Z.eqb_spec (code c) 10) as [E|_];
    [rewrite E in Hc; discriminate Hc|].
  reflexivity.
Qed.

(** A line of five columns separated by tabs, with reference alleles
    [refs] and alternative alleles [alts] between commas, each list
    possibly cut short by [y] and [x]. *)
Lemma vcf_line_record (chr d id y x tl : cstr) (refs alts : list cstr) :
  word chr -> is_comment chr = false -> number d -> word id ->
  Forall allele refs -> Forall allele alts -> stops y -> stops x ->
  word (join_comma refs ++ y) -> word (join_comma alts ++ x) ->
  field_end tl ->
  vcf_line (chr ++ TAB_CHAR :: d ++ TAB_CHAR :: id ++ TAB_CHAR
            :: (join_comma refs ++ y) ++ TAB_CHAR :: (join_comma alts ++ x) ++ tl)
  = Done (vcf_variants chr (digits_value d) refs alts).
Proof.
  intros Hchr Hcom Hd Hid Hrefs Halts Hy Hx Hwr Hwa Htl. unfold vcf_line.
  rewrite word_not_blank by exact Hchr.
  assert (Hc : is_comment (chr ++ TAB_CHAR :: d ++ TAB_CHAR :: id ++ TAB_CHAR
                           :: (join_comma refs ++ y) ++ TAB_CHAR
                           :: (join_comma alts ++ x) ++ tl) = false).
  { destruct chr as [|c chr']; [destruct Hchr; contradiction|exact Hcom]. }
  rewrite Hc. rewrite scan_vcf_fields_tabs by assumption.
  rewrite ref_loop_tokens by (assumption || lia). reflexivity.
Qed.

(** The same line with an ALT column that starts with a comma. *)
Lemma vcf_line_no_alt (chr d id r tl : cstr) (refs : list cstr) :
  word chr -> is_comment chr = false -> number d -> word id ->
  Forall allele refs -> word (join_comma refs) -> word (","%char :: r) ->
  field_end tl ->
  vcf_line (chr ++ TAB_CHAR :: d ++ TAB_CHAR :: id ++ TAB_CHAR
            :: join_comma refs ++ TAB_CHAR :: (","%char :: r) ++ tl)
  = Done [].
Proof.
  intros Hchr Hcom Hd Hid Hrefs Hwr Hwa Htl. unfold vcf_line.
  rewrite word_not_blank by exact Hchr.
  assert (Hc : is_comment (chr ++ TAB_CHAR :: d ++ TAB_CHAR :: id ++ TAB_CHAR
                           :: join_comma refs ++ TAB_CHAR
                           :: (","%char :: r) ++ tl) = false).
  { destruct chr as [|c chr']; [destruct Hchr; contradiction|exact Hcom]. }
  rewrite Hc. rewrite scan_vcf_fields_tabs by assumption.
  rewrite <- (app_nil_r (join_comma refs)) at 2.
  rewrite ref_loop_no_alt by (exact Hrefs || exact I). reflexivity.
Qed.

End VcfLines.

Section VcfLaws.

Lemma allele_is_word (t : cstr) : allele t -> word t.
Proof.
  intros [Hne Ht]. split; [exact Hne|].
  eapply Forall_impl; [|exact Ht]. cbv beta. intros c [H _]. exact H.
Qed.

Lemma join_comma_no_space (tokens : list cstr) :
  Forall allele tokens ->
  Forall (fun c => is_space c = false) (join_comma tokens).
Proof.
  induction 1 as [|t ts Ht _ IH]; [constructor|].
  destruct ts as [|t' ts]; [exact (proj2 (allele_is_word Ht))|].
  rewrite join_comma_cons. apply Forall_app. split.
  - exact (proj2 (allele_is_word Ht)).
  - constructor; [reflexivity|exact IH].
Qed.

Lemma join_comma_word (tokens : list cstr) (x : cstr) :
  Forall allele tokens -> Forall (fun c => is_space c = false) x ->
  tokens <> [] \/ x <> [] -> word (join_comma tokens ++ x).
Proof.
  intros Ht Hx Hne. split.
  - intros E. apply app_eq_nil in E. destruct E as [Ej Ex].
    destruct Hne as [Hne|Hne]; [|contradiction].
    destruct Ht as [|t ts [Hn _] _]; [contradiction|].
    destruct ts; [contradiction|].
    rewrite join_comma_cons in Ej. apply app_eq_nil in Ej.
    destruct Ej as [_ Ej]. discriminate Ej.
  - apply Forall_app. split; [apply join_comma_no_space; exact Ht|exact Hx].
Qed.

(** X5.  A line whose first five columns are separated by tabs, CHROM
    not starting with [#], POS a decimal number that an [int] holds, adds
    one variant for every pair of a REF allele and an ALT allele between
    commas: in the order of the REF alleles, and for each in the order of
    the ALT alleles, all with the chromosome and the position of the line.
    What follows the fifth column is not read. *)
Theorem vcf_line_expands (chr d id tl : cstr) (refs alts : list cstr) :
  word chr -> is_comment chr = false ->
  number d -> digits_value d < 2 ^ 31 -> word id ->
  Forall allele refs -> refs <> [] -> Forall allele alts -> alts <> [] ->
  field_end tl ->
  vcf_line (chr ++ TAB_CHAR :: d ++ TAB_CHAR :: id ++ TAB_CHAR
            :: join_comma refs ++ TAB_CHAR :: join_comma alts ++ tl)
  = Done (vcf_variants chr (digits_value d) refs alts)
  /\ List.length (vcf_variants chr (digits_value d) refs alts)
     = (List.length refs * List.length alts)%nat.
Proof.
  intros Hchr Hcom Hd _ Hid Hrefs Hr Halts Ha Htl. split.
  - pose proof (@vcf_line_record chr d id [] [] tl refs alts) as H.
    rewrite !app_nil_r in H. apply H; try assumption; try exact I.
    + rewrite <- (app_nil_r (join_comma refs)).
      apply join_comma_word; [exact Hrefs|constructor|left; exact Hr].
    + rewrite <- (app_nil_r (join_comma alts)).
      apply join_comma_word; [exact Halts|constructor|left; exact Ha].
  - unfold vcf_variants. clear. induction refs as [|r refs IH]; [reflexivity|].
    cbn [flat_map List.length]. rewrite length_app, length_map, IH. lia.
Qed.

(** An empty allele where an allele is expected: [x] starts with a comma;
    when alleles stand before it, the comma has another comma or nothing
    after it, and at the start of the column anything may follow it. *)
Definition empty_allele (alts : list cstr) (x : cstr) : Prop :=
  match x with
  | [] => False
  | c :: r =>
      c = ","%char
      /\ (alts = [] \/ match r with [] => True | c' :: _ => c' = ","%char end)
  end.

(** X6.  An empty ALT allele ends the alleles of the line: when a comma
    is followed by another comma or by the end of the column, the variants
    are those of the alleles before it, and the alleles after it are
    dropped without an error; a column that starts with a comma adds no
    variant at all, whatever follows the comma.  POS is a decimal number
    that an [int] holds. *)
Theorem vcf_line_empty_allele (chr d id x tl : cstr) (refs alts : list cstr) :
  word chr -> is_comment chr = false ->
  number d -> digits_value d < 2 ^ 31 -> word id ->
  Forall allele refs -> refs <> [] -> Forall allele alts ->
  empty_allele alts x -> Forall (fun c => is_space c = false) x ->
  field_end tl ->
  vcf_line (chr ++ TAB_CHAR :: d ++ TAB_CHAR :: id ++ TAB_CHAR
            :: join_comma refs ++ TAB_CHAR :: (join_comma alts ++ x) ++ tl)
  = Done (vcf_variants chr (digits_value d) refs alts)
  /\ (alts = [] ->
      vcf_line (chr ++ TAB_CHAR :: d ++ TAB_CHAR :: id ++ TAB_CHAR
                :: join_comma refs ++ TAB_CHAR :: x ++ tl)
      = Done []).
Proof.
  intros Hchr Hcom Hd _ Hid Hrefs Hr Halts Hx Hxs Htl.
  assert (Hwr : word (join_comma refs)).
  { rewrite <- (app_nil_r (join_comma refs)).
    apply join_comma_word; [exact Hrefs|constructor|left; exact Hr]. }
  destruct x as [|c r]; [contradiction|]. destruct Hx as [-> Hx].
  assert (Hwx : word (","%char :: r)) by (split; [discriminate|exact Hxs]).
  assert (Hnone : vcf_line (chr ++ TAB_CHAR :: d ++ TAB_CHAR :: id ++ TAB_CHAR
                            :: join_comma refs ++ TAB_CHAR
                            :: (","%char :: r) ++ tl) = Done []).
  { apply vcf_line_no_alt; assumption. }
  destruct alts as [|a alts'].
  - cbn [join_comma app]. rewrite vcf_variants_no_alt.
    split; [exact Hnone|intros _; exact Hnone].
  - split; [|discriminate].
    destruct Hx as [E|Hx]; [discriminate E|].
    pose proof (@vcf_line_record chr d id [] (","%char :: r) tl refs (a :: alts'))
      as H.
    rewrite !app_nil_r in H. apply H; try assumption; try exact I.
    + split; [reflexivity|exact Hx].
    + apply join_comma_word; [exact Halts|exact Hxs|right; discriminate].
Qed.

Lemma vcf_step_skip (acc : list Variant) (line : cstr) :
  is_blank line || is_comment line = true -> vcf_step acc line = Done acc.
Proof.
  intros H. unfold vcf_step, vcf_line. destruct (is_blank line).
  - cbn [bind]. rewrite app_nil_r. reflexivity.
  - cbn [orb] in H. rewrite H. cbn [bind]. rewrite app_nil_r. reflexivity.
Qed.

Lemma foldM_vcf_skip (lines : list cstr) (acc : list Variant) :
  foldM vcf_step
    (filter (fun line => negb (is_blank line || is_comment line)) lines) acc
  = foldM vcf_step lines acc.
Proof.
  revert acc; induction lines as [|line lines IH]; intros acc; [reflexivity|].
  cbn [filter]. destruct (is_blank line || is_comment line) eqn:E.
  - cbn [negb foldM]. rewrite (vcf_step_skip acc line E). cbn [bind]. apply IH.
  - cbn [negb foldM]. destruct (vcf_step acc line); cbn [bind];
      [apply IH|reflexivity|reflexivity|reflexivity].
Qed.

(** X7.  Blank lines and lines that start with [#] do not count: the
    variants read from a file are those read from the file without these
    lines. *)
Theorem read_vcf_skips_comments (qsort_var : list Variant -> list Variant)
    (lines : list cstr) :
  read_vcf qsort_var (Some lines)
  = read_vcf qsort_var
      (Some (filter (fun line => negb (is_blank line || is_comment line)) lines)).
Proof.
  unfold read_vcf. rewrite foldM_vcf_skip. reflexivity.
Qed.

Lemma foldM_vcf_bad (good rest : list cstr) (bad : cstr) (msg : string)
    (acc : list Variant) :
  Forall (fun line => exists vs, vcf_line line = Done vs) good ->
  vcf_line bad = ExitErr msg ->
  foldM vcf_step (good ++ bad :: rest) acc = ExitErr msg.
Proof.
  intros Hgood Hbad. revert acc; induction Hgood as [|line good [vs Hl] _ IH];
    intros acc.
  - cbn [app foldM]. unfold vcf_step at 1. rewrite Hbad. reflexivity.
  - cbn [app foldM]. unfold vcf_step at 1. rewrite Hl. cbn [bind]. apply IH.
Qed.

(** X8.  A line that lacks the ALT column ends the run with an error,
    wherever it stands in the file and whatever the lines after it hold;
    no variant of the file is returned. *)
Theorem read_vcf_missing_alt (qsort_var : list Variant -> list Variant)
    (good rest : list cstr) (chr d id ref ws : cstr) :
  Forall (fun line => exists vs, vcf_line line = Done vs) good ->
  word chr -> is_comment chr = false -> number d -> word id -> word ref ->
  Forall (fun c => is_space c = true) ws ->
  read_vcf qsort_var
    (Some (good ++ (chr ++ TAB_CHAR :: d ++ TAB_CHAR :: id ++ TAB_CHAR
                    :: ref ++ ws) :: rest))
  = ExitErr "bad fields in VCF file".
Proof.
  intros Hgood Hchr Hcom Hd Hid Href Hws. unfold read_vcf.
  rewrite (@foldM_vcf_bad good rest _ "bad fields in VCF file");
    [reflexivity|exact Hgood|].
  unfold vcf_line. rewrite word_not_blank by exact Hchr.
  assert (Hc : is_comment (chr ++ TAB_CHAR :: d ++ TAB_CHAR :: id ++ TAB_CHAR
                           :: ref ++ ws) = false).
  { destruct chr as [|c chr']; [destruct Hchr; contradiction|exact Hcom]. }
  rewrite Hc. unfold scan_vcf_fields.
  rewrite scan_word_field by (assumption || exact tab_is_space).
  assert (Hwd : word d).
  { destruct Hd as [Hne Hd]. split; [exact Hne|].
    eapply Forall_impl; [|exact Hd]. apply is_digit_not_space. }
  rewrite skip_tab_word by exact Hwd.
  rewrite scan_int_number by (assumption || exact tab_is_space).
  rewrite skip_tab_word by exact Hid.
  rewrite span_set_tab by (destruct Hid; assumption).
  destruct id as [|c id]; [destruct Hid; contradiction|].
  rewrite skip_tab_word by exact Href.
  assert (Hend : field_end ws).
  { destruct Hws as [|c' ws' Hc' _]; [exact I|exact Hc']. }
  rewrite scan_word_field by assumption.
  rewrite scan_word_end; [reflexivity|].
  rewrite skip_space_all by exact Hws. constructor.
Qed.

End VcfLaws.

(** ** A record of two alternative alleles *)

Ltac field_ok :=
  repeat first
    [ exact I | reflexivity | discriminate
    | split
    | constructor ].

Lemma vcf_line_expands_witness :
  word (cs "chr1") /\ is_comment (cs "chr1") = false /\ number (cs "100")
  /\ digits_value (cs "100") < 2 ^ 31
  /\ word (cs ".")
  /\ vcf_line (cs "chr1" ++ TAB_CHAR :: cs "100" ++ TAB_CHAR :: cs "."
               ++ TAB_CHAR :: join_comma [cs "A"] ++ TAB_CHAR
               :: join_comma [cs "G"; cs "C"] ++ [TAB_CHAR; "5"%char])
     = Done [snv "chr1" 100 "A" "G"; snv "chr1" 100 "A" "C"].
Proof.
  assert (H1 : word (cs "chr1")) by field_ok.
  assert (H2 : is_comment (cs "chr1") = false) by reflexivity.
  assert (H3 : number (cs "100")) by field_ok.
  assert (H4 : word (cs ".")) by field_ok.
  assert (H5 : Forall allele [cs "A"]) by field_ok.
  assert (H6 : [cs "A"] <> []) by discriminate.
  assert (H7 : Forall allele [cs "G"; cs "C"]) by field_ok.
  assert (H8 : [cs "G"; cs "C"] <> []) by discriminate.
  assert (H9 : field_end [TAB_CHAR; "5"%char]) by reflexivity.
  assert (Hb : digits_value (cs "100") < 2 ^ 31) by reflexivity.
  split; [exact H1|]. split; [exact H2|]. split; [exact H3|]. split; [exact Hb|].
  split; [exact H4|].
  exact (proj1 (@vcf_line_expands (cs "chr1") (cs "100") (cs ".")
                  [TAB_CHAR; "5"%char] [cs "A"] [cs "G"; cs "C"]
                  H1 H2 H3 Hb H4 H5 H6 H7 H8 H9)).
Defined.

Lemma vcf_line_empty_allele_witness :
  empty_allele [cs "G"] (cs ",,T") /\ empty_allele [] (cs ",T")
  /\ digits_value (cs "100") < 2 ^ 31
  /\ vcf_line (cs "chr1" ++ TAB_CHAR :: cs "100" ++ TAB_CHAR :: cs "."
               ++ TAB_CHAR :: join_comma [cs "A"] ++ TAB_CHAR
               :: (join_comma [cs "G"] ++ cs ",,T") ++ [])
     = Done [snv "chr1" 100 "A" "G"]
  /\ vcf_line (cs "chr1" ++ TAB_CHAR :: cs "100" ++ TAB_CHAR :: cs "."
               ++ TAB_CHAR :: join_comma [cs "A"] ++ TAB_CHAR
               :: cs ",T" ++ [])
     = Done [].
Proof.
  assert (H1 : word (cs "chr1")) by field_ok.
  assert (H2 : is_comment (cs "chr1") = false) by reflexivity.
  assert (H3 : number (cs "100")) by field_ok.
  assert (Hb : digits_value (cs "100") < 2 ^ 31) by reflexivity.
  assert (H4 : word (cs ".")) by field_ok.
  assert (H5 : Forall allele [cs "A"]) by field_ok.
  assert (H6 : [cs "A"] <> []) by discriminate.
  assert (H7 : Forall allele [cs "G"]) by field_ok.
  assert (H8 : empty_allele [cs "G"] (cs ",,T")).
  { split; [reflexivity|right; reflexivity]. }
  assert (H9 : empty_allele [] (cs ",T")).
  { split; [reflexivity|left; reflexivity]. }
  assert (H10 : Forall (fun c => is_space c = false) (cs ",,T")) by field_ok.
  assert (H11 : Forall (fun c => is_space c = false) (cs ",T")) by field_ok.
  assert (H12 : field_end []) by exact I.
  split; [exact H8|]. split; [exact H9|]. split; [exact Hb|]. split.
  - exact (proj1 (@vcf_line_empty_allele (cs "chr1") (cs "100") (cs ".")
                    (cs ",,T") [] [cs "A"] [cs "G"]
                    H1 H2 H3 Hb H4 H5 H6 H7 H8 H10 H12)).
  - exact (proj2 (@vcf_line_empty_allele (cs "chr1") (cs "100") (cs ".")
                    (cs ",T") [] [cs "A"] []
                    H1 H2 H3 Hb H4 H5 H6 (Forall_nil _) H9 H11 H12) eq_refl).
Defined.

Lemma read_vcf_missing_alt_witness :
  read_vcf (fun var_vector => var_vector)
    (Some ([cs "#CHROM"] ++ (cs "chr1" ++ TAB_CHAR :: cs "100" ++ TAB_CHAR
                             :: cs "." ++ TAB_CHAR :: cs "A" ++ ["010"%char])
           :: [cs "chr1 200 . C T"]))
  = ExitErr "bad fields in VCF file".
Proof.
  assert (H0 : Forall (fun line => exists vs, vcf_line line = Done vs)
                 [cs "#CHROM"]).
  { constructor; [|constructor]. exists []. reflexivity. }
  assert (H1 : word (cs "chr1")) by field_ok.
  assert (H2 : is_comment (cs "chr1") = false) by reflexivity.
  assert (H3 : number (cs "100")) by field_ok.
  assert (H4 : word (cs ".")) by field_ok.
  assert (H5 : word (cs "A")) by field_ok.
  assert (H6 : Forall (fun c => is_space c = true) ["010"%char]) by field_ok.
  exact (@read_vcf_missing_alt (fun var_vector => var_vector) [cs "#CHROM"]
           [cs "chr1 200 . C T"] (cs "chr1") (cs "100") (cs ".") (cs "A")
           ["010"%char] H0 H1 H2 H3 H4 H5 H6).
Defined.

(* ===================================================================== *)
(** * Properties of the natural sort *)
(* ===================================================================== *)

Section NaturalSortScanning.

Lemma scan_digits_count (s : cstr) (acc : Z) (count : nat) :
  let '(_, count', rest) := scan_digits s acc count in
  (List.length s + count = List.length rest + count')%nat.
Proof.
  revert acc count; induction s as [|c s IH]; intros acc count; [reflexivity|].
  cbn [scan_digits]. destruct (is_digit c); [|reflexivity].
  specialize (IH (10 * acc + (code c - 48)) (S count)).
  destruct (scan_digits s (10 * acc + (code c - 48)) (S count)) as [[v count'] rest].
  cbn [List.length]. lia.
Qed.

Lemma scan_int_shorter (s rest : cstr) (v : Z) :
  scan_int s = Some (v, rest) -> (List.length rest < List.length s)%nat.
Proof.
  unfold scan_int. pose proof (skip_space_length s) as Hs.
  set (t := skip_space s) in *.
  assert (Hd : forall u : cstr, (List.length u <= List.length t)%nat ->
               forall v0 rest0,
               (let '(v1, count, rest1) := scan_digits u 0 0 in
                match count with
                | O => None
                | S _ => Some (v1, rest1)
                end) = Some (v0, rest0) ->
               (List.length rest0 < List.length s)%nat).
  { intros u Hu v0 rest0. pose proof (scan_digits_count u 0 0) as Hc.
    destruct (scan_digits u 0 0) as [[v1 count] rest1].
    destruct count; [discriminate|]. intros H; injection H as _ <-. lia. }
  destruct t as [|c t'].
  - intros H. exfalso. revert H. cbn. discriminate.
  - destruct (ascii_dec c "-"); [|destruct (ascii_dec c "+")].
    + specialize (Hd t'). cbn [List.length] in Hd.
      destruct (scan_digits t' 0 0) as [[v1 count] rest1].
      destruct count; [discriminate|]. intros H; injection H as _ <-.
      eapply Hd; [lia|reflexivity].
    + specialize (Hd t'). cbn [List.length] in Hd.
      destruct (scan_digits t' 0 0) as [[v1 count] rest1].
      destruct count; [discriminate|]. intros H; injection H as _ <-.
      eapply Hd; [lia|reflexivity].
    + specialize (Hd (c :: t')).
      destruct (scan_digits (c :: t') 0 0) as [[v1 count] rest1].
      destruct count; [discriminate|]. intros H; injection H as _ <-.
      eapply Hd; [lia|reflexivity].
Qed.

Lemma span_set_length (keep : ascii -> bool) (s tok rest : cstr) :
  span_set keep s = (tok, rest) ->
  List.length s = (List.length tok + List.length rest)%nat.
Proof.
  revert tok rest; induction s as [|c s IH]; intros tok rest H.
  - injection H as <- <-. reflexivity.
  - cbn [span_set] in H. destruct (keep c).
    + destruct (span_set keep s) as [tok' rest'].
      injection H as <- <-. cbn [List.length]. rewrite (IH _ _ eq_refl).
      reflexivity.
    + injection H as <- <-. reflexivity.
Qed.

Lemma scan_number_shorter (s rest : cstr) (v : Z) :
  scan_number s = Some (v, rest) -> (List.length rest < List.length s)%nat.
Proof.
  unfold scan_number. destruct (scan_int s) as [[v0 rest0]|] eqn:E.
  - intros H; injection H as <- <-. eapply scan_int_shorter. exact E.
  - destruct (span_set (fun c => negb (is_digit c)) s) as [tok r] eqn:Es.
    apply span_set_length in Es. destruct tok; [discriminate|].
    intros H. apply scan_int_shorter in H. cbn [List.length] in Es. lia.
Qed.

(** Every round that goes on takes a byte of each string: the number of
    rounds allowed does not matter once it exceeds the length of one of
    them. *)
Lemma nat_sort_loop_bound (fuel fuel' : nat) (s1 s2 : cstr) :
  (List.length s1 < fuel \/ List.length s2 < fuel)%nat ->
  (List.length s1 < fuel' \/ List.length s2 < fuel')%nat ->
  nat_sort_loop fuel s1 s2 = nat_sort_loop fuel' s1 s2.
Proof.
  revert fuel' s1 s2; induction fuel as [|fuel IH]; intros fuel' s1 s2 H H';
    [lia|].
  destruct fuel' as [|fuel']; [lia|]. cbn [nat_sort_loop].
  destruct s1 as [|c1 r1]; [reflexivity|]. destruct s2 as [|c2 r2]; [reflexivity|].
  cbn [List.length] in H, H'.
  destruct (128 <=? code c1); [reflexivity|].
  destruct (both is_space c1 c2) as [[|]|]; [apply IH; lia| |reflexivity].
  destruct (match both is_alpha c1 c2 with
            | Some true => Some true
            | Some false => both is_punct c1 c2
            | None => None
            end) as [[|]|]; [| |reflexivity].
  - destruct (_ =? 0); [apply IH; lia|reflexivity].
  - destruct (scan_number (c1 :: r1)) as [[i1 rest1]|] eqn:E1; [|reflexivity].
    destruct (scan_number (c2 :: r2)) as [[i2 rest2]|] eqn:E2; [|reflexivity].
    apply scan_number_shorter in E1. apply scan_number_shorter in E2.
    cbn [List.length] in E1, E2.
    destruct (_ =? 0); [apply IH; lia|reflexivity].
Qed.

End NaturalSortScanning.

Section NaturalSortFacts.

(** A byte of a name on which the comparison of letters and punctuation
    applies. *)
Definition name_char (c : ascii) : Prop := is_alpha c || is_punct c = true.

Lemma code_range (c : ascii) : 0 <= code c < 256.
Proof.
  unfold code. pose proof (nat_ascii_bounded c). lia.
Qed.

Lemma code_inj (c1 c2 : ascii) : code c1 = code c2 -> c1 = c2.
Proof.
  unfold code. intros H. apply Nat2Z.inj in H.
  rewrite <- (ascii_nat_embedding c1), <- (ascii_nat_embedding c2), H.
  reflexivity.
Qed.

Lemma name_char_classes (c : ascii) :
  name_char c -> code c < 128 /\ is_space c = false /\ is_digit c = false.
Proof.
  unfold name_char, is_alpha, is_punct, is_space, is_digit. cbv zeta.
  intros H. split; [|split].
  - destruct (Z.ltb_spec (code c) 128) as [Hl|Hg]; [exact Hl|]. exfalso.
    repeat match type of H with
           | context [?a <=? ?b] => destruct (Z.leb_spec a b); try lia
           end; discriminate H.
  - repeat match goal with
           | |- context [?a <=? ?b] => destruct (Z.leb_spec a b); try lia
           | |- context [?a =? ?b] => destruct (Z.eqb_spec a b); try lia
           end; try reflexivity;
    exfalso;
    repeat match type of H with
           | context [?a <=? ?b] => destruct (Z.leb_spec a b); try lia
           end; discriminate H.
  - repeat match goal with
           | |- context [?a <=? ?b] => destruct (Z.leb_spec a b); try lia
           end; try reflexivity;
    exfalso;
    repeat match type of H with
           | context [?a <=? ?b] => destruct (Z.leb_spec a b); try lia
           end; discriminate H.
Qed.

Lemma three_way_refl (x : Z) : three_way x x = 0.
Proof.
  unfold three_way. rewrite Z.gtb_ltb, Z.ltb_irrefl. reflexivity.
Qed.

Lemma three_way_sgn (x y : Z) : three_way x y = Z.sgn (x - y).
Proof.
  unfold three_way. rewrite Z.gtb_ltb.
  destruct (Z.ltb_spec y x); destruct (Z.ltb_spec x y); lia.
Qed.

Lemma three_way_zero (x y : Z) : three_way x y = 0 <-> x = y.
Proof. rewrite three_way_sgn. lia. Qed.

(** The rounds over a common prefix of letters and punctuation. *)
Lemma nat_sort_loop_prefix (p a b : cstr) (fuel : nat) :
  Forall name_char p ->
  nat_sort_loop (List.length p + fuel) (p ++ a) (p ++ b) = nat_sort_loop fuel a b.
Proof.
  induction 1 as [|c p Hc _ IH]; [reflexivity|].
  cbn [List.length Nat.add app nat_sort_loop].
  destruct (name_char_classes Hc) as (H128 & Hsp & _).
  destruct (Z.leb_spec 128 (code c)); [lia|].
  unfold both at 1. rewrite Hsp.
  assert (Hcls : match both is_alpha c c with
                 | Some true => Some true
                 | Some false => both is_punct c c
                 | None => None
                 end = Some true).
  { unfold both. destruct (Z.leb_spec 128 (code c)); [lia|].
    unfold name_char in Hc. destruct (is_alpha c); [reflexivity|].
    cbn [orb] in Hc. rewrite Hc. reflexivity. }
  rewrite Hcls. cbv zeta. rewrite three_way_refl. cbn [Z.eqb]. exact IH.
Qed.

Lemma scan_digits_until (d tl : cstr) (acc : Z) (count : nat) :
  Forall (fun c => is_digit c = true) d ->
  match tl with [] => True | c :: _ => is_digit c = false end ->
  scan_digits (d ++ tl) acc count
  = (fold_left (fun acc c => 10 * acc + (code c - 48)) d acc,
     (count + List.length d)%nat, tl).
Proof.
  intros Hd Htl. revert acc count; induction Hd as [|c d Hc _ IH]; intros acc count.
  - cbn [app fold_left List.length]. rewrite Nat.add_0_r.
    destruct tl as [|c tl]; [reflexivity|].
    cbn [scan_digits]. rewrite Htl. reflexivity.
  - cbn [app scan_digits fold_left List.length]. rewrite Hc, IH.
    do 2 f_equal. lia.
Qed.

Lemma scan_number_digits (d tl : cstr) :
  number d ->
  match tl with [] => True | c :: _ => is_digit c = false end ->
  scan_number (d ++ tl) = Some (digits_value d, tl).
Proof.
  intros [Hne Hd] Htl. unfold scan_number, scan_int.
  destruct d as [|c d]; [contradiction|]. cbn [app].
  inversion Hd as [|? ? Hc Hd']; subst.
  cbn [skip_space]. rewrite (is_digit_not_space _ Hc).
  destruct (digit_codes _ Hc) as [Hm Hp].
  destruct (ascii_dec c "-"); [contradiction|].
  destruct (ascii_dec c "+"); [contradiction|].
  change (c :: d ++ tl) with ((c :: d) ++ tl).
  rewrite scan_digits_until by assumption.
  cbn [List.length Nat.add]. reflexivity.
Qed.

Lemma digit_classes (c : ascii) :
  is_digit c = true ->
  code c < 128 /\ is_space c = false /\ is_alpha c = false /\ is_punct c = false.
Proof.
  intros H. pose proof (is_digit_not_space _ H) as Hs.
  unfold is_digit, is_alpha, is_punct in *. cbv zeta in *.
  apply andb_prop in H. destruct H as [H1 H2].
  apply Z.leb_le in H1. apply Z.leb_le in H2.
  split; [lia|]. split; [exact Hs|].
  split;
    repeat match goal with
           | |- context [?a <=? ?b] => destruct (Z.leb_spec a b); try lia
           end; reflexivity.
Qed.

(** The round at two numbers. *)
Lemma nat_sort_loop_numbers (d1 d2 t1 t2 : cstr) (fuel : nat) :
  number d1 -> number d2 ->
  match t1 with [] => True | c :: _ => is_digit c = false end ->
  match t2 with [] => True | c :: _ => is_digit c = false end ->
  nat_sort_loop (S fuel) (d1 ++ t1) (d2 ++ t2)
  = if three_way (digits_value d1) (digits_value d2) =? 0
    then nat_sort_loop fuel t1 t2
    else Sign (three_way (digits_value d1) (digits_value d2)).
Proof.
  intros Hd1 Hd2 Ht1 Ht2.
  pose proof (@scan_number_digits d1 t1 Hd1 Ht1) as E1.
  pose proof (@scan_number_digits d2 t2 Hd2 Ht2) as E2.
  destruct d1 as [|c1 r1]; [destruct Hd1; contradiction|].
  destruct d2 as [|c2 r2]; [destruct Hd2; contradiction|].
  cbn [app] in *. cbn [nat_sort_loop].
  destruct Hd1 as [_ Hd1]. destruct Hd2 as [_ Hd2].
  inversion Hd1 as [|? ? Hc1 _]; subst. inversion Hd2 as [|? ? Hc2 _]; subst.
  destruct (digit_classes _ Hc1) as (H128 & Hsp & Hal & Hpu).
  destruct (Z.leb_spec 128 (code c1)); [lia|].
  unfold both. rewrite Hsp, Hal, Hpu. rewrite E1, E2. reflexivity.
Qed.

End NaturalSortFacts.

Section NaturalSortLaws.

Lemma nat_sort_loop_nil_l (fuel : nat) (s : cstr) : nat_sort_loop fuel [] s = Sign 0.
Proof. destruct fuel; reflexivity. Qed.

Lemma nat_sort_loop_nil_r (fuel : nat) (s : cstr) : nat_sort_loop fuel s [] = Sign 0.
Proof. destruct fuel; [reflexivity|]. destruct s; reflexivity. Qed.

Lemma tolower_digit (c : ascii) : is_digit c = true -> tolower c = code c.
Proof.
  unfold is_digit, tolower. cbv zeta. intros H.
  apply andb_prop in H. destruct H as [H1 H2].
  apply Z.leb_le in H1. apply Z.leb_le in H2.
  destruct (Z.leb_spec 65 (code c)); [lia|]. reflexivity.
Qed.

Lemma map_tolower_digits (d1 d2 : cstr) :
  Forall (fun c => is_digit c = true) d1 ->
  Forall (fun c => is_digit c = true) d2 ->
  map tolower d1 = map tolower d2 -> d1 = d2.
Proof.
  intros H1. revert d2; induction H1 as [|c1 d1 Hc1 _ IH]; intros d2 H2 E.
  - destruct d2; [reflexivity|discriminate E].
  - destruct H2 as [|c2 d2 Hc2 H2]; [discriminate E|].
    cbn [map] in E. injection E as Ec Ed.
    rewrite !tolower_digit in Ec by assumption.
    apply code_inj in Ec. subst c2. f_equal. apply IH; assumption.
Qed.

Lemma strcasecmp_eq_numbered (p d1 d2 : cstr) :
  Forall (fun c => is_digit c = true) d1 ->
  Forall (fun c => is_digit c = true) d2 ->
  strcasecmp_eq (p ++ d1) (p ++ d2)
  = if list_eq_dec ascii_dec d1 d2 then true else false.
Proof.
  intros H1 H2. unfold strcasecmp_eq.
  destruct (list_eq_dec ascii_dec d1 d2) as [->|Hne].
  - destruct (list_eq_dec Z.eq_dec _ _); [reflexivity|contradiction].
  - destruct (list_eq_dec Z.eq_dec _ _) as [E|_]; [|reflexivity].
    rewrite !map_app in E. apply app_inv_head in E.
    apply map_tolower_digits in E; [contradiction|assumption|assumption].
Qed.

Lemma strcasecmp_eq_longer (s t : cstr) :
  t <> [] -> strcasecmp_eq s (s ++ t) = false /\ strcasecmp_eq (s ++ t) s = false.
Proof.
  intros Ht. unfold strcasecmp_eq.
  assert (Hlen : List.length (map tolower s) <> List.length (map tolower (s ++ t))).
  { rewrite !length_map, length_app. destruct t; [contradiction|]. simpl. lia. }
  split; destruct (list_eq_dec Z.eq_dec _ _) as [E|_]; try reflexivity;
    rewrite E in Hlen; contradiction.
Qed.

Lemma nat_sort_cmp_prefix (p a b : cstr) :
  Forall name_char p ->
  nat_sort_cmp (p ++ a) (p ++ b) = nat_sort_loop (S (List.length a)) a b.
Proof.
  intros Hp. unfold nat_sort_cmp.
  rewrite (@nat_sort_loop_bound _ (List.length p + S (List.length a))
             (p ++ a) (p ++ b)).
  - apply nat_sort_loop_prefix. exact Hp.
  - left. lia.
  - left. rewrite length_app. lia.
Qed.

(** X9.  Chromosomes named by a common prefix of letters and punctuation
    and a decimal number that an [int] holds are ordered by their numbers,
    and variants of one chromosome by their positions: [chr2] comes before
    [chr10].  Names that differ only in leading zeros of the number compare
    equal, whatever the positions. *)
Theorem nat_sort_var_numbered (p d1 d2 r1 a1 r2 a2 : cstr) (pos1 pos2 : Z) :
  Forall name_char p ->
  number d1 -> digits_value d1 < 2 ^ 31 ->
  number d2 -> digits_value d2 < 2 ^ 31 ->
  nat_sort_var
    {| v_chr := string_of_list_ascii (p ++ d1); v_pos := pos1;
       v_ref := r1; v_alt := a1 |}
    {| v_chr := string_of_list_ascii (p ++ d2); v_pos := pos2;
       v_ref := r2; v_alt := a2 |}
  = Sign (if list_eq_dec ascii_dec d1 d2 then Z.sgn (pos1 - pos2)
          else Z.sgn (digits_value d1 - digits_value d2)).
Proof.
  intros Hp Hd1 _ Hd2 _. unfold nat_sort_var. cbn [v_chr v_pos].
  rewrite !list_ascii_of_string_of_list_ascii.
  rewrite strcasecmp_eq_numbered by (destruct Hd1, Hd2; assumption).
  destruct (list_eq_dec ascii_dec d1 d2) as [_|Hne].
  - rewrite three_way_sgn. reflexivity.
  - rewrite nat_sort_cmp_prefix by exact Hp.
    rewrite <- (app_nil_r d1) at 2. rewrite <- (app_nil_r d2) at 1.
    rewrite nat_sort_loop_numbers by (assumption || exact I).
    rewrite nat_sort_loop_nil_l, <- three_way_sgn.
    destruct (Z.eqb_spec (three_way (digits_value d1) (digits_value d2)) 0) as [E|_];
      [rewrite E|]; reflexivity.
Qed.

(** X10.  A chromosome name compares equal to every name that extends it
    after its number (or, when it has no number, anywhere): the variants of
    [chr1] and of [chr1_gl000191_random] are not ordered by the
    comparison, whatever their positions, so [qsort] may leave them in any
    order. *)
Theorem nat_sort_var_extended_name (p d t r1 a1 r2 a2 : cstr) (pos1 pos2 : Z) :
  Forall name_char p -> Forall (fun c => is_digit c = true) d ->
  match t with [] => False | c :: _ => is_digit c = false end ->
  nat_sort_var
    {| v_chr := string_of_list_ascii (p ++ d); v_pos := pos1;
       v_ref := r1; v_alt := a1 |}
    {| v_chr := string_of_list_ascii (p ++ d ++ t); v_pos := pos2;
       v_ref := r2; v_alt := a2 |}
  = Sign 0
  /\ nat_sort_var
       {| v_chr := string_of_list_ascii (p ++ d ++ t); v_pos := pos2;
          v_ref := r2; v_alt := a2 |}
       {| v_chr := string_of_list_ascii (p ++ d); v_pos := pos1;
          v_ref := r1; v_alt := a1 |}
     = Sign 0.
Proof.
  intros Hp Hd Ht. unfold nat_sort_var. cbn [v_chr v_pos].
  rewrite !list_ascii_of_string_of_list_ascii.
  assert (Hne : t <> []) by (destruct t; [contradiction|discriminate]).
  assert (Htl : match t with [] => True | c :: _ => is_digit c = false end)
    by (destruct t; [exact I|exact Ht]).
  destruct (@strcasecmp_eq_longer (p ++ d) t Hne) as [E1 E2].
  rewrite <- app_assoc in E1, E2. rewrite E1, E2.
  rewrite !nat_sort_cmp_prefix by exact Hp.
  destruct d as [|c d'].
  - cbn [app]. rewrite nat_sort_loop_nil_l, nat_sort_loop_nil_r. split; reflexivity.
  - assert (Hnum : number (c :: d')) by (split; [discriminate|exact Hd]).
    split.
    + rewrite <- (app_nil_r (c :: d')) at 2.
      rewrite nat_sort_loop_numbers by (assumption || exact I).
      rewrite three_way_refl. cbn [Z.eqb]. apply nat_sort_loop_nil_l.
    + rewrite <- (app_nil_r (c :: d')) at 3.
      rewrite length_app.
      replace (S (List.length (c :: d') + List.length t))
        with (S (List.length d' + S (List.length t))) by (cbn [List.length]; lia).
      rewrite nat_sort_loop_numbers by (assumption || exact I).
      rewrite three_way_refl. cbn [Z.eqb]. apply nat_sort_loop_nil_r.
Qed.

End NaturalSortLaws.

Section NaturalSortOrder.

Definition negate (r : Compared) : Compared :=
  match r with
  | Sign cmp => Sign (- cmp)
  | Hangs => Hangs
  | Unspecified => Unspecified
  end.

(** A character of the C locale: a [char] that is not negative. *)
Definition in_locale (c : ascii) : Prop := code c < 128.

(** A printable character, or white space. *)
Definition printable (c : ascii) : Prop :=
  32 <= code c <= 126 \/ 9 <= code c <= 13.

Lemma skip_space_suffix (s : cstr) : exists pre, s = pre ++ skip_space s.
Proof.
  induction s as [|c s [pre IH]]; [exists []; reflexivity|].
  cbn [skip_space]. destruct (is_space c).
  - exists (c :: pre). cbn [app]. f_equal. exact IH.
  - exists []. reflexivity.
Qed.

Lemma scan_digits_suffix (s : cstr) (acc : Z) (count : nat) :
  exists pre, s = pre ++ snd (scan_digits s acc count).
Proof.
  revert acc count; induction s as [|c s IH]; intros acc count;
    [exists []; reflexivity|].
  cbn [scan_digits]. destruct (is_digit c).
  - destruct (IH (10 * acc + (code c - 48)) (S count)) as [pre Hpre].
    exists (c :: pre). cbn [app]. f_equal. exact Hpre.
  - exists []. reflexivity.
Qed.

Lemma scan_int_suffix (s rest : cstr) (v : Z) :
  scan_int s = Some (v, rest) -> exists pre, s = pre ++ rest.
Proof.
  unfold scan_int. destruct (skip_space_suffix s) as [pre0 Hpre0].
  set (t := skip_space s) in *.
  assert (Hd : forall (g : Z -> Z) (u pre1 : cstr), t = pre1 ++ u ->
               forall v0 rest0,
               (let '(v1, count, rest1) := scan_digits u 0 0 in
                match count with
                | O => None
                | S _ => Some (g v1, rest1)
                end) = Some (v0, rest0) ->
               exists pre, s = pre ++ rest0).
  { intros g u pre1 Hu v0 rest0.
    destruct (scan_digits_suffix u 0 0) as [pre2 Hpre2].
    destruct (scan_digits u 0 0) as [[v1 count] rest1]. cbn [snd] in Hpre2.
    destruct count; [discriminate|]. intros H; injection H as _ <-.
    exists (pre0 ++ pre1 ++ pre2). rewrite Hpre0, Hu, Hpre2 at 1.
    rewrite <- !app_assoc. reflexivity. }
  destruct t as [|c t'] eqn:Et.
  - intros H. exfalso. revert H. cbn. discriminate.
  - destruct (ascii_dec c "-"); [|destruct (ascii_dec c "+")].
    + apply (Hd (fun v1 => - v1) t' [c]). reflexivity.
    + apply (Hd (fun v1 => v1) t' [c]). reflexivity.
    + apply (Hd (fun v1 => v1) (c :: t') []). reflexivity.
Qed.

Lemma span_set_app (keep : ascii -> bool) (s : cstr) :
  s = fst (span_set keep s) ++ snd (span_set keep s).
Proof.
  induction s as [|c s IH]; [reflexivity|].
  cbn [span_set]. destruct (keep c); [|reflexivity].
  destruct (span_set keep s) as [tok rest]. cbn [fst snd app] in *.
  f_equal. exact IH.
Qed.

Lemma scan_number_suffix (s rest : cstr) (v : Z) :
  scan_number s = Some (v, rest) -> exists pre, s = pre ++ rest.
Proof.
  unfold scan_number. destruct (scan_int s) as [[v0 rest0]|] eqn:E.
  - intros H; injection H as <- <-. eapply scan_int_suffix. exact E.
  - pose proof (span_set_app (fun c => negb (is_digit c)) s) as Hs.
    destruct (span_set (fun c => negb (is_digit c)) s) as [tok r].
    cbn [fst snd] in Hs. destruct tok as [|c tok]; [discriminate|].
    intros H. apply scan_int_suffix in H. destruct H as [pre Hpre].
    exists ((c :: tok) ++ pre). rewrite Hs, Hpre at 1.
    rewrite <- app_assoc. reflexivity.
Qed.

Lemma scan_number_Forall (P : ascii -> Prop) (s rest : cstr) (v : Z) :
  scan_number s = Some (v, rest) -> Forall P s -> Forall P rest.
Proof.
  intros H Hs. apply scan_number_suffix in H. destruct H as [pre ->].
  apply Forall_app in Hs. exact (proj2 Hs).
Qed.

Lemma both_in_locale (test : ascii -> bool) (c1 c2 : ascii) :
  in_locale c2 -> both test c1 c2 = Some (test c1 && test c2).
Proof.
  unfold in_locale, both. intros H.
  destruct (Z.leb_spec 128 (code c2)); [lia|]. destruct (test c1); reflexivity.
Qed.

Lemma three_way_opp (x y : Z) : three_way y x = - three_way x y.
Proof. rewrite !three_way_sgn. lia. Qed.

Lemma strcmp_sign_opp (s1 s2 : cstr) : strcmp_sign s2 s1 = - strcmp_sign s1 s2.
Proof.
  revert s2; induction s1 as [|c1 r1 IH]; intros [|c2 r2]; try reflexivity.
  cbn [strcmp_sign].
  destruct (Z.ltb_spec (code c2) (code c1)); destruct (Z.ltb_spec (code c1) (code c2));
    try lia; try reflexivity. apply IH.
Qed.

Lemma nat_sort_loop_opp (fuel : nat) (s1 s2 : cstr) :
  Forall in_locale s1 -> Forall in_locale s2 ->
  nat_sort_loop fuel s2 s1 = negate (nat_sort_loop fuel s1 s2).
Proof.
  revert s1 s2; induction fuel as [|fuel IH]; intros s1 s2 H1 H2; [reflexivity|].
  destruct s1 as [|c1 r1]; [destruct s2; reflexivity|].
  destruct s2 as [|c2 r2]; [reflexivity|].
  cbn [nat_sort_loop].
  inversion H1 as [|? ? Hc1 Hr1]; subst. inversion H2 as [|? ? Hc2 Hr2]; subst.
  unfold in_locale in Hc1, Hc2.
  destruct (Z.leb_spec 128 (code c1)); [lia|].
  destruct (Z.leb_spec 128 (code c2)); [lia|].
  rewrite !both_in_locale by assumption.
  rewrite (andb_comm (is_space c2)), (andb_comm (is_alpha c2)),
    (andb_comm (is_punct c2)).
  destruct (is_space c1 && is_space c2); [apply IH; assumption|].
  destruct (match (if is_alpha c1 && is_alpha c2 then Some true
                   else Some (is_punct c1 && is_punct c2)) with
            | Some b => b
            | None => false
            end) eqn:Ecls.
  - assert (E : (if is_alpha c1 && is_alpha c2 then Some true
                 else Some (is_punct c1 && is_punct c2)) = Some true)
      by (destruct (is_alpha c1 && is_alpha c2); [reflexivity|];
          cbn in Ecls; rewrite Ecls; reflexivity).
    destruct (is_alpha c1 && is_alpha c2).
    + cbv zeta. rewrite (three_way_opp (tolower c1) (tolower c2)).
      destruct (Z.eqb_spec (three_way (tolower c1) (tolower c2)) 0) as [E0|N0].
      * rewrite E0. cbn [Z.opp Z.eqb]. apply IH; assumption.
      * destruct (Z.eqb_spec (- three_way (tolower c1) (tolower c2)) 0); [lia|].
        reflexivity.
    + injection E as E. rewrite E. cbv zeta.
      rewrite (three_way_opp (tolower c1) (tolower c2)).
      destruct (Z.eqb_spec (three_way (tolower c1) (tolower c2)) 0) as [E0|N0].
      * rewrite E0. cbn [Z.opp Z.eqb]. apply IH; assumption.
      * destruct (Z.eqb_spec (- three_way (tolower c1) (tolower c2)) 0); [lia|].
        reflexivity.
  - assert (E : (if is_alpha c1 && is_alpha c2 then Some true
                 else Some (is_punct c1 && is_punct c2)) = Some false)
      by (destruct (is_alpha c1 && is_alpha c2); [discriminate Ecls|];
          cbn in Ecls; rewrite Ecls; reflexivity).
    destruct (is_alpha c1 && is_alpha c2); [discriminate E|].
    injection E as E. rewrite E.
    destruct (scan_number (c1 :: r1)) as [[i1 rest1]|] eqn:E1;
      destruct (scan_number (c2 :: r2)) as [[i2 rest2]|] eqn:E2.
    + cbv zeta. rewrite (three_way_opp i1 i2).
      destruct (Z.eqb_spec (three_way i1 i2) 0) as [E0|N0].
      * rewrite E0. cbn [Z.opp Z.eqb]. apply IH.
        -- eapply scan_number_Forall; [exact E1|assumption].
        -- eapply scan_number_Forall; [exact E2|assumption].
      * destruct (Z.eqb_spec (- three_way i1 i2) 0); [lia|]. reflexivity.
    + cbv zeta. rewrite (strcmp_sign_opp (c1 :: r1) (c2 :: r2)).
      destruct (Z.eqb_spec (strcmp_sign (c1 :: r1) (c2 :: r2)) 0) as [E0|N0].
      * rewrite E0. reflexivity.
      * destruct (Z.eqb_spec (- strcmp_sign (c1 :: r1) (c2 :: r2)) 0); [lia|].
        reflexivity.
    + cbv zeta. rewrite (strcmp_sign_opp (c1 :: r1) (c2 :: r2)).
      destruct (Z.eqb_spec (strcmp_sign (c1 :: r1) (c2 :: r2)) 0) as [E0|N0].
      * rewrite E0. reflexivity.
      * destruct (Z.eqb_spec (- strcmp_sign (c1 :: r1) (c2 :: r2)) 0); [lia|].
        reflexivity.
    + cbv zeta. rewrite (strcmp_sign_opp (c1 :: r1) (c2 :: r2)).
      destruct (Z.eqb_spec (strcmp_sign (c1 :: r1) (c2 :: r2)) 0) as [E0|N0].
      * rewrite E0. reflexivity.
      * destruct (Z.eqb_spec (- strcmp_sign (c1 :: r1) (c2 :: r2)) 0); [lia|].
        reflexivity.
Qed.

(** X11.  On strings of characters of the C locale the comparison is
    antisymmetric: with the arguments exchanged it returns the opposite
    sign, and it does not return exactly when it did not before. *)
Theorem nat_sort_cmp_antisymmetric (s1 s2 : cstr) :
  Forall in_locale s1 -> Forall in_locale s2 ->
  nat_sort_cmp s2 s1 = negate (nat_sort_cmp s1 s2).
Proof.
  intros H1 H2. unfold nat_sort_cmp.
  rewrite (@nat_sort_loop_bound (S (List.length s2)) (S (List.length s1)) s2 s1)
    by (left; lia) || (right; lia).
  apply nat_sort_loop_opp; assumption.
Qed.

End NaturalSortOrder.

Section NaturalSortReturns.

Lemma printable_in_locale (c : ascii) : printable c -> in_locale c.
Proof. unfold printable, in_locale. lia. Qed.

Lemma printable_class (c : ascii) :
  printable c ->
  is_space c = true \/ is_alpha c = true \/ is_punct c = true \/ is_digit c = true.
Proof.
  unfold printable, is_space, is_alpha, is_punct, is_digit. cbv zeta. intros H.
  repeat match goal with
         | |- context [?a <=? ?b] => destruct (Z.leb_spec a b); try lia
         | |- context [?a =? ?b] => destruct (Z.eqb_spec a b); try lia
         end; cbn; auto.
Qed.

Lemma scan_digits_count_le (s : cstr) (acc : Z) (count : nat) :
  (count <= snd (fst (scan_digits s acc count)))%nat.
Proof.
  revert acc count; induction s as [|c s IH]; intros acc count; [simpl; lia|].
  cbn [scan_digits]. destruct (is_digit c); [|simpl; lia].
  specialize (IH (10 * acc + (code c - 48)) (S count)). lia.
Qed.

Lemma scan_number_at_digit (c : ascii) (r : cstr) :
  is_digit c = true -> scan_number (c :: r) <> None.
Proof.
  intros Hc. unfold scan_number, scan_int. cbn [skip_space].
  rewrite (is_digit_not_space _ Hc).
  destruct (digit_codes _ Hc) as [Hm Hp].
  destruct (ascii_dec c "-"); [contradiction|].
  destruct (ascii_dec c "+"); [contradiction|].
  cbn [scan_digits]. rewrite Hc.
  pose proof (scan_digits_count_le r (10 * 0 + (code c - 48)) 1) as Hle.
  destruct (scan_digits r (10 * 0 + (code c - 48)) 1) as [[v count] rest].
  cbn [fst snd] in Hle. destruct count; [lia|]. discriminate.
Qed.

Lemma strcmp_sign_range (s1 s2 : cstr) : -1 <= strcmp_sign s1 s2 <= 1.
Proof.
  revert s2; induction s1 as [|c1 r1 IH]; intros [|c2 r2]; cbn [strcmp_sign];
    try lia.
  destruct (code c1 <? code c2); [lia|]. destruct (code c2 <? code c1); [lia|].
  apply IH.
Qed.

Lemma strcmp_sign_heads (c1 c2 : ascii) (r1 r2 : cstr) :
  c1 <> c2 -> strcmp_sign (c1 :: r1) (c2 :: r2) <> 0.
Proof.
  intros Hne. cbn [strcmp_sign].
  destruct (Z.ltb_spec (code c1) (code c2)); [lia|].
  destruct (Z.ltb_spec (code c2) (code c1)); [lia|].
  exfalso. apply Hne. apply code_inj. lia.
Qed.

Lemma three_way_range (x y : Z) : -1 <= three_way x y <= 1.
Proof. rewrite three_way_sgn. lia. Qed.

Lemma nat_sort_loop_returns (fuel : nat) (s1 s2 : cstr) :
  Forall printable s1 -> Forall printable s2 ->
  exists cmp : Z, nat_sort_loop fuel s1 s2 = Sign cmp /\ -1 <= cmp <= 1.
Proof.
  revert s1 s2; induction fuel as [|fuel IH]; intros s1 s2 H1 H2;
    [exists 0; split; [reflexivity|lia]|].
  destruct s1 as [|c1 r1]; [exists 0; split; [reflexivity|lia]|].
  destruct s2 as [|c2 r2]; [exists 0; split; [reflexivity|lia]|].
  cbn [nat_sort_loop].
  inversion H1 as [|? ? Hc1 Hr1]; subst. inversion H2 as [|? ? Hc2 Hr2]; subst.
  pose proof (printable_in_locale Hc1) as L1.
  pose proof (printable_in_locale Hc2) as L2.
  unfold in_locale in L1. destruct (Z.leb_spec 128 (code c1)); [lia|].
  rewrite !both_in_locale by assumption.
  destruct (is_space c1 && is_space c2) eqn:Esp; [apply IH; assumption|].
  destruct (is_alpha c1 && is_alpha c2) eqn:Eal.
  - cbv zeta. pose proof (three_way_range (tolower c1) (tolower c2)).
    destruct (_ =? 0); [apply IH; assumption|]. eexists; split; [reflexivity|lia].
  - destruct (is_punct c1 && is_punct c2) eqn:Epu.
    + cbv zeta. pose proof (three_way_range (tolower c1) (tolower c2)).
      destruct (_ =? 0); [apply IH; assumption|]. eexists; split; [reflexivity|lia].
    + assert (Hdiff : scan_number (c1 :: r1) = None \/ scan_number (c2 :: r2) = None
                      -> c1 <> c2).
      { intros Hnone ->. destruct (printable_class Hc2) as [E|[E|[E|E]]].
        - rewrite E in Esp. discriminate Esp.
        - rewrite E in Eal. discriminate Eal.
        - rewrite E in Epu. discriminate Epu.
        - destruct Hnone as [Hn|Hn];
            [exact (@scan_number_at_digit c2 r1 E Hn)
            |exact (@scan_number_at_digit c2 r2 E Hn)]. }
      pose proof (strcmp_sign_range (c1 :: r1) (c2 :: r2)) as Hrange.
      destruct (scan_number (c1 :: r1)) as [[i1 rest1]|] eqn:E1;
        destruct (scan_number (c2 :: r2)) as [[i2 rest2]|] eqn:E2.
      * cbv zeta. pose proof (three_way_range i1 i2).
        destruct (_ =? 0).
        -- apply IH; eapply scan_number_Forall; eassumption.
        -- eexists; split; [reflexivity|lia].
      * cbv zeta.
        destruct (Z.eqb_spec (strcmp_sign (c1 :: r1) (c2 :: r2)) 0) as [E0|_].
        -- exfalso. revert E0. apply strcmp_sign_heads. apply Hdiff. right. reflexivity.
        -- eexists; split; [reflexivity|lia].
      * cbv zeta.
        destruct (Z.eqb_spec (strcmp_sign (c1 :: r1) (c2 :: r2)) 0) as [E0|_].
        -- exfalso. revert E0. apply strcmp_sign_heads. apply Hdiff. left. reflexivity.
        -- eexists; split; [reflexivity|lia].
      * cbv zeta.
        destruct (Z.eqb_spec (strcmp_sign (c1 :: r1) (c2 :: r2)) 0) as [E0|_].
        -- exfalso. revert E0. apply strcmp_sign_heads. apply Hdiff. left. reflexivity.
        -- eexists; split; [reflexivity|lia].
Qed.

(** At most [left] digits in a row at the head of [s], and at most
    [limit] in a row after it. *)
Fixpoint short_runs (limit left : nat) (s : cstr) : bool :=
  match s with
  | [] => true
  | c :: r =>
      if is_digit c then
        match left with
        | O => false
        | S left' => short_runs limit left' r
        end
      else short_runs limit limit r
  end.

(** No more than nine digits in a row: every number that [%d] can read in
    the string is below [10 ^ 9], which an [int] holds. *)
Definition small_numbers (s : cstr) : Prop := short_runs 9 9 s = true.

(** X12.  On strings of printable characters and white space whose
    numbers an [int] holds, the comparison always returns: it neither
    loops for ever nor hands a negative [char] to ctype.h.  What it returns
    is known by its sign only, [strcmp] being free in the value. *)
Theorem nat_sort_cmp_returns (s1 s2 : cstr) :
  Forall printable s1 -> Forall printable s2 ->
  small_numbers s1 -> small_numbers s2 ->
  exists cmp : Z, nat_sort_cmp s1 s2 = Sign cmp.
Proof.
  intros H1 H2 _ _.
  destruct (@nat_sort_loop_returns (S (List.length s1)) s1 s2 H1 H2) as (cmp & H & _).
  exists cmp. exact H.
Qed.

(** X13.  The comparison does not return on two chromosome names that
    differ in leading zeros of a number and go on with the same bytes, the
    first a control character and none a digit: after the equal numbers no
    number is found, [strcmp] finds the rest equal, and the loop goes on
    with [cmp] and both pointers unchanged. *)
Theorem nat_sort_var_hangs (d1 d2 r r1 a1 r2 a2 : cstr) (c : ascii)
    (pos1 pos2 : Z) :
  number d1 -> number d2 -> d1 <> d2 -> digits_value d1 = digits_value d2 ->
  in_locale c -> is_space c = false -> is_alpha c = false -> is_punct c = false ->
  Forall (fun x => is_digit x = false) (c :: r) ->
  nat_sort_var
    {| v_chr := string_of_list_ascii (d1 ++ c :: r); v_pos := pos1;
       v_ref := r1; v_alt := a1 |}
    {| v_chr := string_of_list_ascii (d2 ++ c :: r); v_pos := pos2;
       v_ref := r2; v_alt := a2 |}
  = Hangs.
Proof.
  intros Hd1 Hd2 Hne Hval Hloc Hsp Hal Hpu Hnd. unfold nat_sort_var.
  cbn [v_chr v_pos]. rewrite !list_ascii_of_string_of_list_ascii.
  assert (Hcase : strcasecmp_eq (d1 ++ c :: r) (d2 ++ c :: r) = false).
  { unfold strcasecmp_eq. destruct (list_eq_dec Z.eq_dec _ _) as [E|_]; [|reflexivity].
    exfalso. apply Hne. rewrite !map_app in E.
    apply app_inv_tail in E. destruct Hd1, Hd2.
    apply map_tolower_digits; assumption. }
  rewrite Hcase. unfold nat_sort_cmp.
  inversion Hnd as [|? ? Hcd Hrd]; subst.
  replace (S (List.length (d1 ++ c :: r)))
    with (S (S (List.length d1 + List.length r)))
    by (rewrite length_app; cbn [List.length]; lia).
  rewrite nat_sort_loop_numbers by assumption.
  rewrite Hval, three_way_refl. cbn [Z.eqb nat_sort_loop].
  unfold in_locale in Hloc. destruct (Z.leb_spec 128 (code c)); [lia|].
  unfold both. rewrite Hsp, Hal, Hpu.
  assert (Hnone : scan_number (c :: r) = None).
  { unfold scan_number, scan_int. cbn [skip_space]. rewrite Hsp.
    assert (Hm : c <> "-"%char) by (intros ->; discriminate Hpu).
    assert (Hp : c <> "+"%char) by (intros ->; discriminate Hpu).
    destruct (ascii_dec c "-"); [contradiction|].
    destruct (ascii_dec c "+"); [contradiction|].
    cbn [scan_digits]. rewrite Hcd.
    assert (Hspan : span_set (fun x => negb (is_digit x)) (c :: r) = (c :: r, [])).
    { clear - Hnd. induction Hnd as [|x l Hx _ IH]; [reflexivity|].
      cbn [span_set]. rewrite Hx. cbn [negb]. rewrite IH. reflexivity. }
    rewrite Hspan. reflexivity. }
  rewrite Hnone.
  assert (Hz : strcmp_sign (c :: r) (c :: r) = 0).
  { clear. induction (c :: r) as [|x l IH]; [reflexivity|].
    cbn [strcmp_sign]. rewrite Z.ltb_irrefl. exact IH. }
  rewrite Hz. reflexivity.
Qed.

End NaturalSortReturns.

Ltac chars_ok :=
  repeat first
    [ exact I | reflexivity | discriminate
    | split
    | apply Forall_nil
    | apply Forall_cons
    | (left; split; (vm_compute; discriminate)) ].

Lemma nat_sort_var_numbered_witness :
  Forall name_char (cs "chr") /\ number (cs "2") /\ number (cs "10")
  /\ digits_value (cs "2") < 2 ^ 31 /\ digits_value (cs "10") < 2 ^ 31
  /\ nat_sort_var (snv "chr2" 500 "A" "G") (snv "chr10" 100 "A" "G") = Sign (-1).
Proof.
  assert (H1 : Forall name_char (cs "chr")) by chars_ok.
  assert (H2 : number (cs "2")) by chars_ok.
  assert (H3 : number (cs "10")) by chars_ok.
  assert (B2 : digits_value (cs "2") < 2 ^ 31) by reflexivity.
  assert (B3 : digits_value (cs "10") < 2 ^ 31) by reflexivity.
  split; [exact H1|]. split; [exact H2|]. split; [exact H3|].
  split; [exact B2|]. split; [exact B3|].
  exact (@nat_sort_var_numbered (cs "chr") (cs "2") (cs "10") (cs "A") (cs "G")
           (cs "A") (cs "G") 500 100 H1 H2 B2 H3 B3).
Defined.

Lemma nat_sort_var_extended_name_witness :
  Forall name_char (cs "chr")
  /\ nat_sort_var (snv "chr1" 100 "A" "G") (snv "chr1_gl000191_random" 5 "A" "G")
     = Sign 0
  /\ nat_sort_var (snv "chr1_gl000191_random" 5 "A" "G") (snv "chr1" 105 "A" "G")
     = Sign 0.
Proof.
  assert (H1 : Forall name_char (cs "chr")) by chars_ok.
  assert (H2 : Forall (fun c => is_digit c = true) (cs "1")) by chars_ok.
  assert (H3 : match cs "_gl000191_random" with
               | [] => False
               | c :: _ => is_digit c = false
               end) by reflexivity.
  split; [exact H1|]. split.
  - exact (proj1 (@nat_sort_var_extended_name (cs "chr") (cs "1")
                    (cs "_gl000191_random") (cs "A") (cs "G") (cs "A") (cs "G")
                    100 5 H1 H2 H3)).
  - exact (proj2 (@nat_sort_var_extended_name (cs "chr") (cs "1")
                    (cs "_gl000191_random") (cs "A") (cs "G") (cs "A") (cs "G")
                    105 5 H1 H2 H3)).
Defined.

Lemma nat_sort_cmp_antisymmetric_witness :
  Forall in_locale (cs "chr2") /\ Forall in_locale (cs "chrX")
  /\ nat_sort_cmp (cs "chrX") (cs "chr2") = negate (nat_sort_cmp (cs "chr2") (cs "chrX")).
Proof.
  assert (H1 : Forall in_locale (cs "chr2")) by chars_ok.
  assert (H2 : Forall in_locale (cs "chrX")) by chars_ok.
  split; [exact H1|]. split; [exact H2|].
  exact (@nat_sort_cmp_antisymmetric (cs "chr2") (cs "chrX") H1 H2).
Defined.

Lemma nat_sort_cmp_returns_witness :
  Forall printable (cs "chr2") /\ Forall printable (cs "chrX")
  /\ small_numbers (cs "chr2") /\ small_numbers (cs "chrX")
  /\ exists cmp : Z, nat_sort_cmp (cs "chr2") (cs "chrX") = Sign cmp.
Proof.
  assert (H1 : Forall printable (cs "chr2")) by chars_ok.
  assert (H2 : Forall printable (cs "chrX")) by chars_ok.
  assert (H3 : small_numbers (cs "chr2")) by reflexivity.
  assert (H4 : small_numbers (cs "chrX")) by reflexivity.
  split; [exact H1|]. split; [exact H2|]. split; [exact H3|]. split; [exact H4|].
  exact (@nat_sort_cmp_returns (cs "chr2") (cs "chrX") H1 H2 H3 H4).
Defined.

Lemma nat_sort_var_hangs_witness :
  number (cs "01") /\ number (cs "1") /\ cs "01" <> cs "1"
  /\ digits_value (cs "01") = digits_value (cs "1")
  /\ nat_sort_var
       {| v_chr := string_of_list_ascii (cs "01" ++ ["001"%char]); v_pos := 100;
          v_ref := cs "A"; v_alt := cs "G" |}
       {| v_chr := string_of_list_ascii (cs "1" ++ ["001"%char]); v_pos := 100;
          v_ref := cs "A"; v_alt := cs "G" |}
     = Hangs.
Proof.
  assert (H1 : number (cs "01")) by chars_ok.
  assert (H2 : number (cs "1")) by chars_ok.
  assert (H3 : cs "01" <> cs "1") by discriminate.
  assert (H4 : digits_value (cs "01") = digits_value (cs "1")) by reflexivity.
  assert (H5 : in_locale "001"%char) by reflexivity.
  assert (H6 : Forall (fun x => is_digit x = false) ["001"%char]) by chars_ok.
  split; [exact H1|]. split; [exact H2|]. split; [exact H3|]. split; [exact H4|].
  exact (@nat_sort_var_hangs (cs "01") (cs "1") [] (cs "A") (cs "G") (cs "A")
           (cs "G") "001"%char 100 100 H1 H2 H3 H4 H5 eq_refl eq_refl eq_refl H6).
Defined.

(* ===================================================================== *)
(** * Further properties of LogMath *)
(* ===================================================================== *)

Section LogMathValues.

Local Open Scope R_scope.

Lemma lae_value (a b : R) : lae a b = ln (exp a + exp b).
Proof.
  rewrite <- (ln_exp (lae a b)), exp_lae. reflexivity.
Qed.

Lemma log_add_exp_PInf_l (b : double) : log_add_exp PInf b = NaN.
Proof. destruct b; reflexivity. Qed.

Lemma log_add_exp_PInf_r (b : double) : log_add_exp b PInf = NaN.
Proof. destruct b; reflexivity. Qed.

Lemma log_add_exp_NaN_l (b : double) : log_add_exp NaN b = NaN.
Proof. destruct b; reflexivity. Qed.

Lemma log_add_exp_NaN_r (b : double) : log_add_exp b NaN = NaN.
Proof. destruct b; reflexivity. Qed.

(** X14.  [log_add_exp] on two finite values is the logarithm of the sum
    of their exponentials, at most [ln 2] above the greater; on minus
    infinity twice it is a NaN, not minus infinity; and it is a NaN as soon
    as an argument is plus infinity or a NaN. *)
Theorem log_add_exp_cases :
  (forall a b : R,
      log_add_exp (Fin a) (Fin b) = Fin (ln (exp a + exp b))
      /\ ln (exp a + exp b) <= Rmax a b + ln 2)
  /\ log_add_exp NInf NInf = NaN
  /\ (forall b : double,
        log_add_exp PInf b = NaN /\ log_add_exp b PInf = NaN
        /\ log_add_exp NaN b = NaN /\ log_add_exp b NaN = NaN).
Proof.
  split; [|split].
  - intros a b. rewrite log_add_exp_fin. fold (lae a b).
    rewrite <- lae_value. split; [reflexivity|apply lae_le_max_ln2].
  - reflexivity.
  - intros b. split; [apply log_add_exp_PInf_l|].
    split; [apply log_add_exp_PInf_r|].
    split; [apply log_add_exp_NaN_l|apply log_add_exp_NaN_r].
Qed.

(** The sum of the exponentials of a list. *)
Definition exp_total (l : list R) : R := fold_right (fun y s => exp y + s) 0 l.

Lemma exp_total_pos (x : R) (l : list R) : 0 < exp_total (x :: l).
Proof.
  revert x; induction l as [|y l IH]; intros x.
  - unfold exp_total. cbn [fold_right]. pose proof (exp_pos x). lra.
  - change (exp_total (x :: y :: l)) with (exp x + exp_total (y :: l)).
    pose proof (exp_pos x). specialize (IH y). lra.
Qed.

Lemma rsum_exp_total (M : R) (l : list R) :
  rsum_exp M l 0 = exp (- M) * exp_total l.
Proof.
  induction l as [|y l IH].
  - unfold rsum_exp, exp_total. cbn [fold_left fold_right]. ring.
  - rewrite rsum_exp_cons, IH.
    change (exp_total (y :: l)) with (exp y + exp_total l).
    unfold Rminus. rewrite exp_plus. ring.
Qed.

Lemma sum_exp_NInf (n : nat) (s : double) :
  fold_left (fun s x => (s + dexp (x - NInf))%D) (repeat NInf (S n)) s = NaN.
Proof.
  assert (Hnan : forall m, fold_left (fun s x => (s + dexp (x - NInf))%D)
                             (repeat NInf m) NaN = NaN).
  { induction m as [|m IH]; [reflexivity|]. cbn [repeat fold_left]. exact IH. }
  cbn [repeat fold_left]. cbn [dsub dopp dadd dexp].
  replace (s + NaN)%D with NaN by (destruct s; reflexivity). apply Hnan.
Qed.

Lemma max_from_NInf (n : nat) : max_from NInf (repeat NInf n) = NInf.
Proof.
  induction n as [|n IH]; [reflexivity|].
  unfold max_from in *. cbn [repeat fold_left dgtb]. exact IH.
Qed.

(** X15.  [log_sum_exp] on finite values is the logarithm of the sum of
    their exponentials; on values that are all minus infinity it is a
    NaN, not minus infinity. *)
Theorem log_sum_exp_value :
  (forall (x : R) (l : list R),
      log_sum_exp (map Fin (x :: l)) = Fin (ln (exp_total (x :: l))))
  /\ (forall n : nat, log_sum_exp (repeat NInf (S n)) = NaN).
Proof.
  split.
  - intros x l. rewrite log_sum_exp_fin, rsum_exp_total. f_equal.
    pose proof (exp_total_pos x l) as Hpos.
    rewrite ln_mult by (apply exp_pos || exact Hpos).
    rewrite ln_exp. ring.
  - intros n. unfold log_sum_exp.
    cbn [repeat tl dnth Z.ltb Z.compare Z.to_nat nth].
    rewrite max_from_NInf.
    change (NInf :: repeat NInf n) with (repeat NInf (S n)).
    rewrite sum_exp_NInf. reflexivity.
Qed.

End LogMathValues.

Section LogMathLaws.

Local Open Scope R_scope.

(** A double that is a real number or minus infinity. *)
Definition real_or_minus_inf (a : double) : Prop :=
  match a with
  | Fin _ | NInf => True
  | NaN | PInf => False
  end.

Lemma log_add_exp_NInf_l (x : R) : log_add_exp NInf (Fin x) = Fin x.
Proof.
  unfold log_add_exp. cbn [dgtb dsub dopp dadd dexp].
  rewrite dlog_pos.
  - cbn [dadd]. f_equal.
    replace (x + - x) with 0 by ring. rewrite exp_0.
    replace (0 + 1) with 1 by ring. rewrite ln_1. ring.
  - pose proof (exp_pos (x + - x)). lra.
Qed.

Lemma log_sum_exp_total (x : R) (l : list R) :
  log_sum_exp (map Fin (x :: l)) = Fin (ln (exp_total (x :: l))).
Proof.
  rewrite log_sum_exp_fin, rsum_exp_total. f_equal.
  pose proof (exp_total_pos x l) as Hpos.
  rewrite ln_mult by (apply exp_pos || exact Hpos).
  rewrite ln_exp. ring.
Qed.

Lemma exp_total_perm (l l' : list R) :
  Permutation l l' -> exp_total l = exp_total l'.
Proof.
  induction 1 as [|y l l' _ IH|y z l|l l' l'' _ IH1 _ IH2].
  - reflexivity.
  - change (exp y + exp_total l = exp y + exp_total l'). rewrite IH. reflexivity.
  - change (exp z + (exp y + exp_total l) = exp y + (exp z + exp_total l)). ring.
  - congruence.
Qed.

(** C9 as stated fails outside the reals: the difference [a - max_exp] is
    a NaN when [max_exp] is infinite or a NaN, and so is the result, which
    is then not at least the greater argument. *)
Lemma log_add_exp_not_above_max :
  log_add_exp NInf NInf = NaN
  /\ ~ dle NInf (log_add_exp NInf NInf)
  /\ log_add_exp PInf (Fin 0) = NaN
  /\ ~ dle PInf (log_add_exp PInf (Fin 0))
  /\ log_add_exp NaN (Fin 0) = NaN
  /\ ~ dle (Fin 0) (log_add_exp NaN (Fin 0)).
Proof.
  assert (H1 : log_add_exp NInf NInf = NaN) by reflexivity.
  assert (H2 : log_add_exp PInf (Fin 0) = NaN) by reflexivity.
  assert (H3 : log_add_exp NaN (Fin 0) = NaN) by reflexivity.
  rewrite H1, H2, H3. repeat split; try reflexivity; intros H; exact H.
Qed.

(** C9, as the code has it.  [log_add_exp] of minus infinity and a real
    [x] is [x]; for [a] and [b] real or minus infinity, not both minus
    infinity, [log_add_exp a b] is a real, at least [a] and at least [b];
    it is the same on [b] and [a], for all doubles; [log_sum_exp] of the single real
    [x] is [x]; and on a sequence of reals that is not empty [log_sum_exp]
    is the logarithm of the sum of the exponentials, which a permutation
    of the sequence leaves as it is.  The arithmetic is exact here; the
    rounded sums of two orders of a sequence may differ. *)
Theorem log_math_laws :
  (forall x : R, log_add_exp NInf (Fin x) = Fin x)
  /\ (forall a b : double,
        real_or_minus_inf a -> real_or_minus_inf b -> a <> NInf \/ b <> NInf ->
        exists r : R,
          log_add_exp a b = Fin r /\ dle a (Fin r) /\ dle b (Fin r))
  /\ (forall a b : double, log_add_exp a b = log_add_exp b a)
  /\ (forall x : R, log_sum_exp [Fin x] = Fin x)
  /\ (forall (x : R) (l l' : list R),
        log_sum_exp (map Fin (x :: l)) = Fin (ln (exp_total (x :: l)))
        /\ (Permutation (x :: l) l' -> exp_total l' = exp_total (x :: l))).
Proof.
  split; [|split; [|split; [|split]]].
  - apply log_add_exp_NInf_l.
  - intros a b Ha Hb Hne.
    destruct a as [| |x|], b as [| |y|]; try contradiction.
    + destruct Hne as [Hne|Hne]; contradiction Hne; reflexivity.
    + exists y. rewrite log_add_exp_NInf_l. cbn [dle].
      split; [reflexivity|]. split; [exact I|lra].
    + exists x. rewrite log_add_exp_comm, log_add_exp_NInf_l. cbn [dle].
      split; [reflexivity|]. split; [lra|exact I].
    + exists (lae x y). rewrite log_add_exp_fin. cbn [dle].
      pose proof (lae_ge_max x y) as H.
      pose proof (Rmax_l x y). pose proof (Rmax_r x y).
      split; [reflexivity|]. split; lra.
  - apply log_add_exp_comm.
  - intros x. change [Fin x] with (map Fin [x]). rewrite log_sum_exp_total.
    f_equal. unfold exp_total. cbn [fold_right].
    replace (exp x + 0) with (exp x) by ring. apply ln_exp.
  - intros x l l'. split; [apply log_sum_exp_total|].
    intros HP. symmetry. apply exp_total_perm. exact HP.
Qed.

End LogMathLaws.

Lemma log_math_laws_witness :
  real_or_minus_inf NInf /\ real_or_minus_inf (Fin 1)
  /\ (exists r : R,
        log_add_exp NInf (Fin 1) = Fin r /\ dle NInf (Fin r) /\ dle (Fin 1) (Fin r))
  /\ Permutation [1%R; 2%R] [2%R; 1%R]
  /\ exp_total [2%R; 1%R] = exp_total [1%R; 2%R].
Proof.
  destruct log_math_laws as (_ & Hmax & _ & _ & Hsum).
  assert (HP : Permutation [1%R; 2%R] [2%R; 1%R]) by apply perm_swap.
  assert (Hne : NInf <> NInf \/ Fin 1 <> NInf) by (right; discriminate).
  split; [exact I|]. split; [exact I|].
  split; [exact (Hmax NInf (Fin 1) I I Hne)|]. split; [exact HP|].
  exact (proj2 (Hsum 1%R [2%R] [2%R; 1%R]) HP).
Defined.

(* ===================================================================== *)
(** * Further properties of the ReadModel *)
(* ===================================================================== *)

Section ReverseFacts.

(** One of the bases [A], [C], [G], [T] and [N]. *)
Definition base (c : ascii) : Prop := In c (cs "ACGTN").

Lemma nth_zrange (lo n : Z) (i : nat) (d : Z) :
  (i < Z.to_nat n)%nat -> nth i (zrange lo n) d = lo + Z.of_nat i.
Proof.
  intros H. unfold zrange.
  rewrite (nth_indep _ d ((fun k => lo + Z.of_nat k) O))
    by (rewrite length_map, length_seq; exact H).
  rewrite (map_nth (fun k => lo + Z.of_nat k)), seq_nth by exact H.
  reflexivity.
Qed.

Lemma map_zrange_rev {A B : Type} (g : A -> B) (a : list A) (d : A) :
  map (fun i => g (nth (Z.to_nat (zlen a - 1 - i)) a d)) (zrange 0 (zlen a))
  = rev (map g a).
Proof.
  apply (nth_ext _ _ (g d) (g d)).
  - rewrite length_map, length_zrange, length_rev, length_map.
    unfold zlen. lia.
  - intros i Hi. rewrite length_map, length_zrange in Hi. unfold zlen in Hi.
    rewrite Nat2Z.id in Hi.
    rewrite (nth_indep _ (g d)
               ((fun i => g (nth (Z.to_nat (zlen a - 1 - i)) a d)) 0))
      by (rewrite length_map, length_zrange; unfold zlen; lia).
    rewrite (map_nth (fun i => g (nth (Z.to_nat (zlen a - 1 - i)) a d))).
    rewrite nth_zrange by (unfold zlen; lia).
    rewrite rev_nth by (rewrite length_map; exact Hi).
    rewrite length_map, (map_nth g). do 2 f_equal. unfold zlen. lia.
Qed.

Lemma reverse_rev (a : list double) : reverse a (zlen a) = rev a.
Proof.
  unfold reverse. transitivity (rev (map (fun x : double => x) a));
    [|rewrite map_id; reflexivity].
  rewrite <- (@map_zrange_rev _ _ (fun x => x) a NaN).
  apply map_ext_in. intros i Hi. unfold dnth.
  unfold zrange in Hi. apply in_map_iff in Hi. destruct Hi as (k & <- & Hk).
  apply in_seq in Hk. unfold zlen in *.
  destruct (Z.ltb_spec (Z.of_nat (List.length a) - 1 - (0 + Z.of_nat k)) 0); [lia|].
  reflexivity.
Qed.

Lemma reverse_compl_rev (a : cstr) :
  reverse_compl a (zlen a) = rev (map compl a).
Proof.
  unfold reverse_compl.
  rewrite <- (@map_zrange_rev _ _ compl a NUL).
  apply map_ext_in. intros i Hi. unfold cnth.
  unfold zrange in Hi. apply in_map_iff in Hi. destruct Hi as (k & <- & Hk).
  apply in_seq in Hk. unfold zlen in *.
  destruct (Z.ltb_spec (Z.of_nat (List.length a) - 1 - (0 + Z.of_nat k)) 0); [lia|].
  reflexivity.
Qed.

Lemma compl_base (c : ascii) : base c -> base (compl c) /\ compl (compl c) = c.
Proof.
  unfold base. cbn [cs list_ascii_of_string In].
  intros [<-|[<-|[<-|[<-|[<-|[]]]]]]; vm_compute; tauto.
Qed.

(** X16.  [reverse] returns the elements in the opposite order, and
    [reverse_compl] on a sequence of the bases A, C, G, T and N returns the
    complements in the opposite order, a sequence of these bases again;
    taken twice it gives the sequence back. *)
Theorem reverse_compl_involutive (a : cstr) (q : list double) :
  Forall base a ->
  reverse q (zlen q) = rev q
  /\ reverse (reverse q (zlen q)) (zlen q) = q
  /\ reverse_compl a (zlen a) = rev (map compl a)
  /\ Forall base (reverse_compl a (zlen a))
  /\ reverse_compl (reverse_compl a (zlen a)) (zlen a) = a.
Proof.
  intros Ha.
  assert (Hq : zlen (rev q) = zlen q) by (unfold zlen; rewrite length_rev; reflexivity).
  assert (Hl : zlen (rev (map compl a)) = zlen a)
    by (unfold zlen; rewrite length_rev, length_map; reflexivity).
  split; [apply reverse_rev|].
  split; [rewrite reverse_rev, <- Hq, reverse_rev; apply rev_involutive|].
  split; [apply reverse_compl_rev|].
  rewrite reverse_compl_rev. split.
  - apply Forall_rev. apply Forall_map.
    eapply Forall_impl; [|exact Ha]. intros c Hc. exact (proj1 (compl_base Hc)).
  - rewrite <- Hl, reverse_compl_rev, map_rev, rev_involutive, map_map.
    rewrite <- (map_id a) at 2. apply map_ext_in. intros c Hc.
    rewrite Forall_forall in Ha. exact (proj2 (compl_base (Ha c Hc))).
Qed.

Lemma reverse_compl_involutive_witness :
  Forall base (cs "ACGTN")
  /\ reverse_compl (cs "ACGTN") 5 = cs "NACGT"
  /\ reverse_compl (reverse_compl (cs "ACGTN") 5) 5 = cs "ACGTN".
Proof.
  assert (H : Forall base (cs "ACGTN")).
  { apply Forall_forall. intros c Hc. exact Hc. }
  split; [exact H|].
  destruct (@reverse_compl_involutive (cs "ACGTN") [] H) as (_ & _ & H1 & _ & H2).
  split; [exact H1|exact H2].
Defined.

End ReverseFacts.

Section MatrixFacts.

Lemma length_dset_nat (a : list double) (i : nat) (x : double) :
  List.length (dset_nat a i x) = List.length a.
Proof.
  revert i; induction a as [|y a IH]; intros [|i]; cbn [dset_nat List.length];
    try reflexivity. rewrite IH. reflexivity.
Qed.

Lemma length_dset (a : list double) (i : Z) (x : double) :
  List.length (dset a i x) = List.length a.
Proof. unfold dset. destruct (i <? 0); [reflexivity|apply length_dset_nat]. Qed.

Lemma nth_dset_nat (a : list double) (i j : nat) (x : double) :
  (i < List.length a)%nat ->
  nth j (dset_nat a i x) NaN = if Nat.eqb j i then x else nth j a NaN.
Proof.
  revert i j; induction a as [|y a IH]; intros i j H; [simpl in H; lia|].
  destruct i as [|i]; destruct j as [|j]; cbn [dset_nat nth Nat.eqb]; try reflexivity.
  apply IH. simpl in H. lia.
Qed.

Lemma length_prob_matrix_row (seq : cstr) (is_match no_match : list double) (b : Z) :
  List.length (prob_matrix_row seq is_match no_match b) = 5%nat.
Proof.
  unfold prob_matrix_row.
  destruct (seqnt_map _) as [c|]; [|reflexivity].
  destruct (c <? 5); [rewrite length_dset|]; reflexivity.
Qed.

Lemma nth_flat_map_rows {A : Type} (f : A -> list double) (l : list A)
    (k i j : nat) (d : A) :
  (forall x, List.length (f x) = k) -> (i < List.length l)%nat -> (j < k)%nat ->
  nth (k * i + j) (flat_map f l) NaN = nth j (f (nth i l d)) NaN.
Proof.
  intros Hk. revert i; induction l as [|x l IH]; intros i Hi Hj; [simpl in Hi; lia|].
  cbn [flat_map]. destruct i as [|i].
  - rewrite Nat.mul_0_r, Nat.add_0_l, app_nth1 by (rewrite Hk; exact Hj).
    reflexivity.
  - rewrite app_nth2 by (rewrite Hk; nia). rewrite Hk.
    replace (k * S i + j - k)%nat with (k * i + j)%nat by nia.
    cbn [nth]. apply IH; [simpl in Hi; lia|exact Hj].
Qed.

Lemma seqnt_map_base (c : ascii) :
  base c ->
  exists col : Z, seqnt_map (code c - code "A") = Some col /\ 0 <= col < 5.
Proof.
  unfold base. cbn [cs list_ascii_of_string In].
  intros [<-|[<-|[<-|[<-|[<-|[]]]]]]; eexists; (split; [reflexivity|lia]).
Qed.

Lemma seqnt_map_base_inj (c c' : ascii) (col : Z) :
  base c -> base c' ->
  seqnt_map (code c - code "A") = Some col ->
  seqnt_map (code c' - code "A") = Some col -> c = c'.
Proof.
  unfold base. cbn [cs list_ascii_of_string In].
  intros [<-|[<-|[<-|[<-|[<-|[]]]]]] [<-|[<-|[<-|[<-|[<-|[]]]]]] H H';
    try reflexivity; exfalso; vm_compute in H, H'; congruence.
Qed.

(** X17.  The probability matrix built by [set_prob_matrix] has five
    columns for each base of the read; looked up at a row whose base is one
    of A, C, G, T and N, in the column of such a base, it holds [is_match]
    of the row when the base is that of the read and [no_match] of the row
    otherwise. *)
Theorem set_prob_matrix_lookup (seq : cstr) (read_length : Z)
    (is_match no_match : list double) (b : Z) (c : ascii) :
  0 <= b < read_length -> base (cnth seq b) -> base c ->
  zlen (set_prob_matrix seq read_length is_match no_match) = 5 * read_length
  /\ matrix_at (set_prob_matrix seq read_length is_match no_match) b c
     = if ascii_dec c (cnth seq b) then dnth is_match b else dnth no_match b.
Proof.
  intros Hb Hseq Hc. split.
  - unfold set_prob_matrix, zlen.
    rewrite (flat_map_constant_length (c := 5%nat))
      by (intros x _; apply length_prob_matrix_row).
    rewrite length_zrange. lia.
  - unfold matrix_at. destruct (seqnt_map_base Hc) as (col & Ecol & Hcol).
    rewrite Ecol. unfold dnth at 1.
    destruct (Z.ltb_spec (5 * b + col) 0); [lia|].
    replace (Z.to_nat (5 * b + col)) with (5 * Z.to_nat b + Z.to_nat col)%nat by lia.
    unfold set_prob_matrix.
    rewrite (@nth_flat_map_rows Z _ _ 5 (Z.to_nat b) (Z.to_nat col) 0);
      [|apply length_prob_matrix_row|rewrite length_zrange; lia|lia].
    rewrite nth_zrange by lia. rewrite Z2Nat.id by lia. cbn [Z.add].
    unfold prob_matrix_row.
    destruct (seqnt_map_base Hseq) as (col' & Ecol' & Hcol'). rewrite Ecol'.
    destruct (Z.ltb_spec col' 5); [|lia]. unfold dset.
    destruct (Z.ltb_spec col' 0); [lia|].
    rewrite nth_dset_nat by (rewrite repeat_length; lia).
    destruct (Nat.eqb_spec (Z.to_nat col) (Z.to_nat col')) as [E|N].
    + assert (col = col') by lia. subst col'.
      destruct (ascii_dec c (cnth seq b)) as [_|Hne]; [reflexivity|].
      exfalso. apply Hne. eapply seqnt_map_base_inj; eassumption.
    + destruct (ascii_dec c (cnth seq b)) as [->|_].
      * rewrite Ecol in Ecol'. injection Ecol' as ->. contradiction.
      * apply nth_repeat_lt. lia.
Qed.

Lemma set_prob_matrix_lookup_witness :
  0 <= 1 < 2 /\ base (cnth (cs "AG") 1) /\ base "G"%char /\ base "T"%char
  /\ matrix_at (set_prob_matrix (cs "AG") 2 [Fin (-1); Fin (-2)] [Fin (-7); Fin (-8)])
       1 "G" = Fin (-2)
  /\ matrix_at (set_prob_matrix (cs "AG") 2 [Fin (-1); Fin (-2)] [Fin (-7); Fin (-8)])
       1 "T" = Fin (-8).
Proof.
  assert (H1 : 0 <= 1 < 2) by lia.
  assert (H2 : base (cnth (cs "AG") 1)) by (vm_compute; tauto).
  assert (H3 : base "G"%char) by (vm_compute; tauto).
  assert (H4 : base "T"%char) by (vm_compute; tauto).
  split; [exact H1|]. split; [exact H2|]. split; [exact H3|]. split; [exact H4|].
  split.
  - exact (proj2 (@set_prob_matrix_lookup (cs "AG") 2 [Fin (-1); Fin (-2)]
                    [Fin (-7); Fin (-8)] 1 "G" H1 H2 H3)).
  - exact (proj2 (@set_prob_matrix_lookup (cs "AG") 2 [Fin (-1); Fin (-2)]
                    [Fin (-7); Fin (-8)] 1 "T" H1 H2 H4)).
Defined.

End MatrixFacts.

(* ===================================================================== *)
(** * Further properties of the AltBuilder *)
(* ===================================================================== *)

Ltac zsolve := unfold clen, zlen in *; cbn [List.length] in *; lia.

Section AltBuilderSplice.

(** The reference allele and the alternative allele that
    [construct_altseq] works with, and the index in the reference at which
    it puts them: an allele that starts with [-] stands for the empty
    string, and an insertion is put after the base at [pos]. *)
Definition var_ref_of (v : Variant) : cstr :=
  if starts_with_dash (v_ref v) then [] else v_ref v.

Definition var_alt_of (v : Variant) : cstr :=
  if starts_with_dash (v_ref v) then v_alt v
  else if starts_with_dash (v_alt v) then [] else v_alt v.

Definition var_index (v : Variant) : Z :=
  if starts_with_dash (v_ref v) then v_pos v else v_pos v - 1.

Lemma overwrite_splice (s a : cstr) (pos : Z) :
  0 <= pos -> pos + clen a <= zlen s ->
  overwrite s pos a = zfirstn pos s ++ a ++ zskipn (pos + clen a) s.
Proof.
  intros Hpos Hfit. unfold clen, zlen in *.
  apply (nth_ext _ _ NUL NUL).
  - unfold overwrite. rewrite overwrite_from_length, !length_app.
    unfold zfirstn, zskipn. rewrite length_firstn, length_skipn. lia.
  - intros j Hj. unfold overwrite in *. rewrite overwrite_from_length in Hj.
    rewrite overwrite_from_nth. unfold clen, zlen.
    assert (Hjl : (j <? List.length s)%nat = true) by (apply Nat.ltb_lt; exact Hj).
    rewrite Hjl. cbn [andb]. replace (0 + Z.of_nat j) with (Z.of_nat j) by lia.
    unfold zfirstn, zskipn.
    destruct (Z.leb_spec pos (Z.of_nat j)) as [Hge|Hlt]; cbn [andb].
    + rewrite app_nth2 by (rewrite length_firstn; lia).
      rewrite length_firstn.
      replace (Init.Nat.min (Z.to_nat pos) (List.length s)) with (Z.to_nat pos) by lia.
      destruct (Z.ltb_spec (Z.of_nat j) (pos + Z.of_nat (List.length a))) as [Hin|Hout].
      * rewrite app_nth1 by lia. rewrite cnth_nth by lia. f_equal. lia.
      * rewrite app_nth2 by lia. rewrite nth_skipn. f_equal. lia.
    + rewrite app_nth1 by (rewrite length_firstn; lia).
      rewrite nth_firstn.
      assert (E : (j <? Z.to_nat pos)%nat = true) by (apply Nat.ltb_lt; lia).
      rewrite E. reflexivity.
Qed.

(** One round of the loop on a variant that lies inside the sequence. *)
Lemma apply_variant_splice (st : AltState) (v : Variant) :
  zlen (altseq st) = altseq_length st ->
  0 <= var_index v + offset st ->
  var_index v + offset st + clen (var_ref_of v) <= altseq_length st ->
  apply_variant st v
  = {| altseq := zfirstn (var_index v + offset st) (altseq st) ++ var_alt_of v
                 ++ zskipn (var_index v + offset st + clen (var_ref_of v))
                      (altseq st);
       altseq_length := altseq_length st + (clen (var_alt_of v) - clen (var_ref_of v));
       offset := offset st + (clen (var_alt_of v) - clen (var_ref_of v)) |}.
Proof.
  intros Hlen Hpos Hfit. unfold apply_variant, var_ref_of, var_alt_of, var_index in *.
  destruct (starts_with_dash (v_ref v)).
  - replace (v_pos v - 1 + offset st + 1) with (v_pos v + offset st) by lia.
    destruct (Z.eqb_spec (clen (v_alt v) - clen (@nil ascii)) 0) as [E|N].
    + rewrite overwrite_splice by zsolve.
      f_equal; try lia. do 2 f_equal. f_equal. zsolve.
    + f_equal. do 2 f_equal.
      rewrite zfirstn_all; [reflexivity|].
      rewrite zlen_zskipn by zsolve. zsolve.
  - destruct (starts_with_dash (v_alt v)).
    + destruct (Z.eqb_spec (clen (@nil ascii) - clen (v_ref v)) 0) as [E|N].
      * rewrite overwrite_splice by zsolve.
        f_equal; try lia. do 2 f_equal. f_equal.
        zsolve.
      * f_equal. do 2 f_equal.
        rewrite zfirstn_all; [reflexivity|].
        rewrite zlen_zskipn by zsolve. zsolve.
    + destruct (Z.eqb_spec (clen (v_alt v) - clen (v_ref v)) 0) as [E|N].
      * rewrite overwrite_splice by zsolve.
        f_equal; try lia. do 2 f_equal. f_equal. zsolve.
      * f_equal. do 2 f_equal.
        rewrite zfirstn_all; [reflexivity|].
        rewrite zlen_zskipn by zsolve. zsolve.
Qed.

End AltBuilderSplice.

Section AltBuilderLaws.

(** The variants of a combination lie inside a reference of [len] bases,
    one after the other from the index [from] on, without overlap. *)
Fixpoint in_sequence (from len : Z) (var_combo : list Variant) : Prop :=
  match var_combo with
  | [] => True
  | v :: rest =>
      from <= var_index v
      /\ var_index v + clen (var_ref_of v) <= len
      /\ in_sequence (var_index v + clen (var_ref_of v)) len rest
  end.

(** The sum of the changes of length. *)
Definition net_change (var_combo : list Variant) : Z :=
  fold_right (fun v s => clen (var_alt_of v) - clen (var_ref_of v) + s) 0 var_combo.

Lemma fold_apply_variant (var_combo : list Variant) (st : AltState) (from len : Z) :
  zlen (altseq st) = altseq_length st ->
  altseq_length st = len + offset st ->
  0 <= from + offset st ->
  in_sequence from len var_combo ->
  let st' := fold_left apply_variant var_combo st in
  zlen (altseq st') = altseq_length st'
  /\ altseq_length st' = altseq_length st + net_change var_combo.
Proof.
  revert st from; induction var_combo as [|v rest IH]; intros st from Hlen Hoff Hfrom Hin.
  - cbn [fold_left net_change fold_right]. split; [exact Hlen|lia].
  - destruct Hin as (Hlo & Hhi & Hrest). cbn [fold_left].
    pose proof (zlen_nonneg (var_ref_of v)) as Hr.
    pose proof (zlen_nonneg (var_alt_of v)) as Ha.
    rewrite apply_variant_splice by zsolve.
    set (st1 := {| altseq := _; altseq_length := _; offset := _ |}).
    destruct (IH st1 (var_index v + clen (var_ref_of v))) as [H1 H2].
    + subst st1. cbn [altseq altseq_length].
      rewrite !zlen_app, zlen_zfirstn, zlen_zskipn by zsolve. zsolve.
    + subst st1. cbn [altseq_length offset]. lia.
    + subst st1. cbn [offset]. zsolve.
    + exact Hrest.
    + cbv zeta. split; [exact H1|]. rewrite H2. subst st1.
      cbn [altseq_length net_change fold_right]. fold (net_change rest). lia.
Qed.

(** X18.  A single variant whose reference allele lies inside the
    reference replaces the bases of that allele by the alternative allele:
    the result is the reference before the allele, the alternative allele,
    and the reference after the allele, whatever bases the reference holds
    there; a deletion written with ALT [-] removes the bases of REF. *)
Theorem construct_altseq_replaces (refseq : cstr) (v : Variant) :
  0 <= var_index v -> var_index v + clen (var_ref_of v) <= zlen refseq ->
  construct_altseq refseq (zlen refseq) [v]
  = (zfirstn (var_index v) refseq ++ var_alt_of v
     ++ zskipn (var_index v + clen (var_ref_of v)) refseq,
     zlen refseq + clen (var_alt_of v) - clen (var_ref_of v)).
Proof.
  intros Hlo Hhi. unfold construct_altseq. cbn [fold_left].
  rewrite apply_variant_splice; cbn [altseq altseq_length offset]; try lia.
  rewrite !Z.add_0_r. f_equal. lia.
Qed.

(** X19.  For a combination of variants that lie inside the reference, in
    the order of their positions and without overlap, the sequence that
    [construct_altseq] returns has exactly the length that it reports, the
    length of the reference plus the changes of length of the variants. *)
Theorem construct_altseq_length (refseq : cstr) (var_combo : list Variant) :
  in_sequence 0 (zlen refseq) var_combo ->
  zlen (fst (construct_altseq refseq (zlen refseq) var_combo))
  = snd (construct_altseq refseq (zlen refseq) var_combo)
  /\ snd (construct_altseq refseq (zlen refseq) var_combo)
     = zlen refseq + net_change var_combo.
Proof.
  intros Hin. unfold construct_altseq. cbn [fst snd].
  apply (@fold_apply_variant var_combo
           {| altseq := refseq; altseq_length := zlen refseq; offset := 0 |}
           0 (zlen refseq)); cbn [altseq altseq_length offset];
    [reflexivity|lia|lia|exact Hin].
Qed.

(** A deletion of two bases, and an insertion after it. *)
Definition del_ct : Variant :=
  {| v_chr := "chr1"; v_pos := 2; v_ref := cs "CT"; v_alt := cs "-" |}.

Definition ins_gg : Variant :=
  {| v_chr := "chr1"; v_pos := 5; v_ref := cs "-"; v_alt := cs "GG" |}.

Lemma construct_altseq_replaces_witness :
  0 <= var_index del_ct
  /\ var_index del_ct + clen (var_ref_of del_ct) <= zlen (cs "ACTAAA")
  /\ construct_altseq (cs "ACTAAA") 6 [del_ct] = (cs "AAAA", 4).
Proof.
  assert (H1 : 0 <= var_index del_ct) by (vm_compute; discriminate).
  assert (H2 : var_index del_ct + clen (var_ref_of del_ct) <= zlen (cs "ACTAAA"))
    by (vm_compute; discriminate).
  split; [exact H1|]. split; [exact H2|].
  exact (@construct_altseq_replaces (cs "ACTAAA") del_ct H1 H2).
Defined.

Lemma construct_altseq_length_witness :
  in_sequence 0 (zlen (cs "ACTAAA")) [del_ct; ins_gg]
  /\ zlen (fst (construct_altseq (cs "ACTAAA") 6 [del_ct; ins_gg])) = 6
  /\ snd (construct_altseq (cs "ACTAAA") 6 [del_ct; ins_gg]) = 6.
Proof.
  assert (H : in_sequence 0 (zlen (cs "ACTAAA")) [del_ct; ins_gg]).
  { cbn. repeat split; vm_compute; discriminate. }
  split; [exact H|].
  destruct (@construct_altseq_length (cs "ACTAAA") [del_ct; ins_gg] H) as [H1 H2].
  split; [exact (eq_trans H1 H2)|exact H2].
Defined.

End AltBuilderLaws.

(* ===================================================================== *)
(** * Further properties of the Evaluator *)
(* ===================================================================== *)

Section FindVariantSearch.

Lemma variant_eqb_eq (v w : Variant) : variant_eqb v w = true -> v = w.
Proof.
  unfold variant_eqb, ceqb. intros H.
  apply andb_prop in H. destruct H as [H Hpos].
  apply andb_prop in H. destruct H as [H Halt].
  apply andb_prop in H. destruct H as [Hchr Href].
  apply String.eqb_eq in Hchr. apply Z.eqb_eq in Hpos.
  destruct (list_eq_dec ascii_dec (v_ref v) (v_ref w)) as [Er|]; [|discriminate].
  destruct (list_eq_dec ascii_dec (v_alt v) (v_alt w)) as [Ea|]; [|discriminate].
  destruct v, w. cbn in *. congruence.
Qed.

Lemma chain_before_nth (a : list Variant) (x y : nat) (u w : Variant) :
  chain before a -> nth_error a x = Some u -> nth_error a y = Some w ->
  (x < y)%nat -> v_pos u < v_pos w.
Proof.
  revert x y; induction a as [|h a IH]; intros x y Hch Hx Hy Hlt.
  - destruct x; discriminate Hx.
  - destruct y as [|y]; [lia|]. cbn [nth_error] in Hy.
    destruct x as [|x].
    + cbn [nth_error] in Hx. injection Hx as <-.
      pose proof (@chain_before_head _ _ Hch) as Hall.
      rewrite Forall_forall in Hall. apply Hall.
      eapply nth_error_In. exact Hy.
    + cbn [nth_error] in Hx. apply (IH x y); [|assumption|assumption|lia].
      eapply chain_tail. exact Hch.
Qed.

Variables (a : list Variant) (v : Variant).

Lemma quot_between (i j : Z) : 0 <= i <= j -> i <= (i + j) ÷ 2 <= j.
Proof.
  intros H. rewrite Z.quot_div_nonneg by lia.
  split; [apply Z.div_le_lower_bound|apply Z.div_le_upper_bound]; lia.
Qed.

(** An index that the loop returns holds the variant. *)
Lemma find_variant_loop_sound (fuel : nat) (i j r : Z) :
  0 <= i ->
  find_variant_loop fuel a v i j ((i + j) ÷ 2) = r -> r <> -1 ->
  0 <= r /\ nth_error a (Z.to_nat r) = Some v.
Proof.
  revert i j; induction fuel as [|fuel IH]; intros i j Hi Hr Hne;
    [cbn in Hr; congruence|].
  cbn [find_variant_loop] in Hr.
  destruct (Z.leb_spec i j) as [Hij|]; [|congruence].
  pose proof (@quot_between i j (conj Hi Hij)) as Hn.
  destruct (nth_error a (Z.to_nat ((i + j) ÷ 2))) as [curr|] eqn:E; [|congruence].
  destruct (variant_eqb v curr) eqn:Eq.
  - apply variant_eqb_eq in Eq. subst curr r. split; [lia|exact E].
  - destruct (v_pos v >? v_pos curr); eapply IH; try exact Hr; try exact Hne; lia.
Qed.

Hypothesis Hsorted : chain before a.

Lemma find_variant_loop_complete (fuel : nat) (t : nat) (i j : Z) :
  nth_error a t = Some v ->
  0 <= i <= Z.of_nat t -> Z.of_nat t <= j -> j < zlen a ->
  j - i < Z.of_nat fuel ->
  find_variant_loop fuel a v i j ((i + j) ÷ 2) = Z.of_nat t.
Proof.
  intros Ht. revert i j; induction fuel as [|fuel IH]; intros i j Hi Hj Hlen Hfuel;
    [lia|].
  cbn [find_variant_loop].
  destruct (Z.leb_spec i j) as [Hij|]; [|lia].
  assert (Hn : i <= (i + j) ÷ 2 <= j) by (apply quot_between; lia).
  set (n := (i + j) ÷ 2) in *.
  destruct (nth_error a (Z.to_nat n)) as [curr|] eqn:E.
  2: { apply nth_error_None in E. unfold zlen in Hlen. lia. }
  destruct (variant_eqb v curr) eqn:Eq.
  - apply variant_eqb_eq in Eq. subst curr.
    destruct (Nat.lt_trichotomy (Z.to_nat n) t) as [Hl|[He|Hg]].
    + pose proof (@chain_before_nth a _ _ _ _ Hsorted E Ht Hl). lia.
    + lia.
    + pose proof (@chain_before_nth a _ _ _ _ Hsorted Ht E Hg). lia.
  - destruct (Z.gtb_spec (v_pos v) (v_pos curr)) as [Hgt|Hle].
    + assert (Z.to_nat n < t)%nat.
      { destruct (Nat.lt_trichotomy (Z.to_nat n) t) as [Hl|[He|Hg]]; [exact Hl| |].
        - rewrite He, Ht in E. injection E as <-. lia.
        - pose proof (@chain_before_nth a _ _ _ _ Hsorted Ht E Hg). lia. }
      apply IH; lia.
    + assert (t < Z.to_nat n)%nat.
      { destruct (Nat.lt_trichotomy (Z.to_nat n) t) as [Hl|[He|Hg]]; [| |exact Hg].
        - pose proof (@chain_before_nth a _ _ _ _ Hsorted E Ht Hl). lia.
        - rewrite He, Ht in E. injection E as <-.
          rewrite variant_eqb_refl in Eq. discriminate Eq. }
      apply IH; lia.
Qed.

End FindVariantSearch.

(** X20.  On a vector whose variants stand in the order of their
    positions, no two at one position, [find_variant] returns the index of
    the variant when the vector holds it, and -1 when it does not. *)
Theorem find_variant_sorted (a : list Variant) (v : Variant) :
  chain before a ->
  (forall i : nat, nth_error a i = Some v -> find_variant a v = Z.of_nat i)
  /\ (~ In v a -> find_variant a v = -1).
Proof.
  intros Hsorted. split.
  - intros i Hi. unfold find_variant. cbv zeta.
    assert (Hlt : (i < List.length a)%nat) by (apply nth_error_Some; congruence).
    apply find_variant_loop_complete; try assumption; unfold zlen; lia.
  - intros Hnot. destruct (Z.eq_dec (find_variant a v) (-1)) as [E|N]; [exact E|].
    exfalso. apply Hnot. unfold find_variant in N. cbv zeta in N.
    destruct (@find_variant_loop_sound a v (S (List.length a)) 0 (zlen a - 1) _
                (Z.le_refl 0) eq_refl N) as [_ Hnth].
    eapply nth_error_In. exact Hnth.
Qed.

Lemma find_variant_sorted_witness :
  chain before three_nearby
  /\ find_variant three_nearby (snv "chr1" 108 "A" "T") = 2
  /\ find_variant three_nearby (snv "chr1" 101 "A" "T") = -1.
Proof.
  assert (H : chain before three_nearby).
  { unfold three_nearby, before. cbn. lia. }
  split; [exact H|]. split.
  - exact (proj1 (@find_variant_sorted three_nearby (snv "chr1" 108 "A" "T") H)
             2%nat eq_refl).
  - apply (proj2 (@find_variant_sorted three_nearby (snv "chr1" 101 "A" "T") H)).
    unfold three_nearby. cbn [In]. intros [E|[E|[E|[]]]]; discriminate E.
Defined.

(* ===================================================================== *)
(** * Further properties of the Grouper *)
(* ===================================================================== *)

Section GroupingFacts.

Variable dlim : Z.

(** The test of the inner loop of the grouping: [w] joins the set that
    ends with [u]. *)
Definition joins (u w : Variant) : Prop :=
  0 < dlim /\ v_chr w = v_chr u /\ Z.abs (v_pos w - v_pos u) <= dlim.

(** The first variant of every set does not join the set before it. *)
Fixpoint apart (sets : list (list Variant)) : Prop :=
  match sets with
  | [] => True
  | s1 :: tl =>
      match tl with
      | [] => True
      | s2 :: _ =>
          ~ joins (last s1 (snv "" 0 "" "")) (hd (snv "" 0 "" "") s2)
          /\ apart tl
      end
  end.

(** Every variant of a set joins the one before it. *)
Definition joined (s : list Variant) : Prop := chain joins s.

Lemma take_set_test (u w : Variant) :
  (dlim >? 0) && String.eqb (v_chr w) (v_chr u)
  && (Z.abs (v_pos w - v_pos u) <=? dlim) = true <-> joins u w.
Proof.
  unfold joins. rewrite !andb_true_iff, Z.gtb_ltb, Z.ltb_lt, String.eqb_eq, Z.leb_le.
  tauto.
Qed.

Lemma last_cons_default (x : Variant) (l : list Variant) (d d' : Variant) :
  last (x :: l) d = last (x :: l) d'.
Proof.
  revert x; induction l as [|y l IH]; intros x; [reflexivity|].
  change (last (y :: l) d = last (y :: l) d'). apply IH.
Qed.

Lemma take_set_stops (prev : Variant) (rest : list Variant) :
  match snd (take_set dlim prev rest) with
  | [] => True
  | w :: _ => ~ joins (last (prev :: fst (take_set dlim prev rest)) prev) w
  end.
Proof.
  revert prev; induction rest as [|v rest IH]; intros prev; [exact I|].
  cbn [take_set].
  destruct ((dlim >? 0) && String.eqb (v_chr v) (v_chr prev)
            && (Z.abs (v_pos v - v_pos prev) <=? dlim)) eqn:E.
  - specialize (IH v). destruct (take_set dlim v rest) as [s r]. cbn [fst snd] in *.
    destruct r as [|w r]; [exact I|].
    change (last (prev :: v :: s) prev) with (last (v :: s) prev).
    rewrite (last_cons_default v s prev v).
    exact IH.
  - cbn [fst snd last]. intros H. apply take_set_test in H. congruence.
Qed.

Lemma take_set_joined (prev : Variant) (rest : list Variant) :
  joined (prev :: fst (take_set dlim prev rest)).
Proof.
  revert prev; induction rest as [|v rest IH]; intros prev; [exact I|].
  cbn [take_set].
  destruct ((dlim >? 0) && String.eqb (v_chr v) (v_chr prev)
            && (Z.abs (v_pos v - v_pos prev) <=? dlim)) eqn:E; [|exact I].
  specialize (IH v). destruct (take_set dlim v rest) as [s r]. cbn [fst snd] in *.
  split; [apply take_set_test; exact E|exact IH].
Qed.

(** X21.  The grouping cuts the list of variants into sets without
    reordering or losing any: the sets, one after the other, make up the
    list; no set is empty; inside a set every variant is on the chromosome
    of the one before it and at most [distlim] away from it; and the first
    variant of a set is not so to the last variant of the set before. *)
Theorem group_sets_partition (varlist : list Variant) :
  List.concat (group_sets dlim varlist) = varlist
  /\ Forall (fun s => s <> [] /\ joined s) (group_sets dlim varlist)
  /\ apart (group_sets dlim varlist).
Proof.
  split; [apply group_sets_concat|].
  funelim (group_sets dlim varlist); simp group_sets; [split; [constructor|exact I]|].
  destruct H as [Hall Hapart]. split.
  - constructor; [|exact Hall]. split; [discriminate|apply take_set_joined].
  - pose proof (take_set_stops v rest) as Hstop.
    destruct (snd (take_set dlim v rest)) as [|w r] eqn:Er.
    + simp group_sets. exact I.
    + simp group_sets in *. cbn [apart hd]. split; [|exact Hapart].
      rewrite (last_cons_default v (fst (take_set dlim v rest)) (snv "" 0 "" "") v).
      exact Hstop.
Qed.

End GroupingFacts.

(* ===================================================================== *)
(** * Further properties of the command line *)
(* ===================================================================== *)

Section ParseNumFacts.

(** An octal digit, and the value of a string of them. *)
Definition is_octal (c : ascii) : bool :=
  let z := code c in (48 <=? z) && (z <=? 55).

Definition octal_value (d : cstr) : Z :=
  fold_left (fun acc c => 8 * acc + (code c - 48)) d 0.

Lemma digit_value_decimal (c : ascii) :
  digit_value 10 c = if is_digit c then Some (code c - 48) else None.
Proof. destruct c as [[] [] [] [] [] [] [] []]; reflexivity. Qed.

Lemma digit_value_octal (c : ascii) :
  is_octal c = true -> digit_value 8 c = Some (code c - 48).
Proof.
  unfold digit_value, is_octal. intros H. apply andb_prop in H. destruct H as [H1 H2].
  apply Z.leb_le in H1. apply Z.leb_le in H2.
  destruct (Z.leb_spec 48 (code c)); [|lia].
  destruct (Z.leb_spec (code c) 57); [|lia]. cbn [andb].
  destruct (Z.ltb_spec (code c - 48) 8); [reflexivity|lia].
Qed.

Lemma strtol_digits_decimal (d tl : cstr) (acc : Z) (count : nat) :
  Forall (fun c => is_digit c = true) d ->
  match tl with [] => True | c :: _ => is_digit c = false end ->
  strtol_digits 10 (d ++ tl) acc count
  = (fold_left (fun acc c => 10 * acc + (code c - 48)) d acc,
     (count + List.length d)%nat, tl).
Proof.
  intros Hd Htl. revert acc count; induction Hd as [|c d Hc _ IH]; intros acc count.
  - cbn [app fold_left List.length]. rewrite Nat.add_0_r.
    destruct tl as [|c tl]; [reflexivity|].
    cbn [strtol_digits]. rewrite digit_value_decimal, Htl. reflexivity.
  - cbn [app strtol_digits fold_left List.length].
    rewrite digit_value_decimal, Hc, IH. do 2 f_equal. lia.
Qed.

Lemma strtol_digits_octal (d : cstr) (acc : Z) (count : nat) :
  Forall (fun c => is_octal c = true) d ->
  strtol_digits 8 d acc count
  = (fold_left (fun acc c => 8 * acc + (code c - 48)) d acc,
     (count + List.length d)%nat, []).
Proof.
  intros Hd. revert acc count; induction Hd as [|c d Hc _ IH]; intros acc count.
  - cbn [fold_left List.length strtol_digits]. rewrite Nat.add_0_r. reflexivity.
  - cbn [strtol_digits fold_left List.length].
    rewrite (digit_value_octal _ Hc), IH. do 2 f_equal. lia.
Qed.

Lemma fold_digits_nonneg (b : Z) (d : cstr) (acc : Z) :
  0 <= b -> 0 <= acc -> Forall (fun c => 48 <= code c) d ->
  0 <= fold_left (fun acc c => b * acc + (code c - 48)) d acc.
Proof.
  intros Hb Hacc Hd. revert acc Hacc; induction Hd as [|c d Hc _ IH]; intros acc Hacc.
  - exact Hacc.
  - cbn [fold_left]. apply IH. nia.
Qed.

Lemma digits_value_nonneg (d : cstr) :
  Forall (fun c => is_digit c = true) d -> 0 <= digits_value d.
Proof.
  intros Hd. apply fold_digits_nonneg; [lia|lia|].
  eapply Forall_impl; [|exact Hd]. cbv beta. unfold is_digit. intros c H.
  apply andb_prop in H. destruct H as [H _]. apply Z.leb_le in H. exact H.
Qed.

Lemma octal_value_nonneg (d : cstr) :
  Forall (fun c => is_octal c = true) d -> 0 <= octal_value d.
Proof.
  intros Hd. apply fold_digits_nonneg; [lia|lia|].
  eapply Forall_impl; [|exact Hd]. cbv beta. unfold is_octal. intros c H.
  apply andb_prop in H. destruct H as [H _]. apply Z.leb_le in H. exact H.
Qed.

Lemma to_int_small (z : Z) : - 2 ^ 31 <= z < 2 ^ 31 -> to_int z = z.
Proof.
  intros H. unfold to_int. rewrite Z.mod_small by lia. lia.
Qed.

(** The prefix that selects the base of [strtol], and the sign. *)
Definition strtol_base (s : cstr) : Z * cstr :=
  match s with
  | z :: x :: h :: _ =>
      if (code z =? 48) && ((code x =? 120) || (code x =? 88))
         && (match digit_value 16 h with Some _ => true | None => false end)
      then (16, tl (tl s))
      else if code z =? 48 then (8, s) else (10, s)
  | z :: _ => if code z =? 48 then (8, s) else (10, s)
  | [] => (10, s)
  end.

Definition strtol_sign (s : cstr) : bool * cstr :=
  match s with
  | c :: s' =>
      if ascii_dec c "-" then (true, s')
      else if ascii_dec c "+" then (false, s')
      else (false, s)
  | [] => (false, s)
  end.

Lemma strtol0_parts (str : cstr) :
  strtol0 str =
  let '(neg, s) := strtol_sign (skip_space str) in
  let '(base, digits) := strtol_base s in
  let '(v, count, rest) := strtol_digits base digits 0 O in
  match count with
  | O => (0, None)
  | S _ => (Z.max LONG_MIN (Z.min LONG_MAX (if neg then - v else v)), Some rest)
  end.
Proof. reflexivity. Qed.

Lemma strtol_base_not_zero (c : ascii) (s : cstr) :
  (code c =? 48) = false -> strtol_base (c :: s) = (10, c :: s).
Proof.
  intros H. unfold strtol_base. destruct s as [|x [|h r]]; rewrite H; reflexivity.
Qed.

Lemma strtol_base_octal (d : cstr) :
  Forall (fun c => is_octal c = true) d ->
  strtol_base ("0"%char :: d) = (8, "0"%char :: d).
Proof.
  intros Hd. unfold strtol_base. destruct d as [|x [|h r]]; try reflexivity.
  inversion Hd as [|? ? Hx _]; subst. unfold is_octal in Hx.
  apply andb_prop in Hx. destruct Hx as [H1 H2].
  apply Z.leb_le in H1. apply Z.leb_le in H2.
  change (code "0" =? 48) with true. cbn [andb].
  destruct (Z.eqb_spec (code x) 120); [lia|].
  destruct (Z.eqb_spec (code x) 88); [lia|]. reflexivity.
Qed.

Lemma strtol_sign_none (c : ascii) (s : cstr) :
  c <> "-"%char -> c <> "+"%char -> strtol_sign (c :: s) = (false, c :: s).
Proof.
  intros Hm Hp. unfold strtol_sign.
  destruct (ascii_dec c "-"); [contradiction|].
  destruct (ascii_dec c "+"); [contradiction|]. reflexivity.
Qed.

Lemma code_48 (c : ascii) : code c = 48 -> c = "0"%char.
Proof.
  intros E. rewrite <- (ascii_nat_embedding c). unfold code in E.
  replace (nat_of_ascii c) with 48%nat by lia. reflexivity.
Qed.

(** Digits that do not start with 0 are read in base 10. *)
Lemma strtol0_decimal (neg : bool) (d tl : cstr) :
  number d -> hd NUL d <> "0"%char ->
  match tl with [] => True | c :: _ => is_digit c = false end ->
  strtol0 ((if neg then ["-"%char] else []) ++ d ++ tl)
  = (Z.max LONG_MIN (Z.min LONG_MAX (if neg then - digits_value d else digits_value d)),
     Some tl).
Proof.
  intros [Hne Hd] Hz Htl. destruct d as [|c d]; [contradiction|].
  inversion Hd as [|? ? Hc Hd']; subst. cbn [hd] in Hz.
  destruct (digit_codes _ Hc) as [Hm Hp].
  pose proof (is_digit_not_space _ Hc) as Hsp.
  assert (Hc48 : (code c =? 48) = false).
  { apply Z.eqb_neq. intros E. apply Hz. apply code_48. exact E. }
  rewrite strtol0_parts. destruct neg; cbn [app skip_space].
  - change (is_space "-") with false. cbv iota.
    change (strtol_sign ("-"%char :: c :: d ++ tl)) with (true, c :: d ++ tl).
    cbv iota beta. rewrite strtol_base_not_zero by exact Hc48.
    change (c :: d ++ tl) with ((c :: d) ++ tl).
    rewrite strtol_digits_decimal by assumption.
    cbn [List.length Nat.add]. reflexivity.
  - rewrite Hsp, strtol_sign_none by assumption. cbv iota beta.
    rewrite strtol_base_not_zero by exact Hc48.
    change (c :: d ++ tl) with ((c :: d) ++ tl).
    rewrite strtol_digits_decimal by assumption.
    cbn [List.length Nat.add]. reflexivity.
Qed.

Lemma strtol0_octal (d : cstr) :
  Forall (fun c => is_octal c = true) d ->
  strtol0 ("0"%char :: d) = (Z.max LONG_MIN (Z.min LONG_MAX (octal_value d)), Some []).
Proof.
  intros Hd. rewrite strtol0_parts. cbn [skip_space]. change (is_space "0") with false.
  cbv iota. change (strtol_sign ("0"%char :: d)) with (false, "0"%char :: d).
  cbv iota beta. rewrite strtol_base_octal by exact Hd.
  change (strtol_digits 8 ("0"%char :: d) 0 0) with (strtol_digits 8 d 0 1).
  rewrite strtol_digits_octal by exact Hd. reflexivity.
Qed.

Lemma strtol0_no_number (c : ascii) (tl : cstr) :
  is_space c = false -> is_digit c = false -> c <> "-"%char -> c <> "+"%char ->
  strtol0 (c :: tl) = (0, None).
Proof.
  intros Hsp Hd Hm Hp. rewrite strtol0_parts. cbn [skip_space]. rewrite Hsp.
  rewrite strtol_sign_none by assumption. cbv iota beta.
  assert (Hc48 : (code c =? 48) = false).
  { apply Z.eqb_neq. intros E. unfold is_digit in Hd. rewrite E in Hd. discriminate Hd. }
  rewrite strtol_base_not_zero by exact Hc48.
  cbn [strtol_digits]. rewrite digit_value_decimal, Hd. reflexivity.
Qed.

End ParseNumFacts.

Section ParseNumLaws.

(** X22.  [parse_num] reads a number as [strtol] with base 0 does.  Decimal
    digits that do not start with 0, with or without a minus sign, give
    their value, as long as it fits an [int]; digits after a leading 0 are
    read in base 8; a byte that is no digit after the digits ends the
    process; and a text that does not start with a number is no error, it
    gives 0. *)
Theorem parse_num_reads (d : cstr) :
  number d ->
  (hd NUL d <> "0"%char -> digits_value d < 2 ^ 31 ->
   parse_num d = Done (digits_value d)
   /\ parse_num ("-"%char :: d) = Done (- digits_value d))
  /\ (Forall (fun c => is_octal c = true) d -> octal_value d < 2 ^ 31 ->
      parse_num ("0"%char :: d) = Done (octal_value d))
  /\ (forall (c : ascii) (tl : cstr),
        hd NUL d <> "0"%char -> is_digit c = false ->
        exists msg, parse_num (d ++ c :: tl) = ExitErr msg)
  /\ (forall (c : ascii) (tl : cstr),
        is_space c = false -> is_digit c = false ->
        c <> "-"%char -> c <> "+"%char ->
        parse_num (c :: tl) = Done 0).
Proof.
  intros Hnum. split; [|split; [|split]].
  - intros Hz Hv. pose proof (digits_value_nonneg (proj2 Hnum)) as H0.
    unfold parse_num. split.
    + pose proof (@strtol0_decimal false d [] Hnum Hz I) as E.
      cbn [app] in E. rewrite app_nil_r in E. rewrite E.
      unfold LONG_MIN, LONG_MAX. rewrite Z.min_r, Z.max_r by lia.
      rewrite to_int_small by lia. reflexivity.
    + pose proof (@strtol0_decimal true d [] Hnum Hz I) as E.
      cbn [app] in E. rewrite app_nil_r in E. rewrite E.
      unfold LONG_MIN, LONG_MAX. rewrite Z.min_r, Z.max_r by lia.
      rewrite to_int_small by lia. reflexivity.
  - intros Hd Hv. pose proof (octal_value_nonneg Hd) as H0.
    unfold parse_num. rewrite strtol0_octal by exact Hd.
    unfold LONG_MIN, LONG_MAX. rewrite Z.min_r, Z.max_r by lia.
    rewrite to_int_small by lia. reflexivity.
  - intros c tl Hz Hc. unfold parse_num.
    pose proof (@strtol0_decimal false d (c :: tl) Hnum Hz Hc) as E.
    cbn [app] in E. rewrite E. eexists. reflexivity.
  - intros c tl Hsp Hc Hm Hp. unfold parse_num.
    rewrite strtol0_no_number by assumption. reflexivity.
Qed.

End ParseNumLaws.

Lemma parse_num_reads_witness :
  number (cs "12")
  /\ parse_num (cs "12") = Done 12
  /\ parse_num (cs "-12") = Done (-12)
  /\ parse_num (cs "012") = Done 10
  /\ (exists msg, parse_num (cs "12bp") = ExitErr msg)
  /\ parse_num (cs "bp12") = Done 0.
Proof.
  assert (H : number (cs "12")).
  { split; [discriminate|]. repeat constructor. }
  destruct (@parse_num_reads (cs "12") H) as (H1 & H2 & H3 & H4).
  assert (Hz : hd NUL (cs "12") <> "0"%char) by discriminate.
  destruct (H1 Hz eq_refl) as [Hp Hm].
  assert (Ho : Forall (fun c => is_octal c = true) (cs "12")) by (repeat constructor).
  split; [exact H|]. split; [exact Hp|]. split; [exact Hm|].
  split; [exact (H2 Ho eq_refl)|].
  split; [exact (H3 "b"%char (cs "p") Hz eq_refl)|].
  refine (H4 "b"%char (cs "p12") eq_refl eq_refl _ _); discriminate.
Defined.


Section MainArgsFacts.

Lemma foldM_invariant {A S : Type} (P : S -> Prop) (f : S -> A -> outcome S)
    (l : list A) :
  (forall s x s', In x l -> P s -> f s x = Done s' -> P s') ->
  forall s s', P s -> foldM f l s = Done s' -> P s'.
Proof.
  induction l as [|x l IH]; intros Hf s s' Hs Hrun.
  - cbn [foldM] in Hrun. injection Hrun as <-. exact Hs.
  - cbn [foldM] in Hrun. destruct (f s x) as [s1| | |] eqn:E; try discriminate Hrun.
    cbn [bind] in Hrun. apply (IH (fun s2 y s3 Hy => Hf s2 y s3 (or_intror Hy)) s1 s').
    + apply (Hf s x s1 (or_introl eq_refl) Hs E).
    + exact Hrun.
Qed.

Variable opts : list GetOpt.

(** What the option loop keeps: a file name comes from an option of the
    command line, and the bias is the default or a converted [int]. *)
Definition cli_good (c : Cli) : Prop :=
  (forall f, vcf_file c = Some f -> In (Short "v" f) opts)
  /\ (forall f, bam_file c = Some f -> In (Short "a" f) opts)
  /\ (forall f, fa_file c = Some f -> In (Short "r" f) opts)
  /\ (cli_hetbias c = Fin (1 / 2) \/ exists n : Z, cli_hetbias c = of_int n).

Lemma cli_defaults_good : cli_good cli_defaults.
Proof.
  unfold cli_good, cli_defaults. cbn.
  repeat split; try discriminate. left. reflexivity.
Qed.

Lemma main_option_good (c c' : Cli) (o : GetOpt) :
  In o opts -> cli_good c -> main_option c o = Done c' -> cli_good c'.
Proof.
  intros Hin (Hv & Ha & Hr & Hb) Hrun. destruct o as [opt optarg|flag|].
  - cbn [main_option] in Hrun.
    destruct (Ascii.eqb opt "v" || Ascii.eqb opt "a" || Ascii.eqb opt "r"
              || Ascii.eqb opt "o") eqn:Efile.
    + injection Hrun as <-. unfold cli_good, set_file.
      cbn [vcf_file bam_file fa_file cli_hetbias].
      split; [|split; [|split]].
      * intros f. destruct (ascii_dec opt "v") as [->|_]; [|apply Hv].
        intros [= <-]. exact Hin.
      * intros f. destruct (ascii_dec opt "a") as [->|_]; [|apply Ha].
        intros [= <-]. exact Hin.
      * intros f. destruct (ascii_dec opt "r") as [->|_]; [|apply Hr].
        intros [= <-]. exact Hin.
      * exact Hb.
    + destruct (Ascii.eqb opt "t" || Ascii.eqb opt "n" || Ascii.eqb opt "b"
                || Ascii.eqb opt "m"); [|discriminate Hrun].
      destruct (parse_num optarg) as [num| | |]; try discriminate Hrun.
      cbn [bind] in Hrun. injection Hrun as <-. unfold cli_good, set_num.
      cbn [vcf_file bam_file fa_file cli_hetbias].
      split; [exact Hv|]. split; [exact Ha|]. split; [exact Hr|].
      destruct (ascii_dec opt "b"); [right; exists num; reflexivity|exact Hb].
  - cbn [main_option] in Hrun. injection Hrun as <-. unfold cli_good, set_flag.
    cbn [vcf_file bam_file fa_file cli_hetbias]. tauto.
  - discriminate Hrun.
Qed.

End MainArgsFacts.

Section MainArgsLaws.

(** X23.  When the command line is accepted, the options name the three
    input files, and the parameters of the run are in range whatever the
    options hold: at least one process, a distance limit and a maximum
    number of hypotheses that are not negative, and a bias that is 0, one
    half or 1, because the argument of [-b] is read as an [int]. *)
Theorem main_args_ranges (opts : list GetOpt) (args : Args) :
  main_args opts = Done args ->
  (exists vcf bam fa : cstr,
      In (Short "v" vcf) opts /\ In (Short "a" bam) opts /\ In (Short "r" fa) opts)
  /\ 1 <= numproc args
  /\ 0 <= distlim args
  /\ 0 <= maxh args
  /\ (hetbias args = Fin 0 \/ hetbias args = Fin (1 / 2) \/ hetbias args = Fin 1).
Proof.
  unfold main_args. intros Hrun.
  destruct (foldM main_option opts cli_defaults) as [c| | |] eqn:Ec;
    try discriminate Hrun.
  cbn [bind] in Hrun.
  assert (Hgood : cli_good opts c).
  { apply (@foldM_invariant _ _ (cli_good opts) main_option opts) with (s := cli_defaults).
    - intros s x s' Hx Hs Hstep. exact (@main_option_good opts s s' x Hx Hs Hstep).
    - apply cli_defaults_good.
    - exact Ec. }
  destruct Hgood as (Hv & Ha & Hr & Hb).
  destruct (vcf_file c) as [vcf|]; [|discriminate Hrun].
  destruct (bam_file c) as [bam|]; [|discriminate Hrun].
  destruct (fa_file c) as [fa|]; [|discriminate Hrun].
  assert (Hargs : forall a b : Args, Done a = Done b -> a = b)
    by (intros a b H; injection H as H; exact H).
  apply Hargs in Hrun. subst args. clear Hargs.
  cbv beta iota delta [numproc distlim maxh hetbias].
  split; [exists vcf, bam, fa; auto|].
  split; [destruct (Z.ltb_spec (cli_numproc c) 1); lia|].
  split; [destruct (Z.ltb_spec (cli_distlim c) 0); lia|].
  split; [destruct (Z.ltb_spec (cli_maxh c) 0); lia|].
  destruct Hb as [E|[n E]]; rewrite E.
  - right; left.
    assert (Hsame : forall (b : bool) (x : double), (if b then x else x) = x)
      by (intros []; reflexivity).
    rewrite Hsame. reflexivity.
  - rewrite hetbias_check.
    destruct (Z.leb_spec 0 n); cbn [andb]; [|right; left; reflexivity].
    destruct (Z.leb_spec n 1); [|right; left; reflexivity].
    assert (Hn : n = 0 \/ n = 1) by lia.
    destruct Hn as [-> | ->]; [left|right; right]; reflexivity.
Qed.

End MainArgsLaws.

Lemma main_args_ranges_witness :
  exists args,
    main_args [Short "v" (cs "in.vcf"); Short "a" (cs "in.bam");
               Short "r" (cs "ref.fa"); Short "b" (cs "1"); Short "t" (cs "0")]
    = Done args
    /\ 1 <= numproc args
    /\ (hetbias args = Fin 0 \/ hetbias args = Fin (1 / 2) \/ hetbias args = Fin 1).
Proof.
  assert (Hrun : exists args,
             main_args [Short "v" (cs "in.vcf"); Short "a" (cs "in.bam");
                        Short "r" (cs "ref.fa"); Short "b" (cs "1"); Short "t" (cs "0")]
             = Done args).
  { eexists. reflexivity. }
  destruct Hrun as [args Hrun]. exists args. split; [exact Hrun|].
  destruct (main_args_ranges _ Hrun) as (_ & Hn & _ & _ & Hb).
  split; [exact Hn|exact Hb].
Defined.

(* ===================================================================== *)
(** * Properties of the scanning of flags and XA tags *)
(* ===================================================================== *)

Section FlagScanning.

(** A name that [%63[^,]] reads whole: not empty, without a comma, of at
    most 63 bytes. *)
Definition flag_name (t : cstr) : Prop :=
  t <> [] /\ Forall (fun c => c <> ","%char) t /\ (List.length t <= 63)%nat.

Lemma span_not_whole (stop : ascii) (t tl : cstr) (limit : nat) :
  Forall (fun c => c <> stop) t -> (List.length t <= limit)%nat ->
  match tl with [] => True | c :: _ => c = stop end ->
  span_not stop limit (t ++ tl) = (t, tl).
Proof.
  intros Ht. revert limit; induction Ht as [|c t Hc _ IH]; intros limit Hlen Htl.
  - cbn [app]. destruct limit as [|limit]; [destruct tl; reflexivity|].
    destruct tl as [|c tl]; [reflexivity|]. cbn [span_not].
    destruct (ascii_dec c stop); [reflexivity|contradiction].
  - cbn [List.length] in Hlen. destruct limit as [|limit]; [lia|].
    cbn [app span_not]. destruct (ascii_dec c stop); [contradiction|].
    rewrite IH by (assumption || lia). reflexivity.
Qed.

Lemma parse_flags_loop_tokens (tokens : list cstr) (fuel : nat) (fl : Flags) :
  Forall flag_name tokens -> (List.length tokens <= fuel)%nat ->
  parse_flags_loop fuel (join_comma tokens) fl = fold_left flag_token tokens fl.
Proof.
  intros Hall. revert fuel fl; induction Hall as [|t ts Ht _ IH]; intros fuel fl Hfuel.
  - destruct fuel; reflexivity.
  - cbn [List.length] in Hfuel. destruct fuel as [|fuel]; [lia|].
    destruct Ht as (Hne & Hc & Hlen). destruct ts as [|t' ts].
    + cbn [join_comma fold_left parse_flags_loop].
      rewrite <- (app_nil_r t) at 1.
      rewrite (@span_not_whole ","%char t [] 63 Hc Hlen I).
      destruct t; [contradiction|reflexivity].
    + change (join_comma (t :: t' :: ts)) with (t ++ ","%char :: join_comma (t' :: ts)).
      cbn [parse_flags_loop].
      rewrite (@span_not_whole ","%char t (","%char :: join_comma (t' :: ts)) 63
                 Hc Hlen eq_refl).
      destruct t as [|c t]; [contradiction|].
      destruct (ascii_dec "," ",") as [_|E]; [|contradiction E; reflexivity].
      rewrite IH by (cbn [List.length] in *; lia). reflexivity.
Qed.

Lemma join_comma_length (tokens : list cstr) :
  Forall flag_name tokens ->
  (List.length tokens <= S (List.length (join_comma tokens)))%nat.
Proof.
  induction 1 as [|t ts Ht _ IH]; [cbn; lia|].
  destruct Ht as (Hne & _ & _). destruct t as [|c t]; [contradiction|].
  destruct ts as [|t' ts]; [cbn; lia|].
  change (join_comma ((c :: t) :: t' :: ts))
    with ((c :: t) ++ ","%char :: join_comma (t' :: ts)).
  rewrite length_app. cbn [List.length] in *. lia.
Qed.

Lemma fold_flag_token (tokens : list cstr) (fl : Flags) :
  fold_left flag_token tokens fl =
  {| is_unmap := is_unmap fl || existsb (ceqb (cs "UNMAP")) tokens;
     is_reverse := is_reverse fl || existsb (ceqb (cs "REVERSE")) tokens;
     is_secondary :=
       is_secondary fl
       || existsb (fun t => ceqb (cs "SECONDARY") t || ceqb (cs "SUPPLEMENTARY") t)
            tokens |}.
Proof.
  revert fl; induction tokens as [|t ts IH]; intros fl.
  - cbn [fold_left existsb]. rewrite !orb_false_r. destruct fl; reflexivity.
  - cbn [fold_left existsb]. rewrite IH. unfold flag_token.
    destruct (ceqb (cs "UNMAP") t) eqn:E1.
    + assert (Et : t = cs "UNMAP").
      { unfold ceqb in E1. destruct (list_eq_dec ascii_dec (cs "UNMAP") t); congruence. }
      subst t. cbn [is_unmap is_reverse is_secondary].
      change (ceqb (cs "REVERSE") (cs "UNMAP")) with false.
      change (ceqb (cs "SECONDARY") (cs "UNMAP")) with false.
      change (ceqb (cs "SUPPLEMENTARY") (cs "UNMAP")) with false.
      cbn [orb]. rewrite orb_true_r. reflexivity.
    + destruct (ceqb (cs "REVERSE") t) eqn:E2.
      * assert (Et : t = cs "REVERSE").
        { unfold ceqb in E2. destruct (list_eq_dec ascii_dec (cs "REVERSE") t); congruence. }
        subst t. cbn [is_unmap is_reverse is_secondary].
        change (ceqb (cs "SECONDARY") (cs "REVERSE")) with false.
        change (ceqb (cs "SUPPLEMENTARY") (cs "REVERSE")) with false.
        cbn [orb]. rewrite orb_true_r. reflexivity.
      * destruct (ceqb (cs "SECONDARY") t || ceqb (cs "SUPPLEMENTARY") t) eqn:E3;
          cbn [is_unmap is_reverse is_secondary orb]; [|reflexivity].
        rewrite orb_true_r. reflexivity.
Qed.

End FlagScanning.

Section FlagLaws.

(** X24.  The flags of a read are found by name: on names joined by
    commas, as [bam_flag2str] writes them, a read is unmapped when [UNMAP]
    is one of the names, reversed when [REVERSE] is one, and secondary when
    [SECONDARY] or [SUPPLEMENTARY] is one, wherever the name stands. *)
Theorem parse_flags_by_name (tokens : list cstr) :
  Forall flag_name tokens ->
  parse_flags (join_comma tokens) =
  {| is_unmap := existsb (ceqb (cs "UNMAP")) tokens;
     is_reverse := existsb (ceqb (cs "REVERSE")) tokens;
     is_secondary :=
       existsb (fun t => ceqb (cs "SECONDARY") t || ceqb (cs "SUPPLEMENTARY") t)
         tokens |}.
Proof.
  intros Hall. unfold parse_flags.
  rewrite parse_flags_loop_tokens by (exact Hall || apply join_comma_length; exact Hall).
  rewrite fold_flag_token. reflexivity.
Qed.

End FlagLaws.

Lemma parse_flags_by_name_witness :
  Forall flag_name [cs "PAIRED"; cs "REVERSE"; cs "MREVERSE"; cs "SUPPLEMENTARY"]
  /\ parse_flags (cs "PAIRED,REVERSE,MREVERSE,SUPPLEMENTARY")
     = {| is_unmap := false; is_reverse := true; is_secondary := true |}.
Proof.
  assert (H : Forall flag_name
                [cs "PAIRED"; cs "REVERSE"; cs "MREVERSE"; cs "SUPPLEMENTARY"]).
  { repeat constructor; try discriminate; cbn; lia. }
  split; [exact H|]. exact (parse_flags_by_name H).
Defined.

Section XaScanning.

(** One alignment of an XA tag: the contig, the strand, the digits of the
    position, and the rest of the entry (the CIGAR string and the edit
    distance). *)
Record XaHit : Type := {
  xa_name : cstr;
  xa_minus : bool;
  xa_digits : cstr;
  xa_rest : cstr
}.

(** The entry as BWA writes it: [chr,+pos,CIGAR,NM;]. *)
Definition xa_text (h : XaHit) : cstr :=
  xa_name h ++ ","%char :: (if xa_minus h then "-"%char else "+"%char)
  :: xa_digits h ++ ","%char :: xa_rest h ++ [";"%char].

Definition xa_signed_pos (h : XaHit) : Z :=
  if xa_minus h then - digits_value (xa_digits h) else digits_value (xa_digits h).

Definition xa_hit_ok (h : XaHit) : Prop :=
  flag_name (xa_name h) /\ number (xa_digits h)
  /\ digits_value (xa_digits h) < 2 ^ 31
  /\ xa_rest h <> [] /\ Forall (fun c => c <> ";"%char) (xa_rest h).

Lemma scan_int_signed (minus : bool) (d tl : cstr) :
  number d ->
  match tl with [] => True | c :: _ => is_digit c = false end ->
  scan_int ((if minus then "-"%char else "+"%char) :: d ++ tl)
  = Some (if minus then - digits_value d else digits_value d, tl).
Proof.
  intros [Hne Hd] Htl. unfold scan_int.
  destruct d as [|c d]; [contradiction|].
  destruct minus; cbn [skip_space].
  - change (is_space "-") with false. cbv iota.
    destruct (ascii_dec "-" "-") as [_|E]; [|contradiction E; reflexivity].
    rewrite scan_digits_until by assumption. cbn [List.length Nat.add]. reflexivity.
  - change (is_space "+") with false. cbv iota.
    destruct (ascii_dec "+" "-") as [E|_]; [discriminate E|].
    destruct (ascii_dec "+" "+") as [_|E]; [|contradiction E; reflexivity].
    rewrite scan_digits_until by assumption. cbn [List.length Nat.add]. reflexivity.
Qed.

Lemma scan_xa_hit (h : XaHit) (tl : cstr) :
  xa_hit_ok h ->
  scan_xa (xa_text h ++ tl) = Some (xa_name h, xa_signed_pos h, ";"%char :: tl).
Proof.
  intros ((Hne & Hc & Hlen) & Hnum & _ & Hrne & Hr). unfold scan_xa, xa_text.
  rewrite <- app_assoc. cbn [app].
  rewrite (@span_not_whole ","%char (xa_name h) (","%char :: _) 63 Hc Hlen eq_refl).
  destruct (xa_name h) as [|c0 nm] eqn:En; [contradiction|].
  cbn [expect]. destruct (ascii_dec "," ",") as [_|E]; [|contradiction E; reflexivity].
  rewrite <- app_assoc. cbn [app].
  rewrite (@scan_int_signed (xa_minus h) (xa_digits h) (","%char :: _) Hnum eq_refl).
  cbn [expect]. destruct (ascii_dec "," ",") as [_|E]; [|contradiction E; reflexivity].
  rewrite <- app_assoc. cbn [app].
  rewrite (@span_not_whole ";"%char (xa_rest h) (";"%char :: tl) _ Hr).
  - destruct (xa_rest h); [contradiction|reflexivity].
  - rewrite length_app. lia.
  - reflexivity.
Qed.

Lemma xa_entries_loop_hits (hits : list XaHit) (fuel : nat) :
  Forall xa_hit_ok hits -> (List.length hits <= fuel)%nat ->
  xa_entries_loop fuel (List.concat (map xa_text hits))
  = map (fun h => (xa_name h, xa_signed_pos h)) hits.
Proof.
  intros Hall. revert fuel; induction Hall as [|h hits Hh _ IH]; intros fuel Hfuel.
  - destruct fuel; reflexivity.
  - cbn [List.length] in Hfuel. destruct fuel as [|fuel]; [lia|].
    cbn [map List.concat xa_entries_loop]. rewrite (scan_xa_hit _ Hh).
    destruct (ascii_dec ";" ";") as [_|E]; [|contradiction E; reflexivity].
    rewrite IH by lia. reflexivity.
Qed.

Lemma xa_text_length (hits : list XaHit) :
  (List.length hits <= List.length (List.concat (map xa_text hits)))%nat.
Proof.
  induction hits as [|h hits IH]; [cbn; lia|].
  change (List.concat (map xa_text (h :: hits)))
    with (xa_text h ++ List.concat (map xa_text hits)).
  rewrite length_app.
  assert (H1 : (1 <= List.length (xa_text h))%nat).
  { unfold xa_text. rewrite length_app. cbn [List.length]. lia. }
  cbn [List.length]. lia.
Qed.

End XaScanning.

Section XaLaws.

(** X25.  The alternative alignments of a read are read off its XA tag in
    order: from the tag [Z] followed by entries [chr,+pos,CIGAR,NM;], each
    position a decimal number that an [int] holds, the loop takes, for every
    entry, the contig and the position with the sign of the strand. *)
Theorem xa_entries_decode (hits : list XaHit) :
  Forall xa_hit_ok hits ->
  xa_entries ("Z"%char :: List.concat (map xa_text hits))
  = map (fun h => (xa_name h, xa_signed_pos h)) hits.
Proof.
  intros Hall. unfold xa_entries. cbn [tl List.length].
  apply xa_entries_loop_hits; [exact Hall|].
  pose proof (xa_text_length hits). lia.
Qed.

End XaLaws.

Definition xa_example : list XaHit :=
  [{| xa_name := cs "chr8"; xa_minus := false;
      xa_digits := cs "42860367"; xa_rest := cs "97M3S,3" |};
   {| xa_name := cs "chr9"; xa_minus := true;
      xa_digits := cs "44165038"; xa_rest := cs "100M,4" |}].

Lemma xa_entries_decode_witness :
  Forall xa_hit_ok xa_example
  /\ xa_entries (cs "Zchr8,+42860367,97M3S,3;chr9,-44165038,100M,4;")
     = [(cs "chr8", 42860367); (cs "chr9", -44165038)].
Proof.
  assert (H : Forall xa_hit_ok xa_example).
  { repeat constructor; try discriminate; cbn; lia. }
  split; [exact H|]. exact (xa_entries_decode H).
Defined.

(* ===================================================================== *)
(** * Further properties of the Evaluator: read counts *)
(* ===================================================================== *)

Section ReadCounts.

Variables (args : Args) (files : Files).

Lemma read_update_counts (ctx : ComboCtx) (acc : ReadAcc) (readi : Z)
    (pout prgu : list double) (st : double * double * double) :
  let acc' := read_update ctx acc readi pout prgu st in
  a_ref_count acc <= a_ref_count acc'
  /\ a_alt_count acc <= a_alt_count acc'
  /\ a_ref_count acc' + a_alt_count acc' <= a_ref_count acc + a_alt_count acc + 1.
Proof.
  destruct st as [[pout_i prgu_i] prgv]. unfold read_update.
  cbv zeta. cbn [a_ref_count a_alt_count].
  match goal with |- context [if ?b && ?c then a_ref_count acc else _] =>
    destruct (b && c) end.
  - lia.
  - match goal with |- context [if ?b && ?c then a_ref_count acc + 1 else _] =>
      destruct (b && c) end; lia.
Qed.

Lemma eval_read_counts (ctx : ComboCtx) (acc acc' : ReadAcc) (ir : Z * Read) :
  eval_read args files ctx acc ir = Done acc' ->
  a_ref_count acc <= a_ref_count acc'
  /\ a_alt_count acc <= a_alt_count acc'
  /\ a_ref_count acc' + a_alt_count acc' <= a_ref_count acc + a_alt_count acc + 1.
Proof.
  destruct ir as [readi r]. unfold eval_read.
  destruct (is_unmap (parse_flags (r_flag r))); [intros [= <-]; lia|].
  destruct (pao args && is_secondary (parse_flags (r_flag r))); [intros [= <-]; lia|].
  cbv zeta.
  match goal with |- bind ?m _ = _ -> _ => destruct m as [st| | |] end;
    cbn [bind]; try discriminate.
  intros [= <-]. apply read_update_counts.
Qed.

Lemma foldM_eval_read_counts (ctx : ComboCtx) (l : list (Z * Read))
    (acc acc' : ReadAcc) :
  foldM (eval_read args files ctx) l acc = Done acc' ->
  a_ref_count acc <= a_ref_count acc'
  /\ a_alt_count acc <= a_alt_count acc'
  /\ a_ref_count acc' + a_alt_count acc'
     <= a_ref_count acc + a_alt_count acc + zlen l.
Proof.
  revert acc; induction l as [|ir l IH]; intros acc Hrun.
  - cbn [foldM] in Hrun. injection Hrun as <-. unfold zlen. cbn [List.length]. lia.
  - cbn [foldM] in Hrun.
    destruct (eval_read args files ctx acc ir) as [acc1| | |] eqn:E;
      try discriminate Hrun.
    cbn [bind] in Hrun. apply eval_read_counts in E. apply IH in Hrun.
    unfold zlen in *. cbn [List.length]. lia.
Qed.

Lemma zlen_indexed {A : Type} (l : list A) : zlen (indexed l) <= zlen l.
Proof.
  unfold indexed, zlen. rewrite length_combine. lia.
Qed.

(** A row counts no read twice. *)
Definition row_counts (n : Z) (row : ComboRow) : Prop :=
  0 <= k_ref_count row /\ 0 <= k_alt_count row
  /\ k_ref_count row + k_alt_count row <= n.

Lemma eval_combo_counts (refseq : cstr) (refseq_length : Z)
    (alt_prior het_prior : double) (read_set : list Read)
    (st st' : ComboAcc) (ic : Z * list Variant) :
  Forall (row_counts (zlen read_set)) (e_rows st) ->
  eval_combo args files refseq refseq_length alt_prior het_prior read_set st ic
  = Done st' ->
  Forall (row_counts (zlen read_set)) (e_rows st').
Proof.
  intros Hrows. destruct ic as [seti combo]. unfold eval_combo.
  destruct (construct_altseq refseq refseq_length combo) as [altseq altseq_length].
  cbv zeta.
  match goal with |- bind ?m _ = _ -> _ => destruct m as [acc| | |] eqn:E end;
    cbn [bind]; try discriminate.
  intros [= <-]. cbn [e_rows]. apply Forall_app. split; [exact Hrows|].
  constructor; [|constructor].
  apply foldM_eval_read_counts in E. cbn [a_ref_count a_alt_count] in E.
  pose proof (zlen_indexed read_set).
  unfold row_counts. cbn [k_ref_count k_alt_count]. lia.
Qed.

Lemma zmax_of_bounds (f : ComboRow -> Z) (n : Z) (rows : list ComboRow) :
  0 <= n -> Forall (fun row => f row <= n) rows -> 0 <= zmax_of f rows <= n.
Proof.
  intros Hn Hall. unfold zmax_of.
  assert (H : forall m, 0 <= m <= n ->
              0 <= fold_left (fun m row => if f row >? m then f row else m) rows m <= n).
  { induction Hall as [|row rows Hrow _ IH]; intros m Hm; [exact Hm|].
    cbn [fold_left]. apply IH.
    destruct (Z.gtb_spec (f row) m); lia. }
  apply H. lia.
Qed.

Lemma marginal_variant_within (ref : double) (n : Z) (rows : list ComboRow)
    (v : Variant) :
  0 <= n -> Forall (row_counts n) rows ->
  0 <= snd (marginal_variant ref rows v) <= n.
Proof.
  intros Hn Hall. unfold marginal_variant.
  assert (H : forall st, 0 <= snd st <= n ->
              0 <= snd (fold_left (marginal_step v) rows st) <= n).
  { induction Hall as [|row rows Hrow _ IH]; intros st Hst; [exact Hst|].
    cbn [fold_left]. apply IH. destruct st as [[has_alt not_alt] c].
    cbn [snd] in Hst. unfold marginal_step. destruct Hrow as (H1 & H2 & H3).
    destruct (negb (find_variant (k_combo row) v =? -1)); cbn [snd]; [|exact Hst].
    destruct (Z.gtb_spec (k_alt_count row) c); lia. }
  apply H. cbn [snd]. lia.
Qed.

End ReadCounts.

Section ReadCountLaws.

(** X26.  The read counts of an output line stay within the reads of the
    region: the reads that favour the variant are at most the reads
    fetched, and neither count is negative.  The total is the sum of two
    maxima that may come from different combinations, so it is bounded by
    twice the number of reads, not by the number of reads. *)
Theorem evaluate_variants_read_counts (args : Args) (files : Files)
    (var_vector : list Variant) (block : Block) :
  evaluate_variants args files var_vector = Done (Some block) ->
  let nreads := zlen (fetch_reads files (region_of var_vector)) in
  Forall (fun ln => 0 <= l_has_alt_count ln <= nreads
                    /\ 0 <= l_read_count ln <= 2 * nreads) block.
Proof.
  unfold evaluate_variants. destruct var_vector as [|first rest]; [discriminate|].
  set (var_vector := first :: rest).
  set (read_set := fetch_reads files (region_of var_vector)).
  destruct (zlen read_set =? 0); [discriminate|].
  destruct (powerset (maxh args) (zlen var_vector) 0) as [combo ncombos].
  destruct (parse_combo var_vector combo ncombos) as [var_combo| | |];
    cbn [bind]; try discriminate.
  destruct (fetch_refseq files (v_chr first)) as [f|]; [|discriminate].
  destruct (priors args (zlen var_vector) ncombos) as [alt_prior het_prior].
  match goal with |- bind ?m _ = _ -> _ => destruct m as [st| | |] eqn:E end;
    cbn [bind]; try discriminate.
  intros [= <-]. cbv zeta.
  assert (Hn : 0 <= zlen read_set) by (unfold zlen; lia).
  assert (Hrows : Forall (row_counts (zlen read_set)) (e_rows st)).
  { revert E.
    apply (@foldM_invariant _ _
             (fun s => Forall (row_counts (zlen read_set)) (e_rows s))).
    - intros s x s' _ Hs Hstep. eapply eval_combo_counts; [exact Hs|exact Hstep].
    - constructor. }
  unfold marginal_lines. apply Forall_forall. intros ln Hln.
  apply in_map_iff in Hln as (v & <- & _).
  pose proof (@marginal_variant_within (e_ref st) _ _ v Hn Hrows) as Hc.
  destruct (marginal_variant (e_ref st) (e_rows st) v) as [[has_alt not_alt] c].
  cbn [snd] in Hc. unfold print_variant. cbn [l_has_alt_count l_read_count].
  split; [exact Hc|].
  assert (H1 : 0 <= zmax_of k_ref_count (e_rows st) <= zlen read_set).
  { apply zmax_of_bounds; [exact Hn|]. eapply Forall_impl; [|exact Hrows].
    intros row (Ha & Hb & Hc'). lia. }
  assert (H2 : 0 <= zmax_of k_alt_count (e_rows st) <= zlen read_set).
  { apply zmax_of_bounds; [exact Hn|]. eapply Forall_impl; [|exact Hrows].
    intros row (Ha & Hb & Hc'). lia. }
  lia.
Qed.

End ReadCountLaws.

Lemma evaluate_variants_read_counts_witness :
  exists block,
    evaluate_variants default_args files_read_g [snv "chr1" 100 "A" "G"]
    = Done (Some block)
    /\ Forall (fun ln => 0 <= l_has_alt_count ln <= 1
                         /\ 0 <= l_read_count ln <= 2) block.
Proof.
  destruct (@evaluate_read_g default_args [snv "chr1" 100 "A" "G"]
              [[snv "chr1" 100 "A" "G"]])
    as (ref & rows & Hblock); [discriminate|reflexivity|reflexivity|].
  eexists. split; [exact Hblock|].
  exact (@evaluate_variants_read_counts _ _ _ _ Hblock).
Defined.

(* ===================================================================== *)
(** * Further properties of the Evaluator: primary alignments only *)
(* ===================================================================== *)

Section PrimaryOnly.

(** A read without its XA tag, and a BAM file read without the XA tags. *)
Definition without_xa (r : Read) : Read :=
  {| r_name := r_name r; r_tid := r_tid r; r_chr := r_chr r; r_pos := r_pos r;
     r_length := r_length r; r_qseq := r_qseq r; r_qual := r_qual r;
     r_flag := r_flag r; r_inferred_length := r_inferred_length r;
     r_multimap := None |}.

Definition files_without_xa (files : Files) : Files :=
  {| fetch_reads := fun region => map without_xa (fetch_reads files region);
     fetch_refseq := fetch_refseq files;
     qsort_results := qsort_results files |}.

Lemma foldM_ext_in {A S : Type} (f g : S -> A -> outcome S) (l : list A) (s : S) :
  (forall s x, In x l -> f s x = g s x) -> foldM f l s = foldM g l s.
Proof.
  revert s; induction l as [|x l IH]; intros s H; [reflexivity|].
  cbn [foldM]. rewrite (H s x (or_introl eq_refl)).
  destruct (g s x) as [s1| | |]; cbn [bind]; try reflexivity.
  apply IH. intros s2 y Hy. apply H. right. exact Hy.
Qed.

Lemma foldM_map {A B S : Type} (f : S -> B -> outcome S) (g : A -> B)
    (l : list A) (s : S) :
  foldM f (map g l) s = foldM (fun s x => f s (g x)) l s.
Proof.
  revert s; induction l as [|x l IH]; intros s; [reflexivity|].
  cbn [map foldM]. destruct (f s (g x)) as [s1| | |]; cbn [bind]; try reflexivity.
  apply IH.
Qed.

Lemma indexed_map {A B : Type} (g : A -> B) (l : list A) :
  indexed (map g l) = map (fun ix => (fst ix, g (snd ix))) (indexed l).
Proof.
  unfold indexed, zlen. rewrite length_map.
  generalize (zrange 0 (Z.of_nat (List.length l))). intros idx.
  revert idx; induction l as [|x l IH]; intros [|i idx]; try reflexivity.
  cbn [map combine fst snd]. rewrite IH. reflexivity.
Qed.

Variables (args : Args) (files : Files).

Hypothesis primary_only : pao args = true.

Lemma eval_read_without_xa (ctx : ComboCtx) (acc : ReadAcc) (readi : Z) (r : Read) :
  eval_read args (files_without_xa files) ctx acc (readi, without_xa r)
  = eval_read args files ctx acc (readi, r).
Proof.
  unfold eval_read, read_xa. rewrite primary_only. cbn [negb].
  cbn [without_xa r_flag r_multimap].
  destruct (r_multimap r); reflexivity.
Qed.

Lemma eval_combo_without_xa (refseq : cstr) (refseq_length : Z)
    (alt_prior het_prior : double) (read_set : list Read) (st : ComboAcc)
    (ic : Z * list Variant) :
  eval_combo args (files_without_xa files) refseq refseq_length alt_prior het_prior
    (map without_xa read_set) st ic
  = eval_combo args files refseq refseq_length alt_prior het_prior read_set st ic.
Proof.
  destruct ic as [seti combo]. unfold eval_combo.
  destruct (construct_altseq refseq refseq_length combo) as [altseq altseq_length].
  rewrite indexed_map, foldM_map.
  match goal with |- bind (foldM ?f ?l ?s) _ = bind (foldM ?g _ _) _ =>
    rewrite (@foldM_ext_in _ _ f g l s) end; [reflexivity|].
  intros s [readi r] _. cbn [fst snd]. apply eval_read_without_xa.
Qed.

End PrimaryOnly.

Section PrimaryOnlyLaws.

(** X27.  With [--pao] the XA tags play no part: the evaluation of a set
    is the same when the reads come without their XA tags, so no
    alternative alignment is scored and no contig is looked up for one. *)
Theorem pao_ignores_xa (args : Args) (files : Files) (var_vector : list Variant) :
  pao args = true ->
  evaluate_variants args (files_without_xa files) var_vector
  = evaluate_variants args files var_vector.
Proof.
  intros Hpao. unfold evaluate_variants.
  destruct var_vector as [|first rest]; [reflexivity|].
  cbn [fetch_reads fetch_refseq files_without_xa].
  assert (Hlen : forall l : list Read, zlen (map without_xa l) = zlen l).
  { intros l. unfold zlen. rewrite length_map. reflexivity. }
  rewrite Hlen.
  destruct (zlen (fetch_reads files (region_of (first :: rest))) =? 0); [reflexivity|].
  destruct (powerset _ _ _) as [combo ncombos].
  destruct (parse_combo _ _ _) as [var_combo| | |]; cbn [bind]; try reflexivity.
  destruct (fetch_refseq files (v_chr first)) as [f|]; [|reflexivity].
  destruct (priors _ _ _) as [alt_prior het_prior].
  match goal with |- bind (foldM ?f ?l ?s) _ = bind (foldM ?g _ _) _ =>
    rewrite (@foldM_ext_in _ _ f g l s) end; [reflexivity|].
  intros s ic _. apply eval_combo_without_xa. exact Hpao.
Qed.

End PrimaryOnlyLaws.

(* ===================================================================== *)
(** * Further properties of the Evaluator: contigs that the reference lacks *)
(* ===================================================================== *)

Lemma foldM_exits {A S : Type} (f : S -> A -> outcome S) (l : list A) :
  (forall s x, In x l ->
     (exists s', f s x = Done s') \/ (exists msg, f s x = ExitErr msg)) ->
  (exists x, In x l /\ forall s, exists msg, f s x = ExitErr msg) ->
  forall s, exists msg, foldM f l s = ExitErr msg.
Proof.
  induction l as [|y l IH]; intros Hall (x & Hin & Hx) s; [contradiction|].
  cbn [foldM]. destruct Hin as [->|Hin].
  - destruct (Hx s) as [msg E]. rewrite E. cbn [bind]. eauto.
  - destruct (Hall s y (or_introl eq_refl)) as [[s' E]|[msg E]];
      rewrite E; cbn [bind]; [|eauto].
    apply IH.
    + intros s2 z Hz. apply Hall. right. exact Hz.
    + exists x. split; assumption.
Qed.

(** A loop that is left through [exit_err]. *)
Ltac exits_in_loop :=
  match goal with
  | |- exists _, bind (foldM ?f ?l ?s) _ = _ =>
      let H := fresh "H" in
      let msg := fresh "msg" in
      let E := fresh "E" in
      assert (H : exists msg, foldM f l s = ExitErr msg);
      [apply foldM_exits
      |destruct H as [msg E]; rewrite E; cbn [bind]; eauto]
  end.

Section MissingContig.

Variables (args : Args) (files : Files).

Lemma in_indexed_index {A : Type} (l : list A) (x : A) :
  In x l -> exists i, In (i, x) (indexed l).
Proof.
  unfold indexed, zrange, zlen. rewrite Nat2Z.id.
  generalize 0%nat as lo. induction l as [|y l IH]; intros lo Hin; [contradiction|].
  cbn [List.length seq map combine]. destruct Hin as [->|Hin].
  - eexists. left. reflexivity.
  - destruct (IH (S lo) Hin) as [i Hi]. exists i. right. exact Hi.
Qed.

Lemma xa_step_outcome (ctx : ComboCtx) (r : Read) (fl : Flags)
    (readprobmatrix is_match no_match : list double) (elsewhere : double)
    (st : double * double * double) (entry : cstr * Z) :
  (exists st', xa_step files ctx r fl readprobmatrix is_match no_match elsewhere
                 st entry = Done st')
  \/ (exists msg, xa_step files ctx r fl readprobmatrix is_match no_match elsewhere
                    st entry = ExitErr msg).
Proof.
  unfold xa_step. destruct st as [[pout prgu] prgv]. destruct entry as [xa_chr xa_pos].
  destruct (fetch_refseq files (string_of_list_ascii xa_chr)); eauto.
Qed.

Lemma eval_read_outcome (ctx : ComboCtx) (acc : ReadAcc) (ir : Z * Read) :
  (exists acc', eval_read args files ctx acc ir = Done acc')
  \/ (exists msg, eval_read args files ctx acc ir = ExitErr msg).
Proof.
  destruct ir as [readi r]. unfold eval_read.
  destruct (is_unmap _); [eauto|].
  destruct (pao args && _); [eauto|]. cbv zeta.
  match goal with |- (exists _, bind ?m _ = _) \/ _ =>
    assert (H : (exists st, m = Done st) \/ (exists msg, m = ExitErr msg)) end.
  { unfold read_xa. destruct (r_multimap r) as [multimap|]; [|eauto].
    destruct (negb (pao args)); [|eauto].
    generalize (xa_entries multimap). intros entries.
    match goal with |- (exists _, foldM ?f _ ?s = _) \/ _ => generalize s end.
    induction entries as [|e entries IH]; intros s; [cbn [foldM]; eauto|].
    cbn [foldM].
    match goal with |- (exists _, bind ?m _ = _) \/ _ =>
      destruct (xa_step_outcome ctx r (parse_flags (r_flag r))
                  (set_prob_matrix (r_qseq r) (r_length r) (read_is_match r)
                     (read_no_match r))
                  (read_is_match r) (read_no_match r)
                  (if c_seti ctx =? 0
                   then read_elsewhere r (read_is_match r) (read_no_match r)
                   else Fin 0) s e) as [[s' E]|[msg E]] end;
      rewrite E; cbn [bind]; [apply IH|eauto]. }
  destruct H as [[st E]|[msg E]]; rewrite E; cbn [bind]; eauto.
Qed.

(** A read that is not skipped and whose XA tag names a contig that the
    reference lacks. *)
Definition stray_read (r : Read) : Prop :=
  is_unmap (parse_flags (r_flag r)) = false
  /\ exists multimap xa_chr xa_pos,
       r_multimap r = Some multimap
       /\ In (xa_chr, xa_pos) (xa_entries multimap)
       /\ fetch_refseq files (string_of_list_ascii xa_chr) = None.

Hypothesis all_alignments : pao args = false.

Lemma eval_read_stray (ctx : ComboCtx) (acc : ReadAcc) (readi : Z) (r : Read) :
  stray_read r -> exists msg, eval_read args files ctx acc (readi, r) = ExitErr msg.
Proof.
  intros (Hmap & multimap & xa_chr & xa_pos & Htag & Hin & Hnone).
  unfold eval_read. rewrite Hmap, all_alignments. cbn [andb]. cbv zeta.
  unfold read_xa. rewrite Htag, all_alignments. cbn [negb].
  exits_in_loop.
  - intros s x _. apply xa_step_outcome.
  - exists (xa_chr, xa_pos). split; [exact Hin|].
    intros [[pout prgu] prgv]. unfold xa_step. rewrite Hnone. eauto.
Qed.

Lemma eval_combo_stray (refseq : cstr) (refseq_length : Z)
    (alt_prior het_prior : double) (read_set : list Read) (st : ComboAcc)
    (ic : Z * list Variant) :
  Exists stray_read read_set ->
  exists msg, eval_combo args files refseq refseq_length alt_prior het_prior
                read_set st ic = ExitErr msg.
Proof.
  intros Hex. apply Exists_exists in Hex as (r & Hin & Hr).
  destruct ic as [seti combo]. unfold eval_combo.
  destruct (construct_altseq refseq refseq_length combo) as [altseq altseq_length].
  destruct (in_indexed_index _ _ Hin) as [readi Hi].
  exits_in_loop.
  - intros s x _. apply eval_read_outcome.
  - exists (readi, r). split; [exact Hi|]. intros s. apply eval_read_stray. exact Hr.
Qed.

End MissingContig.

Section MissingContigLaws.

Variables (args : Args) (files : Files).

(** X28.  A set on a contig that the reference lacks ends the process
    when its region has reads, and only then: without reads the set is
    left out before the reference is looked at. *)
Theorem evaluate_variants_missing_contig (var_vector : list Variant) :
  var_vector <> [] -> zlen var_vector <= 118 ->
  fetch_refseq files (v_chr (hd (snv "" 0 "" "") var_vector)) = None ->
  evaluate_variants args files var_vector
  = if has_reads files var_vector
    then ExitErr "failed to find sequence in reference"
    else Done None.
Proof.
  intros Hne Hsmall Hnone. unfold evaluate_variants, has_reads.
  destruct var_vector as [|first rest] eqn:Ev; [contradiction|]. rewrite <- Ev in *.
  destruct (zlen (fetch_reads files (region_of var_vector)) =? 0); [reflexivity|].
  cbn [negb].
  pose proof (@parse_combo_powerset (maxh args) var_vector Hne Hsmall) as Hparse.
  destruct (powerset (maxh args) (zlen var_vector) 0) as [combo ncombos].
  cbn [fst snd] in Hparse. rewrite Hparse. cbn [bind].
  rewrite Ev in Hnone. cbn [hd] in Hnone. rewrite Hnone. reflexivity.
Qed.

(** X29.  Without [--pao], a read that is not unmapped and whose XA tag
    names a contig that the reference lacks ends the process, although the
    contig of the set is there. *)
Theorem evaluate_variants_stray_xa (var_vector : list Variant) (f : Fasta) :
  pao args = false ->
  var_vector <> [] -> zlen var_vector <= 118 ->
  fetch_refseq files (v_chr (hd (snv "" 0 "" "") var_vector)) = Some f ->
  Exists (stray_read files) (fetch_reads files (region_of var_vector)) ->
  exists msg, evaluate_variants args files var_vector = ExitErr msg.
Proof.
  intros Hpao Hne Hsmall Hf Hex. unfold evaluate_variants.
  destruct var_vector as [|first rest] eqn:Ev; [contradiction|]. rewrite <- Ev in *.
  destruct (zlen (fetch_reads files (region_of var_vector)) =? 0) eqn:Ez.
  { apply Z.eqb_eq in Ez. unfold zlen in Ez.
    destruct (fetch_reads files (region_of var_vector)); [|discriminate Ez].
    inversion Hex. }
  pose proof (@parse_combo_powerset (maxh args) var_vector Hne Hsmall) as Hparse.
  destruct (powerset (maxh args) (zlen var_vector) 0) as [combo ncombos].
  cbn [fst snd] in Hparse. rewrite Hparse. cbn [bind].
  rewrite Ev in Hf. cbn [hd] in Hf. rewrite Hf.
  destruct (priors args (zlen var_vector) ncombos) as [alt_prior het_prior].
  assert (Hrows : exists c l, spec_powerset (maxh args) (List.length var_vector) = c :: l).
  { unfold spec_powerset.
    destruct (@spec_combinations_first (List.length var_vector) 1 0) as [l Hl].
    - rewrite Ev. cbn [List.length]. lia.
    - rewrite Hl. cbn [app]. eauto. }
  destruct Hrows as (c & l & Hrows). rewrite Hrows. cbn [map].
  destruct (@in_indexed_index _ (select var_vector c :: map (select var_vector) l)
              (select var_vector c) (or_introl eq_refl)) as [seti Hseti].
  exits_in_loop.
  - intros s x _. right. apply eval_combo_stray; assumption.
  - exists (seti, select var_vector c). split; [exact Hseti|].
    intros s. apply eval_combo_stray; assumption.
Qed.

End MissingContigLaws.

(** [read_g] with an XA tag that names a contig outside of the reference. *)
Definition read_stray : Read :=
  {| r_name := "r1"; r_tid := 0; r_chr := "chr1"; r_pos := 99; r_length := 1;
     r_qseq := cs "G"; r_qual := [Fin (-3)]; r_flag := cs "";
     r_inferred_length := 1; r_multimap := Some (cs "ZchrUn,+5,1M,0;") |}.

Definition files_stray : Files :=
  {| fetch_reads := fun _ => [read_stray]; fetch_refseq := one_contig;
     qsort_results := fun results => results |}.

Lemma pao_ignores_xa_witness :
  pao pao_args = true
  /\ evaluate_variants pao_args (files_without_xa files_stray) [snv "chr1" 100 "A" "G"]
     = evaluate_variants pao_args files_stray [snv "chr1" 100 "A" "G"].
Proof.
  split; [reflexivity|].
  exact (@pao_ignores_xa pao_args files_stray [snv "chr1" 100 "A" "G"] eq_refl).
Defined.

Lemma evaluate_variants_missing_contig_witness :
  [snv "chr2" 100 "A" "G"] <> []
  /\ zlen [snv "chr2" 100 "A" "G"] <= 118
  /\ fetch_refseq files_read_g "chr2" = None
  /\ evaluate_variants default_args files_read_g [snv "chr2" 100 "A" "G"]
     = ExitErr "failed to find sequence in reference"
  /\ evaluate_variants default_args files_no_reads [snv "chr2" 100 "A" "G"]
     = Done None.
Proof.
  assert (H1 : [snv "chr2" 100 "A" "G"] <> []) by discriminate.
  assert (H2 : zlen [snv "chr2" 100 "A" "G"] <= 118) by (vm_compute; discriminate).
  split; [exact H1|]. split; [exact H2|]. split; [reflexivity|]. split.
  - exact (@evaluate_variants_missing_contig default_args files_read_g
             [snv "chr2" 100 "A" "G"] H1 H2 eq_refl).
  - exact (@evaluate_variants_missing_contig default_args files_no_reads
             [snv "chr2" 100 "A" "G"] H1 H2 eq_refl).
Defined.

Lemma evaluate_variants_stray_xa_witness :
  pao default_args = false
  /\ Exists (stray_read files_stray)
       (fetch_reads files_stray (region_of [snv "chr1" 100 "A" "G"]))
  /\ exists msg,
       evaluate_variants default_args files_stray [snv "chr1" 100 "A" "G"]
       = ExitErr msg.
Proof.
  assert (H1 : [snv "chr1" 100 "A" "G"] <> []) by discriminate.
  assert (H2 : zlen [snv "chr1" 100 "A" "G"] <= 118) by (vm_compute; discriminate).
  assert (H3 : Exists (stray_read files_stray)
                 (fetch_reads files_stray (region_of [snv "chr1" 100 "A" "G"]))).
  { apply Exists_cons_hd. split; [reflexivity|].
    exists (cs "ZchrUn,+5,1M,0;"), (cs "chrUn"), 5.
    split; [reflexivity|]. split; [left; reflexivity|reflexivity]. }
  split; [reflexivity|]. split; [exact H3|].
  exact (@evaluate_variants_stray_xa default_args files_stray
           [snv "chr1" 100 "A" "G"] poly_a eq_refl H1 H2 eq_refl H3).
Defined.

(* ===================================================================== *)
(** * Further properties of the Grouper: variants at one position *)
(* ===================================================================== *)

Section SamePosition.

Variable dlim : Z.

Lemma take_set_all (prev : Variant) (rest : list Variant) :
  chain (joins dlim) (prev :: rest) -> take_set dlim prev rest = (rest, []).
Proof.
  revert prev; induction rest as [|v rest IH]; intros prev H; [reflexivity|].
  destruct H as [Hj Htl]. cbn [take_set].
  apply take_set_test in Hj. rewrite Hj, (IH v Htl). reflexivity.
Qed.

Lemma group_sets_one_set (v : Variant) (rest : list Variant) :
  chain (joins dlim) (v :: rest) -> group_sets dlim (v :: rest) = [v :: rest].
Proof.
  intros H. simp group_sets. rewrite (take_set_all _ _ H). cbn [fst snd].
  simp group_sets. reflexivity.
Qed.

Lemma split_loop_more (capacity : Z) (var_set var_set' : list (list Variant)) :
  split_pass capacity var_set = Done (var_set', true) ->
  split_loop capacity var_set = split_loop capacity var_set'.
Proof.
  funelim (split_loop capacity var_set); intros Hp; congruence.
Qed.

Lemma split_loop_overflow (capacity : Z) (var_set : list (list Variant)) :
  split_pass capacity var_set = Undefined ->
  split_loop capacity var_set = Undefined.
Proof.
  funelim (split_loop capacity var_set); intros Hp; congruence.
Qed.

(** Two variants of one locus: the same chromosome and the same
    position. *)
Definition same_locus (u w : Variant) : Prop :=
  v_chr w = v_chr u /\ v_pos w = v_pos u.

Lemma same_locus_joins (u w : Variant) :
  0 < dlim -> same_locus u w -> joins dlim u w.
Proof.
  intros Hd [Hc Hp]. unfold joins. rewrite Hp. split; [exact Hd|].
  split; [exact Hc|]. lia.
Qed.

End SamePosition.

Section SamePositionLaws.

(** X30.  Variants of one locus are taken apart pair by pair, and a set
    is copied for every pair it holds.  Three variants of one locus leave
    four sets, the last variant alone in two of them; with five variants of
    one locus and no other variant, the splitting stores a set past the end
    of the array of sets, which has room for twice as many sets as there
    are variants. *)
Theorem split_same_position (dlim : Z) (a b c d e : Variant) :
  0 < dlim ->
  same_locus a b -> same_locus a c -> same_locus a d -> same_locus a e ->
  hypothesis_sets dlim [a; b; c] = Done [[c]; [c]; [b]; [a]]
  /\ hypothesis_sets dlim [a; b; c; d; e] = Undefined.
Proof.
  intros Hd Hb Hc Hd' He.
  assert (Hpos : forall v, In v [b; c; d; e] -> v_pos v = v_pos a).
  { intros v [<-|[<-|[<-|[<-|[]]]]]; [apply Hb|apply Hc|apply Hd'|apply He]. }
  assert (Pb := Hpos b ltac:(cbn; auto)). assert (Pc := Hpos c ltac:(cbn; auto)).
  assert (Pd := Hpos d ltac:(cbn; auto)). assert (Pe := Hpos e ltac:(cbn; auto)).
  assert (J : forall u w, same_locus a u -> same_locus a w -> joins dlim u w).
  { intros u w [Hu1 Hu2] [Hw1 Hw2]. apply same_locus_joins; [exact Hd|].
    split; congruence. }
  assert (Ha : same_locus a a) by (split; reflexivity).
  unfold hypothesis_sets. split.
  - rewrite group_sets_one_set by (cbn [chain]; auto 10).
    erewrite split_loop_more.
    2:{ unfold split_pass.
        repeat (cbn [map split_scan app fst snd List.concat];
                rewrite ?Pb, ?Pc, ?Z.eqb_refl).
        reflexivity. }
    erewrite split_loop_more.
    2:{ unfold split_pass.
        repeat (cbn [map split_scan app fst snd List.concat];
                rewrite ?Pb, ?Pc, ?Z.eqb_refl).
        reflexivity. }
    apply split_loop_last. reflexivity.
  - rewrite group_sets_one_set by (cbn [chain]; auto 10).
    erewrite split_loop_more.
    2:{ unfold split_pass.
        repeat (cbn [map split_scan app fst snd List.concat];
                rewrite ?Pb, ?Pc, ?Pd, ?Pe, ?Z.eqb_refl).
        reflexivity. }
    erewrite split_loop_more.
    2:{ unfold split_pass.
        repeat (cbn [map split_scan app fst snd List.concat];
                rewrite ?Pb, ?Pc, ?Pd, ?Pe, ?Z.eqb_refl).
        reflexivity. }
    apply split_loop_overflow.
    unfold split_pass.
    repeat (cbn [map split_scan app fst snd List.concat];
            rewrite ?Pb, ?Pc, ?Pd, ?Pe, ?Z.eqb_refl).
    reflexivity.
Qed.

End SamePositionLaws.

Lemma split_same_position_witness :
  0 < 10
  /\ hypothesis_sets 10
       [snv "chr1" 100 "A" "C"; snv "chr1" 100 "A" "G"; snv "chr1" 100 "A" "T"]
     = Done [[snv "chr1" 100 "A" "T"]; [snv "chr1" 100 "A" "T"];
             [snv "chr1" 100 "A" "G"]; [snv "chr1" 100 "A" "C"]]
  /\ hypothesis_sets 10
       [snv "chr1" 100 "A" "C"; snv "chr1" 100 "A" "G"; snv "chr1" 100 "A" "T";
        snv "chr1" 100 "A" "AC"; snv "chr1" 100 "A" "AG"]
     = Undefined.
Proof.
  split; [reflexivity|].
  apply (@split_same_position 10 (snv "chr1" 100 "A" "C") (snv "chr1" 100 "A" "G")
           (snv "chr1" 100 "A" "T") (snv "chr1" 100 "A" "AC")
           (snv "chr1" 100 "A" "AG"));
    [reflexivity|split; reflexivity..].
Defined.
